(** * pg::lex -- a shallow embedding of [src/lex.h] and its verified properties

    The development follows the header top-down: data model, item scanner,
    bracket sets, single-unit matcher, balanced scan, quantifier expanders,
    capture store, the backtracking core, and the three drivers (search,
    iteration, substitution).

    Conventions of the embedding.
    - A code unit is the [Z] value of its unsigned representation.
    - A pointer into the subject or the pattern is the [Z] offset from the first
      unit of the underlying storage; [nullptr] results are [None].
    - The storage behind a view is terminated: the unit found at the
      one-past-the-end offset is [0] (as for [std::basic_string] and C strings).
      The pattern code relies on this everywhere it inspects the unit after
      an item.  Reading a pattern unit beyond the terminator has no defined
      result and is the outcome [Undefined].
    - Exceptions are the outcome [Throw]; the state at the throw is kept.
    - Signed arithmetic ([int] levels and counters, [long] lengths,
      pointer differences) is plain [Z]: levels are at most 32 and the
      other values are bounded by the subject length, which is taken to
      fit the signed types, signed overflow having no defined result in
      the source.  The one conversion that wraps, a negative [long] to
      [size_t] in [match_capture], is written out in [to_size_t].
    - [reads] records the subject offsets the matcher dereferences
      directly; the units compared by [memcmp] lie inside the subject by
      the length test that precedes it and are not recorded. *)

From Stdlib Require Import ZArith List Bool Lia String Ascii.
From stdpp Require Import base list.
Import ListNotations.
Local Open Scope Z_scope.

(** ** Code units *)

Definition chr (a : ascii) : Z := Z.of_N (N_of_ascii a).

Fixpoint units (s : string) : list Z :=
  match s with
  | EmptyString => []
  | String a s' => chr a :: units s'
  end.

(** [unit_at l i] is [*(begin + i)] for the view [l]: inside the view the
    stored unit, at the one-past-the-end offset the terminator. *)
Definition unit_at (l : list Z) (i : Z) : Z :=
  if i <? 0 then 0 else nth (Z.to_nat i) l 0.

(** ** Limits (lines 35-43) *)

Definition MAXCCALLS : Z := 200.
Definition MAXCAPTURES : Z := 32.

(** ** Errors (lines 101-114) *)

Inductive error_type : Type :=
| pattern_too_complex
| pattern_ends_with_percent
| pattern_missing_closing_bracket
| balanced_no_arguments
| frontier_no_open_bracket
| capture_too_many
| capture_invalid_pattern
| capture_invalid_index
| capture_not_finished
| capture_out_of_range
| percent_invalid_use_in_replacement.

(** The ways a call can end: a normal return, a [lex_error], a read beyond
    the terminator of the pattern, or exhaustion of the recursion fuel of
    the embedding (shown below never to happen for the fuel the entry
    points supply). *)
Inductive result (A : Type) : Type :=
| Ok (a : A)
| Throw (e : error_type)
| Undefined
| OutOfFuel.
Arguments Ok {A} a.
Arguments Throw {A} e.
Arguments Undefined {A}.
Arguments OutOfFuel {A}.

(** ** Captures and match results (lines 75-86, 133-237) *)

Definition unfinished : Z := -1.
Definition position : Z := -2.

Record capture : Type := { init : option Z; len : Z }.

Definition default_capture : capture := {| init := None; len := unfinished |}.

Record basic_match_result : Type :=
  { pos : Z * Z;
    level : Z;
    captures : list capture }.

Definition empty_match_result : basic_match_result :=
  {| pos := (-1, -1);
     level := 0;
     captures := replicate (Z.to_nat MAXCAPTURES) default_capture |}.

(** [size()] and [operator bool] *)
Definition size (r : basic_match_result) : Z := level r.
Definition to_bool (r : basic_match_result) : bool := 0 <? level r.

Definition get_cap (caps : list capture) (i : Z) : capture :=
  match caps !! Z.to_nat i with
  | Some c => c
  | None => default_capture
  end.

(** [at(i)] *)
Definition at_ (r : basic_match_result) (i : Z) : result (option Z * Z) :=
  if level r <=? i then Throw capture_out_of_range
  else let cap := get_cap (captures r) i in
       Ok (init cap, Z.max (len cap) 0).

Definition length_ (r : basic_match_result) : Z := snd (pos r) - fst (pos r).

(** ** Match state (lines 252-290)

    [level], [captures] and [pos] of the state are references into the
    match result [mr]; the embedding keeps the result inside the state, so
    a write through the state is a write to the result.  [reads] is a ghost
    field: the subject offsets dereferenced so far, latest first. *)

Record match_state : Type :=
  { mr : basic_match_result;
    matchdepth : Z;
    reads : list Z }.

Definition ms_level (ms : match_state) : Z := level (mr ms).
Definition ms_captures (ms : match_state) : list capture := captures (mr ms).

Definition set_level (ms : match_state) (l : Z) : match_state :=
  {| mr := {| pos := pos (mr ms); level := l; captures := captures (mr ms) |};
     matchdepth := matchdepth ms; reads := reads ms |}.

Definition set_pos (ms : match_state) (p : Z * Z) : match_state :=
  {| mr := {| pos := p; level := level (mr ms); captures := captures (mr ms) |};
     matchdepth := matchdepth ms; reads := reads ms |}.

Definition set_captures (ms : match_state) (c : list capture) : match_state :=
  {| mr := {| pos := pos (mr ms); level := level (mr ms); captures := c |};
     matchdepth := matchdepth ms; reads := reads ms |}.

Definition set_matchdepth (ms : match_state) (d : Z) : match_state :=
  {| mr := mr ms; matchdepth := d; reads := reads ms |}.

Definition log_read (ms : match_state) (s : Z) : match_state :=
  {| mr := mr ms; matchdepth := matchdepth ms; reads := s :: reads ms |}.

(** [ms.captures[i].init = v] and [ms.captures[i].len = v] *)
Definition set_cap_init (ms : match_state) (i : Z) (v : option Z) : match_state :=
  set_captures ms
    (<[Z.to_nat i := {| init := v; len := len (get_cap (ms_captures ms) i) |}]>
       (ms_captures ms)).

Definition set_cap_len (ms : match_state) (i : Z) (v : Z) : match_state :=
  set_captures ms
    (<[Z.to_nat i := {| init := init (get_cap (ms_captures ms) i); len := v |}]>
       (ms_captures ms)).

(** [match_state::match_state]: binds the references and calls
    [reprepstate]; [matchdepth] starts at [MAXCCALLS]. *)
Definition reprepstate (ms : match_state) : match_state :=
  set_pos (set_level ms 0) (-1, -1).

Definition new_match_state (r : basic_match_result) : match_state :=
  reprepstate {| mr := r; matchdepth := MAXCCALLS; reads := [] |}.

(** [check_captures]: [std::any_of] over the first [level] slots. *)
Definition has_unfinished (ms : match_state) : bool :=
  existsb (fun c => len c =? unfinished)
          (take (Z.to_nat (ms_level ms)) (ms_captures ms)).

Definition check_captures (ms : match_state) : result unit :=
  if has_unfinished ms then Throw capture_not_finished else Ok tt.

(** ** The recursion-depth sentinel (declared at lines 88-95) *)

(** Modelled from the spec: the constructor and destructor of
    [matchdepth_sentinel], which [lex.h] only declares.  The counter starts
    at [MAXCCALLS] (line 285); an entry takes one unit of that budget and
    the scope exit gives it back on every exit path; an entry that would
    exceed [MAXCCALLS] nested entries signals [pattern_too_complex]. *)
Definition sentinel_enter (counter : Z) : result Z :=
  if counter <=? 0 then Throw pattern_too_complex else Ok (counter - 1).

Definition sentinel_exit (counter : Z) : Z := counter + 1.

(** ** Character classes (declared at line 296) *)

Definition in_range (lo hi c : Z) : bool := (lo <=? c) && (c <=? hi).

Definition isupper (c : Z) : bool := in_range 65 90 c.
Definition islower (c : Z) : bool := in_range 97 122 c.
Definition isalpha (c : Z) : bool := isupper c || islower c.
Definition isdigit (c : Z) : bool := in_range 48 57 c.
Definition isalnum (c : Z) : bool := isalpha c || isdigit c.
Definition isspace (c : Z) : bool := in_range 9 13 c || (c =? 32).
Definition iscntrl (c : Z) : bool := in_range 0 31 c || (c =? 127).
Definition ispunct (c : Z) : bool :=
  in_range 33 47 c || in_range 58 64 c || in_range 91 96 c || in_range 123 126 c.
Definition isxdigit (c : Z) : bool :=
  isdigit c || in_range 65 70 c || in_range 97 102 c.
Definition tolower (c : Z) : Z := if isupper c then c + 32 else c.

(** Modelled from the spec: [match_class], which [lex.h] only declares.
    Section 4.1: the classes are alphabetic, digit, lowercase, uppercase,
    punctuation, control, space, alnum and hex-digit, read from a fixed
    0-255 table (here the one of the C locale); an uppercase selector
    negates the class of its lowercase letter; any other selector matches
    only the identical unit. *)
Definition spec_match_class (c cl : Z) : bool :=
  let sel := tolower cl in
  let known (res : bool) := if isupper cl then negb res else res in
  if sel =? chr "a" then known (isalpha c)
  else if sel =? chr "d" then known (isdigit c)
  else if sel =? chr "l" then known (islower c)
  else if sel =? chr "u" then known (isupper c)
  else if sel =? chr "p" then known (ispunct c)
  else if sel =? chr "c" then known (iscntrl c)
  else if sel =? chr "s" then known (isspace c)
  else if sel =? chr "w" then known (isalnum c)
  else if sel =? chr "x" then known (isxdigit c)
  else cl =? c.

(** ** The matcher *)

Section Matcher.

(** [match_class] is defined outside the header; the matcher is developed
    for an arbitrary classification function. *)
Variable match_class : Z -> Z -> bool.

(** The subject view [s_begin, s_end) and the storage of the pattern. *)
Variable subject : list Z.
Variable pattern : list Z.

Definition s_begin : Z := 0.
Definition s_end : Z := Z.of_nat (length subject).
Definition p_end : Z := Z.of_nat (length pattern).

Definition pat_at (p : Z) : Z := unit_at pattern p.

(** [*s] on the subject: the unit, and the state with the read recorded. *)
Definition read_subject (ms : match_state) (s : Z) : Z * match_state :=
  (unit_at subject s, log_read ms s).

(** *** classend (lines 299-333) *)

(** The [do ... while( *p != ']' )] loop; [n] bounds the units left
    (lemma [classend_defined]: the bound given by [classend] is never
    exhausted). *)
Fixpoint classend_loop (n : nat) (p : Z) : result Z :=
  match n with
  | O => OutOfFuel
  | S n' =>
      if p =? p_end then Throw pattern_missing_closing_bracket
      else
        let c := pat_at p in
        let p := p + 1 in
        let p := if (c =? chr "%") && (p <? p_end) then p + 1 else p in
        if negb (pat_at p =? chr "]") then classend_loop n' p
        else Ok (p + 1)
  end.

Definition classend (p : Z) : result Z :=
  let c := pat_at p in
  let p := p + 1 in
  if c =? chr "%" then
    if p =? p_end then Throw pattern_ends_with_percent
    else Ok (p + 1)
  else if c =? chr "[" then
    let p := if pat_at p =? chr "^" then p + 1 else p in
    classend_loop (S (Z.to_nat (p_end - p))) p
  else Ok p.

(** *** matchbracketclass (lines 336-376) *)

(** The [while( ++p < ep )] loop; [p] is the value before the increment
    and [n] is at least [ep - p], so that the case [O] is the exit of the
    loop with [p + 1 >= ep]. *)
Fixpoint bracket_loop (n : nat) (c : Z) (ret : bool) (p ep : Z) : bool :=
  match n with
  | O => negb ret
  | S n' =>
      let p := p + 1 in
      if p <? ep then
        if pat_at p =? chr "%" then
          let p := p + 1 in
          if match_class c (pat_at p) then ret
          else bracket_loop n' c ret p ep
        else if (pat_at (p + 1) =? chr "-") && (p + 2 <? ep) then
          let p := p + 2 in
          let min := pat_at (p - 2) in
          let max := pat_at p in
          if (min <=? c) && (c <=? max) then ret
          else bracket_loop n' c ret p ep
        else if pat_at p =? c then ret
        else bracket_loop n' c ret p ep
      else negb ret
  end.

Definition matchbracketclass (c : Z) (p ep : Z) : bool :=
  let '(ret, p) :=
    if pat_at (p + 1) =? chr "^" then (false, p + 1) else (true, p) in
  bracket_loop (Z.to_nat (ep - p)) c ret p ep.

(** *** singlematch (lines 379-406) *)

Definition singlematch (ms : match_state) (s p ep : Z) : bool * match_state :=
  if s <? s_end then
    let '(c, ms) := read_subject ms s in
    let pc := pat_at p in
    if pc =? chr "." then (true, ms)
    else if pc =? chr "%" then (match_class c (pat_at (p + 1)), ms)
    else if pc =? chr "[" then (matchbracketclass c p (ep - 1), ms)
    else (pc =? c, ms)
  else (false, ms).

(** *** matchbalance (lines 409-441) *)

(** The [while( ++s < ms.s_end )] loop; [s] is the value before the
    increment and [n] is the number of units from [s] to the subject end,
    so that the case [O] is the exit of the loop with [s + 1 >= s_end]. *)
Fixpoint balance_loop (n : nat) (ms : match_state) (s b e count : Z)
  : result (option Z) * match_state :=
  match n with
  | O => (Ok None, ms)
  | S n' =>
      let s := s + 1 in
      if s <? s_end then
        let '(c, ms) := read_subject ms s in
        if c =? e then
          let count := count - 1 in
          if count =? 0 then (Ok (Some (s + 1)), ms)
          else balance_loop n' ms s b e count
        else if c =? b then balance_loop n' ms s b e (count + 1)
        else balance_loop n' ms s b e count
      else (Ok None, ms)
  end.

Definition matchbalance (ms : match_state) (s p : Z)
  : result (option Z) * match_state :=
  if p_end <=? p then (Throw balanced_no_arguments, ms)
  else
    let '(c, ms) := read_subject ms s in
    if negb (c =? pat_at p) then (Ok None, ms)
    else
      let b := pat_at p in
      let e := pat_at (p + 1) in
      balance_loop (Z.to_nat (s_end - s)) ms s b e 1.

(** *** Continuations

    A nested invocation [match( ms, s, p )] and a [goto init] both hand
    [(ms, s, p)] to the rest of the matcher; the routines below take that
    rest as a parameter and the knot is tied in [match_loop]. *)
Definition continuation : Type :=
  match_state -> Z -> Z -> result (option Z) * match_state.

(** *** max_expand (lines 444-463) *)

(** [while( singlematch( ms, s + i, p, ep ) ) ++i;] with [n] the number
    of units from [s + i] to the subject end: [singlematch] fails there, so
    the case [O] of a successful test does not occur (lemma
    [max_count_run]). *)
Fixpoint max_count (n : nat) (ms : match_state) (s p ep i : Z)
  : Z * match_state :=
  let '(m, ms) := singlematch ms (s + i) p ep in
  if m then
    match n with
    | O => (i + 1, ms)
    | S n' => max_count n' ms s p ep (i + 1)
    end
  else (i, ms).

(** [while( i >= 0 )] with [i = Z.of_nat k] *)
Fixpoint max_try (call : continuation) (k : nat) (ms : match_state) (s ep : Z)
  : result (option Z) * match_state :=
  match call ms (s + Z.of_nat k) (ep + 1) with
  | (Ok None, ms) =>
      match k with
      | O => (Ok None, ms)
      | S k' => max_try call k' ms s ep
      end
  | other => other
  end.

Definition max_expand (call : continuation) (ms : match_state) (s p ep : Z)
  : result (option Z) * match_state :=
  let '(i, ms) := max_count (Z.to_nat (s_end - s)) ms s p ep 0 in
  max_try call (Z.to_nat i) ms s ep.

(** *** min_expand (lines 466-484) *)

(** The [for( ; ; )] loop with [n] the number of units from [s] to the
    subject end; a successful [singlematch] leaves at least one. *)

Fixpoint min_loop (call : continuation) (n : nat) (ms : match_state) (s p ep : Z)
  : result (option Z) * match_state :=
  match call ms s (ep + 1) with
  | (Ok None, ms) =>
      let '(m, ms) := singlematch ms s p ep in
      if m then
        match n with
        | O => (OutOfFuel, ms)
        | S n' => min_loop call n' ms (s + 1) p ep
        end
      else (Ok None, ms)
  | other => other
  end.

Definition min_expand (call : continuation) (ms : match_state) (s p ep : Z)
  : result (option Z) * match_state :=
  min_loop call (Z.to_nat (s_end - s)) ms s p ep.

(** *** start_capture (lines 487-519) *)

Definition start_capture (call : continuation) (ms : match_state) (s p : Z)
  : result (option Z) * match_state :=
  if MAXCAPTURES <=? ms_level ms then (Throw capture_too_many, ms)
  else
    let ms := set_cap_init ms (ms_level ms) (Some s) in
    let '(ms, p) :=
      if pat_at p =? chr ")" then (set_cap_len ms (ms_level ms) position, p + 1)
      else (set_cap_len ms (ms_level ms) unfinished, p) in
    let ms := set_level ms (ms_level ms + 1) in
    match call ms s p with
    | (Ok None, ms) =>
        let ms := set_level ms (ms_level ms - 1) in
        (Ok None, set_cap_len ms (ms_level ms) unfinished)
    | other => other
    end.

(** *** end_capture (lines 522-544) *)

(** [for( --i ; i >= 0 ; --i )] looking for [len == unfinished], started
    with [n] the level. *)
Fixpoint find_unfinished (caps : list capture) (n : nat) : option nat :=
  match n with
  | O => None
  | S i =>
      if len (get_cap caps (Z.of_nat i)) =? unfinished then Some i
      else find_unfinished caps i
  end.

Definition end_capture (call : continuation) (ms : match_state) (s p : Z)
  : result (option Z) * match_state :=
  match find_unfinished (ms_captures ms) (Z.to_nat (ms_level ms)) with
  | Some i =>
      let i := Z.of_nat i in
      match init (get_cap (ms_captures ms) i) with
      | Some a =>
          let ms := set_cap_len ms i (s - a) in
          match call ms s p with
          | (Ok None, ms) => (Ok None, set_cap_len ms i unfinished)
          | other => other
          end
      | None => (Undefined, ms)
      end
  | None => (Throw capture_invalid_pattern, ms)
  end.

(** *** match_capture (lines 547-566) *)

(** Conversion of a [long] or [ptrdiff_t] to the 64-bit [size_t]. *)
Definition to_size_t (z : Z) : Z := z mod 2 ^ 64.

(** [memcmp( a, b, n units ) == 0] on the subject storage. *)
Fixpoint memcmp_eq (n : nat) (a b : Z) : bool :=
  match n with
  | O => true
  | S n' =>
      (unit_at subject a =? unit_at subject b) && memcmp_eq n' (a + 1) (b + 1)
  end.

Definition match_capture (ms : match_state) (s c : Z)
  : result (option Z) * match_state :=
  let i := c - chr "1" in
  if (i <? 0) || (ms_level ms <=? i)
     || (len (get_cap (ms_captures ms) i) =? unfinished)
  then (Throw capture_invalid_index, ms)
  else
    let l := to_size_t (len (get_cap (ms_captures ms) i)) in
    if l <=? to_size_t (s_end - s) then
      match init (get_cap (ms_captures ms) i) with
      | Some a =>
          if memcmp_eq (Z.to_nat l) a s then (Ok (Some (s + l)), ms)
          else (Ok None, ms)
      | None => (Undefined, ms)
      end
    else (Ok None, ms).

(** *** match (lines 569-690) *)

Section Body.

(** [call] is a nested [match( ms, s, p )], [jump] is [goto init]. *)
Variable call : continuation.
Variable jump : continuation.

(** The [default:] / [dflt:] block. *)
Definition match_default (ms : match_state) (s p : Z)
  : result (option Z) * match_state :=
  match classend p with
  | Ok ep =>
      let '(m, ms) := singlematch ms s p ep in
      let suffix := pat_at ep in
      if negb m then
        if (suffix =? chr "*") || (suffix =? chr "?") || (suffix =? chr "-")
        then jump ms s (ep + 1)
        else (Ok None, ms)
      else if suffix =? chr "?" then
        match call ms (s + 1) (ep + 1) with
        | (Ok None, ms) => jump ms s (ep + 1)
        | other => other
        end
      else if suffix =? chr "+" then max_expand call ms (s + 1) p ep
      else if suffix =? chr "*" then max_expand call ms s p ep
      else if suffix =? chr "-" then min_expand call ms s p ep
      else jump ms (s + 1) ep
  | Throw e => (Throw e, ms)
  | Undefined => (Undefined, ms)
  | OutOfFuel => (OutOfFuel, ms)
  end.

(** [case 'f':] of the inner switch; [p] is already advanced by 2. *)
Definition match_frontier (ms : match_state) (s p : Z)
  : result (option Z) * match_state :=
  if negb (pat_at p =? chr "[") then (Throw frontier_no_open_bracket, ms)
  else
    match classend p with
    | Ok ep =>
        let '(previous, ms) :=
          if s =? s_begin then (0, ms) else read_subject ms (s - 1) in
        if negb (matchbracketclass previous p (ep - 1)) then
          let '(c, ms) := read_subject ms s in
          if matchbracketclass c p (ep - 1) then jump ms s ep
          else (Ok None, ms)
        else (Ok None, ms)
    | Throw e => (Throw e, ms)
    | Undefined => (Undefined, ms)
    | OutOfFuel => (OutOfFuel, ms)
    end.

(** One pass through the code after the [init:] label. *)
Definition match_body (ms : match_state) (s p : Z)
  : result (option Z) * match_state :=
  if p_end <? p then (Undefined, ms)
  else if p =? p_end then (Ok (Some s), ms)
  else
    let c := pat_at p in
    if c =? chr "(" then start_capture call ms s (p + 1)
    else if c =? chr ")" then end_capture call ms s (p + 1)
    else if c =? chr "$" then
      if negb (p + 1 =? p_end) then match_default ms s p
      else if s =? s_end then (Ok (Some s), ms)
      else (Ok None, ms)
    else if c =? chr "%" then
      let c1 := pat_at (p + 1) in
      if c1 =? chr "b" then
        match matchbalance ms s (p + 2) with
        | (Ok (Some res), ms) => jump ms res (p + 4)
        | other => other
        end
      else if c1 =? chr "f" then match_frontier ms s (p + 2)
      else if in_range (chr "0") (chr "9") c1 then
        match match_capture ms s c1 with
        | (Ok (Some res), ms) => jump ms res (p + 2)
        | (Ok None, ms) => match_default ms s p
        | other => other
        end
      else match_default ms s p
    else match_default ms s p.

End Body.

(** The sentinel object at the top of [match]: constructed on entry,
    destroyed when the call is left. *)
Definition with_sentinel (body : continuation) : continuation :=
  fun ms s p =>
    match sentinel_enter (matchdepth ms) with
    | Ok d =>
        let '(r, ms') := body (set_matchdepth ms d) s p in
        (r, set_matchdepth ms' (sentinel_exit (matchdepth ms')))
    | Throw e => (Throw e, ms)
    | Undefined => (Undefined, ms)
    | OutOfFuel => (OutOfFuel, ms)
    end.

(** The code from [init:] on, with [fuel] bounding the number of passes
    along any chain of jumps and nested calls. *)
Fixpoint match_loop (fuel : nat) : continuation :=
  fun ms s p =>
    match fuel with
    | O => (OutOfFuel, ms)
    | S n => match_body (with_sentinel (match_loop n)) (match_loop n) ms s p
    end.

(** Every jump and every nested call moves the pattern position forward,
    and a position beyond [p_end] ends the pass at once, so this much fuel
    is enough (lemma [match_from_unfold] below). *)
Definition fuel_for (p : Z) : nat := S (Z.to_nat (p_end + 1 - p)).

Definition match_from : continuation :=
  fun ms s p => match_loop (fuel_for p) ms s p.

(** [detail::match] *)
Definition detail_match : continuation := with_sentinel match_from.

(** *** pattern_context (lines 742-773) *)

Definition anchor : bool := (0 <? p_end) && (pat_at 0 =? chr "^").
Definition p_begin : Z := if anchor then 1 else 0.

(** *** pg::lex::match (lines 828-860) *)

(** The block executed when the core returned [e] for the start [s]. *)
Definition install_whole_match (ms : match_state) (s e : Z) : match_state :=
  if ms_level ms =? 0 then
    let ms := set_cap_len (set_cap_init ms (ms_level ms) (Some s))
                          (ms_level ms) (e - s) in
    set_level ms (ms_level ms + 1)
  else ms.

Definition on_success (ms : match_state) (s e : Z) : result unit * match_state :=
  match check_captures ms with
  | Ok _ => (Ok tt, install_whole_match (set_pos ms (s - s_begin, e - s_begin)) s e)
  | Throw err => (Throw err, ms)
  | Undefined => (Undefined, ms)
  | OutOfFuel => (OutOfFuel, ms)
  end.

(** [for( auto s = c.s.begin ; s <= c.s.end ; ++s )] with [n] the number
    of start offsets left. *)
Fixpoint search_loop (n : nat) (ms : match_state) (s : Z)
  : result unit * match_state :=
  match n with
  | O => (Ok tt, ms)
  | S n' =>
      match detail_match ms s p_begin with
      | (Ok (Some e), ms) => on_success ms s e
      | (Ok None, ms) =>
          if anchor then (Ok tt, ms)
          else search_loop n' (reprepstate ms) (s + 1)
      | (Throw err, ms) => (Throw err, ms)
      | (Undefined, ms) => (Undefined, ms)
      | (OutOfFuel, ms) => (OutOfFuel, ms)
      end
  end.

Definition lex_match_state : result unit * match_state :=
  search_loop (S (length subject)) (new_match_state empty_match_result) s_begin.

Definition lex_match : result basic_match_result :=
  match lex_match_state with
  | (Ok _, ms) => Ok (mr ms)
  | (Throw err, _) => Throw err
  | (Undefined, _) => Undefined
  | (OutOfFuel, _) => OutOfFuel
  end.

(** *** gmatch_iterator (lines 871-978) *)

Record gmatch_iterator : Type :=
  { it_pos : Z;
    last_match : option Z;
    it_mr : basic_match_result }.

Definition new_iterator (start : Z) : gmatch_iterator :=
  {| it_pos := start; last_match := None; it_mr := empty_match_result |}.

(** [e == last_match] on pointers, [None] being [nullptr]. *)
Definition ptr_eqb (a b : option Z) : bool :=
  match a, b with
  | Some x, Some y => x =? y
  | None, None => true
  | _, _ => false
  end.

(** [while( pos <= c.s.end )] of [operator ++], with [n] the number of
    cursor positions left (lemma [gmatch_loop_defined]). *)
Fixpoint gmatch_loop (n : nat) (ms : match_state) (pos_ : Z) (last : option Z)
  : result gmatch_iterator :=
  if s_end <? pos_ then
    Ok {| it_pos := pos_; last_match := last; it_mr := mr ms |}
  else
    match n with
    | O => OutOfFuel
    | S n' =>
        match detail_match ms pos_ p_begin with
        | (Ok e, ms) =>
            match e with
            | Some e' =>
                if ptr_eqb e last then
                  gmatch_loop n' (reprepstate ms) (pos_ + 1) e
                else
                  match on_success ms pos_ e' with
                  | (Ok _, ms) =>
                      Ok {| it_pos := e'; last_match := e; it_mr := mr ms |}
                  | (Throw err, _) => Throw err
                  | (Undefined, _) => Undefined
                  | (OutOfFuel, _) => OutOfFuel
                  end
            | None => gmatch_loop n' (reprepstate ms) (pos_ + 1) e
            end
        | (Throw err, _) => Throw err
        | (Undefined, _) => Undefined
        | (OutOfFuel, _) => OutOfFuel
        end
    end.

(** [operator ++] *)
Definition gmatch_next (it : gmatch_iterator) : result gmatch_iterator :=
  gmatch_loop (Z.to_nat (s_end + 1 - it_pos it))
              (new_match_state (it_mr it)) (it_pos it) (last_match it).

(** [begin( c )] and [end( c )]; [operator ==] compares the context, which
    is the one of this section, and [pos]. *)
Definition gmatch_begin : result gmatch_iterator := gmatch_next (new_iterator s_begin).
Definition gmatch_end : gmatch_iterator := new_iterator (s_end + 1).
Definition iterator_eqb (a b : gmatch_iterator) : bool := it_pos a =? it_pos b.

(** *** gsub (lines 990-1153) *)

(** The subject units in [a, b). *)
Definition subrange (a b : Z) : list Z :=
  take (Z.to_nat (b - a)) (drop (Z.to_nat a) subject).

(** [last_match ? last_match : c.s.begin] *)
Definition copy_from (last : option Z) : Z :=
  match last with
  | Some l => l
  | None => s_begin
  end.

(** [append_number] (lines 693-703); [n] bounds the number of digits. *)
Fixpoint append_number (n : nat) (str : list Z) (number : Z) : list Z :=
  let str :=
    match n with
    | O => str
    | S n' => if 9 <? number then append_number n' str (number / 10) else str
    end in
  str ++ [chr "0" + number mod 10].

(** The body of the [for] loop over the [%] escapes of the replacement,
    together with the final [result.append( r_begin, r.end )].  [r] is the
    part of the replacement starting at [r_begin].  A [%] that ends the
    replacement is followed by the terminator, which is neither [%] nor a
    digit. *)
Fixpoint expand_template (r : list Z) (ms : match_state) (s e : Z) (out : list Z)
  : result (list Z) * match_state :=
  match r with
  | [] => (Ok out, ms)
  | c :: r' =>
      if c =? chr "%" then
        match r' with
        | [] => (Throw percent_invalid_use_in_replacement, ms)
        | cap_char :: r'' =>
            if cap_char =? chr "%" then
              expand_template r'' ms s e (out ++ [cap_char])
            else if cap_char =? chr "0" then
              expand_template r'' ms s e (out ++ subrange s e)
            else if isdigit cap_char then
              let ms := install_whole_match ms s e in
              let cap_index := cap_char - chr "1" in
              if ms_level ms <=? cap_index then (Throw capture_invalid_index, ms)
              else
                let cap := get_cap (ms_captures ms) cap_index in
                match init cap with
                | Some a =>
                    if len cap =? position then
                      expand_template r'' ms s e
                        (append_number (Z.to_nat (Z.log2 (1 + a - s_begin))) out
                                       (1 + a - s_begin))
                    else
                      expand_template r'' ms s e (out ++ subrange a (a + len cap))
                | None => (Undefined, ms)
                end
            else (Throw percent_invalid_use_in_replacement, ms)
        end
      else expand_template r' ms s e (out ++ [c])
  end.

(** What the two variants do with a match [s, e): the replacement they
    append, computed in the state left by the core. *)
Definition replacer : Type :=
  match_state -> Z -> Z -> list Z -> result (list Z) * match_state.

Definition template_replacer (repl : list Z) : replacer :=
  fun ms s e out =>
    match check_captures ms with
    | Ok _ => expand_template repl ms s e out
    | Throw err => (Throw err, ms)
    | Undefined => (Undefined, ms)
    | OutOfFuel => (OutOfFuel, ms)
    end.

Definition callback_replacer (func : basic_match_result -> list Z) : replacer :=
  fun ms s e out =>
    match on_success ms s e with
    | (Ok _, ms) => (Ok (out ++ func (mr ms)), ms)
    | (Throw err, ms) => (Throw err, ms)
    | (Undefined, ms) => (Undefined, ms)
    | (OutOfFuel, ms) => (OutOfFuel, ms)
    end.

(** [while( s <= c.s.end && count != 0 )], shared by the two variants;
    [n] bounds the number of passes (lemma [gsub_loop_defined]: two passes
    for every start offset are enough). *)
Fixpoint gsub_loop (replace : replacer) (n : nat) (ms : match_state)
         (s count : Z) (last : option Z) (out : list Z) : result (list Z) :=
  if (s <=? s_end) && negb (count =? 0) then
    match n with
    | O => OutOfFuel
    | S n' =>
        let count := if anchor then 0 else count in
        match detail_match ms s p_begin with
        | (Ok e, ms) =>
            match e with
            | Some e' =>
                if ptr_eqb e last then
                  gsub_loop replace n' (reprepstate ms) (s + 1) count last out
                else
                  let count := count - 1 in
                  let out := out ++ subrange (copy_from last) s in
                  match replace ms s e' out with
                  | (Ok out, ms) =>
                      gsub_loop replace n' (reprepstate ms) e' count e out
                  | (Throw err, _) => Throw err
                  | (Undefined, _) => Undefined
                  | (OutOfFuel, _) => OutOfFuel
                  end
            | None => gsub_loop replace n' (reprepstate ms) (s + 1) count last out
            end
        | (Throw err, _) => Throw err
        | (Undefined, _) => Undefined
        | (OutOfFuel, _) => OutOfFuel
        end
    end
  else Ok (out ++ subrange (copy_from last) s_end).

Definition gsub_with (replace : replacer) (count : Z) : result (list Z) :=
  gsub_loop replace (2 * length subject + 3)%nat
            (new_match_state empty_match_result) s_begin count None [].

(** The template variant and the callback variant. *)
Definition gsub (repl : list Z) (count : Z) : result (list Z) :=
  gsub_with (template_replacer repl) count.

Definition gsub_callback (func : basic_match_result -> list Z) (count : Z)
  : result (list Z) :=
  gsub_with (callback_replacer func) count.

(** * Properties of the matcher *)

(** ** Pattern positions *)

Lemma unit_at_nonzero (l : list Z) (i : Z) :
  unit_at l i <> 0 -> 0 <= i < Z.of_nat (length l).
Proof.
  unfold unit_at. destruct (Z.ltb_spec i 0) as [Hneg | Hpos]; [congruence |].
  intros Hnz. split; [lia |].
  destruct (Nat.lt_ge_cases (Z.to_nat i) (length l)) as [Hlt | Hge]; [lia |].
  rewrite nth_overflow in Hnz by exact Hge. congruence.
Qed.

Lemma pat_at_is (p c : Z) : (pat_at p =? c) = true -> c <> 0 -> 0 <= p < p_end.
Proof.
  intros H Hc. apply Z.eqb_eq in H. apply unit_at_nonzero.
  unfold pat_at in H. congruence.
Qed.

Lemma classend_loop_bounds (n : nat) (p ep : Z) :
  classend_loop n p = Ok ep -> p < ep <= p_end.
Proof.
  revert p. induction n as [| n IH]; intros p; simpl; [discriminate |].
  destruct (p =? p_end) eqn:Hend; [discriminate |].
  set (q := if (pat_at p =? chr "%") && (p + 1 <? p_end) then p + 1 + 1 else p + 1).
  assert (Hq : p < q) by (subst q; destruct (_ && _); lia).
  destruct (pat_at q =? chr "]") eqn:Hclose; simpl.
  - intros [= <-]. apply pat_at_is in Hclose; [lia | discriminate].
  - intros H. apply IH in H. lia.
Qed.

Lemma classend_loop_fuel (n : nat) (p : Z) :
  p <= p_end -> (Z.to_nat (p_end - p) < n)%nat ->
  classend_loop n p <> OutOfFuel /\ classend_loop n p <> Undefined.
Proof.
  revert p. induction n as [| n IH]; intros p Hp Hn; simpl; [lia |].
  destruct (Z.eqb_spec p p_end) as [-> | Hne]; [split; discriminate |].
  set (q := if (pat_at p =? chr "%") && (p + 1 <? p_end) then p + 1 + 1 else p + 1).
  assert (Hq : p < q <= p_end).
  { subst q. destruct (pat_at p =? chr "%"); simpl; [| lia].
    destruct (Z.ltb_spec (p + 1) p_end); lia. }
  destruct (pat_at q =? chr "]"); simpl; [split; discriminate |].
  apply IH; lia.
Qed.

(** An item that starts inside the pattern ends inside it, after at least
    one unit. *)
Lemma classend_bounds (p ep : Z) :
  p < p_end -> classend p = Ok ep -> p < ep <= p_end.
Proof.
  intros Hp. unfold classend.
  destruct (pat_at p =? chr "%") eqn:Hpc.
  - destruct (Z.eqb_spec (p + 1) p_end); [discriminate |].
    intros [= <-]. lia.
  - destruct (pat_at p =? chr "[") eqn:Hbr.
    + intros H. apply classend_loop_bounds in H.
      destruct (pat_at (p + 1) =? chr "^"); lia.
    + intros [= <-]. lia.
Qed.

(** The scan of an item neither runs out of fuel nor leaves the pattern. *)
Lemma classend_defined (p : Z) :
  p < p_end -> classend p <> OutOfFuel /\ classend p <> Undefined.
Proof.
  intros Hp. unfold classend.
  destruct (pat_at p =? chr "%").
  - destruct (p + 1 =? p_end); split; discriminate.
  - destruct (pat_at p =? chr "["); [| split; discriminate].
    destruct (pat_at (p + 1) =? chr "^") eqn:Hc.
    + apply pat_at_is in Hc; [| discriminate]. apply classend_loop_fuel; lia.
    + apply classend_loop_fuel; lia.
Qed.

(** ** Routines that only read

    [singlematch], the counting loop of [max_expand], [matchbalance] and
    [match_capture] leave the match result and the depth counter alone;
    they only extend the ghost record of reads. *)

Definition same_data (ms ms' : match_state) : Prop :=
  mr ms' = mr ms /\ matchdepth ms' = matchdepth ms.

Lemma same_data_refl (ms : match_state) : same_data ms ms.
Proof. split; reflexivity. Qed.

Lemma same_data_trans (a b c : match_state) :
  same_data a b -> same_data b c -> same_data a c.
Proof. intros [H1 H2] [H3 H4]. split; congruence. Qed.

Lemma same_data_log (ms : match_state) (s : Z) : same_data ms (log_read ms s).
Proof. split; reflexivity. Qed.

Lemma singlematch_same (ms : match_state) (s p ep : Z) :
  same_data ms (snd (singlematch ms s p ep)).
Proof.
  unfold singlematch. destruct (s <? s_end); [| apply same_data_refl].
  simpl. repeat (destruct (_ =? _)); apply same_data_log.
Qed.

Lemma singlematch_true (ms : match_state) (s p ep : Z) :
  fst (singlematch ms s p ep) = true -> s < s_end.
Proof.
  unfold singlematch. destruct (Z.ltb_spec s s_end); [lia | discriminate].
Qed.

Lemma max_count_same (n : nat) (ms : match_state) (s p ep i : Z) :
  same_data ms (snd (max_count n ms s p ep i)).
Proof.
  revert ms i. induction n as [| n IH]; intros ms i; simpl;
    pose proof (singlematch_same ms (s + i) p ep) as Hs;
    destruct (singlematch ms (s + i) p ep) as [[|] ms1]; simpl in *; try exact Hs.
  eapply same_data_trans; [exact Hs | apply IH].
Qed.

Lemma max_count_bounds (n : nat) (ms : match_state) (s p ep i : Z) :
  0 <= i -> s + i <= s_end -> n = Z.to_nat (s_end - (s + i)) ->
  i <= fst (max_count n ms s p ep i) /\ s + fst (max_count n ms s p ep i) <= s_end.
Proof.
  revert ms i. induction n as [| n IH]; intros ms i Hi Hs Hn; simpl;
    pose proof (singlematch_true ms (s + i) p ep) as Ht;
    destruct (singlematch ms (s + i) p ep) as [[|] ms1]; simpl in *; try lia.
  specialize (Ht eq_refl).
  specialize (IH ms1 (i + 1)). lapply IH; [| lia]. clear IH; intros IH.
  lapply IH; [| lia]. clear IH; intros IH. lapply IH; [| lia]. lia.
Qed.

Lemma balance_loop_same (n : nat) (ms : match_state) (s b e count : Z) :
  same_data ms (snd (balance_loop n ms s b e count)).
Proof.
  revert ms s count. induction n as [| n IH]; intros ms s count; simpl;
    [apply same_data_refl |].
  destruct (s + 1 <? s_end); [| apply same_data_refl].
  destruct (_ =? e).
  - destruct (_ =? 0); [apply same_data_log |].
    eapply same_data_trans; [apply same_data_log | apply IH].
  - destruct (_ =? b);
      (eapply same_data_trans; [apply same_data_log | apply IH]).
Qed.

Lemma balance_loop_bounds (n : nat) (ms : match_state) (s b e count r : Z) :
  fst (balance_loop n ms s b e count) = Ok (Some r) -> s < r <= s_end.
Proof.
  revert ms s count. induction n as [| n IH]; intros ms s count; simpl;
    [discriminate |].
  destruct (Z.ltb_spec (s + 1) s_end); [| discriminate].
  destruct (_ =? e).
  - destruct (_ =? 0); [simpl; intros [= <-]; lia |].
    intros H0. apply IH in H0. lia.
  - destruct (_ =? b); intros H0; apply IH in H0; lia.
Qed.

Lemma matchbalance_same (ms : match_state) (s p : Z) :
  same_data ms (snd (matchbalance ms s p)).
Proof.
  unfold matchbalance. destruct (p_end <=? p); [apply same_data_refl |].
  simpl. destruct (negb _); [apply same_data_log |].
  eapply same_data_trans; [apply same_data_log | apply balance_loop_same].
Qed.

Lemma matchbalance_bounds (ms : match_state) (s p r : Z) :
  fst (matchbalance ms s p) = Ok (Some r) -> s < r <= s_end.
Proof.
  unfold matchbalance. destruct (p_end <=? p); [discriminate |].
  simpl. destruct (negb _); [discriminate |]. apply balance_loop_bounds.
Qed.

Lemma balance_loop_defined (n : nat) (ms : match_state) (s b e count : Z) :
  fst (balance_loop n ms s b e count) <> OutOfFuel /\
  fst (balance_loop n ms s b e count) <> Undefined.
Proof.
  revert ms s count. induction n as [| n IH]; intros ms s count; simpl;
    [split; discriminate |].
  destruct (s + 1 <? s_end); simpl; [| split; discriminate].
  destruct (_ =? e); [destruct (_ =? 0); simpl; [split; discriminate | apply IH] |].
  destruct (_ =? b); apply IH.
Qed.

Lemma matchbalance_defined (ms : match_state) (s p : Z) :
  fst (matchbalance ms s p) <> OutOfFuel /\ fst (matchbalance ms s p) <> Undefined.
Proof.
  unfold matchbalance. destruct (p_end <=? p); simpl; [split; discriminate |].
  destruct (negb _); simpl; [split; discriminate |].
  apply balance_loop_defined.
Qed.

Lemma match_capture_same (ms : match_state) (s c : Z) :
  snd (match_capture ms s c) = ms.
Proof.
  unfold match_capture. destruct (_ || _); [reflexivity |].
  destruct (_ <=? _); [| reflexivity].
  destruct (init _); [| reflexivity]. destruct (memcmp_eq _ _ _); reflexivity.
Qed.

Lemma to_size_t_le (z : Z) : 0 <= z -> to_size_t z <= z.
Proof.
  intros Hz. unfold to_size_t. apply Z.mod_le; lia.
Qed.

Lemma match_capture_bounds (ms : match_state) (s c r : Z) :
  0 <= s <= s_end -> fst (match_capture ms s c) = Ok (Some r) -> s <= r <= s_end.
Proof.
  intros Hs. unfold match_capture. destruct (_ || _); [discriminate |].
  destruct (Z.leb_spec (to_size_t (len (get_cap (ms_captures ms) (c - chr "1"))))
                       (to_size_t (s_end - s))) as [Hle | Hgt]; [| discriminate].
  destruct (init _); [| discriminate].
  destruct (memcmp_eq _ _ _); [| discriminate].
  simpl. intros [= <-].
  pose proof (to_size_t_le (s_end - s)).
  assert (0 <= to_size_t (len (get_cap (ms_captures ms) (c - chr "1"))))
    by (unfold to_size_t; apply Z.mod_pos_bound; lia).
  lia.
Qed.

(** ** The continuations are only used ahead of the current position *)

Definition agree_above (p0 : Z) (k1 k2 : continuation) : Prop :=
  forall ms s p, p0 < p -> k1 ms s p = k2 ms s p.

Lemma max_try_ext (k1 k2 : continuation) (k : nat) (ms : match_state) (s ep : Z) :
  (forall ms s, k1 ms s (ep + 1) = k2 ms s (ep + 1)) ->
  max_try k1 k ms s ep = max_try k2 k ms s ep.
Proof.
  intros H. revert ms. induction k as [| k IH]; intros ms; simpl; rewrite H.
  - reflexivity.
  - destruct (k2 ms _ _) as [[[e |] | err | | ] ms1]; auto.
Qed.

Lemma min_loop_ext (k1 k2 : continuation) (n : nat) (ms : match_state) (s p ep : Z) :
  (forall ms s, k1 ms s (ep + 1) = k2 ms s (ep + 1)) ->
  min_loop k1 n ms s p ep = min_loop k2 n ms s p ep.
Proof.
  intros H. revert ms s. induction n as [| n IH]; intros ms s; simpl; rewrite H.
  - reflexivity.
  - destruct (k2 ms _ _) as [[[e |] | err | | ] ms1]; auto.
    destruct (singlematch ms1 s p ep) as [[|] ms2]; auto.
Qed.

Lemma start_capture_ext (k1 k2 : continuation) (p0 : Z) (ms : match_state) (s p : Z) :
  agree_above p0 k1 k2 -> p0 < p ->
  start_capture k1 ms s p = start_capture k2 ms s p.
Proof.
  intros H Hp. unfold start_capture.
  destruct (MAXCAPTURES <=? ms_level ms); [reflexivity |].
  destruct (pat_at p =? chr ")"); rewrite H by lia; reflexivity.
Qed.

Lemma end_capture_ext (k1 k2 : continuation) (p0 : Z) (ms : match_state) (s p : Z) :
  agree_above p0 k1 k2 -> p0 < p ->
  end_capture k1 ms s p = end_capture k2 ms s p.
Proof.
  intros H Hp. unfold end_capture.
  destruct (find_unfinished _ _); [| reflexivity].
  destruct (init _); [| reflexivity].
  rewrite H by lia. reflexivity.
Qed.

Lemma match_default_ext (c1 c2 j1 j2 : continuation) (ms : match_state) (s p : Z) :
  agree_above p c1 c2 -> agree_above p j1 j2 -> p < p_end ->
  match_default c1 j1 ms s p = match_default c2 j2 ms s p.
Proof.
  intros Hc Hj Hp. unfold match_default.
  destruct (classend p) as [ep | err | | ] eqn:Hep; try reflexivity.
  apply classend_bounds in Hep; [| exact Hp].
  destruct (singlematch ms s p ep) as [m ms1].
  destruct m; simpl.
  - destruct (pat_at ep =? chr "?").
    { rewrite Hc by lia.
      destruct (c2 ms1 _ _) as [[[e |] | err | | ] ms2]; auto.
      apply Hj; lia. }
    unfold max_expand, min_expand.
    destruct (pat_at ep =? chr "+").
    { destruct (max_count _ _ _ _ _ _) as [i ms2].
      apply max_try_ext. intros; apply Hc; lia. }
    destruct (pat_at ep =? chr "*").
    { destruct (max_count _ _ _ _ _ _) as [i ms2].
      apply max_try_ext. intros; apply Hc; lia. }
    destruct (pat_at ep =? chr "-").
    { apply min_loop_ext. intros; apply Hc; lia. }
    apply Hj; lia.
  - destruct (_ || _); [apply Hj; lia | reflexivity].
Qed.

Lemma match_frontier_ext (j1 j2 : continuation) (p0 : Z) (ms : match_state) (s p : Z) :
  agree_above p0 j1 j2 -> p0 < p ->
  match_frontier j1 ms s p = match_frontier j2 ms s p.
Proof.
  intros Hj Hp. unfold match_frontier.
  destruct (pat_at p =? chr "[") eqn:Hbr; simpl; [| reflexivity].
  apply pat_at_is in Hbr; [| discriminate].
  destruct (classend p) as [ep | err | | ] eqn:Hep; try reflexivity.
  apply classend_bounds in Hep; [| lia].
  destruct (if s =? s_begin then _ else _) as [previous ms1].
  destruct (negb _); [| reflexivity].
  simpl. destruct (matchbracketclass _ _ _); [apply Hj; lia | reflexivity].
Qed.

Lemma match_body_ext (c1 c2 j1 j2 : continuation) (ms : match_state) (s p : Z) :
  agree_above p c1 c2 -> agree_above p j1 j2 ->
  match_body c1 j1 ms s p = match_body c2 j2 ms s p.
Proof.
  intros Hc Hj. unfold match_body.
  destruct (Z.ltb_spec p_end p); [reflexivity |].
  destruct (Z.eqb_spec p p_end); [reflexivity |].
  assert (Hp : p < p_end) by lia.
  pose proof (match_default_ext c1 c2 j1 j2 ms s p Hc Hj Hp) as Hd.
  destruct (pat_at p =? chr "("); [eapply start_capture_ext; [exact Hc | lia] |].
  destruct (pat_at p =? chr ")"); [eapply end_capture_ext; [exact Hc | lia] |].
  destruct (pat_at p =? chr "$").
  { destruct (negb _); [exact Hd | reflexivity]. }
  destruct (pat_at p =? chr "%"); [| exact Hd].
  destruct (pat_at (p + 1) =? chr "b").
  { destruct (matchbalance ms s (p + 2)) as [[[e |] | err | | ] ms1]; auto.
    apply Hj; lia. }
  destruct (pat_at (p + 1) =? chr "f").
  { eapply match_frontier_ext; [exact Hj | lia]. }
  destruct (in_range _ _ _); [| exact Hd].
  destruct (match_capture ms s _) as [[[e |] | err | | ] ms1]; auto.
  - apply Hj; lia.
  - apply match_default_ext; assumption.
Qed.

Lemma with_sentinel_ext (b1 b2 : continuation) (p0 : Z) :
  agree_above p0 b1 b2 -> agree_above p0 (with_sentinel b1) (with_sentinel b2).
Proof.
  intros H ms s p Hp. unfold with_sentinel.
  destruct (sentinel_enter _); try reflexivity.
  rewrite H by exact Hp. reflexivity.
Qed.

(** Fuel beyond [fuel_for p] changes nothing. *)
Lemma match_loop_fuel (n m : nat) (ms : match_state) (s p : Z) :
  (fuel_for p <= n)%nat -> (fuel_for p <= m)%nat ->
  match_loop n ms s p = match_loop m ms s p.
Proof.
  revert m ms s p. induction n as [| n IH]; intros m ms s p Hn Hm.
  { unfold fuel_for in Hn. lia. }
  destruct m as [| m]; [unfold fuel_for in Hm; lia |].
  simpl. destruct (Z.ltb_spec p_end p) as [Hout | Hin].
  { unfold match_body. destruct (Z.ltb_spec p_end p); [reflexivity | lia]. }
  assert (Hk : agree_above p (match_loop n) (match_loop m)).
  { intros ms' s' p' Hp'. apply IH; unfold fuel_for in *; lia. }
  apply match_body_ext; [apply with_sentinel_ext |]; exact Hk.
Qed.

(** [match] unfolds to its own body: the nested calls are [detail::match]
    and the jumps re-enter at [init:]. *)
Lemma match_from_unfold (ms : match_state) (s p : Z) :
  match_from ms s p = match_body detail_match match_from ms s p.
Proof.
  unfold match_from at 1. unfold fuel_for. simpl.
  destruct (Z.ltb_spec p_end p) as [Hout | Hin].
  { unfold match_body. destruct (Z.ltb_spec p_end p); [reflexivity | lia]. }
  assert (Hk : agree_above p (match_loop (Z.to_nat (p_end + 1 - p))) match_from).
  { intros ms' s' p' Hp'. unfold match_from.
    apply match_loop_fuel; unfold fuel_for; lia. }
  apply match_body_ext; [apply with_sentinel_ext |]; exact Hk.
Qed.

(** ** Frame: depth counter, span, and undo of captures on failure *)

Lemma lookup_set_cap_len_ne (ms : match_state) (i v : Z) (j : nat) :
  j <> Z.to_nat i ->
  ms_captures (set_cap_len ms i v) !! j = ms_captures ms !! j.
Proof.
  intros Hne. unfold set_cap_len, ms_captures. simpl.
  apply list_lookup_insert_ne. congruence.
Qed.

Lemma lookup_set_cap_init_ne (ms : match_state) (i : Z) (v : option Z) (j : nat) :
  j <> Z.to_nat i ->
  ms_captures (set_cap_init ms i v) !! j = ms_captures ms !! j.
Proof.
  intros Hne. unfold set_cap_init, ms_captures. simpl.
  apply list_lookup_insert_ne. congruence.
Qed.

(** Writing [unfinished] back over a slot whose length was [unfinished]
    before a write of the length restores the slot. *)
Lemma lookup_set_cap_len_undo (ms ms' : match_state) (i : nat) (v : Z) :
  len (get_cap (ms_captures ms) (Z.of_nat i)) = unfinished ->
  ms_captures ms' !! i = ms_captures (set_cap_len ms (Z.of_nat i) v) !! i ->
  ms_captures (set_cap_len ms' (Z.of_nat i) unfinished) !! i = ms_captures ms !! i.
Proof.
  unfold set_cap_len, ms_captures, get_cap. simpl. rewrite !Nat2Z.id.
  intros Hlen Hsame.
  destruct (captures (mr ms) !! i) as [c |] eqn:Hc.
  - assert (Hi : (i < length (captures (mr ms)))%nat)
      by (eapply lookup_lt_Some; exact Hc).
    rewrite list_lookup_insert_eq in Hsame by exact Hi.
    rewrite Hsame. simpl.
    rewrite list_lookup_insert_eq by (eapply lookup_lt_Some; exact Hsame).
    destruct c as [a l]. simpl in *. congruence.
  - assert (Hi : (length (captures (mr ms)) <= i)%nat)
      by (apply lookup_ge_None; exact Hc).
    rewrite list_insert_ge in Hsame by exact Hi. rewrite Hc in Hsame.
    rewrite list_insert_ge by (apply lookup_ge_None; exact Hsame).
    exact Hsame.
Qed.

Definition frame_post (ms : match_state) (res : result (option Z) * match_state)
  : Prop :=
  matchdepth (snd res) = matchdepth ms /\
  pos (mr (snd res)) = pos (mr ms) /\
  (fst res = Ok None ->
   ms_level (snd res) = ms_level ms /\
   forall i : nat, Z.of_nat i < ms_level ms ->
                   ms_captures (snd res) !! i = ms_captures ms !! i).

Definition frames (k : continuation) : Prop :=
  forall ms s p, frame_post ms (k ms s p).

Lemma frame_post_refl (ms : match_state) (o : result (option Z)) :
  frame_post ms (o, ms).
Proof. repeat split. Qed.

Lemma frame_post_same (ms ms1 : match_state) (res : result (option Z) * match_state) :
  same_data ms ms1 -> frame_post ms1 res -> frame_post ms res.
Proof.
  intros [Hmr Hd] H. unfold frame_post, ms_level, ms_captures in *.
  rewrite Hmr, Hd in H. exact H.
Qed.

Lemma frame_post_step (ms ms1 : match_state) (res : result (option Z) * match_state) :
  frame_post ms (Ok None, ms1) -> frame_post ms1 res -> frame_post ms res.
Proof.
  intros (Hd & Hp & Hf) (Hd' & Hp' & Hf'). simpl in *.
  destruct (Hf eq_refl) as [Hl Hc].
  split; [congruence |]. split; [congruence |].
  intros Hres. destruct (Hf' Hres) as [Hl' Hc'].
  split; [congruence |].
  intros i Hi. rewrite Hc' by lia. apply Hc. exact Hi.
Qed.

Lemma with_sentinel_frames (body : continuation) :
  frames body -> frames (with_sentinel body).
Proof.
  intros H ms s p. unfold with_sentinel, sentinel_enter, sentinel_exit.
  destruct (matchdepth ms <=? 0); [apply frame_post_refl |].
  specialize (H (set_matchdepth ms (matchdepth ms - 1)) s p).
  destruct (body _ s p) as [r ms1].
  destruct H as (Hd & Hp & Hf). unfold frame_post. simpl in *.
  split; [lia |]. split; [exact Hp |]. intros Hr. apply Hf in Hr. exact Hr.
Qed.

Lemma max_try_frames (call : continuation) (k : nat) (ms : match_state) (s ep : Z) :
  frames call -> frame_post ms (max_try call k ms s ep).
Proof.
  intros H. revert ms. induction k as [| k IH]; intros ms; simpl.
  - pose proof (H ms (s + Z.of_nat 0) (ep + 1)) as H0.
    destruct (call ms _ _) as [[[e |] | err | | ] ms1]; exact H0.
  - pose proof (H ms (s + Z.of_nat (S k)) (ep + 1)) as H1.
    destruct (call ms _ _) as [[[e |] | err | | ] ms1]; try exact H1.
    eapply frame_post_step; [exact H1 | apply IH].
Qed.

Lemma min_loop_frames (call : continuation) (n : nat) (ms : match_state) (s p ep : Z) :
  frames call -> frame_post ms (min_loop call n ms s p ep).
Proof.
  intros H. revert ms s. induction n as [| n IH]; intros ms s; simpl;
    pose proof (H ms s (ep + 1)) as H0;
    destruct (call ms s _) as [[[e |] | err | | ] ms1]; try exact H0;
    pose proof (singlematch_same ms1 s p ep) as Hs;
    destruct (singlematch ms1 s p ep) as [[|] ms2]; simpl in Hs;
    (eapply frame_post_step; [exact H0 |]);
    (eapply frame_post_same; [exact Hs |]);
    try apply frame_post_refl.
  apply IH.
Qed.

Lemma max_expand_frames (call : continuation) (ms : match_state) (s p ep : Z) :
  frames call -> frame_post ms (max_expand call ms s p ep).
Proof.
  intros H. unfold max_expand.
  pose proof (max_count_same (Z.to_nat (s_end - s)) ms s p ep 0) as Hs.
  destruct (max_count _ _ _ _ _ _) as [i ms1]. simpl in Hs.
  eapply frame_post_same; [exact Hs | apply max_try_frames; exact H].
Qed.

(** The two halves of [start_capture]: the writes before the nested call
    and the undo after a failed one. *)
Definition open_slot (ms : match_state) (s kind : Z) : match_state :=
  set_level (set_cap_len (set_cap_init ms (ms_level ms) (Some s))
                         (ms_level ms) kind)
            (ms_level ms + 1).

Definition undo_open (ms : match_state) : match_state :=
  set_cap_len (set_level ms (ms_level ms - 1)) (ms_level ms - 1) unfinished.

Lemma start_capture_eq (call : continuation) (ms : match_state) (s p : Z) :
  start_capture call ms s p =
  if MAXCAPTURES <=? ms_level ms then (Throw capture_too_many, ms)
  else
    let close := pat_at p =? chr ")" in
    match call (open_slot ms s (if close then position else unfinished)) s
               (if close then p + 1 else p) with
    | (Ok None, ms2) => (Ok None, undo_open ms2)
    | other => other
    end.
Proof.
  unfold start_capture. destruct (MAXCAPTURES <=? ms_level ms); [reflexivity |].
  simpl. destruct (pat_at p =? chr ")"); reflexivity.
Qed.

Lemma open_slot_frame (ms : match_state) (s kind : Z) :
  frame_post ms (Ok None, set_level (open_slot ms s kind) (ms_level ms)).
Proof.
  unfold frame_post. simpl. split; [reflexivity |]. split; [reflexivity |].
  intros _. split; [reflexivity |]. intros i Hi.
  change (ms_captures (set_level (open_slot ms s kind) (ms_level ms)))
    with (ms_captures (set_cap_len (set_cap_init ms (ms_level ms) (Some s))
                                   (ms_level ms) kind)).
  rewrite lookup_set_cap_len_ne by lia.
  apply lookup_set_cap_init_ne. lia.
Qed.

Lemma start_capture_frames (call : continuation) (ms : match_state) (s p : Z) :
  frames call -> frame_post ms (start_capture call ms s p).
Proof.
  intros H. rewrite start_capture_eq.
  destruct (MAXCAPTURES <=? ms_level ms); [apply frame_post_refl |].
  simpl.
  set (kind := if pat_at p =? chr ")" then position else unfinished).
  set (p1 := if pat_at p =? chr ")" then p + 1 else p).
  pose proof (H (open_slot ms s kind) s p1) as (Hd & Hp & Hf).
  pose proof (open_slot_frame ms s kind) as (_ & _ & Ho).
  destruct (Ho eq_refl) as [_ Hslots]. clear Ho.
  destruct (call (open_slot ms s kind) s p1) as [[[e |] | err | | ] ms2];
    simpl in *; try (repeat split; solve [assumption | discriminate]).
  destruct (Hf eq_refl) as [Hl Hc]. clear Hf.
  unfold frame_post. simpl.
  split; [exact Hd |]. split; [exact Hp |]. intros _.
  change (ms_level (open_slot ms s kind)) with (ms_level ms + 1) in *.
  split; [unfold undo_open, ms_level in *; simpl; lia |].
  intros i Hi. unfold undo_open.
  rewrite lookup_set_cap_len_ne by lia.
  change (ms_captures (set_level ms2 (ms_level ms2 - 1))) with (ms_captures ms2).
  rewrite Hc by lia. apply Hslots. exact Hi.
Qed.

Lemma find_unfinished_spec (caps : list capture) (n i : nat) :
  find_unfinished caps n = Some i ->
  (i < n)%nat /\ len (get_cap caps (Z.of_nat i)) = unfinished.
Proof.
  induction n as [| n IH]; simpl; [discriminate |].
  destruct (Z.eqb_spec (len (get_cap caps (Z.of_nat n))) unfinished) as [Heq | Hne].
  - intros [= <-]. split; [lia | exact Heq].
  - intros Hf. apply IH in Hf. split; [lia | tauto].
Qed.

Lemma end_capture_frames (call : continuation) (ms : match_state) (s p : Z) :
  frames call -> frame_post ms (end_capture call ms s p).
Proof.
  intros H. unfold end_capture.
  destruct (find_unfinished _ _) as [i |] eqn:Hfind; [| apply frame_post_refl].
  apply find_unfinished_spec in Hfind. destruct Hfind as [Hi Hlen].
  destruct (init _) as [a |]; [| apply frame_post_refl].
  pose proof (H (set_cap_len ms (Z.of_nat i) (s - a)) s p) as (Hd & Hp & Hf).
  destruct (call _ s p) as [[[e |] | err | | ] ms2];
    simpl in *; try (repeat split; solve [assumption | discriminate]).
  destruct (Hf eq_refl) as [Hl Hc]. clear Hf.
  unfold frame_post. simpl.
  split; [exact Hd |]. split; [exact Hp |]. intros _.
  split; [exact Hl |].
  intros j Hj. destruct (Nat.eq_dec j i) as [-> | Hne].
  - apply lookup_set_cap_len_undo with (v := s - a); [exact Hlen |].
    apply Hc. exact Hj.
  - rewrite lookup_set_cap_len_ne by lia.
    rewrite Hc by exact Hj. apply lookup_set_cap_len_ne. lia.
Qed.

Lemma match_default_frames (call jump : continuation) (ms : match_state) (s p : Z) :
  frames call -> frames jump -> frame_post ms (match_default call jump ms s p).
Proof.
  intros Hc Hj. unfold match_default.
  destruct (classend p) as [ep | err | | ]; try apply frame_post_refl.
  pose proof (singlematch_same ms s p ep) as Hs.
  destruct (singlematch ms s p ep) as [m ms1]. simpl in Hs.
  eapply frame_post_same; [exact Hs |].
  destruct m; simpl.
  - destruct (pat_at ep =? chr "?").
    { pose proof (Hc ms1 (s + 1) (ep + 1)) as H1.
      destruct (call ms1 _ _) as [[[e |] | err | | ] ms2]; try exact H1.
      eapply frame_post_step; [exact H1 | apply Hj]. }
    destruct (pat_at ep =? chr "+"); [apply max_expand_frames; exact Hc |].
    destruct (pat_at ep =? chr "*"); [apply max_expand_frames; exact Hc |].
    destruct (pat_at ep =? chr "-"); [apply min_loop_frames; exact Hc |].
    apply Hj.
  - destruct (_ || _); [apply Hj | apply frame_post_refl].
Qed.

Lemma match_frontier_frames (jump : continuation) (ms : match_state) (s p : Z) :
  frames jump -> frame_post ms (match_frontier jump ms s p).
Proof.
  intros Hj. unfold match_frontier.
  destruct (negb (pat_at p =? chr "[")); [apply frame_post_refl |].
  destruct (classend p) as [ep | err | | ]; try apply frame_post_refl.
  assert (Hs : same_data ms (snd (if s =? s_begin then (0, ms)
                                  else read_subject ms (s - 1)))).
  { destruct (s =? s_begin); [apply same_data_refl | apply same_data_log]. }
  destruct (if s =? s_begin then _ else _) as [previous ms1]. simpl in Hs.
  eapply frame_post_same; [exact Hs |].
  destruct (negb _); [| apply frame_post_refl].
  simpl. eapply frame_post_same; [apply same_data_log |].
  destruct (matchbracketclass _ _ _); [apply Hj | apply frame_post_refl].
Qed.

Lemma match_body_frames (call jump : continuation) (ms : match_state) (s p : Z) :
  frames call -> frames jump -> frame_post ms (match_body call jump ms s p).
Proof.
  intros Hc Hj. unfold match_body.
  pose proof (match_default_frames call jump ms s p Hc Hj) as Hd.
  destruct (p_end <? p); [apply frame_post_refl |].
  destruct (p =? p_end); [repeat split; discriminate |].
  destruct (pat_at p =? chr "("); [apply start_capture_frames; exact Hc |].
  destruct (pat_at p =? chr ")"); [apply end_capture_frames; exact Hc |].
  destruct (pat_at p =? chr "$").
  { destruct (negb _); [exact Hd |].
    destruct (s =? s_end); [repeat split; discriminate | apply frame_post_refl]. }
  destruct (pat_at p =? chr "%"); [| exact Hd].
  destruct (pat_at (p + 1) =? chr "b").
  { pose proof (matchbalance_same ms s (p + 2)) as Hs.
    destruct (matchbalance ms s (p + 2)) as [r ms1]. simpl in Hs.
    eapply frame_post_same; [exact Hs |].
    destruct r as [[e |] | err | | ]; try apply frame_post_refl. apply Hj. }
  destruct (pat_at (p + 1) =? chr "f"); [apply match_frontier_frames; exact Hj |].
  destruct (in_range _ _ _); [| exact Hd].
  pose proof (match_capture_same ms s (pat_at (p + 1))) as Hs.
  destruct (match_capture ms s _) as [r ms1]. simpl in Hs. subst ms1.
  destruct r as [[e |] | err | | ]; try apply frame_post_refl;
    [apply Hj | exact Hd].
Qed.

Lemma match_loop_frames (n : nat) : frames (match_loop n).
Proof.
  induction n as [| n IH]; intros ms s p; simpl; [apply frame_post_refl |].
  apply match_body_frames; [apply with_sentinel_frames |]; exact IH.
Qed.

Lemma match_from_frames : frames match_from.
Proof. intros ms s p. apply match_loop_frames. Qed.

Lemma detail_match_frames : frames detail_match.
Proof. apply with_sentinel_frames, match_from_frames. Qed.

(** ** Invariants of the capture store and of the returned position *)

Definition slots_ok (caps : list capture) : Prop :=
  length caps = Z.to_nat MAXCAPTURES /\ Forall (fun c => position <= len c) caps.

(** Every slot below the level has a start, at or before [s]. *)
Definition live_ok (r : basic_match_result) (s : Z) : Prop :=
  forall i : nat, Z.of_nat i < level r ->
    exists a, init (get_cap (captures r) (Z.of_nat i)) = Some a /\ 0 <= a <= s.

Definition state_ok (ms : match_state) (s : Z) : Prop :=
  0 <= ms_level ms <= MAXCAPTURES /\ slots_ok (ms_captures ms) /\ live_ok (mr ms) s.

Definition sound_post (s : Z) (res : result (option Z) * match_state) : Prop :=
  fst res <> OutOfFuel /\
  0 <= ms_level (snd res) <= MAXCAPTURES /\
  slots_ok (ms_captures (snd res)) /\
  (forall e, fst res = Ok (Some e) -> s <= e <= s_end).

Definition sound_above (p0 : Z) (k : continuation) : Prop :=
  forall ms s p, p0 < p -> state_ok ms s -> 0 <= s <= s_end ->
                 sound_post s (k ms s p).

Lemma state_ok_same (ms ms1 : match_state) (s : Z) :
  same_data ms ms1 -> state_ok ms s -> state_ok ms1 s.
Proof.
  intros [Hmr _]. unfold state_ok, ms_level, ms_captures. rewrite Hmr. tauto.
Qed.

Lemma state_ok_mono (ms : match_state) (s s' : Z) :
  s <= s' -> state_ok ms s -> state_ok ms s'.
Proof.
  intros Hs (Hl & Hc & Hlive). split; [exact Hl |]. split; [exact Hc |].
  intros i Hi. destruct (Hlive i Hi) as (a & Ha & Hb). exists a. split; [exact Ha | lia].
Qed.

Lemma sound_post_here (ms : match_state) (s : Z) (o : result (option Z)) :
  state_ok ms s -> o <> OutOfFuel ->
  (forall e, o = Ok (Some e) -> s <= e <= s_end) ->
  sound_post s (o, ms).
Proof.
  intros (Hl & Hc & _) Ho He.
  split; [exact Ho |]. split; [exact Hl |]. split; [exact Hc | exact He].
Qed.

Lemma sound_post_mono (s s' : Z) (res : result (option Z) * match_state) :
  s <= s' -> sound_post s' res -> sound_post s res.
Proof.
  intros Hs (Ho & Hl & Hc & He).
  split; [exact Ho |]. split; [exact Hl |]. split; [exact Hc |].
  intros e H. specialize (He e H). lia.
Qed.

(** A failed call leaves a state that is as good as the one it got. *)
Lemma state_ok_after_fail (ms ms1 : match_state) (s s' : Z) :
  state_ok ms s -> frame_post ms (Ok None, ms1) -> sound_post s' (Ok None, ms1) ->
  state_ok ms1 s.
Proof.
  intros (Hl & Hc & Hlive) (_ & _ & Hf) (_ & Hl1 & Hc1 & _). simpl in *.
  destruct (Hf eq_refl) as [Hlev Hslots].
  split; [exact Hl1 |]. split; [exact Hc1 |].
  intros i Hi. unfold ms_level in *. rewrite Hlev in Hi.
  destruct (Hlive i Hi) as (a & Ha & Hb). exists a. split; [| exact Hb].
  unfold get_cap in *. rewrite Nat2Z.id in *.
  unfold ms_captures in Hslots. rewrite Hslots by exact Hi. exact Ha.
Qed.

Lemma slots_ok_set_len (ms : match_state) (i v : Z) :
  slots_ok (ms_captures ms) -> position <= v ->
  slots_ok (ms_captures (set_cap_len ms i v)).
Proof.
  intros [Hlen Hall] Hv. unfold set_cap_len, ms_captures. simpl. split.
  - rewrite length_insert. exact Hlen.
  - apply Forall_insert; [exact Hall | exact Hv].
Qed.

Lemma get_cap_len_ok (caps : list capture) (i : Z) :
  slots_ok caps -> position <= len (get_cap caps i).
Proof.
  intros [_ Hall]. unfold get_cap.
  destruct (caps !! Z.to_nat i) as [c |] eqn:Hc.
  - eapply Forall_lookup_1 in Hall; [exact Hall | exact Hc].
  - unfold position, default_capture, unfinished. simpl. lia.
Qed.

Lemma slots_ok_set_init (ms : match_state) (i : Z) (v : option Z) :
  slots_ok (ms_captures ms) -> slots_ok (ms_captures (set_cap_init ms i v)).
Proof.
  intros Hok. pose proof (get_cap_len_ok _ i Hok) as Hl.
  destruct Hok as [Hlen Hall]. unfold set_cap_init, ms_captures. simpl. split.
  - rewrite length_insert. exact Hlen.
  - apply Forall_insert; [exact Hall | exact Hl].
Qed.

Lemma get_cap_set_len (ms : match_state) (i v : Z) (j : Z) :
  0 <= i -> 0 <= j ->
  init (get_cap (ms_captures (set_cap_len ms i v)) j)
  = init (get_cap (ms_captures ms) j).
Proof.
  intros Hi Hj. unfold set_cap_len, ms_captures, get_cap. simpl.
  destruct (Z.eq_dec i j) as [-> | Hne].
  - destruct (captures (mr ms) !! Z.to_nat j) as [c |] eqn:Hc.
    + rewrite list_lookup_insert_eq by (eapply lookup_lt_Some; exact Hc). reflexivity.
    + rewrite list_insert_ge by (apply lookup_ge_None; exact Hc).
      rewrite Hc. reflexivity.
  - rewrite list_lookup_insert_ne by lia. reflexivity.
Qed.

Lemma state_ok_set_len (ms : match_state) (s i v : Z) :
  0 <= i -> position <= v -> state_ok ms s -> state_ok (set_cap_len ms i v) s.
Proof.
  intros Hi Hv (Hl & Hc & Hlive). split; [exact Hl |].
  split; [apply slots_ok_set_len; assumption |].
  intros j Hj. destruct (Hlive j Hj) as (a & Ha & Hb). exists a. split; [| exact Hb].
  change (captures (mr (set_cap_len ms i v))) with (ms_captures (set_cap_len ms i v)).
  rewrite get_cap_set_len by lia. exact Ha.
Qed.

Lemma state_ok_open_slot (ms : match_state) (s kind : Z) :
  state_ok ms s -> 0 <= s -> ms_level ms < MAXCAPTURES -> position <= kind ->
  state_ok (open_slot ms s kind) s.
Proof.
  intros (Hl & Hc & Hlive) Hs Hlt Hk. unfold open_slot.
  split; [unfold ms_level in *; simpl; lia |].
  split.
  { change (slots_ok (ms_captures (set_cap_len (set_cap_init ms (ms_level ms) (Some s))
                                               (ms_level ms) kind))).
    apply slots_ok_set_len; [apply slots_ok_set_init; exact Hc | exact Hk]. }
  intros j Hj.
  change (level (mr (set_level _ (ms_level ms + 1)))) with (ms_level ms + 1) in Hj.
  change (captures (mr (set_level ?m _))) with (ms_captures m).
  rewrite get_cap_set_len by lia.
  destruct (Z.eq_dec (Z.of_nat j) (ms_level ms)) as [Heq | Hne].
  - exists s. split; [| lia].
    unfold set_cap_init, ms_captures, get_cap. simpl.
    rewrite Heq. rewrite list_lookup_insert_eq; [reflexivity |].
    destruct Hc as [Hlen _]. unfold ms_captures in Hlen. rewrite Hlen.
    unfold ms_level in *. lia.
  - destruct (Hlive j) as (a & Ha & Hb); [unfold ms_level in *; lia |].
    exists a. split; [| exact Hb].
    unfold set_cap_init, ms_captures, get_cap in *. simpl.
    rewrite list_lookup_insert_ne by lia. exact Ha.
Qed.

Lemma with_sentinel_sound (body : continuation) (p0 : Z) :
  sound_above p0 body -> sound_above p0 (with_sentinel body).
Proof.
  intros H ms s p Hp Hok Hs. unfold with_sentinel, sentinel_enter.
  destruct (matchdepth ms <=? 0).
  { apply sound_post_here; [exact Hok | discriminate | discriminate]. }
  specialize (H (set_matchdepth ms (matchdepth ms - 1)) s p Hp Hok Hs).
  destruct (body _ s p) as [r ms1]. exact H.
Qed.

Lemma max_try_sound (call : continuation) (p0 : Z) (k : nat)
      (ms : match_state) (s ep : Z) :
  sound_above p0 call -> frames call -> p0 < ep + 1 ->
  state_ok ms s -> 0 <= s -> s + Z.of_nat k <= s_end ->
  sound_post s (max_try call k ms s ep).
Proof.
  intros Hc Hf Hp. revert ms. induction k as [| k IH]; intros ms Hok Hs Hk; simpl.
  - assert (H0 : sound_post (s + Z.of_nat 0) (call ms (s + Z.of_nat 0) (ep + 1))).
    { apply Hc; [exact Hp | eapply state_ok_mono; [| exact Hok]; lia | lia]. }
    apply sound_post_mono with (s := s) in H0; [| lia].
    destruct (call ms _ _) as [[[e |] | err | | ] ms1]; exact H0.
  - assert (H1 : sound_post (s + Z.of_nat (S k)) (call ms (s + Z.of_nat (S k)) (ep + 1))).
    { apply Hc; [exact Hp | eapply state_ok_mono; [| exact Hok]; lia | lia]. }
    pose proof (Hf ms (s + Z.of_nat (S k)) (ep + 1)) as Hfr.
    apply sound_post_mono with (s := s) in H1; [| lia].
    destruct (call ms _ _) as [[[e |] | err | | ] ms1]; try exact H1.
    apply IH; [| exact Hs | lia].
    eapply state_ok_after_fail; [exact Hok | exact Hfr | exact H1].
Qed.

Lemma max_expand_sound (call : continuation) (p0 : Z)
      (ms : match_state) (s p ep : Z) :
  sound_above p0 call -> frames call -> p0 < ep + 1 ->
  state_ok ms s -> 0 <= s <= s_end ->
  sound_post s (max_expand call ms s p ep).
Proof.
  intros Hc Hf Hp Hok Hs. unfold max_expand.
  pose proof (max_count_same (Z.to_nat (s_end - s)) ms s p ep 0) as Hsame.
  pose proof (max_count_bounds (Z.to_nat (s_end - s)) ms s p ep 0) as Hb.
  destruct (max_count _ _ _ _ _ _) as [i ms1]. simpl in *.
  lapply Hb; [clear Hb; intros Hb | lia].
  lapply Hb; [clear Hb; intros Hb | lia].
  lapply Hb; [clear Hb; intros Hb | f_equal; lia].
  eapply max_try_sound; try eassumption; try lia.
  eapply state_ok_same; eassumption.
Qed.

Lemma min_loop_sound (call : continuation) (p0 : Z) (n : nat)
      (ms : match_state) (s p ep : Z) :
  sound_above p0 call -> frames call -> p0 < ep + 1 ->
  state_ok ms s -> 0 <= s <= s_end -> n = Z.to_nat (s_end - s) ->
  sound_post s (min_loop call n ms s p ep).
Proof.
  intros Hc Hf Hp. revert ms s.
  induction n as [| n IH]; intros ms s Hok Hs Hn; simpl;
    pose proof (Hc ms s (ep + 1) Hp Hok Hs) as H0;
    pose proof (Hf ms s (ep + 1)) as Hfr;
    destruct (call ms s _) as [[[e |] | err | | ] ms1]; try exact H0;
    pose proof (state_ok_after_fail _ _ _ _ Hok Hfr H0) as Hok1;
    pose proof (singlematch_same ms1 s p ep) as Hsame;
    pose proof (singlematch_true ms1 s p ep) as Htrue;
    destruct (singlematch ms1 s p ep) as [[|] ms2]; simpl in *;
    try (apply sound_post_here;
         [eapply state_ok_same; eassumption | discriminate | discriminate]).
  - specialize (Htrue eq_refl). lia.
  - specialize (Htrue eq_refl).
    apply sound_post_mono with (s' := s + 1); [lia |].
    apply IH; [| lia | lia].
    eapply state_ok_mono; [| eapply state_ok_same; eassumption]. lia.
Qed.

Lemma start_capture_sound (call : continuation) (p0 : Z)
      (ms : match_state) (s p : Z) :
  sound_above p0 call -> frames call -> p0 < p ->
  state_ok ms s -> 0 <= s <= s_end ->
  sound_post s (start_capture call ms s p).
Proof.
  intros Hc Hf Hp Hok Hs. rewrite start_capture_eq.
  destruct (Z.leb_spec MAXCAPTURES (ms_level ms)) as [Hfull | Hroom].
  { apply sound_post_here; [exact Hok | discriminate | discriminate]. }
  simpl.
  set (kind := if pat_at p =? chr ")" then position else unfinished).
  set (p1 := if pat_at p =? chr ")" then p + 1 else p).
  assert (Hkind : position <= kind)
    by (subst kind; destruct (pat_at p =? chr ")"); unfold position, unfinished; lia).
  assert (Hp1 : p0 < p1) by (subst p1; destruct (pat_at p =? chr ")"); lia).
  pose proof (state_ok_open_slot ms s kind Hok (proj1 Hs) Hroom Hkind) as Hok1.
  pose proof (Hc _ s p1 Hp1 Hok1 Hs) as H1.
  pose proof (Hf (open_slot ms s kind) s p1) as (_ & _ & Hfr).
  destruct (call (open_slot ms s kind) s p1) as [[[e |] | err | | ] ms2];
    try exact H1.
  destruct H1 as (_ & Hl & Hslots & _). simpl in *.
  destruct (Hfr eq_refl) as [Hlev _].
  change (ms_level (open_slot ms s kind)) with (ms_level ms + 1) in Hlev.
  destruct Hok as (Hl0 & _ & _).
  split; [discriminate |].
  split; [unfold undo_open, ms_level in *; simpl; lia |].
  split; [| discriminate].
  apply slots_ok_set_len; [exact Hslots | unfold position, unfinished; lia].
Qed.

Lemma end_capture_sound (call : continuation) (p0 : Z)
      (ms : match_state) (s p : Z) :
  sound_above p0 call -> frames call -> p0 < p ->
  state_ok ms s -> 0 <= s <= s_end ->
  sound_post s (end_capture call ms s p).
Proof.
  intros Hc Hf Hp Hok Hs. unfold end_capture.
  destruct (find_unfinished _ _) as [i |] eqn:Hfind;
    [| apply sound_post_here; [exact Hok | discriminate | discriminate]].
  apply find_unfinished_spec in Hfind. destruct Hfind as [Hi _].
  destruct (init _) as [a |] eqn:Ha;
    [| apply sound_post_here; [exact Hok | discriminate | discriminate]].
  assert (Hstart : 0 <= a <= s).
  { destruct Hok as (_ & _ & Hlive). destruct (Hlive i) as (a' & Ha' & Hb).
    - unfold ms_level in Hi. lia.
    - unfold ms_captures in Ha. congruence. }
  assert (Hok1 : state_ok (set_cap_len ms (Z.of_nat i) (s - a)) s).
  { apply state_ok_set_len; [lia | unfold position; lia | exact Hok]. }
  pose proof (Hc _ s p Hp Hok1 Hs) as H1.
  destruct (call _ s p) as [[[e |] | err | | ] ms2]; try exact H1.
  destruct H1 as (_ & Hl & Hslots & _). simpl in *.
  split; [discriminate |]. split; [exact Hl |]. split; [| discriminate].
  apply slots_ok_set_len; [exact Hslots | unfold position, unfinished; lia].
Qed.

Lemma match_default_sound (call jump : continuation) (ms : match_state) (s p : Z) :
  sound_above p call -> sound_above p jump -> frames call -> p < p_end ->
  state_ok ms s -> 0 <= s <= s_end ->
  sound_post s (match_default call jump ms s p).
Proof.
  intros Hc Hj Hf Hp Hok Hs. unfold match_default.
  pose proof (classend_defined p Hp) as [Hfuel _].
  destruct (classend p) as [ep | err | | ] eqn:Hep; try congruence;
    try (apply sound_post_here; [exact Hok | discriminate | discriminate]).
  apply classend_bounds in Hep; [| exact Hp].
  pose proof (singlematch_same ms s p ep) as Hsame.
  pose proof (singlematch_true ms s p ep) as Htrue.
  destruct (singlematch ms s p ep) as [m ms1]. simpl in Hsame, Htrue.
  pose proof (state_ok_same _ _ _ Hsame Hok) as Hok1.
  destruct m; simpl.
  - specialize (Htrue eq_refl).
    assert (Hok2 : state_ok ms1 (s + 1)) by (eapply state_ok_mono; [| exact Hok1]; lia).
    destruct (pat_at ep =? chr "?").
    { assert (H1 : sound_post (s + 1) (call ms1 (s + 1) (ep + 1)))
        by (apply Hc; [lia | exact Hok2 | lia]).
      pose proof (Hf ms1 (s + 1) (ep + 1)) as Hfr.
      apply sound_post_mono with (s := s) in H1; [| lia].
      destruct (call ms1 _ _) as [[[e |] | err | | ] ms2]; try exact H1.
      apply Hj; [lia | | exact Hs].
      eapply state_ok_after_fail; [exact Hok1 | exact Hfr | exact H1]. }
    destruct (pat_at ep =? chr "+").
    { apply sound_post_mono with (s' := s + 1); [lia |].
      eapply max_expand_sound; try eassumption; lia. }
    destruct (pat_at ep =? chr "*").
    { eapply max_expand_sound; try eassumption; lia. }
    destruct (pat_at ep =? chr "-").
    { eapply min_loop_sound; try eassumption; try lia; reflexivity. }
    apply sound_post_mono with (s' := s + 1); [lia |].
    apply Hj; [lia | exact Hok2 | lia].
  - destruct (_ || _).
    + apply Hj; [lia | exact Hok1 | exact Hs].
    + apply sound_post_here; [exact Hok1 | discriminate | discriminate].
Qed.

Lemma match_frontier_sound (jump : continuation) (p0 : Z)
      (ms : match_state) (s p : Z) :
  sound_above p0 jump -> p0 < p ->
  state_ok ms s -> 0 <= s <= s_end ->
  sound_post s (match_frontier jump ms s p).
Proof.
  intros Hj Hp Hok Hs. unfold match_frontier.
  destruct (pat_at p =? chr "[") eqn:Hbr; simpl;
    [| apply sound_post_here; [exact Hok | discriminate | discriminate]].
  apply pat_at_is in Hbr; [| discriminate].
  pose proof (classend_defined p (proj2 Hbr)) as [Hfuel _].
  destruct (classend p) as [ep | err | | ] eqn:Hep; try congruence;
    try (apply sound_post_here; [exact Hok | discriminate | discriminate]).
  apply classend_bounds in Hep; [| lia].
  assert (Hsame : same_data ms (snd (if s =? s_begin then (0, ms)
                                     else read_subject ms (s - 1)))).
  { destruct (s =? s_begin); [apply same_data_refl | apply same_data_log]. }
  destruct (if s =? s_begin then _ else _) as [previous ms1]. simpl in Hsame.
  pose proof (state_ok_same _ _ _ Hsame Hok) as Hok1.
  destruct (negb _);
    [| apply sound_post_here; [exact Hok1 | discriminate | discriminate]].
  simpl.
  pose proof (state_ok_same _ _ _ (same_data_log ms1 s) Hok1) as Hok2.
  destruct (matchbracketclass _ _ _).
  - apply Hj; [lia | exact Hok2 | exact Hs].
  - apply sound_post_here; [exact Hok2 | discriminate | discriminate].
Qed.

Lemma match_body_sound (call jump : continuation) (ms : match_state) (s p : Z) :
  sound_above p call -> sound_above p jump -> frames call ->
  state_ok ms s -> 0 <= s <= s_end ->
  sound_post s (match_body call jump ms s p).
Proof.
  intros Hc Hj Hf Hok Hs. unfold match_body.
  destruct (Z.ltb_spec p_end p);
    [apply sound_post_here; [exact Hok | discriminate | discriminate] |].
  destruct (Z.eqb_spec p p_end) as [Hend | Hnotend];
    [apply sound_post_here; [exact Hok | discriminate | intros e [= <-]; lia] |].
  assert (Hp : p < p_end) by lia.
  pose proof (match_default_sound call jump ms s p Hc Hj Hf Hp Hok Hs) as Hd.
  destruct (pat_at p =? chr "(");
    [eapply start_capture_sound; try eassumption; lia |].
  destruct (pat_at p =? chr ")");
    [eapply end_capture_sound; try eassumption; lia |].
  destruct (pat_at p =? chr "$").
  { destruct (negb _); [exact Hd |].
    destruct (s =? s_end);
      apply sound_post_here; try exact Hok; try discriminate.
    intros e [= <-]; lia. }
  destruct (pat_at p =? chr "%"); [| exact Hd].
  destruct (pat_at (p + 1) =? chr "b").
  { pose proof (matchbalance_same ms s (p + 2)) as Hsame.
    pose proof (matchbalance_bounds ms s (p + 2)) as Hb.
    pose proof (matchbalance_defined ms s (p + 2)) as [Hfuel _].
    destruct (matchbalance ms s (p + 2)) as [r ms1]. simpl in *.
    pose proof (state_ok_same _ _ _ Hsame Hok) as Hok1.
    destruct r as [[e |] | err | | ]; try congruence;
      try (apply sound_post_here; [exact Hok1 | discriminate | discriminate]).
    specialize (Hb e eq_refl).
    apply sound_post_mono with (s' := e); [lia |].
    apply Hj; [lia | eapply state_ok_mono; [| exact Hok1]; lia | lia]. }
  destruct (pat_at (p + 1) =? chr "f");
    [eapply match_frontier_sound; try eassumption; lia |].
  destruct (in_range _ _ _); [| exact Hd].
  pose proof (match_capture_same ms s (pat_at (p + 1))) as Hsame.
  pose proof (match_capture_bounds ms s (pat_at (p + 1))) as Hb.
  assert (Hfuel : fst (match_capture ms s (pat_at (p + 1))) <> OutOfFuel).
  { unfold match_capture. destruct (_ || _); [discriminate |].
    destruct (_ <=? _); [| discriminate].
    destruct (init _); [| discriminate]. destruct (memcmp_eq _ _ _); discriminate. }
  destruct (match_capture ms s _) as [r ms1]. simpl in *. subst ms1.
  destruct r as [[e |] | err | | ].
  - specialize (Hb e Hs eq_refl).
    apply sound_post_mono with (s' := e); [lia |].
    apply Hj; [lia | eapply state_ok_mono; [| exact Hok]; lia | lia].
  - exact Hd.
  - apply sound_post_here; [exact Hok | discriminate | discriminate].
  - apply sound_post_here; [exact Hok | discriminate | discriminate].
  - congruence.
Qed.

Lemma match_loop_sound (n : nat) (ms : match_state) (s p : Z) :
  (fuel_for p <= n)%nat -> state_ok ms s -> 0 <= s <= s_end ->
  sound_post s (match_loop n ms s p).
Proof.
  revert ms s p. induction n as [| n IH]; intros ms s p Hn Hok Hs.
  { unfold fuel_for in Hn. lia. }
  simpl. destruct (Z.ltb_spec p_end p) as [Hout | Hin].
  { unfold match_body. destruct (Z.ltb_spec p_end p); [| lia].
    apply sound_post_here; [exact Hok | discriminate | discriminate]. }
  assert (Hk : sound_above p (match_loop n)).
  { intros ms' s' p' Hp' Hok' Hs'. apply IH; [| exact Hok' | exact Hs'].
    unfold fuel_for in *. lia. }
  apply match_body_sound; try assumption.
  - apply with_sentinel_sound. exact Hk.
  - apply with_sentinel_frames, match_loop_frames.
Qed.

Lemma match_from_sound (p0 : Z) : sound_above p0 match_from.
Proof.
  intros ms s p _ Hok Hs. apply match_loop_sound; [lia | exact Hok | exact Hs].
Qed.

Lemma detail_match_sound (ms : match_state) (s p : Z) :
  state_ok ms s -> 0 <= s <= s_end -> sound_post s (detail_match ms s p).
Proof.
  intros Hok Hs.
  apply (with_sentinel_sound match_from (p - 1) (match_from_sound (p - 1)));
    [lia | exact Hok | exact Hs].
Qed.

(** ** Dispatch of [match] on the current pattern unit *)

Lemma match_from_open (ms : match_state) (s p : Z) :
  pat_at p = chr "(" ->
  match_from ms s p = start_capture detail_match ms s (p + 1).
Proof.
  intros Hc. rewrite match_from_unfold. unfold match_body.
  assert (Hp : 0 <= p < p_end)
    by (apply (pat_at_is p (chr "(")); [apply Z.eqb_eq; exact Hc | discriminate]).
  destruct (Z.ltb_spec p_end p); [lia |].
  destruct (Z.eqb_spec p p_end); [lia |].
  rewrite Hc. reflexivity.
Qed.

Lemma match_from_close (ms : match_state) (s p : Z) :
  pat_at p = chr ")" ->
  match_from ms s p = end_capture detail_match ms s (p + 1).
Proof.
  intros Hc. rewrite match_from_unfold. unfold match_body.
  assert (Hp : 0 <= p < p_end)
    by (apply (pat_at_is p (chr ")")); [apply Z.eqb_eq; exact Hc | discriminate]).
  destruct (Z.ltb_spec p_end p); [lia |].
  destruct (Z.eqb_spec p p_end); [lia |].
  rewrite Hc. reflexivity.
Qed.

(** ** The depth counter *)



(** ** Undo of captures on backtrack *)

(** The slots that are meaningful: the first [level] ones. *)
Definition live_captures (ms : match_state) : list capture :=
  take (Z.to_nat (ms_level ms)) (ms_captures ms).

Lemma frame_post_live (ms ms' : match_state) :
  frame_post ms (Ok None, ms') ->
  ms_level ms' = ms_level ms /\ live_captures ms' = live_captures ms.
Proof.
  intros (_ & _ & Hf). destruct (Hf eq_refl) as [Hl Hc]. simpl in *.
  split; [exact Hl |]. unfold live_captures. rewrite Hl.
  apply list_eq. intros i.
  destruct (Nat.lt_ge_cases i (Z.to_nat (ms_level ms))) as [Hlt | Hge].
  - rewrite !lookup_take_lt by exact Hlt. apply Hc. lia.
  - rewrite !lookup_take_ge by exact Hge. reflexivity.
Qed.

Lemma find_unfinished_highest (caps : list capture) (n i j : nat) :
  find_unfinished caps n = Some i -> (i < j < n)%nat ->
  len (get_cap caps (Z.of_nat j)) <> unfinished.
Proof.
  induction n as [| n IH]; simpl; [discriminate |].
  destruct (Z.eqb_spec (len (get_cap caps (Z.of_nat n))) unfinished) as [Heq | Hne].
  - intros [= <-]. lia.
  - intros Hf Hj. destruct (Nat.eq_dec j n) as [-> | Hjn]; [exact Hne |].
    apply IH; [exact Hf | lia].
Qed.

Lemma find_unfinished_none (caps : list capture) (n j : nat) :
  find_unfinished caps n = None -> (j < n)%nat ->
  len (get_cap caps (Z.of_nat j)) <> unfinished.
Proof.
  induction n as [| n IH]; simpl; [lia |].
  destruct (Z.eqb_spec (len (get_cap caps (Z.of_nat n))) unfinished) as [Heq | Hne];
    [discriminate |].
  intros Hf Hj. destruct (Nat.eq_dec j n) as [-> | Hjn]; [exact Hne |].
  apply IH; [exact Hf | lia].
Qed.

Lemma get_cap_set_len_eq (ms : match_state) (i v : Z) :
  (Z.to_nat i < length (ms_captures ms))%nat ->
  get_cap (ms_captures (set_cap_len ms i v)) i
  = {| init := init (get_cap (ms_captures ms) i); len := v |}.
Proof.
  intros Hi. unfold set_cap_len, ms_captures, get_cap in *. simpl.
  rewrite list_lookup_insert_eq by exact Hi. reflexivity.
Qed.

Lemma get_cap_set_init_eq (ms : match_state) (i : Z) (v : option Z) :
  (Z.to_nat i < length (ms_captures ms))%nat ->
  init (get_cap (ms_captures (set_cap_init ms i v)) i) = v.
Proof.
  intros Hi. unfold set_cap_init, ms_captures, get_cap in *. simpl.
  rewrite list_lookup_insert_eq by exact Hi. reflexivity.
Qed.

Lemma get_cap_open_slot (ms : match_state) (s kind : Z) :
  0 <= ms_level ms < MAXCAPTURES -> slots_ok (ms_captures ms) ->
  get_cap (ms_captures (open_slot ms s kind)) (ms_level ms)
  = {| init := Some s; len := kind |}.
Proof.
  intros Hl [Hlen _]. unfold open_slot.
  change (ms_captures (set_level ?m _)) with (ms_captures m).
  assert (Hi : (Z.to_nat (ms_level ms) < length (ms_captures ms))%nat)
    by (rewrite Hlen; unfold MAXCAPTURES in *; lia).
  rewrite get_cap_set_len_eq.
  - rewrite get_cap_set_init_eq by exact Hi. reflexivity.
  - unfold set_cap_init, ms_captures in *. simpl. rewrite length_insert. exact Hi.
Qed.

(** After a failed remainder the slot that was opened holds the recorded
    start and is Unfinished. *)
Lemma get_cap_undo_open (ms ms2 : match_state) (s kind : Z) :
  0 <= ms_level ms < MAXCAPTURES -> slots_ok (ms_captures ms) ->
  frame_post (open_slot ms s kind) (Ok None, ms2) ->
  get_cap (ms_captures (undo_open ms2)) (ms_level ms)
  = {| init := Some s; len := unfinished |}.
Proof.
  intros Hl Hslots (_ & _ & Hf). destruct (Hf eq_refl) as [Hlev Hc]. simpl in *.
  change (ms_level (open_slot ms s kind)) with (ms_level ms + 1) in *.
  pose proof (get_cap_open_slot ms s kind Hl Hslots) as Hopen.
  specialize (Hc (Z.to_nat (ms_level ms))). lapply Hc; [clear Hc; intros Hc | lia].
  assert (Hsame : get_cap (ms_captures ms2) (ms_level ms)
                  = {| init := Some s; len := kind |}).
  { unfold get_cap in *. rewrite Hc. exact Hopen. }
  assert (Hi : (Z.to_nat (ms_level ms) < length (ms_captures ms2))%nat).
  { destruct (ms_captures ms2 !! Z.to_nat (ms_level ms)) as [c |] eqn:Hlook.
    - eapply lookup_lt_Some. exact Hlook.
    - unfold get_cap in Hopen. rewrite <- Hc in Hopen. discriminate. }
  unfold undo_open. rewrite Hlev. replace (ms_level ms + 1 - 1) with (ms_level ms) by lia.
  rewrite get_cap_set_len_eq by exact Hi.
  change (ms_captures (set_level ms2 (ms_level ms))) with (ms_captures ms2).
  rewrite Hsame. reflexivity.
Qed.

(** C7, as amended.  Opening a capture at level 32 signals
    [capture_too_many]; otherwise the start is recorded in the slot at
    [level], the slot is marked Position (and the [)] that follows is
    consumed) or Unfinished, the level is incremented, and when the
    remainder fails the level is decremented and the slot is reset to
    Unfinished, keeping the recorded start.  Closing takes the
    highest-indexed Unfinished slot below the level (none:
    [capture_invalid_pattern]), sets its length to the current position
    minus its start, and resets it to Unfinished when the remainder fails.
    On failure the level and the slots below the level are exactly as
    before the step. *)
Theorem capture_undo_on_backtrack (ms : match_state) (s p : Z) :
  (MAXCAPTURES <= ms_level ms ->
   start_capture detail_match ms s p = (Throw capture_too_many, ms)) /\
  (0 <= ms_level ms < MAXCAPTURES -> slots_ok (ms_captures ms) ->
   let close := pat_at p =? chr ")" in
   let kind := if close then position else unfinished in
   let ms1 := open_slot ms s kind in
   let p1 := if close then p + 1 else p in
   ms_level ms1 = ms_level ms + 1 /\
   get_cap (ms_captures ms1) (ms_level ms) = {| init := Some s; len := kind |} /\
   live_captures (set_level ms1 (ms_level ms)) = live_captures ms /\
   (fst (detail_match ms1 s p1) <> Ok None ->
    start_capture detail_match ms s p = detail_match ms1 s p1) /\
   (forall ms2, detail_match ms1 s p1 = (Ok None, ms2) ->
      start_capture detail_match ms s p = (Ok None, undo_open ms2) /\
      ms_level (undo_open ms2) = ms_level ms /\
      live_captures (undo_open ms2) = live_captures ms /\
      get_cap (ms_captures (undo_open ms2)) (ms_level ms)
      = {| init := Some s; len := unfinished |})) /\
  (find_unfinished (ms_captures ms) (Z.to_nat (ms_level ms)) = None ->
   (forall j : nat, Z.of_nat j < ms_level ms ->
      len (get_cap (ms_captures ms) (Z.of_nat j)) <> unfinished) /\
   end_capture detail_match ms s p = (Throw capture_invalid_pattern, ms)) /\
  (forall (i : nat) (a : Z),
     find_unfinished (ms_captures ms) (Z.to_nat (ms_level ms)) = Some i ->
     init (get_cap (ms_captures ms) (Z.of_nat i)) = Some a ->
     let ms1 := set_cap_len ms (Z.of_nat i) (s - a) in
     (Z.of_nat i < ms_level ms /\
      len (get_cap (ms_captures ms) (Z.of_nat i)) = unfinished /\
      forall j : nat, (i < j)%nat -> Z.of_nat j < ms_level ms ->
        len (get_cap (ms_captures ms) (Z.of_nat j)) <> unfinished) /\
     (fst (detail_match ms1 s p) <> Ok None ->
      end_capture detail_match ms s p = detail_match ms1 s p) /\
     (forall ms2, detail_match ms1 s p = (Ok None, ms2) ->
        end_capture detail_match ms s p
        = (Ok None, set_cap_len ms2 (Z.of_nat i) unfinished) /\
        ms_level (set_cap_len ms2 (Z.of_nat i) unfinished) = ms_level ms /\
        live_captures (set_cap_len ms2 (Z.of_nat i) unfinished) = live_captures ms)).
Proof.
  split; [| split; [| split]].
  - intros H. rewrite start_capture_eq.
    destruct (Z.leb_spec MAXCAPTURES (ms_level ms)); [reflexivity | lia].
  - intros Hl Hslots. cbv zeta.
    set (kind := if pat_at p =? chr ")" then position else unfinished).
    set (p1 := if pat_at p =? chr ")" then p + 1 else p).
    split; [reflexivity |].
    split; [apply get_cap_open_slot; assumption |].
    split; [apply frame_post_live, open_slot_frame |].
    pose proof (start_capture_frames detail_match ms s p detail_match_frames) as Hfr.
    pose proof (detail_match_frames (open_slot ms s kind) s p1) as Hinner.
    rewrite start_capture_eq in Hfr |- *.
    destruct (Z.leb_spec MAXCAPTURES (ms_level ms)); [lia |].
    cbv zeta in Hfr |- *. fold kind p1 in Hfr |- *.
    destruct (detail_match (open_slot ms s kind) s p1) as [[[e |] | err | | ] ms2];
      cbn [fst].
    all: split; [intros; try reflexivity; congruence |].
    all: intros ms2' [= <-].
    split; [reflexivity |].
    split; [apply frame_post_live; exact Hfr |].
    split; [apply frame_post_live; exact Hfr |].
    eapply get_cap_undo_open; eassumption.
  - intros Hnone. split.
    + intros j Hj. eapply find_unfinished_none; [exact Hnone | lia].
    + unfold end_capture. rewrite Hnone. reflexivity.
  - intros i a Hfind Ha. simpl.
    pose proof (end_capture_frames detail_match ms s p detail_match_frames) as Hfr.
    unfold end_capture in Hfr |- *. rewrite Hfind, Ha in Hfr |- *.
    split.
    { pose proof (find_unfinished_spec _ _ _ Hfind) as [Hi Hlen].
      split; [lia |]. split; [exact Hlen |].
      intros j Hij Hj. eapply find_unfinished_highest; [exact Hfind | lia]. }
    destruct (detail_match _ s p) as [[[e |] | err | | ] ms2]; simpl.
    all: split; [intros; try reflexivity; congruence |].
    all: intros ms2' [= <-].
    split; [reflexivity |]. apply frame_post_live. exact Hfr.
Qed.

(** ** The search driver *)

(** The state at the start of an attempt: [reprepstate] has run. *)
Definition fresh (ms : match_state) : Prop :=
  ms_level ms = 0 /\ pos (mr ms) = (-1, -1) /\ slots_ok (ms_captures ms).

Lemma fresh_state_ok (ms : match_state) (s : Z) : fresh ms -> state_ok ms s.
Proof.
  intros (Hl & _ & Hc). split; [rewrite Hl; unfold MAXCAPTURES; lia |].
  split; [exact Hc |]. intros i Hi. unfold ms_level in Hl. lia.
Qed.

Lemma fresh_new (r : basic_match_result) :
  slots_ok (captures r) -> fresh (new_match_state r).
Proof. intros H. split; [reflexivity |]. split; [reflexivity | exact H]. Qed.

Lemma fresh_reprep (ms : match_state) :
  slots_ok (ms_captures ms) -> fresh (reprepstate ms).
Proof. intros H. split; [reflexivity |]. split; [reflexivity | exact H]. Qed.

Lemma slots_ok_empty : slots_ok (captures empty_match_result).
Proof.
  split; [apply length_replicate |].
  apply Forall_replicate. unfold position, default_capture, unfinished. simpl. lia.
Qed.

Lemma has_unfinished_false (ms : match_state) (i : nat) :
  has_unfinished ms = false ->
  (Z.to_nat (ms_level ms) <= length (ms_captures ms))%nat ->
  Z.of_nat i < ms_level ms ->
  len (get_cap (ms_captures ms) (Z.of_nat i)) <> unfinished.
Proof.
  unfold has_unfinished, get_cap. intros Hex Hlen Hi. rewrite Nat2Z.id.
  destruct (ms_captures ms !! i) as [c |] eqn:Hc.
  - intros Heq.
    assert (Hin : In c (take (Z.to_nat (ms_level ms)) (ms_captures ms))).
    { apply list_elem_of_In. apply list_elem_of_lookup. exists i.
      rewrite lookup_take_lt by lia. exact Hc. }
    assert (Htrue : existsb (fun c => len c =? unfinished)
                            (take (Z.to_nat (ms_level ms)) (ms_captures ms)) = true).
    { apply existsb_exists. exists c. split; [exact Hin | apply Z.eqb_eq; exact Heq]. }
    congruence.
  - apply lookup_ge_None in Hc. lia.
Qed.

Lemma search_loop_spec (n : nat) (ms ms' : match_state) (s : Z) :
  fresh ms -> 0 <= s -> s + Z.of_nat n <= s_end + 1 ->
  search_loop n ms s = (Ok tt, ms') ->
  fresh ms' \/
  exists s1 e ms0 ms1,
    fresh ms0 /\ 0 <= s1 <= s_end /\
    detail_match ms0 s1 p_begin = (Ok (Some e), ms1) /\
    has_unfinished ms1 = false /\
    ms' = install_whole_match (set_pos ms1 (s1 - s_begin, e - s_begin)) s1 e.
Proof.
  revert ms s. induction n as [| n IH]; intros ms s Hfresh Hs Hn; simpl.
  { intros [= <-]. left. exact Hfresh. }
  assert (Hs' : 0 <= s <= s_end) by lia.
  pose proof (detail_match_sound ms s p_begin (fresh_state_ok ms s Hfresh) Hs') as Hsound.
  pose proof (detail_match_frames ms s p_begin) as Hframe.
  destruct (detail_match ms s p_begin) as [[[e |] | err | | ] ms1] eqn:Hcore;
    try discriminate.
  - unfold on_success, check_captures.
    destruct (has_unfinished ms1) eqn:Hun; [discriminate |].
    intros [= <-]. right. exists s, e, ms, ms1. tauto.
  - destruct Hsound as (_ & _ & Hslots & _).
    destruct Hframe as (_ & Hpos & Hf). destruct (Hf eq_refl) as [Hlev _].
    simpl in *. destruct Hfresh as (Hl0 & Hp0 & _).
    destruct anchor.
    + intros [= <-]. left. split; [congruence |]. split; [congruence | exact Hslots].
    + apply IH; [apply fresh_reprep; exact Hslots | lia | lia].
Qed.

(** What the search returns. *)
Definition result_inv (r : basic_match_result) : Prop :=
  0 <= level r <= MAXCAPTURES /\
  Forall (fun c => len c = unfinished \/ len c = position \/ 0 <= len c) (captures r) /\
  (forall i : nat, Z.of_nat i < level r ->
     len (get_cap (captures r) (Z.of_nat i)) <> unfinished) /\
  (pos r = (-1, -1) \/ 0 <= fst (pos r) <= snd (pos r) /\ snd (pos r) <= s_end).

Lemma slots_ok_lengths (caps : list capture) :
  slots_ok caps ->
  Forall (fun c => len c = unfinished \/ len c = position \/ 0 <= len c) caps.
Proof.
  intros [_ H]. eapply Forall_impl; [exact H |].
  intros c Hc. unfold position, unfinished in *. simpl in Hc. lia.
Qed.

Lemma install_whole_match_level (ms : match_state) (s e : Z) (pp : Z * Z) :
  ms_level (install_whole_match (set_pos ms pp) s e)
  = if ms_level ms =? 0 then 1 else ms_level ms.
Proof.
  unfold install_whole_match, ms_level. simpl.
  destruct (Z.eqb_spec (level (mr ms)) 0) as [-> | Hne]; reflexivity.
Qed.

Lemma install_whole_match_captures (ms : match_state) (s e : Z) (pp : Z * Z) :
  ms_captures (install_whole_match (set_pos ms pp) s e)
  = if ms_level ms =? 0
    then ms_captures (set_cap_len (set_cap_init ms 0 (Some s)) 0 (e - s))
    else ms_captures ms.
Proof.
  unfold install_whole_match, ms_level. simpl.
  destruct (Z.eqb_spec (level (mr ms)) 0) as [-> | Hne]; reflexivity.
Qed.

Lemma install_whole_match_pos (ms : match_state) (s e : Z) (pp : Z * Z) :
  pos (mr (install_whole_match (set_pos ms pp) s e)) = pp.
Proof.
  unfold install_whole_match, ms_level. simpl.
  destruct (level (mr ms) =? 0); reflexivity.
Qed.

Lemma get_cap_whole_match (ms : match_state) (s e : Z) :
  slots_ok (ms_captures ms) ->
  get_cap (ms_captures (set_cap_len (set_cap_init ms 0 (Some s)) 0 (e - s))) 0
  = {| init := Some s; len := e - s |}.
Proof.
  intros [Hlen _]. unfold set_cap_len, set_cap_init, ms_captures, get_cap in *.
  simpl. rewrite list_lookup_insert_eq.
  - rewrite list_lookup_insert_eq; [reflexivity |].
    rewrite Hlen. unfold MAXCAPTURES. lia.
  - rewrite length_insert, Hlen. unfold MAXCAPTURES. lia.
Qed.

Lemma install_whole_match_inv (ms : match_state) (s e : Z) :
  0 <= ms_level ms <= MAXCAPTURES -> slots_ok (ms_captures ms) ->
  has_unfinished ms = false -> 0 <= s <= e -> e <= s_end ->
  result_inv (mr (install_whole_match (set_pos ms (s - s_begin, e - s_begin)) s e)).
Proof.
  intros Hl Hslots Hun Hs He. unfold result_inv.
  change (level (mr ?m)) with (ms_level m).
  change (captures (mr ?m)) with (ms_captures m).
  rewrite install_whole_match_level, install_whole_match_captures,
    install_whole_match_pos.
  destruct (Z.eqb_spec (ms_level ms) 0) as [Hzero | Hpos].
  - assert (Hslots2 : slots_ok (ms_captures (set_cap_len (set_cap_init ms 0 (Some s))
                                                         0 (e - s)))).
    { apply slots_ok_set_len; [apply slots_ok_set_init; exact Hslots |].
      unfold position; lia. }
    split; [unfold MAXCAPTURES; lia |].
    split; [apply slots_ok_lengths; exact Hslots2 |].
    split.
    + intros i Hi. assert (i = 0%nat) as -> by lia.
      change (Z.of_nat 0) with 0.
      rewrite get_cap_whole_match by exact Hslots. simpl. unfold unfinished. lia.
    + right. simpl. unfold s_begin. lia.
  - split; [exact Hl |].
    split; [apply slots_ok_lengths; exact Hslots |].
    split.
    + intros i Hi. apply (has_unfinished_false ms i Hun); [| exact Hi].
      destruct Hslots as [Hlen _]. rewrite Hlen. unfold MAXCAPTURES in *. lia.
    + right. simpl. unfold s_begin. lia.
Qed.

Lemma fresh_result_inv (ms : match_state) : fresh ms -> result_inv (mr ms).
Proof.
  intros (Hl & Hp & Hslots). unfold ms_level in Hl.
  split; [rewrite Hl; unfold MAXCAPTURES; lia |].
  split; [apply slots_ok_lengths; exact Hslots |].
  split; [intros i Hi; lia | left; exact Hp].
Qed.

Lemma lex_match_state_spec (ms' : match_state) :
  lex_match_state = (Ok tt, ms') ->
  fresh ms' \/
  exists s1 e ms0 ms1,
    fresh ms0 /\ 0 <= s1 <= s_end /\
    detail_match ms0 s1 p_begin = (Ok (Some e), ms1) /\
    has_unfinished ms1 = false /\
    ms' = install_whole_match (set_pos ms1 (s1 - s_begin, e - s_begin)) s1 e.
Proof.
  unfold lex_match_state. apply search_loop_spec.
  - apply fresh_new, slots_ok_empty.
  - unfold s_begin. lia.
  - unfold s_begin, s_end. lia.
Qed.

Lemma lex_match_ok (r : basic_match_result) :
  lex_match = Ok r -> exists ms', lex_match_state = (Ok tt, ms') /\ r = mr ms'.
Proof.
  unfold lex_match. destruct lex_match_state as [[[] | err | | ] ms']; try discriminate.
  intros [= <-]. exists ms'. split; reflexivity.
Qed.


(** ** Subject suffixes *)

(** The subject from offset [k] on is its unit at [k] followed by the
    subject from [k + 1] on. *)
Lemma drop_subject (k : Z) :
  0 <= k < s_end ->
  drop (Z.to_nat k) subject
  = unit_at subject k :: drop (Z.to_nat (k + 1)) subject.
Proof.
  intros Hk. unfold s_end in Hk. unfold unit_at.
  destruct (Z.ltb_spec k 0); [lia |].
  replace (Z.to_nat (k + 1)) with (S (Z.to_nat k)) by lia.
  apply drop_S.
  destruct (nth_lookup_or_length subject (Z.to_nat k) 0) as [H0 | H0];
    [exact H0 | lia].
Qed.

Lemma drop_subject_end (k : Z) : s_end <= k -> drop (Z.to_nat k) subject = [].
Proof. intros Hk. unfold s_end in Hk. apply drop_ge. lia. Qed.

(** ** The balanced item *)

(** The balanced scan in the words of the specification: [rest] are the
    units after the opening delimiter, the first of them at offset [at_];
    the count of open delimiters starts at [count]; the result is the
    offset just past the unit that brings the count to zero. *)
Fixpoint balanced_scan (x y : Z) (rest : list Z) (count at_ : Z) : option Z :=
  match rest with
  | [] => None
  | c :: rest' =>
      if c =? y then
        if count - 1 =? 0 then Some (at_ + 1)
        else balanced_scan x y rest' (count - 1) (at_ + 1)
      else if c =? x then balanced_scan x y rest' (count + 1) (at_ + 1)
      else balanced_scan x y rest' count (at_ + 1)
  end.

Lemma balance_loop_scan (n : nat) (ms : match_state) (s b e count : Z) :
  (Z.to_nat (s_end - s) <= n)%nat -> 0 <= s + 1 ->
  fst (balance_loop n ms s b e count)
  = Ok (balanced_scan b e (drop (Z.to_nat (s + 1)) subject) count (s + 1)).
Proof.
  revert ms s count. induction n as [| n IH]; intros ms s count Hn Hs; simpl.
  { rewrite drop_subject_end by lia. reflexivity. }
  destruct (Z.ltb_spec (s + 1) s_end) as [Hin | Hout].
  - rewrite (drop_subject (s + 1)) by lia. simpl.
    destruct (unit_at subject (s + 1) =? e).
    + destruct (count - 1 =? 0); [reflexivity |]. apply IH; lia.
    + destruct (unit_at subject (s + 1) =? b); apply IH; lia.
  - rewrite drop_subject_end by lia. reflexivity.
Qed.

(** At a [%b] item: when no unit follows [%b] in the pattern, matching
    signals [balanced_no_arguments]; otherwise, with [x] and [y] the two
    units read after [%b], the item fails when the current subject unit
    differs from [x]; else the nested [x]/[y] occurrences are counted from
    1 scanning forward, the outer match continues just past the [y] that
    brings the count to 0, with the pattern position after [%bxy], and the
    item fails when the subject is exhausted first. *)
Theorem balanced_item (ms : match_state) (s p : Z) :
  0 <= s <= s_end -> pat_at p = chr "%" -> pat_at (p + 1) = chr "b" ->
  (p_end <= p + 2 -> match_from ms s p = (Throw balanced_no_arguments, ms)) /\
  (p + 2 < p_end ->
   let x := pat_at (p + 2) in
   let y := pat_at (p + 3) in
   (unit_at subject s <> x -> fst (match_from ms s p) = Ok None) /\
   (unit_at subject s = x ->
    match balanced_scan x y (drop (Z.to_nat (s + 1)) subject) 1 (s + 1) with
    | Some e =>
        s < e <= s_end /\
        match_from ms s p = match_from (snd (matchbalance ms s (p + 2))) e (p + 4)
    | None => fst (match_from ms s p) = Ok None
    end)).
Proof.
  intros Hs Hpc Hb.
  assert (Hp : 0 <= p < p_end)
    by (apply (pat_at_is p (chr "%")); [apply Z.eqb_eq; exact Hpc | discriminate]).
  assert (Hunfold : match_from ms s p =
                    match matchbalance ms s (p + 2) with
                    | (Ok (Some res), ms1) => match_from ms1 res (p + 4)
                    | other => other
                    end).
  { rewrite match_from_unfold. unfold match_body.
    destruct (Z.ltb_spec p_end p); [lia |].
    destruct (Z.eqb_spec p p_end); [lia |].
    rewrite Hpc, Hb. reflexivity. }
  rewrite Hunfold. unfold matchbalance. split.
  - intros Hend. destruct (Z.leb_spec p_end (p + 2)); [reflexivity | lia].
  - intros Hin. destruct (Z.leb_spec p_end (p + 2)); [lia |].
    replace (p + 2 + 1) with (p + 3) by lia. simpl. split.
    + intros Hne. destruct (Z.eqb_spec (unit_at subject s) (pat_at (p + 2)));
        [congruence | reflexivity].
    + intros Heq. destruct (Z.eqb_spec (unit_at subject s) (pat_at (p + 2)));
        [| congruence]. simpl.
      pose proof (balance_loop_scan (Z.to_nat (s_end - s)) (log_read ms s) s
                    (pat_at (p + 2)) (pat_at (p + 3)) 1) as Hscan.
      pose proof (balance_loop_bounds (Z.to_nat (s_end - s)) (log_read ms s) s
                    (pat_at (p + 2)) (pat_at (p + 3)) 1) as Hbounds.
      destruct (balance_loop _ _ _ _ _ _) as [r ms1]. simpl in *.
      rewrite Hscan in * by lia.
      destruct (balanced_scan _ _ _ _ _) as [e1 |].
      * split; [apply Hbounds; reflexivity | reflexivity].
      * reflexivity.
Qed.

(** The [%b] item with a single delimiter, the pattern ending right
    after [x]: the test of [matchbalance] is [p >= p_end] and passes, so
    nothing is signalled; the closing delimiter is the unit read after [x],
    the terminator, and when the scan finds it the matcher goes on at the
    pattern position [p + 4], beyond the terminator. *)
Lemma balanced_item_one_delimiter (ms : match_state) (s p : Z) :
  0 <= s <= s_end -> pat_at p = chr "%" -> pat_at (p + 1) = chr "b" ->
  p + 3 = p_end ->
  let x := pat_at (p + 2) in
  fst (match_from ms s p) <> Throw balanced_no_arguments /\
  (unit_at subject s <> x -> fst (match_from ms s p) = Ok None) /\
  (unit_at subject s = x ->
   fst (match_from ms s p)
   = match balanced_scan x 0 (drop (Z.to_nat (s + 1)) subject) 1 (s + 1) with
     | Some _ => Undefined
     | None => Ok None
     end).
Proof.
  intros Hs Hpc Hb Hend x.
  destruct (balanced_item ms s p Hs Hpc Hb) as [_ Htwo].
  specialize (Htwo ltac:(lia)). cbv zeta in Htwo. fold x in Htwo.
  assert (Hy : pat_at (p + 3) = 0).
  { unfold pat_at, unit_at. destruct (Z.ltb_spec (p + 3) 0); [reflexivity |].
    apply nth_overflow. unfold p_end in Hend. lia. }
  rewrite Hy in Htwo. destruct Htwo as [Hne Heq].
  assert (Hsame : unit_at subject s = x ->
            fst (match_from ms s p)
            = match balanced_scan x 0 (drop (Z.to_nat (s + 1)) subject) 1 (s + 1) with
              | Some _ => Undefined
              | None => Ok None
              end).
  { intros Hx. specialize (Heq Hx).
    destruct (balanced_scan x 0 (drop (Z.to_nat (s + 1)) subject) 1 (s + 1)) as [e |];
      [| exact Heq].
    destruct Heq as [_ ->]. rewrite match_from_unfold. unfold match_body.
    destruct (Z.ltb_spec p_end (p + 4)); [reflexivity | lia]. }
  split; [| split; [exact Hne | exact Hsame]].
  destruct (Z.eq_dec (unit_at subject s) x) as [Hx | Hx].
  - rewrite (Hsame Hx). destruct (balanced_scan _ _ _ _ _); discriminate.
  - rewrite (Hne Hx). discriminate.
Qed.

(** ** Greedy repetition *)

(** One subject unit against the item at [p, ep). *)
Definition unit_matches (c p ep : Z) : bool :=
  let pc := pat_at p in
  if pc =? chr "." then true
  else if pc =? chr "%" then match_class c (pat_at (p + 1))
  else if pc =? chr "[" then matchbracketclass c p (ep - 1)
  else pc =? c.

(** The length of the longest run of matching units at the head of
    [rest]. *)
Fixpoint run_length (p ep : Z) (rest : list Z) : nat :=
  match rest with
  | [] => O
  | c :: rest' => if unit_matches c p ep then S (run_length p ep rest') else O
  end.

(** Continue with the rest of the pattern from [s + i] for the offsets
    [i] in the given order; the first attempt that does not fail decides. *)
Fixpoint first_success (call : continuation) (ms : match_state) (s ep : Z)
         (offsets : list nat) : result (option Z) * match_state :=
  match offsets with
  | [] => (Ok None, ms)
  | i :: rest =>
      match call ms (s + Z.of_nat i) (ep + 1) with
      | (Ok None, ms') => first_success call ms' s ep rest
      | other => other
      end
  end.

(** [i, i - 1, ..., 0] *)
Definition downto (i : nat) : list nat := rev (seq 0 (S i)).

Lemma downto_S (i : nat) : downto (S i) = S i :: downto i.
Proof.
  unfold downto. rewrite (seq_S (S i) 0). rewrite rev_app_distr. reflexivity.
Qed.

Lemma max_try_first_success (call : continuation) (k : nat) (ms : match_state)
      (s ep : Z) :
  max_try call k ms s ep = first_success call ms s ep (downto k).
Proof.
  revert ms. induction k as [| k IH]; intros ms.
  - simpl. destruct (call ms _ _) as [[[e |] | err | | ] ms1]; reflexivity.
  - rewrite downto_S. simpl.
    destruct (call ms _ _) as [[[e |] | err | | ] ms1]; try reflexivity. apply IH.
Qed.

Lemma singlematch_unit (ms : match_state) (s p ep : Z) :
  fst (singlematch ms s p ep)
  = (s <? s_end) && unit_matches (unit_at subject s) p ep.
Proof.
  unfold singlematch, unit_matches. destruct (s <? s_end); [| reflexivity].
  simpl. repeat (destruct (_ =? _); [reflexivity |]). reflexivity.
Qed.

Lemma max_count_run (n : nat) (ms : match_state) (s p ep i : Z) :
  0 <= s + i -> n = Z.to_nat (s_end - (s + i)) ->
  fst (max_count n ms s p ep i)
  = i + Z.of_nat (run_length p ep (drop (Z.to_nat (s + i)) subject)).
Proof.
  revert ms i. induction n as [| n IH]; intros ms i Hs Hn; simpl;
    pose proof (singlematch_unit ms (s + i) p ep) as Hm;
    destruct (singlematch ms (s + i) p ep) as [m ms1]; simpl in Hm; subst m.
  - destruct (Z.ltb_spec (s + i) s_end); [exfalso; lia |]. simpl.
    rewrite drop_subject_end by lia. simpl. lia.
  - destruct (Z.ltb_spec (s + i) s_end); [| exfalso; lia]. simpl.
    rewrite (drop_subject (s + i)) by lia. simpl.
    destruct (unit_matches _ p ep); [| simpl; lia].
    rewrite IH by lia. replace (s + (i + 1)) with (s + i + 1) by lia. lia.
Qed.

Lemma run_length_zero (s p ep : Z) :
  0 <= s ->
  (run_length p ep (drop (Z.to_nat s) subject) =? 0)%nat
  = negb ((s <? s_end) && unit_matches (unit_at subject s) p ep).
Proof.
  intros Hs. destruct (Z.ltb_spec s s_end).
  - rewrite drop_subject by lia. simpl. destruct (unit_matches _ p ep); reflexivity.
  - rewrite drop_subject_end by lia. reflexivity.
Qed.

(** The positions at which [match] reaches its [default:] block directly. *)
Definition is_single_unit_item (p : Z) : bool :=
  let c := pat_at p in
  let c1 := pat_at (p + 1) in
  (p <? p_end)
  && negb (c =? chr "(") && negb (c =? chr ")")
  && negb ((c =? chr "$") && (p + 1 =? p_end))
  && negb ((c =? chr "%")
           && ((c1 =? chr "b") || (c1 =? chr "f") || in_range (chr "0") (chr "9") c1)).

Lemma match_from_default (ms : match_state) (s p : Z) :
  is_single_unit_item p = true ->
  match_from ms s p = match_default detail_match match_from ms s p.
Proof.
  unfold is_single_unit_item. intros H.
  repeat (apply andb_prop in H; destruct H as [H ?]).
  rewrite match_from_unfold. unfold match_body.
  destruct (Z.ltb_spec p p_end); [| discriminate].
  destruct (Z.ltb_spec p_end p); [lia |].
  destruct (Z.eqb_spec p p_end); [lia |].
  destruct (pat_at p =? chr "("); [discriminate |].
  destruct (pat_at p =? chr ")"); [discriminate |].
  destruct (pat_at p =? chr "$").
  { destruct (p + 1 =? p_end); [discriminate | reflexivity]. }
  destruct (pat_at p =? chr "%"); [| reflexivity].
  destruct (pat_at (p + 1) =? chr "b"); [discriminate |].
  destruct (pat_at (p + 1) =? chr "f"); [discriminate |].
  destruct (in_range _ _ _); [discriminate | reflexivity].
Qed.

(** C5.  For a single-unit item at [p] that ends at [ep]: [max_expand]
    counts the longest run [i] of consecutive units matching the item from
    the current position and then continues with the rest of the pattern
    from the offsets [i, i - 1, ..., 0] in that order, returning the first
    attempt that does not fail and failing only when all fail; with the
    suffix [*] the matcher does exactly this (a run of 0 continuing in
    place), and with the suffix [+] it fails on a run of 0 and otherwise
    does what [*] does from the position after the first matching unit. *)
Theorem greedy_expansion (ms : match_state) (s p ep : Z) :
  0 <= s <= s_end -> is_single_unit_item p = true -> classend p = Ok ep ->
  let run (from : Z) := run_length p ep (drop (Z.to_nat from) subject) in
  (forall ms0 s0, 0 <= s0 <= s_end ->
     exists ms1, same_data ms0 ms1 /\
       max_expand detail_match ms0 s0 p ep
       = first_success detail_match ms1 s0 ep (downto (run s0))) /\
  (pat_at ep = chr "*" ->
   exists ms1, same_data ms ms1 /\
     match_from ms s p
     = if (run s =? 0)%nat then match_from ms1 s (ep + 1)
       else max_expand detail_match ms1 s p ep) /\
  (pat_at ep = chr "+" ->
   exists ms1, same_data ms ms1 /\
     match_from ms s p
     = if (run s =? 0)%nat then (Ok None, ms1)
       else max_expand detail_match ms1 (s + 1) p ep).
Proof.
  intros Hs Hitem Hep run. split; [| split].
  - intros ms0 s0 Hs0. unfold max_expand.
    pose proof (max_count_same (Z.to_nat (s_end - s0)) ms0 s0 p ep 0) as Hsame.
    pose proof (max_count_run (Z.to_nat (s_end - s0)) ms0 s0 p ep 0) as Hrun.
    destruct (max_count _ _ _ _ _ _) as [i ms1]. simpl in *.
    exists ms1. split; [exact Hsame |].
    rewrite Hrun by (try f_equal; lia). replace (s0 + 0) with s0 by lia.
    rewrite Z.add_0_l, Nat2Z.id. apply max_try_first_success.
  - intros Hstar. rewrite match_from_default by exact Hitem.
    unfold match_default. rewrite Hep.
    pose proof (singlematch_same ms s p ep) as Hsame.
    pose proof (singlematch_unit ms s p ep) as Hm.
    destruct (singlematch ms s p ep) as [m ms1]. simpl in *.
    exists ms1. split; [exact Hsame |].
    unfold run. rewrite run_length_zero by lia. rewrite <- Hm. rewrite Hstar.
    destruct m; reflexivity.
  - intros Hplus. rewrite match_from_default by exact Hitem.
    unfold match_default. rewrite Hep.
    pose proof (singlematch_same ms s p ep) as Hsame.
    pose proof (singlematch_unit ms s p ep) as Hm.
    destruct (singlematch ms s p ep) as [m ms1]. simpl in *.
    exists ms1. split; [exact Hsame |].
    unfold run. rewrite run_length_zero by lia. rewrite <- Hm. rewrite Hplus.
    destruct m; reflexivity.
Qed.

(** ** The iteration driver *)

Lemma slots_ok_install (ms : match_state) (s e : Z) (pp : Z * Z) :
  slots_ok (ms_captures ms) -> s <= e ->
  slots_ok (ms_captures (install_whole_match (set_pos ms pp) s e)).
Proof.
  intros Hslots He. rewrite install_whole_match_captures.
  destruct (ms_level ms =? 0); [| exact Hslots].
  apply slots_ok_set_len; [apply slots_ok_set_init; exact Hslots |].
  unfold position. lia.
Qed.

Lemma gmatch_loop_inv (n : nat) (ms : match_state) (q : Z) (l : option Z)
      (it' : gmatch_iterator) :
  fresh ms -> 0 <= q -> gmatch_loop n ms q l = Ok it' ->
  result_inv (it_mr it') /\ slots_ok (captures (it_mr it')).
Proof.
  revert ms q l. induction n as [| n IH]; intros ms q l Hfresh Hq;
    cbn [gmatch_loop].
  { destruct (s_end <? q); [| discriminate].
    intros [= <-]. simpl. split; [apply fresh_result_inv; exact Hfresh | apply Hfresh]. }
  destruct (Z.ltb_spec s_end q) as [Hout | Hin].
  { intros [= <-]. simpl. split; [apply fresh_result_inv; exact Hfresh | apply Hfresh]. }
  pose proof (detail_match_sound ms q p_begin (fresh_state_ok ms q Hfresh)
                                 (conj Hq Hin)) as Hsound.
  destruct (detail_match ms q p_begin) as [[[e |] | err | | ] ms1]; try discriminate;
    destruct Hsound as (_ & Hl & Hslots & He); cbn [fst snd] in *.
  - destruct (ptr_eqb (Some e) l).
    + apply IH; [apply fresh_reprep; exact Hslots | lia].
    + unfold on_success, check_captures.
      destruct (has_unfinished ms1) eqn:Hun; [discriminate |].
      specialize (He e eq_refl).
      intros [= <-]. cbn [it_mr]. split.
      * apply install_whole_match_inv; try assumption; lia.
      * apply slots_ok_install; [exact Hslots | lia].
  - apply IH; [apply fresh_reprep; exact Hslots | lia].
Qed.

(** ** The search and the iteration always return *)

Lemma search_loop_defined (n : nat) (ms : match_state) (s : Z) :
  fresh ms -> 0 <= s -> s + Z.of_nat n <= s_end + 1 ->
  fst (search_loop n ms s) <> OutOfFuel.
Proof.
  revert ms s. induction n as [| n IH]; intros ms s Hfresh Hs Hn; simpl;
    [discriminate |].
  assert (Hs' : 0 <= s <= s_end) by lia.
  pose proof (detail_match_sound ms s p_begin (fresh_state_ok ms s Hfresh) Hs') as Hsound.
  destruct (detail_match ms s p_begin) as [[[e |] | err | | ] ms1];
    destruct Hsound as (Hfuel & _ & Hslots & _); simpl in *;
    try discriminate; try congruence.
  - unfold on_success, check_captures. destruct (has_unfinished ms1); discriminate.
  - destruct anchor; [discriminate |].
    apply IH; [apply fresh_reprep; exact Hslots | lia | lia].
Qed.

(** The search never exhausts the fuel of the embedding: [pg::lex::match]
    returns a result, or ends with an error or with a read beyond the
    pattern terminator. *)
Lemma lex_match_defined : lex_match <> OutOfFuel.
Proof.
  unfold lex_match.
  pose proof (search_loop_defined (S (length subject))
                (new_match_state empty_match_result) s_begin
                (fresh_new _ slots_ok_empty)) as H.
  fold lex_match_state in H.
  destruct lex_match_state as [[[] | err | | ] ms']; try discriminate.
  simpl in H. exfalso. apply H; unfold s_begin, s_end; try lia. reflexivity.
Qed.

Lemma gmatch_loop_defined (n : nat) (ms : match_state) (q : Z) (l : option Z) :
  fresh ms -> 0 <= q -> n = Z.to_nat (s_end + 1 - q) ->
  gmatch_loop n ms q l <> OutOfFuel.
Proof.
  revert ms q l. induction n as [| n IH]; intros ms q l Hfresh Hq Hn;
    cbn [gmatch_loop].
  { destruct (Z.ltb_spec s_end q); [discriminate | lia]. }
  destruct (Z.ltb_spec s_end q) as [Hout | Hin]; [discriminate |].
  pose proof (detail_match_sound ms q p_begin (fresh_state_ok ms q Hfresh)
                                 (conj Hq Hin)) as Hsound.
  destruct (detail_match ms q p_begin) as [[[e |] | err | | ] ms1];
    destruct Hsound as (Hfuel & _ & Hslots & _); cbn [fst snd] in *;
    try discriminate; try congruence.
  - destruct (ptr_eqb (Some e) l).
    + apply IH; [apply fresh_reprep; exact Hslots | lia | lia].
    + unfold on_success, check_captures. destruct (has_unfinished ms1); discriminate.
  - apply IH; [apply fresh_reprep; exact Hslots | lia | lia].
Qed.

(** An increment of the iterator never exhausts the fuel either. *)
Lemma gmatch_next_defined (it : gmatch_iterator) :
  slots_ok (captures (it_mr it)) -> 0 <= it_pos it ->
  gmatch_next it <> OutOfFuel.
Proof.
  intros Hslots Hq. unfold gmatch_next.
  apply gmatch_loop_defined; [apply fresh_new; exact Hslots | exact Hq | reflexivity].
Qed.

(** ** The substitution always returns *)

(** A replacer that returns and keeps the slot array well formed. *)
Definition replacer_ok (replace : replacer) : Prop :=
  forall ms s e out,
    slots_ok (ms_captures ms) -> s <= e ->
    fst (replace ms s e out) <> OutOfFuel /\
    slots_ok (ms_captures (snd (replace ms s e out))).

Lemma slots_ok_install_plain (ms : match_state) (s e : Z) :
  slots_ok (ms_captures ms) -> s <= e ->
  slots_ok (ms_captures (install_whole_match ms s e)).
Proof.
  intros Hslots He. unfold install_whole_match.
  destruct (ms_level ms =? 0); [| exact Hslots].
  change (ms_captures (set_level ?m _)) with (ms_captures m).
  apply slots_ok_set_len; [apply slots_ok_set_init; exact Hslots |].
  unfold position. lia.
Qed.

Lemma expand_template_ok (r : list Z) (ms : match_state) (s e : Z) (out : list Z) :
  slots_ok (ms_captures ms) -> s <= e ->
  fst (expand_template r ms s e out) <> OutOfFuel /\
  slots_ok (ms_captures (snd (expand_template r ms s e out))).
Proof.
  intros Hslots He.
  assert (H : forall (n : nat) (r0 : list Z), (length r0 <= n)%nat ->
              forall ms0 out0, slots_ok (ms_captures ms0) ->
                fst (expand_template r0 ms0 s e out0) <> OutOfFuel /\
                slots_ok (ms_captures (snd (expand_template r0 ms0 s e out0)))).
  { clear r ms out Hslots. induction n as [| n IH]; intros r Hlen ms out Hslots.
    { destruct r; [| simpl in Hlen; lia]. simpl. split; [discriminate | exact Hslots]. }
    destruct r as [| c r']; simpl; [split; [discriminate | exact Hslots] |].
    simpl in Hlen.
    destruct (c =? chr "%"); [| apply IH; [lia | exact Hslots]].
    destruct r' as [| cap_char r'']; simpl; [split; [discriminate | exact Hslots] |].
    simpl in Hlen.
    destruct (cap_char =? chr "%"); [apply IH; [lia | exact Hslots] |].
    destruct (cap_char =? chr "0"); [apply IH; [lia | exact Hslots] |].
    destruct (isdigit cap_char); [| split; [discriminate | exact Hslots]].
    pose proof (slots_ok_install_plain ms s e Hslots He) as Hslots1.
    destruct (_ <=? _); [split; [discriminate | exact Hslots1] |].
    destruct (init _); [| split; [discriminate | exact Hslots1]].
    destruct (_ =? position); apply IH; try lia; exact Hslots1. }
  apply (H (length r) r); [lia | exact Hslots].
Qed.

Lemma template_replacer_ok (repl : list Z) : replacer_ok (template_replacer repl).
Proof.
  intros ms s e out Hslots He. unfold template_replacer, check_captures.
  destruct (has_unfinished ms); [split; [discriminate | exact Hslots] |].
  apply expand_template_ok; assumption.
Qed.

Lemma callback_replacer_ok (func : basic_match_result -> list Z) :
  replacer_ok (callback_replacer func).
Proof.
  intros ms s e out Hslots He. unfold callback_replacer, on_success, check_captures.
  destruct (has_unfinished ms); [split; [discriminate | exact Hslots] |].
  simpl. split; [discriminate |]. apply slots_ok_install; assumption.
Qed.

(** Each pass of the loop advances the cursor, or follows an empty match
    at the cursor that the next pass will skip. *)
Lemma gsub_loop_defined (replace : replacer) (n : nat) (ms : match_state)
      (s count : Z) (last : option Z) (out : list Z) :
  replacer_ok replace -> fresh ms -> 0 <= s ->
  2 * (s_end + 1 - s) - (if ptr_eqb (Some s) last then 1 else 0) <= Z.of_nat n ->
  gsub_loop replace n ms s count last out <> OutOfFuel.
Proof.
  intros Hrep. revert ms s count last out.
  induction n as [| n IH]; intros ms s count last out Hfresh Hs Hn;
    cbn [gsub_loop].
  { destruct (Z.leb_spec s s_end); simpl; [| discriminate].
    exfalso. destruct (ptr_eqb (Some s) last); lia. }
  destruct (Z.leb_spec s s_end) as [Hin | Hout]; simpl; [| discriminate].
  destruct (count =? 0); simpl; [discriminate |].
  pose proof (detail_match_sound ms s p_begin (fresh_state_ok ms s Hfresh)
                                 (conj Hs Hin)) as Hsound.
  destruct (detail_match ms s p_begin) as [[[e |] | err | | ] ms1];
    destruct Hsound as (Hfuel & _ & Hslots & He); cbn [fst snd] in *;
    try discriminate; try congruence.
  - specialize (He e eq_refl).
    destruct (ptr_eqb (Some e) last) eqn:Hsame.
    + apply IH; [apply fresh_reprep; exact Hslots | lia |].
      destruct (ptr_eqb (Some s) last), (ptr_eqb (Some (s + 1)) last); lia.
    + destruct (Hrep ms1 s e (out ++ subrange (copy_from last) s) Hslots (proj1 He))
        as [Hrfuel Hrslots].
      destruct (replace ms1 s e _) as [[out' | err | | ] ms2]; cbn [fst snd] in *;
        try discriminate; try congruence.
      apply IH; [apply fresh_reprep; exact Hrslots | lia |].
      assert (Hself : ptr_eqb (Some e) (Some e) = true) by (simpl; apply Z.eqb_refl).
      rewrite Hself.
      destruct (Z.eq_dec e s) as [-> | Hne].
      * rewrite Hsame in Hn. lia.
      * destruct (ptr_eqb (Some s) last); lia.
  - apply IH; [apply fresh_reprep; exact Hslots | lia |].
    destruct (ptr_eqb (Some s) last), (ptr_eqb (Some (s + 1)) last); lia.
Qed.

(** Both variants of [gsub] return a sequence, or end with an error or
    with a read beyond the pattern terminator; the fuel of the embedding
    is never exhausted. *)
Lemma gsub_defined (repl : list Z) (count : Z) : gsub repl count <> OutOfFuel.
Proof.
  unfold gsub, gsub_with. apply gsub_loop_defined.
  - apply template_replacer_ok.
  - apply fresh_new, slots_ok_empty.
  - unfold s_begin. lia.
  - unfold s_begin, s_end. simpl. lia.
Qed.

Lemma gsub_callback_defined (func : basic_match_result -> list Z) (count : Z) :
  gsub_callback func count <> OutOfFuel.
Proof.
  unfold gsub_callback, gsub_with. apply gsub_loop_defined.
  - apply callback_replacer_ok.
  - apply fresh_new, slots_ok_empty.
  - unfold s_begin. lia.
  - unfold s_begin, s_end. simpl. lia.
Qed.

(** ** What [match_capture] does *)

Lemma memcmp_eq_spec (n : nat) (a b : Z) :
  memcmp_eq n a b = true <->
  forall k : nat, (k < n)%nat ->
    unit_at subject (a + Z.of_nat k) = unit_at subject (b + Z.of_nat k).
Proof.
  revert a b. induction n as [| n IH]; intros a b; simpl.
  - split; [intros _ k Hk; lia | reflexivity].
  - rewrite andb_true_iff, Z.eqb_eq, IH. split.
    + intros [H0 Hrest] k Hk. destruct k as [| k].
      * rewrite !Z.add_0_r. exact H0.
      * specialize (Hrest k). lapply Hrest; [| lia].
        replace (a + 1 + Z.of_nat k) with (a + Z.of_nat (S k)) by lia.
        replace (b + 1 + Z.of_nat k) with (b + Z.of_nat (S k)) by lia. tauto.
    + intros H. split.
      * specialize (H O). rewrite !Z.add_0_r in H. apply H. lia.
      * intros k Hk. specialize (H (S k)).
        replace (a + 1 + Z.of_nat k) with (a + Z.of_nat (S k)) by lia.
        replace (b + 1 + Z.of_nat k) with (b + Z.of_nat (S k)) by lia.
        apply H. lia.
Qed.

(** [match_capture] signals [capture_invalid_index] exactly for an index
    outside [0, level) and for an Unfinished slot. *)
Lemma match_capture_throws (ms : match_state) (s c : Z) :
  let i := c - chr "1" in
  (i < 0 \/ ms_level ms <= i \/ len (get_cap (ms_captures ms) i) = unfinished ->
   match_capture ms s c = (Throw capture_invalid_index, ms)) /\
  (forall e, fst (match_capture ms s c) = Throw e ->
     e = capture_invalid_index /\
     (i < 0 \/ ms_level ms <= i \/ len (get_cap (ms_captures ms) i) = unfinished)).
Proof.
  simpl. unfold match_capture.
  destruct (Z.ltb_spec (c - chr "1") 0) as [Hneg | Hpos]; simpl.
  { split; [reflexivity | intros e [= <-]; split; [reflexivity | lia]]. }
  destruct (Z.leb_spec (ms_level ms) (c - chr "1")) as [Hout | Hin]; simpl.
  { split; [reflexivity | intros e [= <-]; split; [reflexivity | lia]]. }
  destruct (Z.eqb_spec (len (get_cap (ms_captures ms) (c - chr "1"))) unfinished)
    as [Hun | Hfin].
  { split; [reflexivity | intros e [= <-]; split; [reflexivity | tauto]]. }
  split; [intros [H | [H | H]]; try lia; congruence |].
  intros e. destruct (_ <=? _); [| discriminate].
  destruct (init _); [| discriminate]. destruct (memcmp_eq _ _ _); discriminate.
Qed.

(** For a subject whose length fits a [ptrdiff_t]: a Position slot never
    matches, and a Finished slot of length [l] that starts at [a] matches
    exactly when [l] units are left and they equal the captured ones, the
    result being the offset after them. *)
Lemma match_capture_finished (ms : match_state) (s c a l : Z) :
  0 <= s <= s_end -> s_end < 2 ^ 63 ->
  0 <= c - chr "1" < ms_level ms ->
  get_cap (ms_captures ms) (c - chr "1") = {| init := Some a; len := l |} ->
  (l = position -> match_capture ms s c = (Ok None, ms)) /\
  (0 <= l < 2 ^ 63 ->
   match_capture ms s c
   = if (l <=? s_end - s) && memcmp_eq (Z.to_nat l) a s
     then (Ok (Some (s + l)), ms) else (Ok None, ms)).
Proof.
  intros Hs Hlen Hi Hcap. unfold match_capture. rewrite Hcap. simpl.
  destruct (Z.ltb_spec (c - chr "1") 0); [lia |].
  destruct (Z.leb_spec (ms_level ms) (c - chr "1")); [lia |]. simpl.
  change (2 ^ 63) with 9223372036854775808 in *.
  assert (Hrest : to_size_t (s_end - s) = s_end - s).
  { unfold to_size_t. change (2 ^ 64) with 18446744073709551616.
    apply Z.mod_small. lia. }
  rewrite Hrest. split.
  - intros ->. change (position =? unfinished) with false. cbv iota.
    change (to_size_t position) with 18446744073709551614.
    destruct (Z.leb_spec 18446744073709551614 (s_end - s)); [lia | reflexivity].
  - intros Hl.
    assert (Hsize : to_size_t l = l).
    { unfold to_size_t. change (2 ^ 64) with 18446744073709551616.
      apply Z.mod_small. lia. }
    rewrite Hsize.
    destruct (Z.eqb_spec l unfinished); [unfold unfinished in *; lia |].
    destruct (l <=? s_end - s); [| reflexivity]. simpl.
    destruct (memcmp_eq _ _ _); reflexivity.
Qed.

(** * Further properties of the matcher *)

(** ** Where the captures lie, and reads of the pattern

    [spans_ok lo ms s]: every live slot starts in [lo, s] and, when it is
    closed, ends at or before [s]. *)

Definition spans_ok (lo : Z) (ms : match_state) (s : Z) : Prop :=
  forall i : nat, Z.of_nat i < ms_level ms ->
    exists a, init (get_cap (ms_captures ms) (Z.of_nat i)) = Some a /\
              lo <= a <= s /\
              a + len (get_cap (ms_captures ms) (Z.of_nat i)) <= s.

(** The pattern ends in [%b] and a single unit: the one shape for which
    [match] goes on one position beyond the terminator. *)
Definition short_balance : bool :=
  (pat_at (p_end - 3) =? chr "%") && (pat_at (p_end - 2) =? chr "b").

Definition safe_post (lo p : Z) (res : result (option Z) * match_state) : Prop :=
  (short_balance = false -> p <= p_end -> fst res <> Undefined) /\
  (forall e, fst res = Ok (Some e) -> spans_ok lo (snd res) e).

Definition safe_above (lo p0 : Z) (k : continuation) : Prop :=
  forall ms s p, p0 < p -> state_ok ms s -> spans_ok lo ms s ->
                 lo <= s -> 0 <= s <= s_end ->
                 safe_post lo p (k ms s p).

Lemma spans_ok_same (lo : Z) (ms ms1 : match_state) (s : Z) :
  same_data ms ms1 -> spans_ok lo ms s -> spans_ok lo ms1 s.
Proof.
  intros [Hmr _] H i Hi. unfold ms_level, ms_captures in *.
  rewrite Hmr in *. apply H. exact Hi.
Qed.

Lemma spans_ok_mono (lo : Z) (ms : match_state) (s s' : Z) :
  s <= s' -> spans_ok lo ms s -> spans_ok lo ms s'.
Proof.
  intros Hle H i Hi. destruct (H i Hi) as (a & Ha & Hb & Hc).
  exists a. split; [exact Ha |]. split; lia.
Qed.

Lemma spans_ok_after_fail (lo : Z) (ms ms1 : match_state) (s : Z) :
  spans_ok lo ms s -> frame_post ms (Ok None, ms1) -> spans_ok lo ms1 s.
Proof.
  intros H (_ & _ & Hfr) i Hi. simpl in Hfr.
  destruct (Hfr eq_refl) as [Hlev Hcaps].
  rewrite Hlev in Hi. specialize (Hcaps i Hi). specialize (H i Hi).
  unfold get_cap in *. rewrite Nat2Z.id in *. rewrite Hcaps. exact H.
Qed.

Lemma spans_ok_open_slot (lo : Z) (ms : match_state) (s kind : Z) :
  state_ok ms s -> spans_ok lo ms s -> lo <= s ->
  ms_level ms < MAXCAPTURES -> kind <= 0 ->
  spans_ok lo (open_slot ms s kind) s.
Proof.
  intros (Hl & Hslots & _) H Hlo Hroom Hkind i Hi.
  change (ms_level (open_slot ms s kind)) with (ms_level ms + 1) in Hi.
  destruct (Z.eq_dec (Z.of_nat i) (ms_level ms)) as [Heq | Hne].
  - rewrite Heq, get_cap_open_slot by (try assumption; lia). simpl.
    exists s. split; [reflexivity | lia].
  - assert (Hi' : Z.of_nat i < ms_level ms) by lia.
    destruct (open_slot_frame ms s kind) as (_ & _ & Hfr).
    destruct (Hfr eq_refl) as [_ Hcaps]. simpl in Hcaps.
    specialize (Hcaps i Hi'). specialize (H i Hi').
    unfold get_cap in *. rewrite Nat2Z.id in *.
    change (ms_captures (open_slot ms s kind))
      with (ms_captures (set_level (open_slot ms s kind) (ms_level ms))).
    rewrite Hcaps. exact H.
Qed.

Lemma spans_ok_close (lo : Z) (ms : match_state) (s a : Z) (i : nat) :
  state_ok ms s -> spans_ok lo ms s -> Z.of_nat i < ms_level ms ->
  init (get_cap (ms_captures ms) (Z.of_nat i)) = Some a ->
  spans_ok lo (set_cap_len ms (Z.of_nat i) (s - a)) s.
Proof.
  intros (Hl & [Hlen _] & _) H Hi Ha j Hj.
  change (ms_level (set_cap_len ms (Z.of_nat i) (s - a))) with (ms_level ms) in Hj.
  destruct (Nat.eq_dec j i) as [-> | Hne].
  - rewrite get_cap_set_len_eq by (rewrite Nat2Z.id, Hlen; unfold MAXCAPTURES in *; lia).
    simpl. destruct (H i Hi) as (a' & Ha' & Hb & _).
    exists a. split; [exact Ha |]. split; [congruence | lia].
  - specialize (H j Hj). unfold get_cap in *.
    rewrite lookup_set_cap_len_ne by (rewrite !Nat2Z.id; exact Hne). exact H.
Qed.

Lemma safe_post_here (lo p : Z) (ms : match_state) (o : result (option Z)) :
  o <> Undefined -> (forall e, o = Ok (Some e) -> spans_ok lo ms e) ->
  safe_post lo p (o, ms).
Proof. intros H1 H2. split; [intros _ _; exact H1 | exact H2]. Qed.

Lemma safe_post_le (lo p p' : Z) (res : result (option Z) * match_state) :
  safe_post lo p' res ->
  (short_balance = false -> p <= p_end -> p' <= p_end) ->
  safe_post lo p res.
Proof.
  intros [H1 H2] Hle. split; [| exact H2].
  intros Hwf Hp. apply H1; [exact Hwf | apply Hle; assumption].
Qed.

Lemma with_sentinel_safe (body : continuation) (lo p0 : Z) :
  safe_above lo p0 body -> safe_above lo p0 (with_sentinel body).
Proof.
  intros H ms s p Hp Hok Hsp Hlo Hs. unfold with_sentinel, sentinel_enter.
  destruct (matchdepth ms <=? 0).
  { apply safe_post_here; discriminate. }
  specialize (H (set_matchdepth ms (matchdepth ms - 1)) s p Hp Hok Hsp Hlo Hs).
  destruct (body _ s p) as [r ms1]. exact H.
Qed.

Lemma max_try_safe (call : continuation) (lo p0 : Z) (k : nat)
      (ms : match_state) (s ep : Z) :
  sound_above p0 call -> frames call -> safe_above lo p0 call -> p0 < ep + 1 ->
  state_ok ms s -> spans_ok lo ms s -> lo <= s -> 0 <= s ->
  s + Z.of_nat k <= s_end ->
  safe_post lo (ep + 1) (max_try call k ms s ep).
Proof.
  intros Hc Hf Hsafe Hp. revert ms.
  induction k as [| k IH]; intros ms Hok Hsp Hlo Hs Hk; simpl.
  - assert (H0 : safe_post lo (ep + 1) (call ms (s + Z.of_nat 0) (ep + 1))).
    { apply Hsafe; [exact Hp | eapply state_ok_mono; [| exact Hok]; lia
                    | eapply spans_ok_mono; [| exact Hsp]; lia | lia | lia]. }
    destruct (call ms _ _) as [[[e |] | err | | ] ms1]; exact H0.
  - assert (H1 : safe_post lo (ep + 1) (call ms (s + Z.of_nat (S k)) (ep + 1))).
    { apply Hsafe; [exact Hp | eapply state_ok_mono; [| exact Hok]; lia
                    | eapply spans_ok_mono; [| exact Hsp]; lia | lia | lia]. }
    assert (H2 : sound_post (s + Z.of_nat (S k)) (call ms (s + Z.of_nat (S k)) (ep + 1))).
    { apply Hc; [exact Hp | eapply state_ok_mono; [| exact Hok]; lia | lia]. }
    pose proof (Hf ms (s + Z.of_nat (S k)) (ep + 1)) as Hfr.
    destruct (call ms _ _) as [[[e |] | err | | ] ms1]; try exact H1.
    apply IH; [| | exact Hlo | exact Hs | lia].
    + eapply state_ok_after_fail; [exact Hok | exact Hfr | exact H2].
    + eapply spans_ok_after_fail; [exact Hsp | exact Hfr].
Qed.

Lemma max_expand_safe (call : continuation) (lo p0 : Z)
      (ms : match_state) (s p ep : Z) :
  sound_above p0 call -> frames call -> safe_above lo p0 call -> p0 < ep + 1 ->
  state_ok ms s -> spans_ok lo ms s -> lo <= s -> 0 <= s <= s_end ->
  safe_post lo (ep + 1) (max_expand call ms s p ep).
Proof.
  intros Hc Hf Hsafe Hp Hok Hsp Hlo Hs. unfold max_expand.
  pose proof (max_count_same (Z.to_nat (s_end - s)) ms s p ep 0) as Hsame.
  pose proof (max_count_bounds (Z.to_nat (s_end - s)) ms s p ep 0) as Hb.
  destruct (max_count _ _ _ _ _ _) as [i ms1]. simpl in *.
  lapply Hb; [clear Hb; intros Hb | lia].
  lapply Hb; [clear Hb; intros Hb | lia].
  lapply Hb; [clear Hb; intros Hb | f_equal; lia].
  eapply max_try_safe; try eassumption; try lia.
  - eapply state_ok_same; eassumption.
  - eapply spans_ok_same; eassumption.
Qed.

Lemma min_loop_safe (call : continuation) (lo p0 : Z) (n : nat)
      (ms : match_state) (s p ep : Z) :
  sound_above p0 call -> frames call -> safe_above lo p0 call -> p0 < ep + 1 ->
  state_ok ms s -> spans_ok lo ms s -> lo <= s -> 0 <= s <= s_end ->
  n = Z.to_nat (s_end - s) ->
  safe_post lo (ep + 1) (min_loop call n ms s p ep).
Proof.
  intros Hc Hf Hsafe Hp. revert ms s.
  induction n as [| n IH]; intros ms s Hok Hsp Hlo Hs Hn; simpl;
    pose proof (Hc ms s (ep + 1) Hp Hok Hs) as H0;
    pose proof (Hsafe ms s (ep + 1) Hp Hok Hsp Hlo Hs) as H1;
    pose proof (Hf ms s (ep + 1)) as Hfr;
    destruct (call ms s _) as [[[e |] | err | | ] ms1]; try exact H1;
    pose proof (state_ok_after_fail _ _ _ _ Hok Hfr H0) as Hok1;
    pose proof (spans_ok_after_fail _ _ _ _ Hsp Hfr) as Hsp1;
    pose proof (singlematch_same ms1 s p ep) as Hsame;
    pose proof (singlematch_true ms1 s p ep) as Htrue;
    destruct (singlematch ms1 s p ep) as [[|] ms2]; simpl in *;
    try (apply safe_post_here; discriminate).
  specialize (Htrue eq_refl).
  apply IH; [| | lia | lia | lia].
  - eapply state_ok_mono; [| eapply state_ok_same; eassumption]. lia.
  - eapply spans_ok_mono; [| eapply spans_ok_same; eassumption]. lia.
Qed.

Lemma start_capture_safe (call : continuation) (lo p0 : Z)
      (ms : match_state) (s p : Z) :
  sound_above p0 call -> frames call -> safe_above lo p0 call -> p0 < p ->
  state_ok ms s -> spans_ok lo ms s -> lo <= s -> 0 <= s <= s_end ->
  safe_post lo (if pat_at p =? chr ")" then p + 1 else p)
            (start_capture call ms s p).
Proof.
  intros Hc Hf Hsafe Hp Hok Hsp Hlo Hs. rewrite start_capture_eq.
  destruct (Z.leb_spec MAXCAPTURES (ms_level ms)) as [Hfull | Hroom].
  { apply safe_post_here; discriminate. }
  simpl.
  set (kind := if pat_at p =? chr ")" then position else unfinished).
  set (p1 := if pat_at p =? chr ")" then p + 1 else p).
  assert (Hkind : position <= kind <= 0)
    by (subst kind; destruct (pat_at p =? chr ")"); unfold position, unfinished; lia).
  assert (Hp1 : p0 < p1) by (subst p1; destruct (pat_at p =? chr ")"); lia).
  pose proof (state_ok_open_slot ms s kind Hok (proj1 Hs) Hroom (proj1 Hkind)) as Hok1.
  pose proof (spans_ok_open_slot lo ms s kind Hok Hsp Hlo Hroom (proj2 Hkind)) as Hsp1.
  pose proof (Hsafe _ s p1 Hp1 Hok1 Hsp1 Hlo Hs) as H1.
  destruct (call (open_slot ms s kind) s p1) as [[[e |] | err | | ] ms2];
    try exact H1.
  apply safe_post_here; discriminate.
Qed.

Lemma end_capture_safe (call : continuation) (lo p0 : Z)
      (ms : match_state) (s p : Z) :
  sound_above p0 call -> frames call -> safe_above lo p0 call -> p0 < p ->
  state_ok ms s -> spans_ok lo ms s -> lo <= s -> 0 <= s <= s_end ->
  safe_post lo p (end_capture call ms s p).
Proof.
  intros Hc Hf Hsafe Hp Hok Hsp Hlo Hs. unfold end_capture.
  destruct (find_unfinished _ _) as [i |] eqn:Hfind;
    [| apply safe_post_here; discriminate].
  apply find_unfinished_spec in Hfind. destruct Hfind as [Hi _].
  assert (Hi' : Z.of_nat i < ms_level ms).
  { destruct Hok as (Hl & _ & _). lia. }
  destruct (Hsp i Hi') as (a & Ha & Hb & _).
  unfold ms_captures in *. rewrite Ha.
  assert (Hok1 : state_ok (set_cap_len ms (Z.of_nat i) (s - a)) s).
  { apply state_ok_set_len; [lia | unfold position; lia | exact Hok]. }
  pose proof (spans_ok_close lo ms s a i Hok Hsp Hi' Ha) as Hsp1.
  pose proof (Hsafe _ s p Hp Hok1 Hsp1 Hlo Hs) as H1.
  destruct (call _ s p) as [[[e |] | err | | ] ms2]; try exact H1.
  apply safe_post_here; discriminate.
Qed.

Lemma match_capture_safe (ms : match_state) (s c : Z) :
  state_ok ms s -> fst (match_capture ms s c) <> Undefined.
Proof.
  intros (Hl & _ & Hlive). unfold match_capture.
  destruct (Z.ltb_spec (c - chr "1") 0); [discriminate |].
  destruct (Z.leb_spec (ms_level ms) (c - chr "1")); [discriminate |].
  simpl. destruct (_ =? unfinished); [discriminate |].
  destruct (_ <=? _); [| discriminate].
  destruct (Hlive (Z.to_nat (c - chr "1"))) as (a & Ha & _).
  { unfold ms_level in *. lia. }
  rewrite Z2Nat.id in Ha by lia. unfold ms_captures. rewrite Ha.
  destruct (memcmp_eq _ _ _); discriminate.
Qed.

Lemma match_default_safe (call jump : continuation) (lo : Z)
      (ms : match_state) (s p : Z) :
  sound_above p call -> sound_above p jump -> frames call ->
  safe_above lo p call -> safe_above lo p jump -> p < p_end ->
  state_ok ms s -> spans_ok lo ms s -> lo <= s -> 0 <= s <= s_end ->
  safe_post lo p (match_default call jump ms s p).
Proof.
  intros Hc Hj Hf Hsc Hsj Hp Hok Hsp Hlo Hs. unfold match_default.
  pose proof (classend_defined p Hp) as [_ Hdef].
  destruct (classend p) as [ep | err | | ] eqn:Hep; try congruence;
    try (apply safe_post_here; discriminate).
  apply classend_bounds in Hep; [| exact Hp].
  pose proof (singlematch_same ms s p ep) as Hsame.
  pose proof (singlematch_true ms s p ep) as Htrue.
  destruct (singlematch ms s p ep) as [m ms1]. simpl in Hsame, Htrue.
  pose proof (state_ok_same _ _ _ Hsame Hok) as Hok1.
  pose proof (spans_ok_same _ _ _ _ Hsame Hsp) as Hsp1.
  assert (Hsuffix : forall c, (pat_at ep =? c) = true -> c <> 0 -> ep + 1 <= p_end).
  { intros c Hc0 Hnz. apply pat_at_is in Hc0; [lia | exact Hnz]. }
  destruct m; simpl.
  - specialize (Htrue eq_refl).
    assert (Hok2 : state_ok ms1 (s + 1)) by (eapply state_ok_mono; [| exact Hok1]; lia).
    assert (Hsp2 : spans_ok lo ms1 (s + 1)) by (eapply spans_ok_mono; [| exact Hsp1]; lia).
    destruct (pat_at ep =? chr "?") eqn:Hq.
    { assert (Hle : ep + 1 <= p_end) by (apply (Hsuffix _ Hq); discriminate).
      assert (H1 : sound_post (s + 1) (call ms1 (s + 1) (ep + 1)))
        by (apply Hc; [lia | exact Hok2 | lia]).
      assert (H2 : safe_post lo (ep + 1) (call ms1 (s + 1) (ep + 1)))
        by (apply Hsc; [lia | exact Hok2 | exact Hsp2 | lia | lia]).
      pose proof (Hf ms1 (s + 1) (ep + 1)) as Hfr.
      apply sound_post_mono with (s := s) in H1; [| lia].
      destruct (call ms1 _ _) as [[[e |] | err | | ] ms2];
        try (eapply safe_post_le; [exact H2 | intros; exact Hle]).
      eapply safe_post_le; [| intros; exact Hle].
      apply Hsj; [lia | | | exact Hlo | exact Hs].
      - eapply state_ok_after_fail; [exact Hok1 | exact Hfr | exact H1].
      - eapply spans_ok_after_fail; [exact Hsp1 | exact Hfr]. }
    destruct (pat_at ep =? chr "+") eqn:Hplus.
    { assert (Hle : ep + 1 <= p_end) by (apply (Hsuffix _ Hplus); discriminate).
      eapply safe_post_le; [| intros; exact Hle].
      eapply max_expand_safe; try eassumption; lia. }
    destruct (pat_at ep =? chr "*") eqn:Hstar.
    { assert (Hle : ep + 1 <= p_end) by (apply (Hsuffix _ Hstar); discriminate).
      eapply safe_post_le; [| intros; exact Hle].
      eapply max_expand_safe; try eassumption; lia. }
    destruct (pat_at ep =? chr "-") eqn:Hminus.
    { assert (Hle : ep + 1 <= p_end) by (apply (Hsuffix _ Hminus); discriminate).
      eapply safe_post_le; [| intros; exact Hle].
      eapply min_loop_safe; try eassumption; try lia; reflexivity. }
    eapply safe_post_le; [| intros; exact (proj2 Hep)].
    apply Hsj; [lia | exact Hok2 | exact Hsp2 | lia | lia].
  - destruct (pat_at ep =? chr "*") eqn:Hstar; simpl.
    { assert (Hle : ep + 1 <= p_end) by (apply (Hsuffix _ Hstar); discriminate).
      eapply safe_post_le; [| intros; exact Hle].
      apply Hsj; [lia | exact Hok1 | exact Hsp1 | exact Hlo | exact Hs]. }
    destruct (pat_at ep =? chr "?") eqn:Hq; simpl.
    { assert (Hle : ep + 1 <= p_end) by (apply (Hsuffix _ Hq); discriminate).
      eapply safe_post_le; [| intros; exact Hle].
      apply Hsj; [lia | exact Hok1 | exact Hsp1 | exact Hlo | exact Hs]. }
    destruct (pat_at ep =? chr "-") eqn:Hminus; simpl.
    { assert (Hle : ep + 1 <= p_end) by (apply (Hsuffix _ Hminus); discriminate).
      eapply safe_post_le; [| intros; exact Hle].
      apply Hsj; [lia | exact Hok1 | exact Hsp1 | exact Hlo | exact Hs]. }
    apply safe_post_here; discriminate.
Qed.

Lemma match_frontier_safe (jump : continuation) (lo p0 : Z)
      (ms : match_state) (s p : Z) :
  sound_above p0 jump -> safe_above lo p0 jump -> p0 < p ->
  state_ok ms s -> spans_ok lo ms s -> lo <= s -> 0 <= s <= s_end ->
  safe_post lo p (match_frontier jump ms s p).
Proof.
  intros Hj Hsj Hp Hok Hsp Hlo Hs. unfold match_frontier.
  destruct (pat_at p =? chr "[") eqn:Hbr; simpl;
    [| apply safe_post_here; discriminate].
  apply pat_at_is in Hbr; [| discriminate].
  pose proof (classend_defined p (proj2 Hbr)) as [_ Hdef].
  destruct (classend p) as [ep | err | | ] eqn:Hep; try congruence;
    try (apply safe_post_here; discriminate).
  apply classend_bounds in Hep; [| lia].
  assert (Hsame : same_data ms (snd (if s =? s_begin then (0, ms)
                                     else read_subject ms (s - 1)))).
  { destruct (s =? s_begin); [apply same_data_refl | apply same_data_log]. }
  destruct (if s =? s_begin then _ else _) as [previous ms1]. simpl in Hsame.
  pose proof (state_ok_same _ _ _ Hsame Hok) as Hok1.
  pose proof (spans_ok_same _ _ _ _ Hsame Hsp) as Hsp1.
  destruct (negb _); [| apply safe_post_here; discriminate].
  simpl.
  pose proof (state_ok_same _ _ _ (same_data_log ms1 s) Hok1) as Hok2.
  pose proof (spans_ok_same _ _ _ _ (same_data_log ms1 s) Hsp1) as Hsp2.
  destruct (matchbracketclass _ _ _).
  - eapply safe_post_le; [| intros; exact (proj2 Hep)].
    apply Hsj; [lia | exact Hok2 | exact Hsp2 | exact Hlo | exact Hs].
  - apply safe_post_here; discriminate.
Qed.

Lemma short_balance_room (p : Z) :
  short_balance = false -> pat_at p = chr "%" -> pat_at (p + 1) = chr "b" ->
  p + 2 < p_end -> p + 4 <= p_end.
Proof.
  intros Hwf H0 H1 Hlt. destruct (Z.eq_dec (p + 3) p_end) as [Heq | Hne]; [| lia].
  unfold short_balance in Hwf.
  replace (p_end - 3) with p in Hwf by lia.
  replace (p_end - 2) with (p + 1) in Hwf by lia.
  rewrite H0, H1 in Hwf. discriminate.
Qed.

Lemma match_body_safe (call jump : continuation) (lo : Z)
      (ms : match_state) (s p : Z) :
  sound_above p call -> sound_above p jump -> frames call ->
  safe_above lo p call -> safe_above lo p jump ->
  state_ok ms s -> spans_ok lo ms s -> lo <= s -> 0 <= s <= s_end ->
  safe_post lo p (match_body call jump ms s p).
Proof.
  intros Hc Hj Hf Hsc Hsj Hok Hsp Hlo Hs. unfold match_body.
  destruct (Z.ltb_spec p_end p).
  { split; [intros _ Hle; lia | discriminate]. }
  destruct (Z.eqb_spec p p_end) as [Hend | Hnotend].
  { apply safe_post_here; [discriminate | intros e [= <-]; exact Hsp]. }
  assert (Hp : p < p_end) by lia.
  pose proof (match_default_safe call jump lo ms s p Hc Hj Hf Hsc Hsj Hp Hok Hsp Hlo Hs)
    as Hd.
  destruct (pat_at p =? chr "(").
  { eapply safe_post_le;
      [eapply start_capture_safe; try eassumption; lia |].
    intros _ _. destruct (pat_at (p + 1) =? chr ")") eqn:Hcl; [| lia].
    apply pat_at_is in Hcl; [lia | discriminate]. }
  destruct (pat_at p =? chr ")").
  { eapply safe_post_le; [eapply end_capture_safe; try eassumption; lia | intros; lia]. }
  destruct (pat_at p =? chr "$").
  { destruct (negb _); [exact Hd |].
    destruct (s =? s_end); apply safe_post_here; try discriminate.
    intros e [= <-]. exact Hsp. }
  destruct (Z.eqb_spec (pat_at p) (chr "%")) as [Hpc |]; [| exact Hd].
  destruct (Z.eqb_spec (pat_at (p + 1)) (chr "b")) as [Hb1 |].
  { pose proof (matchbalance_same ms s (p + 2)) as Hsame.
    pose proof (matchbalance_bounds ms s (p + 2)) as Hb.
    pose proof (matchbalance_defined ms s (p + 2)) as [_ Hdef].
    assert (Hroom : fst (matchbalance ms s (p + 2)) <> Throw balanced_no_arguments ->
                    p + 2 < p_end).
    { unfold matchbalance. destruct (Z.leb_spec p_end (p + 2)); [| lia].
      simpl. congruence. }
    destruct (matchbalance ms s (p + 2)) as [r ms1]. simpl in *.
    pose proof (state_ok_same _ _ _ Hsame Hok) as Hok1.
    pose proof (spans_ok_same _ _ _ _ Hsame Hsp) as Hsp1.
    destruct r as [[e |] | err | | ]; try congruence;
      try (apply safe_post_here; discriminate).
    specialize (Hb e eq_refl).
    eapply safe_post_le.
    - apply Hsj; [| eapply state_ok_mono; [| exact Hok1]
                  | eapply spans_ok_mono; [| exact Hsp1] | |]; lia.
    - intros Hwf _. apply short_balance_room; try assumption.
      apply Hroom. discriminate. }
  destruct (pat_at (p + 1) =? chr "f") eqn:Hfr.
  { apply pat_at_is in Hfr; [| discriminate].
    eapply safe_post_le; [eapply match_frontier_safe; try eassumption; lia | intros; lia]. }
  destruct (in_range _ _ _) eqn:Hdig; [| exact Hd].
  assert (Hp1 : p + 1 < p_end).
  { unfold in_range in Hdig. apply andb_true_iff in Hdig. destruct Hdig as [Hlow _].
    apply Z.leb_le in Hlow.
    assert (Hnz : pat_at (p + 1) <> 0) by (unfold chr in Hlow; simpl in Hlow; lia).
    apply unit_at_nonzero in Hnz. unfold p_end. lia. }
  pose proof (match_capture_same ms s (pat_at (p + 1))) as Hsame.
  pose proof (match_capture_bounds ms s (pat_at (p + 1))) as Hb.
  pose proof (match_capture_safe ms s (pat_at (p + 1)) Hok) as Hdef.
  destruct (match_capture ms s _) as [r ms1]. simpl in *. subst ms1.
  destruct r as [[e |] | err | | ].
  - specialize (Hb e Hs eq_refl).
    apply safe_post_le with (p' := p + 2); [| intros; lia].
    apply Hsj; [| eapply state_ok_mono; [| exact Hok]
                | eapply spans_ok_mono; [| exact Hsp] | |]; lia.
  - exact Hd.
  - apply safe_post_here; discriminate.
  - congruence.
  - apply safe_post_here; discriminate.
Qed.

Lemma match_loop_safe (lo : Z) (n : nat) (ms : match_state) (s p : Z) :
  (fuel_for p <= n)%nat -> state_ok ms s -> spans_ok lo ms s ->
  lo <= s -> 0 <= s <= s_end ->
  safe_post lo p (match_loop n ms s p).
Proof.
  revert ms s p. induction n as [| n IH]; intros ms s p Hn Hok Hsp Hlo Hs.
  { unfold fuel_for in Hn. lia. }
  simpl. destruct (Z.ltb_spec p_end p) as [Hout | Hin].
  { unfold match_body. destruct (Z.ltb_spec p_end p); [| lia].
    split; [intros _ Hle; lia | discriminate]. }
  assert (Hk : sound_above p (match_loop n)).
  { intros ms' s' p' Hp' Hok' Hs'. apply match_loop_sound; [| exact Hok' | exact Hs'].
    unfold fuel_for in *. lia. }
  assert (Hk' : safe_above lo p (match_loop n)).
  { intros ms' s' p' Hp' Hok' Hsp' Hlo' Hs'. apply IH; try assumption.
    unfold fuel_for in *. lia. }
  apply match_body_safe; try assumption.
  - apply with_sentinel_sound. exact Hk.
  - apply with_sentinel_frames, match_loop_frames.
  - apply with_sentinel_safe. exact Hk'.
Qed.

Lemma detail_match_safe (lo : Z) (ms : match_state) (s p : Z) :
  state_ok ms s -> spans_ok lo ms s -> lo <= s -> 0 <= s <= s_end ->
  safe_post lo p (detail_match ms s p).
Proof.
  intros Hok Hsp Hlo Hs.
  assert (H : safe_above lo (p - 1) match_from).
  { intros ms' s' p' _ Hok' Hsp' Hlo' Hs'. apply match_loop_safe; try assumption. lia. }
  apply (with_sentinel_safe match_from lo (p - 1) H); try assumption. lia.
Qed.

(** ** The outcome depends on the live part of the state only

    [reprepstate] resets the level and the span but leaves the slots as
    the last attempt wrote them, and the log of reads grows.  Two states
    that agree on the level, the depth counter and the slots below the
    level are indistinguishable for the matcher. *)

Definition live_eq (ms ms' : match_state) : Prop :=
  ms_level ms' = ms_level ms /\ matchdepth ms' = matchdepth ms /\
  length (ms_captures ms') = length (ms_captures ms) /\
  forall i : nat, Z.of_nat i < ms_level ms ->
                  ms_captures ms' !! i = ms_captures ms !! i.

Definition same_outcome (res res' : result (option Z) * match_state) : Prop :=
  fst res' = fst res /\ live_eq (snd res) (snd res').

Definition respects (k : continuation) : Prop :=
  forall ms ms' s p, live_eq ms ms' -> same_outcome (k ms s p) (k ms' s p).

Lemma live_eq_refl (ms : match_state) : live_eq ms ms.
Proof. repeat split. Qed.

Lemma live_eq_same (ms ms' m1 m1' : match_state) :
  same_data ms m1 -> same_data ms' m1' -> live_eq ms ms' -> live_eq m1 m1'.
Proof.
  intros [H1 H2] [H3 H4] (Hl & Hd & Hn & Hc).
  unfold live_eq, ms_level, ms_captures in *. rewrite H1, H2, H3, H4. tauto.
Qed.

Lemma live_eq_get_cap (ms ms' : match_state) (i : Z) :
  live_eq ms ms' -> 0 <= i < ms_level ms ->
  get_cap (ms_captures ms') i = get_cap (ms_captures ms) i.
Proof.
  intros (_ & _ & _ & Hc) Hi. unfold get_cap. rewrite Hc by lia. reflexivity.
Qed.

Lemma live_eq_set_matchdepth (ms ms' : match_state) (d : Z) :
  live_eq ms ms' -> live_eq (set_matchdepth ms d) (set_matchdepth ms' d).
Proof. intros (Hl & Hd & Hn & Hc). repeat split; assumption. Qed.

Lemma live_eq_set_cap_len (ms ms' : match_state) (i v : Z) :
  live_eq ms ms' -> live_eq (set_cap_len ms i v) (set_cap_len ms' i v).
Proof.
  intros (Hl & Hd & Hn & Hc). split; [exact Hl |]. split; [exact Hd |].
  unfold set_cap_len, ms_captures, ms_level, get_cap in *. simpl.
  split; [rewrite !length_insert; exact Hn |].
  intros j Hj. destruct (Nat.eq_dec j (Z.to_nat i)) as [-> | Hne].
  - rewrite (Hc _ Hj).
    destruct (Nat.lt_ge_cases (Z.to_nat i) (length (captures (mr ms)))) as [Hlt | Hge].
    + rewrite !list_lookup_insert_eq by lia. reflexivity.
    + rewrite !list_insert_ge by lia. apply Hc. exact Hj.
  - rewrite !list_lookup_insert_ne by congruence. apply Hc. exact Hj.
Qed.

Lemma live_eq_open_slot (ms ms' : match_state) (s kind : Z) :
  live_eq ms ms' -> live_eq (open_slot ms s kind) (open_slot ms' s kind).
Proof.
  intros (Hl & Hd & Hn & Hc).
  unfold open_slot, set_cap_len, set_cap_init, set_level, live_eq,
    ms_captures, ms_level, get_cap in *. simpl. rewrite Hl.
  split; [reflexivity |]. split; [exact Hd |].
  split; [rewrite !length_insert; exact Hn |].
  intros j Hj. destruct (Nat.eq_dec j (Z.to_nat (level (mr ms)))) as [-> | Hne].
  - destruct (Nat.lt_ge_cases (Z.to_nat (level (mr ms))) (length (captures (mr ms))))
      as [Hlt | Hge].
    + rewrite !list_lookup_insert_eq by (rewrite ?length_insert; lia). reflexivity.
    + rewrite !list_insert_ge by (rewrite ?length_insert; lia).
      rewrite !(proj2 (lookup_ge_None _ _)) by lia. reflexivity.
  - rewrite !list_lookup_insert_ne by congruence. apply Hc. lia.
Qed.

Lemma live_eq_undo_open (ms ms' : match_state) :
  live_eq ms ms' -> live_eq (undo_open ms) (undo_open ms').
Proof.
  intros (Hl & Hd & Hn & Hc).
  unfold undo_open, set_cap_len, set_level, live_eq, ms_captures, ms_level, get_cap in *.
  simpl. rewrite Hl.
  split; [reflexivity |]. split; [exact Hd |].
  split; [rewrite !length_insert; exact Hn |].
  intros j Hj. rewrite !list_lookup_insert_ne by lia. apply Hc. lia.
Qed.

Lemma live_eq_find_unfinished (ms ms' : match_state) :
  live_eq ms ms' ->
  find_unfinished (ms_captures ms') (Z.to_nat (ms_level ms))
  = find_unfinished (ms_captures ms) (Z.to_nat (ms_level ms)).
Proof.
  intros Heq.
  assert (H : forall n : nat, Z.of_nat n <= ms_level ms ->
            find_unfinished (ms_captures ms') n = find_unfinished (ms_captures ms) n).
  { induction n as [| n IH]; intros Hn; simpl; [reflexivity |].
    rewrite (live_eq_get_cap ms ms') by (try assumption; lia).
    rewrite IH by lia. reflexivity. }
  destruct (Z.le_gt_cases 0 (ms_level ms)) as [Hpos | Hneg].
  - apply H. lia.
  - replace (Z.to_nat (ms_level ms)) with 0%nat by lia. reflexivity.
Qed.

Lemma same_outcome_here (o : result (option Z)) (ms ms' : match_state) :
  live_eq ms ms' -> same_outcome (o, ms) (o, ms').
Proof. intros H. split; [reflexivity | exact H]. Qed.

Lemma singlematch_fst (ms ms' : match_state) (s p ep : Z) :
  fst (singlematch ms' s p ep) = fst (singlematch ms s p ep).
Proof. rewrite !singlematch_unit. reflexivity. Qed.

Lemma max_count_fst (n : nat) (ms ms' : match_state) (s p ep i : Z) :
  fst (max_count n ms' s p ep i) = fst (max_count n ms s p ep i).
Proof.
  revert ms ms' i. induction n as [| n IH]; intros ms ms' i; simpl;
    pose proof (singlematch_fst ms ms' (s + i) p ep) as Hm;
    destruct (singlematch ms (s + i) p ep) as [m1 ms1],
             (singlematch ms' (s + i) p ep) as [m2 ms2];
    simpl in Hm; subst m2; destruct m1; try reflexivity.
  apply IH.
Qed.

Lemma balance_loop_fst (n : nat) (ms ms' : match_state) (s b e count : Z) :
  fst (balance_loop n ms' s b e count) = fst (balance_loop n ms s b e count).
Proof.
  revert ms ms' s count. induction n as [| n IH]; intros ms ms' s count; simpl;
    [reflexivity |].
  destruct (s + 1 <? s_end); [| reflexivity].
  destruct (unit_at subject (s + 1) =? e).
  - destruct (count - 1 =? 0); [reflexivity | apply IH].
  - destruct (unit_at subject (s + 1) =? b); apply IH.
Qed.

Lemma matchbalance_fst (ms ms' : match_state) (s p : Z) :
  fst (matchbalance ms' s p) = fst (matchbalance ms s p).
Proof.
  unfold matchbalance. destruct (p_end <=? p); [reflexivity |]. simpl.
  destruct (negb _); [reflexivity | apply balance_loop_fst].
Qed.

Lemma match_capture_fst (ms ms' : match_state) (s c : Z) :
  live_eq ms ms' -> fst (match_capture ms' s c) = fst (match_capture ms s c).
Proof.
  intros Heq. pose proof Heq as (Hl & _). unfold match_capture. rewrite Hl.
  destruct (Z.ltb_spec (c - chr "1") 0); [reflexivity |].
  destruct (Z.leb_spec (ms_level ms) (c - chr "1")); [reflexivity |].
  rewrite (live_eq_get_cap ms ms') by (try assumption; lia). simpl.
  destruct (_ =? unfinished); [reflexivity |].
  destruct (_ <=? _); [| reflexivity].
  destruct (init _); [| reflexivity].
  destruct (memcmp_eq _ _ _); reflexivity.
Qed.

Lemma with_sentinel_respects (body : continuation) :
  respects body -> respects (with_sentinel body).
Proof.
  intros H ms ms' s p Heq. unfold with_sentinel, sentinel_enter.
  pose proof Heq as (_ & Hd & _). rewrite Hd.
  destruct (matchdepth ms <=? 0); [apply same_outcome_here; exact Heq |].
  pose proof (H _ _ s p (live_eq_set_matchdepth ms ms' (matchdepth ms - 1) Heq)) as Hb.
  destruct (body (set_matchdepth ms _) s p) as [r1 m1],
           (body (set_matchdepth ms' _) s p) as [r2 m2].
  destruct Hb as [Hr Hm]. simpl in *. split; [exact Hr |].
  pose proof Hm as (_ & Hd2 & _). rewrite Hd2.
  apply live_eq_set_matchdepth. exact Hm.
Qed.

Lemma max_try_respects (call : continuation) (k : nat) (ms ms' : match_state)
      (s ep : Z) :
  respects call -> live_eq ms ms' ->
  same_outcome (max_try call k ms s ep) (max_try call k ms' s ep).
Proof.
  intros Hc. revert ms ms'. induction k as [| k IH]; intros ms ms' Heq; simpl.
  - pose proof (Hc ms ms' (s + Z.of_nat 0) (ep + 1) Heq) as H.
    destruct (call ms _ _) as [r1 m1], (call ms' _ _) as [r2 m2].
    destruct H as [Hr Hm]. simpl in Hr, Hm. subst r2.
    destruct r1 as [[e |] | err | | ]; split; try reflexivity; exact Hm.
  - pose proof (Hc ms ms' (s + Z.of_nat (S k)) (ep + 1) Heq) as H.
    destruct (call ms _ _) as [r1 m1], (call ms' _ _) as [r2 m2].
    destruct H as [Hr Hm]. simpl in Hr, Hm. subst r2.
    destruct r1 as [[e |] | err | | ]; try (split; [reflexivity | exact Hm]).
    apply IH. exact Hm.
Qed.

Lemma max_expand_respects (call : continuation) (ms ms' : match_state)
      (s p ep : Z) :
  respects call -> live_eq ms ms' ->
  same_outcome (max_expand call ms s p ep) (max_expand call ms' s p ep).
Proof.
  intros Hc Heq. unfold max_expand.
  pose proof (max_count_fst (Z.to_nat (s_end - s)) ms ms' s p ep 0) as Hi.
  pose proof (max_count_same (Z.to_nat (s_end - s)) ms s p ep 0) as H1.
  pose proof (max_count_same (Z.to_nat (s_end - s)) ms' s p ep 0) as H2.
  destruct (max_count _ ms _ _ _ _) as [i1 m1], (max_count _ ms' _ _ _ _) as [i2 m2].
  simpl in *. subst i2. apply max_try_respects; [exact Hc |].
  eapply live_eq_same; eassumption.
Qed.

Lemma min_loop_respects (call : continuation) (n : nat) (ms ms' : match_state)
      (s p ep : Z) :
  respects call -> live_eq ms ms' ->
  same_outcome (min_loop call n ms s p ep) (min_loop call n ms' s p ep).
Proof.
  intros Hc. revert ms ms' s.
  induction n as [| n IH]; intros ms ms' s Heq; simpl;
    pose proof (Hc ms ms' s (ep + 1) Heq) as H;
    destruct (call ms _ _) as [r1 m1], (call ms' _ _) as [r2 m2];
    destruct H as [Hr Hm]; simpl in Hr, Hm; subst r2;
    destruct r1 as [[e |] | err | | ]; try (split; [reflexivity | exact Hm]);
    pose proof (singlematch_fst m1 m2 s p ep) as Hs;
    pose proof (singlematch_same m1 s p ep) as H1;
    pose proof (singlematch_same m2 s p ep) as H2;
    destruct (singlematch m1 s p ep) as [b1 n1], (singlematch m2 s p ep) as [b2 n2];
    simpl in *; subst b2;
    pose proof (live_eq_same _ _ _ _ H1 H2 Hm) as Hn;
    destruct b1; try (split; [reflexivity | exact Hn]).
  apply IH. exact Hn.
Qed.

Lemma start_capture_respects (call : continuation) (ms ms' : match_state) (s p : Z) :
  respects call -> live_eq ms ms' ->
  same_outcome (start_capture call ms s p) (start_capture call ms' s p).
Proof.
  intros Hc Heq. rewrite !start_capture_eq. pose proof Heq as (Hl & _). rewrite Hl.
  destruct (MAXCAPTURES <=? ms_level ms); [apply same_outcome_here; exact Heq |].
  simpl.
  set (kind := if pat_at p =? chr ")" then position else unfinished).
  set (p1 := if pat_at p =? chr ")" then p + 1 else p).
  pose proof (Hc _ _ s p1 (live_eq_open_slot ms ms' s kind Heq)) as H.
  destruct (call (open_slot ms s kind) s p1) as [r1 m1],
           (call (open_slot ms' s kind) s p1) as [r2 m2].
  destruct H as [Hr Hm]. simpl in Hr, Hm. subst r2.
  destruct r1 as [[e |] | err | | ]; try (split; [reflexivity | exact Hm]).
  apply same_outcome_here, live_eq_undo_open. exact Hm.
Qed.

Lemma end_capture_respects (call : continuation) (ms ms' : match_state) (s p : Z) :
  respects call -> live_eq ms ms' ->
  same_outcome (end_capture call ms s p) (end_capture call ms' s p).
Proof.
  intros Hc Heq. unfold end_capture. pose proof Heq as (Hl & _).
  rewrite Hl, (live_eq_find_unfinished ms ms' Heq).
  destruct (find_unfinished _ _) as [i |] eqn:Hfind;
    [| apply same_outcome_here; exact Heq].
  apply find_unfinished_spec in Hfind. destruct Hfind as [Hi _].
  rewrite (live_eq_get_cap ms ms') by (try assumption; lia).
  destruct (init _) as [a |]; [| apply same_outcome_here; exact Heq].
  pose proof (Hc _ _ s p (live_eq_set_cap_len ms ms' (Z.of_nat i) (s - a) Heq)) as H.
  destruct (call (set_cap_len ms _ _) s p) as [r1 m1],
           (call (set_cap_len ms' _ _) s p) as [r2 m2].
  destruct H as [Hr Hm]. simpl in Hr, Hm. subst r2.
  destruct r1 as [[e |] | err | | ]; try (split; [reflexivity | exact Hm]).
  apply same_outcome_here, live_eq_set_cap_len. exact Hm.
Qed.

Lemma match_default_respects (call jump : continuation) (ms ms' : match_state)
      (s p : Z) :
  respects call -> respects jump -> live_eq ms ms' ->
  same_outcome (match_default call jump ms s p) (match_default call jump ms' s p).
Proof.
  intros Hc Hj Heq. unfold match_default.
  destruct (classend p) as [ep | err | | ]; try (apply same_outcome_here; exact Heq).
  pose proof (singlematch_fst ms ms' s p ep) as Hs.
  pose proof (singlematch_same ms s p ep) as H1.
  pose proof (singlematch_same ms' s p ep) as H2.
  destruct (singlematch ms s p ep) as [b1 n1], (singlematch ms' s p ep) as [b2 n2].
  simpl in *. subst b2.
  pose proof (live_eq_same _ _ _ _ H1 H2 Heq) as Hn.
  destruct b1; simpl.
  - destruct (pat_at ep =? chr "?").
    { pose proof (Hc n1 n2 (s + 1) (ep + 1) Hn) as H.
      destruct (call n1 _ _) as [r1 m1], (call n2 _ _) as [r2 m2].
      destruct H as [Hr Hm]. simpl in Hr, Hm. subst r2.
      destruct r1 as [[e |] | err | | ]; try (split; [reflexivity | exact Hm]).
      apply Hj. exact Hm. }
    destruct (pat_at ep =? chr "+"); [apply max_expand_respects; assumption |].
    destruct (pat_at ep =? chr "*"); [apply max_expand_respects; assumption |].
    destruct (pat_at ep =? chr "-"); [apply min_loop_respects; assumption |].
    apply Hj. exact Hn.
  - destruct (_ || _); [apply Hj; exact Hn | apply same_outcome_here; exact Hn].
Qed.

Lemma match_frontier_respects (jump : continuation) (ms ms' : match_state) (s p : Z) :
  respects jump -> live_eq ms ms' ->
  same_outcome (match_frontier jump ms s p) (match_frontier jump ms' s p).
Proof.
  intros Hj Heq. unfold match_frontier.
  destruct (negb _); [apply same_outcome_here; exact Heq |].
  destruct (classend p) as [ep | err | | ]; try (apply same_outcome_here; exact Heq).
  destruct (s =? s_begin); simpl.
  - destruct (negb _); simpl.
    + assert (Hn : live_eq (log_read ms s) (log_read ms' s))
        by (eapply live_eq_same; [apply same_data_log | apply same_data_log | exact Heq]).
      destruct (matchbracketclass _ _ _);
        [apply Hj; exact Hn | apply same_outcome_here; exact Hn].
    + apply same_outcome_here; exact Heq.
  - assert (Hn1 : live_eq (log_read ms (s - 1)) (log_read ms' (s - 1)))
      by (eapply live_eq_same; [apply same_data_log | apply same_data_log | exact Heq]).
    destruct (negb _); simpl.
    + assert (Hn : live_eq (log_read (log_read ms (s - 1)) s)
                           (log_read (log_read ms' (s - 1)) s))
        by (eapply live_eq_same; [apply same_data_log | apply same_data_log | exact Hn1]).
      destruct (matchbracketclass _ _ _);
        [apply Hj; exact Hn | apply same_outcome_here; exact Hn].
    + apply same_outcome_here; exact Hn1.
Qed.

Lemma match_body_respects (call jump : continuation) (ms ms' : match_state) (s p : Z) :
  respects call -> respects jump -> live_eq ms ms' ->
  same_outcome (match_body call jump ms s p) (match_body call jump ms' s p).
Proof.
  intros Hc Hj Heq. unfold match_body.
  destruct (p_end <? p); [apply same_outcome_here; exact Heq |].
  destruct (p =? p_end); [apply same_outcome_here; exact Heq |].
  pose proof (match_default_respects call jump ms ms' s p Hc Hj Heq) as Hd.
  destruct (pat_at p =? chr "("); [apply start_capture_respects; assumption |].
  destruct (pat_at p =? chr ")"); [apply end_capture_respects; assumption |].
  destruct (pat_at p =? chr "$").
  { destruct (negb _); [exact Hd |].
    destruct (s =? s_end); apply same_outcome_here; exact Heq. }
  destruct (pat_at p =? chr "%"); [| exact Hd].
  destruct (pat_at (p + 1) =? chr "b").
  { pose proof (matchbalance_fst ms ms' s (p + 2)) as Hr.
    pose proof (matchbalance_same ms s (p + 2)) as H1.
    pose proof (matchbalance_same ms' s (p + 2)) as H2.
    destruct (matchbalance ms s _) as [r1 m1], (matchbalance ms' s _) as [r2 m2].
    simpl in *. subst r2.
    pose proof (live_eq_same _ _ _ _ H1 H2 Heq) as Hn.
    destruct r1 as [[e |] | err | | ]; try (split; [reflexivity | exact Hn]).
    apply Hj. exact Hn. }
  destruct (pat_at (p + 1) =? chr "f"); [apply match_frontier_respects; assumption |].
  destruct (in_range _ _ _); [| exact Hd].
  pose proof (match_capture_fst ms ms' s (pat_at (p + 1)) Heq) as Hr.
  pose proof (match_capture_same ms s (pat_at (p + 1))) as H1.
  pose proof (match_capture_same ms' s (pat_at (p + 1))) as H2.
  destruct (match_capture ms s _) as [r1 m1], (match_capture ms' s _) as [r2 m2].
  simpl in *. subst r2 m1 m2.
  destruct r1 as [[e |] | err | | ]; try (split; [reflexivity | exact Heq]).
  - apply Hj. exact Heq.
  - exact Hd.
Qed.

Lemma match_loop_respects (n : nat) : respects (match_loop n).
Proof.
  induction n as [| n IH]; intros ms ms' s p Heq; simpl.
  - apply same_outcome_here. exact Heq.
  - apply match_body_respects; [apply with_sentinel_respects | |]; assumption.
Qed.

Lemma detail_match_respects : respects detail_match.
Proof.
  apply with_sentinel_respects. intros ms ms' s p Heq. apply match_loop_respects. exact Heq.
Qed.

(** ** One attempt of the drivers

    All three drivers call the core on a state whose level and span were
    just reset and whose depth counter is full. *)

Definition reset (ms : match_state) : Prop :=
  fresh ms /\ matchdepth ms = MAXCCALLS.

(** The state a driver starts with, and the outcome of the core started
    on it at subject offset [s]. *)
Definition clean : match_state := new_match_state empty_match_result.

Definition attempt (s : Z) : result (option Z) :=
  fst (detail_match clean s p_begin).

Lemma reset_new (r : basic_match_result) :
  slots_ok (captures r) -> reset (new_match_state r).
Proof. intros H. split; [apply fresh_new; exact H | reflexivity]. Qed.

Lemma reset_clean : reset clean.
Proof. apply reset_new, slots_ok_empty. Qed.

Lemma reset_live_eq (ms : match_state) : reset ms -> live_eq clean ms.
Proof.
  intros [(Hl & _ & [Hlen _]) Hd]. split; [exact Hl |]. split; [exact Hd |].
  split.
  - rewrite Hlen. reflexivity.
  - intros i Hi. change (ms_level clean) with 0 in Hi. lia.
Qed.

Lemma attempt_eq (ms : match_state) (s : Z) :
  reset ms -> fst (detail_match ms s p_begin) = attempt s.
Proof.
  intros H. apply (detail_match_respects clean ms s p_begin (reset_live_eq ms H)).
Qed.

Lemma p_begin_le : p_begin <= p_end.
Proof.
  unfold p_begin, anchor. destruct (Z.ltb_spec 0 p_end); simpl.
  - destruct (_ =? _); lia.
  - unfold p_end in *. lia.
Qed.

Lemma attempt_state (ms : match_state) (s : Z) :
  reset ms -> 0 <= s <= s_end ->
  matchdepth (snd (detail_match ms s p_begin)) = MAXCCALLS /\
  pos (mr (snd (detail_match ms s p_begin))) = (-1, -1) /\
  slots_ok (ms_captures (snd (detail_match ms s p_begin))) /\
  0 <= ms_level (snd (detail_match ms s p_begin)) <= MAXCAPTURES /\
  (fst (detail_match ms s p_begin) = Ok None ->
   ms_level (snd (detail_match ms s p_begin)) = 0) /\
  (forall e, fst (detail_match ms s p_begin) = Ok (Some e) ->
     s <= e <= s_end /\ spans_ok s (snd (detail_match ms s p_begin)) e) /\
  fst (detail_match ms s p_begin) <> OutOfFuel /\
  (short_balance = false -> fst (detail_match ms s p_begin) <> Undefined).
Proof.
  intros [Hfresh Hd] Hs.
  pose proof (fresh_state_ok ms s Hfresh) as Hok.
  assert (Hsp : spans_ok s ms s).
  { intros i Hi. destruct Hfresh as (Hl & _). lia. }
  pose proof (detail_match_sound ms s p_begin Hok Hs) as (Hfuel & Hlev & Hslots & He).
  pose proof (detail_match_frames ms s p_begin) as (Hdepth & Hpos & Hfr).
  pose proof (detail_match_safe s ms s p_begin Hok Hsp (Z.le_refl s) Hs) as (Hdef & Hspans).
  destruct Hfresh as (Hl & Hp & _).
  split; [congruence |]. split; [congruence |]. split; [exact Hslots |].
  split; [exact Hlev |]. split; [intros Hnone; destruct (Hfr Hnone); congruence |].
  split; [intros e Hsome; split; [apply He | apply Hspans]; exact Hsome |].
  split; [exact Hfuel |]. intros Hwf. apply Hdef; [exact Hwf | apply p_begin_le].
Qed.

Lemma reset_reprep (ms : match_state) :
  slots_ok (ms_captures ms) -> matchdepth ms = MAXCCALLS -> reset (reprepstate ms).
Proof. intros H Hd. split; [apply fresh_reprep; exact H | exact Hd]. Qed.

(** What a driver reports for a match of [s, e): the span, at least one
    capture, and every capture a view that lies inside the span. *)
Definition reported (r : basic_match_result) (s e : Z) : Prop :=
  pos r = (s, e) /\ 0 < level r <= MAXCAPTURES /\
  forall i, 0 <= i < level r ->
    exists a l, at_ r i = Ok (Some a, l) /\ s <= a /\ 0 <= l /\ a + l <= e.

Lemma on_success_reported (ms ms2 : match_state) (s e : Z) :
  0 <= ms_level ms <= MAXCAPTURES -> slots_ok (ms_captures ms) ->
  spans_ok s ms e -> s <= e ->
  on_success ms s e = (Ok tt, ms2) ->
  reported (mr ms2) s e /\ slots_ok (captures (mr ms2)) /\
  matchdepth ms2 = matchdepth ms.
Proof.
  intros Hl Hslots Hsp Hse. unfold on_success, check_captures.
  destruct (has_unfinished ms); [discriminate |]. intros [= <-].
  split; [| split].
  - unfold reported, at_.
    change (level (mr ?m)) with (ms_level m).
    change (captures (mr ?m)) with (ms_captures m).
    rewrite install_whole_match_level, install_whole_match_captures,
      install_whole_match_pos.
    split; [unfold s_begin; f_equal; lia |].
    destruct (Z.eqb_spec (ms_level ms) 0) as [Hzero | Hpos].
    + split; [unfold MAXCAPTURES; lia |]. intros i Hi.
      assert (i = 0) as -> by lia. simpl.
      rewrite get_cap_whole_match by exact Hslots. simpl.
      exists s, (Z.max (e - s) 0). split; [reflexivity | lia].
    + split; [lia |]. intros i Hi.
      destruct (Z.leb_spec (ms_level ms) i); [lia |].
      destruct (Hsp (Z.to_nat i)) as (a & Ha & Hb & Hc); [lia |].
      rewrite Z2Nat.id in Ha, Hc by lia. rewrite Ha.
      exists a, (Z.max (len (get_cap (ms_captures ms) i)) 0).
      split; [reflexivity | lia].
  - apply slots_ok_install; assumption.
  - unfold install_whole_match. destruct (_ =? 0); reflexivity.
Qed.

(** ** The search driver, attempt by attempt *)

Lemma search_loop_attempts (n : nat) (ms ms' : match_state) (s : Z) :
  reset ms -> 0 <= s -> s + Z.of_nat n <= s_end + 1 ->
  search_loop n ms s = (Ok tt, ms') ->
  (ms_level ms' = 0 /\ pos (mr ms') = (-1, -1) /\
   forall s', s <= s' < s + Z.of_nat n -> (anchor = true -> s' = s) ->
              attempt s' = Ok None) \/
  (exists s1 e,
     s <= s1 < s + Z.of_nat n /\ (anchor = true -> s1 = s) /\
     reported (mr ms') s1 e /\ e <= s_end /\
     attempt s1 = Ok (Some e) /\
     forall s', s <= s' < s1 -> attempt s' = Ok None).
Proof.
  revert ms s. induction n as [| n IH]; intros ms s Hreset Hs Hn; simpl.
  { intros [= <-]. left. destruct Hreset as [(Hl & Hp & _) _].
    split; [exact Hl |]. split; [exact Hp |]. intros s' Hs'. lia. }
  assert (Hs' : 0 <= s <= s_end) by lia.
  pose proof (attempt_state ms s Hreset Hs')
    as (Hdepth & Hpos & Hslots & Hlev & Hnone & Hsome & _).
  pose proof (attempt_eq ms s Hreset) as Hatt.
  destruct (detail_match ms s p_begin) as [[[e |] | err | | ] ms1];
    cbn [fst snd] in *; try discriminate.
  - destruct (Hsome e eq_refl) as [He Hsp]. intros Hok.
    destruct (on_success_reported ms1 ms' s e Hlev Hslots Hsp (proj1 He) Hok)
      as (Hrep & _ & _).
    right. exists s, e. split; [lia |]. split; [reflexivity |].
    split; [exact Hrep |]. split; [lia |]. split; [congruence |]. intros s' Hlt. lia.
  - specialize (Hnone eq_refl). destruct anchor eqn:Hanchor.
    + intros [= <-]. left. split; [exact Hnone |]. split; [exact Hpos |].
      intros s' _ Heq. rewrite (Heq eq_refl). congruence.
    + intros Hrest.
      destruct (IH (reprepstate ms1) (s + 1) (reset_reprep ms1 Hslots Hdepth)
                   ltac:(lia) ltac:(lia) Hrest)
        as [(Hl' & Hp' & Hall) | (s1 & e & Hs1 & _ & Hrep & He & Hat & Hall)].
      * left. split; [exact Hl' |]. split; [exact Hp' |]. intros s' Hr _.
        destruct (Z.eq_dec s' s) as [-> | Hne]; [congruence |].
        apply Hall; [lia | discriminate].
      * right. exists s1, e. split; [lia |]. split; [discriminate |].
        split; [exact Hrep |]. split; [exact He |]. split; [exact Hat |].
        intros s' Hr. destruct (Z.eq_dec s' s) as [-> | Hne]; [congruence |].
        apply Hall. lia.
Qed.

Lemma lex_match_attempts (r : basic_match_result) :
  lex_match = Ok r ->
  (level r = 0 /\ pos r = (-1, -1) /\
   forall s, 0 <= s <= s_end -> (anchor = true -> s = 0) -> attempt s = Ok None) \/
  (exists s e,
     0 <= s <= s_end /\ (anchor = true -> s = 0) /\
     reported r s e /\ e <= s_end /\
     attempt s = Ok (Some e) /\
     forall s', 0 <= s' < s -> attempt s' = Ok None).
Proof.
  intros Hr. apply lex_match_ok in Hr. destruct Hr as (ms' & Hstate & ->).
  unfold lex_match_state in Hstate.
  apply search_loop_attempts in Hstate;
    [| apply reset_clean | unfold s_begin; lia | unfold s_begin, s_end; lia].
  unfold s_begin, s_end in *.
  destruct Hstate as [(Hl & Hp & Hall) | (s1 & e & Hs1 & Ha & Hrep & He & Hat & Hall)].
  - left. split; [exact Hl |]. split; [exact Hp |]. intros s Hs. apply Hall. lia.
  - right. exists s1, e. split; [lia |]. tauto.
Qed.

(** The search reports the leftmost offset at which the pattern matches:
    every attempt at an earlier offset fails, an anchored pattern is tried at
    offset 0 only, and an empty result means that every attempt failed.
    The attempts do not influence each other: each behaves as on the state
    a driver starts with. *)
Theorem match_is_leftmost (r : basic_match_result) :
  lex_match = Ok r ->
  (to_bool r = false /\ pos r = (-1, -1) /\
   forall s, 0 <= s <= s_end -> (anchor = true -> s = 0) -> attempt s = Ok None) \/
  (to_bool r = true /\
   0 <= fst (pos r) <= snd (pos r) /\ snd (pos r) <= s_end /\
   attempt (fst (pos r)) = Ok (Some (snd (pos r))) /\
   (anchor = true -> fst (pos r) = 0) /\
   forall s, 0 <= s < fst (pos r) -> attempt s = Ok None).
Proof.
  intros Hr. apply lex_match_attempts in Hr.
  destruct Hr as [(Hl & Hp & Hall) | (s & e & Hs & Ha & Hrep & He & Hat & Hall)].
  - left. unfold to_bool. rewrite Hl. split; [reflexivity |]. split; assumption.
  - right. destruct Hrep as (Hp & Hl & Hcaps). unfold to_bool. rewrite Hp. simpl.
    split; [apply Z.ltb_lt; lia |].
    destruct (Hcaps 0 ltac:(lia)) as (a & l & _ & H1 & H2 & H3).
    split; [lia |]. split; [exact He |]. split; [exact Hat |]. split; assumption.
Qed.

(** What an increment of the iterator reports: nothing, or a match that
    starts at or after the cursor. *)
Lemma gmatch_loop_reported (n : nat) (ms : match_state) (q : Z) (l : option Z)
      (it' : gmatch_iterator) :
  reset ms -> 0 <= q -> gmatch_loop n ms q l = Ok it' ->
  (level (it_mr it') = 0 /\ pos (it_mr it') = (-1, -1) /\ s_end < it_pos it') \/
  (exists s e, q <= s /\ e <= s_end /\ it_pos it' = e /\ last_match it' = Some e /\
               reported (it_mr it') s e).
Proof.
  revert ms q l. induction n as [| n IH]; intros ms q l Hreset Hq;
    cbn [gmatch_loop].
  { destruct (Z.ltb_spec s_end q); [| discriminate].
    intros [= <-]. left. destruct Hreset as [(Hl & Hp & _) _]. simpl. tauto. }
  destruct (Z.ltb_spec s_end q) as [Hout | Hin].
  { intros [= <-]. left. destruct Hreset as [(Hl & Hp & _) _]. simpl. tauto. }
  pose proof (attempt_state ms q Hreset (conj Hq Hin))
    as (Hdepth & Hpos & Hslots & Hlev & Hnone & Hsome & _).
  destruct (detail_match ms q p_begin) as [[[e |] | err | | ] ms1];
    cbn [fst snd] in *; try discriminate.
  - destruct (Hsome e eq_refl) as [He Hsp]. destruct (ptr_eqb (Some e) l).
    + intros Hrest.
      destruct (IH (reprepstate ms1) (q + 1) _ (reset_reprep ms1 Hslots Hdepth)
                   ltac:(lia) Hrest)
        as [Hend | (s1 & e1 & Hs1 & Hrest')]; [left; exact Hend |].
      right. exists s1, e1. split; [lia | exact Hrest'].
    + destruct (on_success ms1 q e) as [[[] | err | | ] ms2] eqn:Hok; try discriminate.
      destruct (on_success_reported ms1 ms2 q e Hlev Hslots Hsp (proj1 He) Hok)
        as (Hrep & _ & _).
      intros [= <-]. right. exists q, e. simpl.
      split; [lia |]. split; [lia |]. tauto.
  - intros Hrest.
    destruct (IH (reprepstate ms1) (q + 1) _ (reset_reprep ms1 Hslots Hdepth)
                   ltac:(lia) Hrest)
      as [Hend | (s1 & e1 & Hs1 & Hrest')]; [left; exact Hend |].
    right. exists s1, e1. split; [lia | exact Hrest'].
Qed.

(** Every capture of a result of the search is a view that lies inside the
    matched span, and the span lies inside the subject; the same holds for
    the result an increment of the iterator leaves. *)
Theorem captures_within_match :
  (forall r i, lex_match = Ok r -> 0 <= i < size r ->
     exists a l, at_ r i = Ok (Some a, l) /\
                 0 <= fst (pos r) <= a /\ 0 <= l /\
                 a + l <= snd (pos r) /\ snd (pos r) <= s_end) /\
  (forall it it' i, slots_ok (captures (it_mr it)) -> 0 <= it_pos it ->
     gmatch_next it = Ok it' -> 0 <= i < size (it_mr it') ->
     exists a l, at_ (it_mr it') i = Ok (Some a, l) /\
                 it_pos it <= fst (pos (it_mr it')) <= a /\ 0 <= l /\
                 a + l <= snd (pos (it_mr it')) /\
                 snd (pos (it_mr it')) <= s_end).
Proof.
  split.
  - intros r i Hr Hi. unfold size in Hi. apply lex_match_attempts in Hr.
    destruct Hr as [(Hl & _) | (s & e & Hs & _ & (Hp & Hl & Hcaps) & He & _)]; [lia |].
    destruct (Hcaps i Hi) as (a & l & Hat & H1 & H2 & H3).
    exists a, l. rewrite Hp. simpl. split; [exact Hat | lia].
  - intros it it' i Hslots Hq Hnext Hi. unfold size in Hi. unfold gmatch_next in Hnext.
    apply gmatch_loop_reported in Hnext; [| apply reset_new; exact Hslots | exact Hq].
    destruct Hnext as [(Hl & _) | (s & e & Hs & He & _ & _ & (Hp & Hl & Hcaps))]; [lia |].
    destruct (Hcaps i Hi) as (a & l & Hat & H1 & H2 & H3).
    exists a, l. rewrite Hp. simpl. split; [exact Hat | lia].
Qed.

(** ** The iteration driver, attempt by attempt *)

(** An iterator as [begin] and [operator ++] leave it: the end of the last
    match, when one is recorded, is not beyond the cursor. *)
Definition iterator_ok (it : gmatch_iterator) : Prop :=
  slots_ok (captures (it_mr it)) /\ 0 <= it_pos it /\
  match last_match it with
  | Some l => l <= it_pos it
  | None => True
  end.

(** The cursor position [s] is passed over: the attempt there fails, or it
    is the cursor [q] the increment started from and the attempt gives the
    empty match at the end [l] of the previous match. *)
Definition passed_over (q : Z) (l : option Z) (s : Z) : Prop :=
  attempt s = Ok None \/ (s = q /\ l = Some q /\ attempt q = Ok (Some q)).

Lemma gmatch_loop_step (n : nat) (ms : match_state) (q : Z) (l : option Z)
      (it' : gmatch_iterator) :
  reset ms -> 0 <= q ->
  match l with Some l0 => l0 <= q | None => True end ->
  gmatch_loop n ms q l = Ok it' ->
  iterator_ok it' /\
  ((it_pos it' = Z.max q (s_end + 1) /\
    level (it_mr it') = 0 /\ pos (it_mr it') = (-1, -1) /\
    forall s, q <= s <= s_end -> passed_over q l s) \/
   (exists s e,
      q <= s <= e /\ e <= s_end /\ it_pos it' = e /\ last_match it' = Some e /\
      reported (it_mr it') s e /\ attempt s = Ok (Some e) /\
      (s = q -> l <> Some e) /\
      forall s', q <= s' < s -> passed_over q l s')).
Proof.
  revert ms q l. induction n as [| n IH]; intros ms q l Hreset Hq Hl;
    cbn [gmatch_loop].
  { destruct (Z.ltb_spec s_end q); [| discriminate].
    intros [= <-]. destruct Hreset as [(Hl0 & Hp & Hslots) _].
    split; [split; [exact Hslots | split; [exact Hq | exact Hl]] |].
    left. simpl. split; [lia |]. split; [exact Hl0 |]. split; [exact Hp |].
    intros s Hs. lia. }
  destruct (Z.ltb_spec s_end q) as [Hout | Hin].
  { intros [= <-]. destruct Hreset as [(Hl0 & Hp & Hslots) _].
    split; [split; [exact Hslots | split; [exact Hq | exact Hl]] |].
    left. simpl. split; [lia |]. split; [exact Hl0 |]. split; [exact Hp |].
    intros s Hs. lia. }
  pose proof (attempt_state ms q Hreset (conj Hq Hin))
    as (Hdepth & Hpos & Hslots & Hlev & Hnone & Hsome & _).
  pose proof (attempt_eq ms q Hreset) as Hatt.
  destruct (detail_match ms q p_begin) as [[[e |] | err | | ] ms1];
    cbn [fst snd] in *; try discriminate.
  - destruct (Hsome e eq_refl) as [He Hsp].
    destruct (ptr_eqb (Some e) l) eqn:Hsame.
    + assert (Hle : l = Some e /\ e = q).
      { destruct l as [l0 |]; simpl in Hsame; [| discriminate].
        apply Z.eqb_eq in Hsame. subst l0. split; [reflexivity | lia]. }
      destruct Hle as [-> ->]. intros Hrest.
      destruct (IH (reprepstate ms1) (q + 1) (Some q)
                   (reset_reprep ms1 Hslots Hdepth) ltac:(lia) ltac:(simpl; lia) Hrest)
        as [Hok' Hcases].
      split; [exact Hok' |].
      destruct Hcases as [(Hp' & Hl' & Hpos' & Hall)
                         | (s1 & e1 & Hs1 & He1 & Hp' & Hlast & Hrep & Hat & Hne & Hall)].
      * left. split; [lia |]. split; [exact Hl' |]. split; [exact Hpos' |].
        intros s Hs. destruct (Z.eq_dec s q) as [-> | Hneq].
        -- right. split; [reflexivity |]. split; [reflexivity | congruence].
        -- destruct (Hall s ltac:(lia)) as [Hn | (_ & Hd & _)];
             [left; exact Hn | injection Hd; lia].
      * right. exists s1, e1. split; [lia |]. split; [exact He1 |].
        split; [exact Hp' |]. split; [exact Hlast |]. split; [exact Hrep |].
        split; [exact Hat |]. split; [intros ->; lia |].
        intros s Hs. destruct (Z.eq_dec s q) as [-> | Hneq].
        -- right. split; [reflexivity |]. split; [reflexivity | congruence].
        -- destruct (Hall s ltac:(lia)) as [Hn | (_ & Hd & _)];
             [left; exact Hn | injection Hd; lia].
    + destruct (on_success ms1 q e) as [[[] | err | | ] ms2] eqn:Hok; try discriminate.
      destruct (on_success_reported ms1 ms2 q e Hlev Hslots Hsp (proj1 He) Hok)
        as (Hrep & Hslots2 & _).
      intros [= <-].
      split; [split; [exact Hslots2 | split; [simpl; lia | simpl; lia]] |].
      right. exists q, e. simpl. split; [lia |]. split; [lia |].
      split; [reflexivity |]. split; [reflexivity |]. split; [exact Hrep |].
      split; [congruence |]. split; [| intros s' Hs'; lia].
      intros _ ->. simpl in Hsame. rewrite Z.eqb_refl in Hsame. discriminate.
  - intros Hrest.
    destruct (IH (reprepstate ms1) (q + 1) None
                 (reset_reprep ms1 Hslots Hdepth) ltac:(lia) I Hrest)
      as [Hok' Hcases].
    split; [exact Hok' |].
    destruct Hcases as [(Hp' & Hl' & Hpos' & Hall)
                       | (s1 & e1 & Hs1 & He1 & Hp' & Hlast & Hrep & Hat & Hne & Hall)].
    * left. split; [lia |]. split; [exact Hl' |]. split; [exact Hpos' |].
      intros s Hs. destruct (Z.eq_dec s q) as [-> | Hneq].
      -- left. congruence.
      -- destruct (Hall s ltac:(lia)) as [Hn | (_ & Hd & _)];
           [left; exact Hn | discriminate].
    * right. exists s1, e1. split; [lia |]. split; [exact He1 |].
      split; [exact Hp' |]. split; [exact Hlast |]. split; [exact Hrep |].
      split; [exact Hat |]. split; [intros ->; lia |].
      intros s Hs. destruct (Z.eq_dec s q) as [-> | Hneq].
      -- left. congruence.
      -- destruct (Hall s ltac:(lia)) as [Hn | (_ & Hd & _)];
           [left; exact Hn | discriminate].
Qed.

(** An increment of the iterator moves to the leftmost match that starts at
    or after the cursor, passing over failed attempts and over an empty
    match at the very place where the previous match ended; it leaves the
    cursor and the recorded end at the end of that match.  When there is no
    such match the iterator becomes the end iterator and its result is
    empty.  The anchor of the pattern plays no role. *)
Theorem iteration_step (it it' : gmatch_iterator) :
  iterator_ok it -> gmatch_next it = Ok it' ->
  iterator_ok it' /\
  ((it_pos it' = Z.max (it_pos it) (s_end + 1) /\
    size (it_mr it') = 0 /\ to_bool (it_mr it') = false /\
    pos (it_mr it') = (-1, -1) /\
    forall s, it_pos it <= s <= s_end -> passed_over (it_pos it) (last_match it) s) \/
   (exists s e,
      it_pos it <= s <= e /\ e <= s_end /\
      it_pos it' = e /\ last_match it' = Some e /\
      pos (it_mr it') = (s, e) /\ to_bool (it_mr it') = true /\
      attempt s = Ok (Some e) /\
      (s = it_pos it -> last_match it <> Some e) /\
      forall s', it_pos it <= s' < s ->
                 passed_over (it_pos it) (last_match it) s')).
Proof.
  intros (Hslots & Hq & Hl) Hnext. unfold gmatch_next in Hnext.
  apply gmatch_loop_step in Hnext; [| apply reset_new; exact Hslots | exact Hq | exact Hl].
  destruct Hnext as [Hok Hcases]. split; [exact Hok |].
  destruct Hcases as [(Hp & Hl0 & Hpos & Hall)
                     | (s & e & Hs & He & Hp & Hlast & (Hpos & Hlev & _) & Hat & Hne & Hall)].
  - left. unfold size, to_bool. rewrite Hl0. tauto.
  - right. exists s, e. unfold to_bool.
    split; [exact Hs |]. split; [exact He |]. split; [exact Hp |].
    split; [exact Hlast |]. split; [exact Hpos |].
    split; [apply Z.ltb_lt; lia |]. tauto.
Qed.

Lemma gmatch_loop_search (n : nat) (ms : match_state) (q : Z) :
  anchor = false -> n = Z.to_nat (s_end + 1 - q) -> q <= s_end + 1 ->
  match gmatch_loop n ms q None, search_loop n ms q with
  | Ok it, (Ok _, ms') => it_mr it = mr ms'
  | Throw e, (Throw e', _) => e = e'
  | Undefined, (Undefined, _) => True
  | OutOfFuel, (OutOfFuel, _) => True
  | _, _ => False
  end.
Proof.
  intros Ha. revert ms q. induction n as [| n IH]; intros ms q Hn Hq;
    cbn [gmatch_loop search_loop].
  { destruct (Z.ltb_spec s_end q); [reflexivity | lia]. }
  destruct (Z.ltb_spec s_end q); [lia |].
  destruct (detail_match ms q p_begin) as [[[e |] | err | | ] ms1]; try exact I;
    try reflexivity.
  - cbn [ptr_eqb]. destruct (on_success ms1 q e) as [[[] | err | | ] ms2];
      try exact I; reflexivity.
  - rewrite Ha. apply IH; lia.
Qed.

(** For a pattern without anchor, [begin( c )] holds the result of
    [match] on the same subject and pattern, and ends with the same error
    when [match] ends with one. *)
Theorem first_iteration_is_match :
  anchor = false ->
  lex_match = match gmatch_begin with
              | Ok it => Ok (it_mr it)
              | Throw e => Throw e
              | Undefined => Undefined
              | OutOfFuel => OutOfFuel
              end.
Proof.
  intros Ha. unfold lex_match, lex_match_state, gmatch_begin, gmatch_next.
  change (it_pos (new_iterator s_begin)) with s_begin.
  change (last_match (new_iterator s_begin)) with (@None Z).
  change (it_mr (new_iterator s_begin)) with empty_match_result.
  pose proof (gmatch_loop_search (S (length subject))
                (new_match_state empty_match_result) s_begin Ha) as H.
  replace (Z.to_nat (s_end + 1 - s_begin)) with (S (length subject))
    by (unfold s_end, s_begin; lia).
  lapply H; [clear H; intros H | unfold s_end, s_begin; lia].
  lapply H; [clear H; intros H | unfold s_end, s_begin; lia].
  destruct (gmatch_loop _ _ _ _) as [it | e | | ],
           (search_loop _ _ _) as [[[] | e' | | ] ms'];
    try contradiction; try reflexivity; congruence.
Qed.

(** ** The substitution driver *)

Lemma subrange_all : subrange 0 s_end = subject.
Proof.
  unfold subrange, s_end. rewrite Z.sub_0_r, Nat2Z.id. simpl. apply firstn_all.
Qed.

(** Doubling every [%] of a text gives the replacement that stands for
    the text itself. *)
Definition escape_percent (t : list Z) : list Z :=
  flat_map (fun c => if c =? chr "%" then [c; c] else [c]) t.

Lemma expand_template_escaped (t : list Z) (ms : match_state) (s e : Z)
      (out : list Z) :
  expand_template (escape_percent t) ms s e out = (Ok (out ++ t), ms).
Proof.
  revert out. induction t as [| c t IH]; intros out.
  - simpl. rewrite app_nil_r. reflexivity.
  - unfold escape_percent in *. cbn [flat_map].
    destruct (c =? chr "%") eqn:Hc; cbn [app expand_template]; rewrite !Hc.
    + rewrite IH, <- app_assoc. reflexivity.
    + rewrite IH, <- app_assoc. reflexivity.
Qed.

Lemma gsub_loop_no_match (replace : replacer) (n : nat) (ms : match_state)
      (s count : Z) (last : option Z) (out : list Z) :
  anchor = false -> reset ms -> 0 <= s -> s_end + 1 - s <= Z.of_nat n ->
  (forall s', s <= s' <= s_end -> attempt s' = Ok None) ->
  gsub_loop replace n ms s count last out
  = Ok (out ++ subrange (copy_from last) s_end).
Proof.
  intros Ha. revert ms s. induction n as [| n IH]; intros ms s Hreset Hs Hn Hall;
    cbn [gsub_loop].
  { destruct (Z.leb_spec s s_end); [lia | reflexivity]. }
  destruct (Z.leb_spec s s_end) as [Hin | Hout]; [| reflexivity].
  destruct (count =? 0); [reflexivity |]. cbn [andb negb]. rewrite Ha.
  pose proof (attempt_state ms s Hreset (conj Hs Hin))
    as (Hdepth & _ & Hslots & _).
  pose proof (attempt_eq ms s Hreset) as Hatt. rewrite (Hall s) in Hatt by lia.
  destruct (detail_match ms s p_begin) as [r ms1]. cbn [fst snd] in *. subst r.
  apply IH; [apply reset_reprep; assumption | lia | lia |].
  intros s' Hs'. apply Hall. lia.
Qed.

Lemma gsub_loop_anchored_fail (replace : replacer) (n : nat) (ms : match_state)
      (s count : Z) (last : option Z) (out : list Z) :
  anchor = true -> reset ms -> attempt s = Ok None ->
  gsub_loop replace (S n) ms s count last out
  = Ok (out ++ subrange (copy_from last) s_end).
Proof.
  intros Ha Hreset Hnone. cbn [gsub_loop].
  destruct (s <=? s_end); [| reflexivity].
  destruct (count =? 0); [reflexivity |]. cbn [andb negb]. rewrite Ha.
  pose proof (attempt_eq ms s Hreset) as Hatt. rewrite Hnone in Hatt.
  destruct (detail_match ms s p_begin) as [r ms1]. cbn [fst snd] in *. subst r.
  destruct n; cbn [gsub_loop]; rewrite Z.eqb_refl, andb_false_r; reflexivity.
Qed.

(** When the search finds no match, both variants of [gsub] return the
    subject unchanged, whatever the replacement and the count. *)
Theorem gsub_without_match (r : basic_match_result) :
  lex_match = Ok r -> to_bool r = false ->
  (forall repl count, gsub repl count = Ok subject) /\
  (forall func count, gsub_callback func count = Ok subject).
Proof.
  intros Hr Hb. apply lex_match_attempts in Hr.
  destruct Hr as [(_ & _ & Hall) | (s & e & _ & _ & (_ & Hl & _) & _)];
    [| unfold to_bool in Hb; apply Z.ltb_ge in Hb; lia].
  assert (H : forall replace count, gsub_with replace count = Ok subject).
  { intros replace count. unfold gsub_with.
    rewrite <- subrange_all at 2. change (subrange 0 s_end)
      with ([] ++ subrange (copy_from None) s_end).
    destruct anchor eqn:Ha.
    - replace (2 * length subject + 3)%nat with (S (2 * length subject + 2)) by lia.
      apply gsub_loop_anchored_fail; [exact Ha | apply reset_clean |].
      apply Hall; [unfold s_begin, s_end; lia | reflexivity].
    - apply gsub_loop_no_match; [exact Ha | apply reset_clean | unfold s_begin; lia
                                 | unfold s_begin, s_end; lia |].
      intros s' Hs'. apply Hall; [unfold s_begin in Hs'; lia | discriminate]. }
  split; intros; apply H.
Qed.

Lemma gsub_loop_first (replace : replacer) (X : basic_match_result -> list Z)
      (n m : nat) (ms ms' : match_state) (s : Z) (out : list Z) :
  (forall ms1 s1 e1 out1 ms2, on_success ms1 s1 e1 = (Ok tt, ms2) ->
     exists ms3, replace ms1 s1 e1 out1 = (Ok (out1 ++ X (mr ms2)), ms3)) ->
  anchor = false -> ms_level ms = 0 -> (n <= m)%nat ->
  s + Z.of_nat n <= s_end + 1 ->
  search_loop n ms s = (Ok tt, ms') -> 0 < ms_level ms' ->
  gsub_loop replace m ms s 1 None out
  = Ok (out ++ subrange 0 (fst (pos (mr ms'))) ++ X (mr ms')
            ++ subrange (snd (pos (mr ms'))) s_end).
Proof.
  intros Hrep Ha. revert m ms s. induction n as [| n IH]; intros m ms s Hl Hm Hn;
    cbn [search_loop].
  { intros [= <-] Hpos. lia. }
  destruct m as [| m]; [lia |]. cbn [gsub_loop].
  destruct (Z.leb_spec s s_end) as [Hin | Hout]; [| lia].
  change (1 =? 0) with false. cbn [andb negb]. rewrite Ha.
  destruct (detail_match ms s p_begin) as [[[e |] | err | | ] ms1]; try discriminate.
  - cbn [ptr_eqb]. intros Hok Hpos.
    destruct (Hrep ms1 s e (out ++ subrange (copy_from None) s) ms' Hok) as [ms3 Hr].
    rewrite Hr.
    assert (Hp : pos (mr ms') = (s, e)).
    { unfold on_success in Hok. destruct (check_captures ms1); try discriminate.
      injection Hok as <-. rewrite install_whole_match_pos.
      unfold s_begin. f_equal; lia. }
    rewrite Hp. cbn [fst snd copy_from].
    change (1 - 1 =? 0) with true.
    destruct m; cbn [gsub_loop]; rewrite andb_false_r; cbn [copy_from];
      rewrite <- !app_assoc; reflexivity.
  - intros Hrest Hpos. apply IH; [reflexivity | lia | lia | exact Hrest | exact Hpos].
Qed.

(** With a count of 1 and a pattern without anchor, [gsub] replaces the
    match that [match] finds: the result is the subject before the match,
    the replacement, and the subject after the match.  The callback receives
    the very result [match] returns; a replacement text in which every [%]
    is doubled is inserted as it stands. *)
Theorem gsub_once_splices_match (r : basic_match_result) :
  anchor = false -> lex_match = Ok r -> to_bool r = true ->
  (forall func,
     gsub_callback func 1
     = Ok (subrange 0 (fst (pos r)) ++ func r ++ subrange (snd (pos r)) s_end)) /\
  (forall t,
     gsub (escape_percent t) 1
     = Ok (subrange 0 (fst (pos r)) ++ t ++ subrange (snd (pos r)) s_end)).
Proof.
  intros Ha Hr Hb. apply lex_match_ok in Hr. destruct Hr as (ms' & Hstate & ->).
  unfold lex_match_state in Hstate.
  assert (Hpos : 0 < ms_level ms') by (apply Z.ltb_lt; exact Hb).
  split.
  - intros func. unfold gsub_callback, gsub_with.
    rewrite (gsub_loop_first (callback_replacer func) func (S (length subject))
               _ _ ms' s_begin [] ); try assumption; try reflexivity; try lia.
    + intros ms1 s1 e1 out1 ms2 Hok. exists ms2. unfold callback_replacer.
      rewrite Hok. reflexivity.
    + unfold s_begin, s_end. lia.
  - intros t. unfold gsub, gsub_with.
    rewrite (gsub_loop_first (template_replacer (escape_percent t)) (fun _ => t)
               (S (length subject)) _ _ ms' s_begin []);
      try assumption; try reflexivity; try lia.
    + intros ms1 s1 e1 out1 ms2 Hok. exists ms1. unfold template_replacer.
      unfold on_success in Hok. destruct (check_captures ms1) as [[] | | | ];
        try discriminate.
      apply expand_template_escaped.
    + unfold s_begin, s_end. lia.
Qed.

(** ** The drivers end with a result or with an error *)

Definition returns_or_throws {A : Type} (x : result A) : Prop :=
  (exists a, x = Ok a) \/ (exists e, x = Throw e).

Lemma returns_or_throws_intro {A : Type} (x : result A) :
  x <> OutOfFuel -> x <> Undefined -> returns_or_throws x.
Proof.
  intros H1 H2. destruct x as [a | e | | ]; try congruence.
  - left. exists a. reflexivity.
  - right. exists e. reflexivity.
Qed.

Lemma install_whole_match_spans (ms : match_state) (s e : Z) :
  0 <= ms_level ms <= MAXCAPTURES -> slots_ok (ms_captures ms) ->
  spans_ok s ms e -> s <= e ->
  0 <= ms_level (install_whole_match ms s e) <= MAXCAPTURES /\
  spans_ok s (install_whole_match ms s e) e /\
  matchdepth (install_whole_match ms s e) = matchdepth ms.
Proof.
  intros Hl Hslots Hsp Hse. unfold install_whole_match.
  destruct (Z.eqb_spec (ms_level ms) 0) as [Hzero | Hpos]; [| tauto].
  split; [unfold ms_level, MAXCAPTURES in *; simpl; lia |].
  split; [| reflexivity].
  intros i Hi.
  assert (i = 0%nat) as -> by (unfold ms_level in *; simpl in Hi; lia).
  change (Z.of_nat 0) with 0. rewrite Hzero.
  change (ms_captures (set_level ?m _)) with (ms_captures m).
  rewrite get_cap_whole_match by exact Hslots. simpl.
  exists s. split; [reflexivity | lia].
Qed.

Lemma expand_template_safe (r : list Z) (ms : match_state) (s e : Z) (out : list Z) :
  0 <= ms_level ms <= MAXCAPTURES -> slots_ok (ms_captures ms) ->
  spans_ok s ms e -> s <= e ->
  fst (expand_template r ms s e out) <> Undefined /\
  matchdepth (snd (expand_template r ms s e out)) = matchdepth ms.
Proof.
  intros Hl Hslots Hsp He.
  assert (H : forall (n : nat) (r0 : list Z), (length r0 <= n)%nat ->
              forall ms0 out0,
                0 <= ms_level ms0 <= MAXCAPTURES -> slots_ok (ms_captures ms0) ->
                spans_ok s ms0 e ->
                fst (expand_template r0 ms0 s e out0) <> Undefined /\
                matchdepth (snd (expand_template r0 ms0 s e out0)) = matchdepth ms0).
  { clear r ms out Hl Hslots Hsp.
    induction n as [| n IH]; intros r Hlen ms out Hl Hslots Hsp.
    { destruct r; [| simpl in Hlen; lia]. simpl. split; [discriminate | reflexivity]. }
    destruct r as [| c r']; cbn [expand_template];
      [split; [discriminate | reflexivity] |].
    simpl in Hlen.
    destruct (c =? chr "%"); [| apply IH; [lia | assumption ..]].
    destruct r' as [| cap_char r'']; [split; [discriminate | reflexivity] |].
    simpl in Hlen.
    destruct (cap_char =? chr "%"); [apply IH; [lia | assumption ..] |].
    destruct (Z.eqb_spec cap_char (chr "0")) as [| Hnz];
      [apply IH; [lia | assumption ..] |].
    destruct (isdigit cap_char) eqn:Hdig; [| split; [discriminate | reflexivity]].
    destruct (install_whole_match_spans ms s e Hl Hslots Hsp He) as (Hl1 & Hsp1 & Hd1).
    pose proof (slots_ok_install_plain ms s e Hslots He) as Hslots1.
    cbv zeta.
    destruct (Z.leb_spec (ms_level (install_whole_match ms s e)) (cap_char - chr "1"))
      as [| Hlt]; [split; [discriminate | exact Hd1] |].
    assert (Hidx : 0 <= cap_char - chr "1").
    { unfold isdigit, in_range in Hdig. apply andb_true_iff in Hdig.
      destruct Hdig as [Hlo _]. apply Z.leb_le in Hlo.
      unfold chr in *. simpl in *. lia. }
    destruct (Hsp1 (Z.to_nat (cap_char - chr "1"))) as (a & Ha & _); [lia |].
    rewrite Z2Nat.id in Ha by exact Hidx. rewrite Ha.
    assert (Hlen2 : (length r'' <= n)%nat) by lia.
    destruct (_ =? position);
      (split; [apply (IH r'' Hlen2 _ _ Hl1 Hslots1 Hsp1)
              | rewrite (proj2 (IH r'' Hlen2 _ _ Hl1 Hslots1 Hsp1)); exact Hd1]). }
  apply (H (length r) r); [lia | assumption ..].
Qed.

Definition replacer_safe (replace : replacer) : Prop :=
  forall ms s e out,
    0 <= ms_level ms <= MAXCAPTURES -> slots_ok (ms_captures ms) ->
    spans_ok s ms e -> s <= e ->
    fst (replace ms s e out) <> Undefined /\
    matchdepth (snd (replace ms s e out)) = matchdepth ms.

Lemma template_replacer_safe (repl : list Z) : replacer_safe (template_replacer repl).
Proof.
  intros ms s e out Hl Hslots Hsp He. unfold template_replacer, check_captures.
  destruct (has_unfinished ms); [split; [discriminate | reflexivity] |].
  apply expand_template_safe; assumption.
Qed.

Lemma callback_replacer_safe (func : basic_match_result -> list Z) :
  replacer_safe (callback_replacer func).
Proof.
  intros ms s e out Hl Hslots Hsp He. unfold callback_replacer, on_success, check_captures.
  destruct (has_unfinished ms); [split; [discriminate | reflexivity] |].
  simpl. split; [discriminate |].
  unfold install_whole_match. destruct (_ =? 0); reflexivity.
Qed.

Lemma search_loop_safe (n : nat) (ms : match_state) (s : Z) :
  short_balance = false -> reset ms -> 0 <= s -> s + Z.of_nat n <= s_end + 1 ->
  fst (search_loop n ms s) <> Undefined.
Proof.
  intros Hwf. revert ms s. induction n as [| n IH]; intros ms s Hreset Hs Hn; simpl;
    [discriminate |].
  pose proof (attempt_state ms s Hreset ltac:(lia))
    as (Hdepth & _ & Hslots & _ & _ & _ & _ & Hdef).
  specialize (Hdef Hwf).
  destruct (detail_match ms s p_begin) as [[[e |] | err | | ] ms1];
    cbn [fst snd] in *; try discriminate; try congruence.
  - unfold on_success, check_captures. destruct (has_unfinished ms1); discriminate.
  - destruct anchor; [discriminate |].
    apply IH; [apply reset_reprep; assumption | lia | lia].
Qed.

Lemma gmatch_loop_safe (n : nat) (ms : match_state) (q : Z) (l : option Z) :
  short_balance = false -> reset ms -> 0 <= q ->
  gmatch_loop n ms q l <> Undefined.
Proof.
  intros Hwf. revert ms q l. induction n as [| n IH]; intros ms q l Hreset Hq;
    cbn [gmatch_loop].
  { destruct (s_end <? q); discriminate. }
  destruct (Z.ltb_spec s_end q) as [Hout | Hin]; [discriminate |].
  pose proof (attempt_state ms q Hreset (conj Hq Hin))
    as (Hdepth & _ & Hslots & _ & _ & _ & _ & Hdef).
  specialize (Hdef Hwf).
  destruct (detail_match ms q p_begin) as [[[e |] | err | | ] ms1];
    cbn [fst snd] in *; try discriminate; try congruence.
  - destruct (ptr_eqb (Some e) l).
    + apply IH; [apply reset_reprep; assumption | lia].
    + unfold on_success, check_captures. destruct (has_unfinished ms1); discriminate.
  - apply IH; [apply reset_reprep; assumption | lia].
Qed.

Lemma gsub_loop_safe (replace : replacer) (n : nat) (ms : match_state)
      (s count : Z) (last : option Z) (out : list Z) :
  short_balance = false -> replacer_ok replace -> replacer_safe replace ->
  reset ms -> 0 <= s ->
  gsub_loop replace n ms s count last out <> Undefined.
Proof.
  intros Hwf Hrok Hrep. revert ms s count last out.
  induction n as [| n IH]; intros ms s count last out Hreset Hs; cbn [gsub_loop].
  { destruct (_ && _); discriminate. }
  destruct (Z.leb_spec s s_end) as [Hin | Hout]; simpl; [| discriminate].
  destruct (count =? 0); simpl; [discriminate |].
  pose proof (attempt_state ms s Hreset (conj Hs Hin))
    as (Hdepth & _ & Hslots & Hlev & _ & Hsome & _ & Hdef).
  specialize (Hdef Hwf).
  destruct (detail_match ms s p_begin) as [[[e |] | err | | ] ms1];
    cbn [fst snd] in *; try discriminate; try congruence.
  - destruct (Hsome e eq_refl) as [He Hsp].
    destruct (ptr_eqb (Some e) last).
    + apply IH; [apply reset_reprep; assumption | lia].
    + destruct (Hrep ms1 s e (out ++ subrange (copy_from last) s) Hlev Hslots Hsp
                     (proj1 He)) as [Hrdef Hrdepth].
      destruct (Hrok ms1 s e (out ++ subrange (copy_from last) s) Hslots (proj1 He))
        as [_ Hrslots].
      destruct (replace ms1 s e _) as [[out' | err | | ] ms2]; cbn [fst snd] in *;
        try discriminate; try congruence.
      apply IH; [apply reset_reprep; [exact Hrslots | congruence] | lia].
  - apply IH; [apply reset_reprep; assumption | lia].
Qed.

(** Unless the pattern ends in [%b] and one single unit, the three drivers
    end with a result or with a [lex_error]: the matcher terminates and
    never reads the pattern beyond its terminator, nor a slot whose start
    was never set. *)
Theorem drivers_return_or_throw :
  short_balance = false ->
  returns_or_throws lex_match /\
  (forall it, iterator_ok it -> returns_or_throws (gmatch_next it)) /\
  (forall repl count, returns_or_throws (gsub repl count)) /\
  (forall func count, returns_or_throws (gsub_callback func count)).
Proof.
  intros Hwf. split; [| split; [| split]].
  - apply returns_or_throws_intro; [apply lex_match_defined |].
    unfold lex_match, lex_match_state.
    pose proof (search_loop_safe (S (length subject)) clean s_begin Hwf reset_clean)
      as H.
    fold clean.
    destruct (search_loop _ clean s_begin) as [[[] | err | | ] ms']; try discriminate.
    exfalso. apply H; unfold s_begin, s_end; try lia. reflexivity.
  - intros it (Hslots & Hq & _). apply returns_or_throws_intro.
    + apply gmatch_next_defined; assumption.
    + apply gmatch_loop_safe; [exact Hwf | apply reset_new; exact Hslots | exact Hq].
  - intros repl count. apply returns_or_throws_intro; [apply gsub_defined |].
    apply gsub_loop_safe; [exact Hwf | apply template_replacer_ok
                           | apply template_replacer_safe | apply reset_clean
                           | unfold s_begin; lia].
  - intros func count. apply returns_or_throws_intro; [apply gsub_callback_defined |].
    apply gsub_loop_safe; [exact Hwf | apply callback_replacer_ok
                           | apply callback_replacer_safe | apply reset_clean
                           | unfold s_begin; lia].
Qed.

(** ** Lazy and optional items *)

Lemma match_from_respects : respects match_from.
Proof. intros ms ms' s p Heq. apply match_loop_respects. exact Heq. Qed.

Lemma live_eq_after_fail (ms ms1 : match_state) :
  slots_ok (ms_captures ms) -> slots_ok (ms_captures ms1) ->
  frame_post ms (Ok None, ms1) -> live_eq ms ms1.
Proof.
  intros [Hlen _] [Hlen1 _] (Hd & _ & Hfr). simpl in *.
  destruct (Hfr eq_refl) as [Hl Hc].
  split; [exact Hl |]. split; [exact Hd |]. split; [congruence | exact Hc].
Qed.

Lemma min_loop_first_success (n k : nat) (ms ms' : match_state) (s p ep : Z) :
  live_eq ms ms' -> 0 <= s -> n = Z.to_nat (s_end - (s + Z.of_nat k)) ->
  fst (min_loop detail_match n ms' (s + Z.of_nat k) p ep)
  = fst (first_success detail_match ms s ep
           (seq k (S (run_length p ep (drop (Z.to_nat (s + Z.of_nat k)) subject))))).
Proof.
  revert k ms ms'. induction n as [| n IH]; intros k ms ms' Heq Hs Hn;
    cbn [min_loop seq first_success];
    pose proof (detail_match_respects ms ms' (s + Z.of_nat k) (ep + 1) Heq) as Hr;
    destruct (detail_match ms (s + Z.of_nat k) (ep + 1)) as [r1 m1],
             (detail_match ms' (s + Z.of_nat k) (ep + 1)) as [r2 m2];
    destruct Hr as [Hfst Hm]; cbn [fst snd] in Hfst, Hm; subst r2;
    destruct r1 as [[e |] | err | | ]; try reflexivity;
    pose proof (singlematch_unit m2 (s + Z.of_nat k) p ep) as Hu;
    pose proof (singlematch_same m2 (s + Z.of_nat k) p ep) as Hsame;
    destruct (singlematch m2 (s + Z.of_nat k) p ep) as [b m3];
    cbn [fst snd] in Hu, Hsame.
  - assert (Hend : s_end <= s + Z.of_nat k) by lia.
    destruct (Z.ltb_spec (s + Z.of_nat k) s_end); [lia |]. simpl in Hu. subst b.
    rewrite drop_subject_end by exact Hend. reflexivity.
  - destruct (Z.ltb_spec (s + Z.of_nat k) s_end) as [Hlt | Hge].
    + rewrite drop_subject by lia. cbn [run_length]. simpl in Hu. rewrite <- Hu.
      destruct b; [| reflexivity].
      replace (s + Z.of_nat k + 1) with (s + Z.of_nat (S k)) by lia.
      apply IH; [| exact Hs | lia].
      eapply live_eq_same; [apply same_data_refl | exact Hsame | exact Hm].
    + simpl in Hu. subst b. rewrite drop_subject_end by lia. reflexivity.
Qed.

(** For a single-unit item at [p] that ends at [ep], with [run] the number
    of consecutive units matching the item from [s].  With the suffix [-]
    the matcher continues with the rest of the pattern from the offsets
    [0, 1, ..., run] in that order and returns the first attempt that does
    not fail.  With the suffix [?] it tries the rest of the pattern after
    one unit first and in place second.  Without a suffix it takes exactly
    one unit.  On a run of 0 the lazy and the optional item continue in
    place and the plain item fails. *)
Theorem lazy_and_optional_items (ms : match_state) (s p ep : Z) :
  state_ok ms s -> 0 <= s <= s_end ->
  is_single_unit_item p = true -> classend p = Ok ep ->
  let run := run_length p ep (drop (Z.to_nat s) subject) in
  (pat_at ep = chr "-" ->
   fst (match_from ms s p)
   = if (run =? 0)%nat then fst (match_from ms s (ep + 1))
     else fst (first_success detail_match ms s ep (seq 0 (S run)))) /\
  (pat_at ep = chr "?" ->
   fst (match_from ms s p)
   = if (run =? 0)%nat then fst (match_from ms s (ep + 1))
     else match fst (detail_match ms (s + 1) (ep + 1)) with
          | Ok None => fst (match_from ms s (ep + 1))
          | other => other
          end) /\
  (pat_at ep <> chr "*" -> pat_at ep <> chr "+" ->
   pat_at ep <> chr "-" -> pat_at ep <> chr "?" ->
   fst (match_from ms s p)
   = if (run =? 0)%nat then Ok None else fst (match_from ms (s + 1) ep)).
Proof.
  intros Hok Hs Hitem Hep run.
  assert (Hstart : forall suffix,
    pat_at ep = suffix ->
    exists m ms1, same_data ms ms1 /\ (run =? 0)%nat = negb m /\
      match_from ms s p
      = if negb m then
          if (suffix =? chr "*") || (suffix =? chr "?") || (suffix =? chr "-")
          then match_from ms1 s (ep + 1) else (Ok None, ms1)
        else if suffix =? chr "?" then
          match detail_match ms1 (s + 1) (ep + 1) with
          | (Ok None, ms2) => match_from ms2 s (ep + 1)
          | other => other
          end
        else if suffix =? chr "+" then max_expand detail_match ms1 (s + 1) p ep
        else if suffix =? chr "*" then max_expand detail_match ms1 s p ep
        else if suffix =? chr "-" then min_expand detail_match ms1 s p ep
        else match_from ms1 (s + 1) ep).
  { intros suffix Hsuf. rewrite match_from_default by exact Hitem.
    unfold match_default. rewrite Hep.
    pose proof (singlematch_same ms s p ep) as Hsame.
    pose proof (singlematch_unit ms s p ep) as Hm.
    destruct (singlematch ms s p ep) as [m ms1]. cbn [fst snd] in *.
    exists m, ms1. split; [exact Hsame |].
    split; [unfold run; rewrite run_length_zero by lia; rewrite <- Hm; reflexivity |].
    rewrite Hsuf. reflexivity. }
  assert (Hlive : forall ms1, same_data ms ms1 -> live_eq ms ms1).
  { intros ms1 H1. eapply live_eq_same; [apply same_data_refl | exact H1 |].
    apply live_eq_refl. }
  split; [| split].
  - intros Hsuf. destruct (Hstart _ Hsuf) as (m & ms1 & Hsame & Hrun & ->).
    rewrite Hrun. destruct m; cbn [negb].
    + change (chr "-" =? chr "?") with false. change (chr "-" =? chr "+") with false.
      change (chr "-" =? chr "*") with false. change (chr "-" =? chr "-") with true.
      cbv iota. unfold min_expand.
      pose proof (min_loop_first_success (Z.to_nat (s_end - s)) 0 ms ms1 s p ep
                    (Hlive ms1 Hsame) (proj1 Hs)) as H.
      change (Z.of_nat 0) with 0 in H. rewrite Z.add_0_r in H.
      apply H. reflexivity.
    + change ((chr "-" =? chr "*") || (chr "-" =? chr "?") || (chr "-" =? chr "-"))
        with true. cbv iota.
      apply (match_from_respects ms ms1 s (ep + 1) (Hlive ms1 Hsame)).
  - intros Hsuf. destruct (Hstart _ Hsuf) as (m & ms1 & Hsame & Hrun & ->).
    rewrite Hrun. destruct m; cbn [negb].
    + change (chr "?" =? chr "?") with true. cbv iota.
      pose proof (detail_match_respects ms ms1 (s + 1) (ep + 1) (Hlive ms1 Hsame))
        as [Hfst Hm].
      assert (Hlt : s < s_end).
      { unfold run in Hrun. rewrite run_length_zero in Hrun by lia.
        destruct (Z.ltb_spec s s_end); [assumption | discriminate]. }
      pose proof (state_ok_same _ _ _ Hsame Hok) as Hok1.
      assert (Hok2 : state_ok ms1 (s + 1)) by (eapply state_ok_mono; [| exact Hok1]; lia).
      pose proof (detail_match_sound ms1 (s + 1) (ep + 1) Hok2 ltac:(lia))
        as (_ & _ & Hslots2 & _).
      pose proof (detail_match_frames ms1 (s + 1) (ep + 1)) as Hfr.
      rewrite <- Hfst.
      destruct (detail_match ms1 (s + 1) (ep + 1)) as [[[e |] | err | | ] ms2];
        try reflexivity.
      cbn [fst snd] in *.
      assert (Heq : live_eq ms ms2).
      { destruct Hok as (_ & Hslots & _). destruct Hok1 as (_ & Hslots1 & _).
        destruct (Hlive ms1 Hsame) as (H1 & H2 & H3 & H4).
        destruct (live_eq_after_fail ms1 ms2 Hslots1 Hslots2 Hfr) as (H5 & H6 & H7 & H8).
        split; [congruence |]. split; [congruence |]. split; [congruence |].
        intros i Hi. rewrite H8 by lia. apply H4. exact Hi. }
      apply (match_from_respects ms ms2 s (ep + 1) Heq).
    + change ((chr "?" =? chr "*") || (chr "?" =? chr "?") || (chr "?" =? chr "-"))
        with true. cbv iota.
      apply (match_from_respects ms ms1 s (ep + 1) (Hlive ms1 Hsame)).
  - intros H1 H2 H3 H4. destruct (Hstart _ eq_refl) as (m & ms1 & Hsame & Hrun & ->).
    rewrite Hrun.
    destruct (Z.eqb_spec (pat_at ep) (chr "*")); [contradiction |].
    destruct (Z.eqb_spec (pat_at ep) (chr "?")); [contradiction |].
    destruct (Z.eqb_spec (pat_at ep) (chr "-")); [contradiction |].
    destruct (Z.eqb_spec (pat_at ep) (chr "+")); [contradiction |].
    destruct m; cbn [negb orb]; [| reflexivity].
    apply (match_from_respects ms ms1 (s + 1) ep (Hlive ms1 Hsame)).
Qed.

(** ** The item scanner *)

Lemma classend_loop_closing (n : nat) (q ep : Z) :
  classend_loop n q = Ok ep -> q + 2 <= ep /\ pat_at (ep - 1) = chr "]".
Proof.
  revert q. induction n as [| n IH]; intros q; simpl; [discriminate |].
  destruct (q =? p_end); [discriminate |].
  set (q' := if (pat_at q =? chr "%") && (q + 1 <? p_end) then q + 1 + 1 else q + 1).
  assert (Hq : q < q') by (subst q'; destruct (_ && _); lia).
  destruct (Z.eqb_spec (pat_at q') (chr "]")) as [Hclose | Hopen]; simpl.
  - intros [= <-]. replace (q' + 1 - 1) with q' by lia. split; [lia | exact Hclose].
  - intros H. apply IH in H. lia.
Qed.

Lemma classend_loop_throw (n : nat) (q : Z) (e : error_type) :
  classend_loop n q = Throw e -> e = pattern_missing_closing_bracket.
Proof.
  revert q. induction n as [| n IH]; intros q; simpl; [discriminate |].
  destruct (q =? p_end); [intros [= <-]; reflexivity |].
  destruct (negb _); [apply IH | discriminate].
Qed.

Lemma classend_set_loop (p : Z) :
  pat_at p = chr "[" ->
  exists q, p + 1 <= q /\ classend p = classend_loop (S (Z.to_nat (p_end - q))) q.
Proof.
  intros Hbr. unfold classend. rewrite Hbr.
  change (chr "[" =? chr "%") with false. change (chr "[" =? chr "[") with true.
  cbv iota. destruct (pat_at (p + 1) =? chr "^");
    [exists (p + 1 + 1) | exists (p + 1)]; (split; [lia | reflexivity]).
Qed.

(** Where an item ends, by its first unit. *)
Lemma classend_shape (p ep : Z) :
  0 <= p < p_end -> classend p = Ok ep ->
  p < ep <= p_end /\
  (pat_at p = chr "%" -> ep = p + 2) /\
  (pat_at p = chr "[" -> p + 3 <= ep /\ pat_at (ep - 1) = chr "]") /\
  (pat_at p <> chr "%" -> pat_at p <> chr "[" -> ep = p + 1).
Proof.
  intros Hp Hep. split; [apply classend_bounds; [lia | exact Hep] |].
  split; [| split].
  - intros Hpc. unfold classend in Hep. rewrite Hpc in Hep.
    change (chr "%" =? chr "%") with true in Hep. cbv iota in Hep.
    destruct (p + 1 =? p_end); [discriminate |]. injection Hep as <-. lia.
  - intros Hbr. destruct (classend_set_loop p Hbr) as (q & Hq & Heq). rewrite Heq in Hep.
    apply classend_loop_closing in Hep. split; [lia | tauto].
  - intros H1 H2. unfold classend in Hep.
    destruct (Z.eqb_spec (pat_at p) (chr "%")); [contradiction |].
    destruct (Z.eqb_spec (pat_at p) (chr "[")); [contradiction |].
    injection Hep as <-. reflexivity.
Qed.

(** [classend] on an item that starts inside the pattern: it returns the
    position after the item or signals one of two errors.  An escape is two
    units long and a lone [%] at the very end of the pattern is the error
    [pattern_ends_with_percent]; a set reaches to a closing bracket that is
    at least two units after the opening one, so that its first unit, even
    a [ ] ], is a member, and a set that is not closed is the error
    [pattern_missing_closing_bracket]; any other unit is an item by
    itself. *)
Theorem classend_outcomes (p : Z) :
  0 <= p < p_end ->
  returns_or_throws (classend p) /\
  (classend p = Throw pattern_ends_with_percent <->
   pat_at p = chr "%" /\ p + 1 = p_end) /\
  (forall e, classend p = Throw e ->
     e = pattern_ends_with_percent \/
     e = pattern_missing_closing_bracket /\ pat_at p = chr "[") /\
  (pat_at p = chr "[" ->
   (forall q, p + 1 < q < p_end -> pat_at q <> chr "]") ->
   classend p = Throw pattern_missing_closing_bracket) /\
  (forall ep, classend p = Ok ep ->
     p < ep <= p_end /\
     (pat_at p = chr "%" -> ep = p + 2) /\
     (pat_at p = chr "[" -> p + 3 <= ep /\ pat_at (ep - 1) = chr "]") /\
     (pat_at p <> chr "%" -> pat_at p <> chr "[" -> ep = p + 1)).
Proof.
  intros Hp.
  pose proof (classend_defined p (proj2 Hp)) as [Hfuel Hdef].
  split; [apply returns_or_throws_intro; assumption |].
  split; [| split; [| split]].
  - unfold classend. destruct (Z.eqb_spec (pat_at p) (chr "%")) as [Hpc | Hpc].
    + destruct (Z.eqb_spec (p + 1) p_end); split; try tauto; try discriminate.
    + split; [| tauto]. destruct (pat_at p =? chr "["); [| discriminate].
      intros H. apply classend_loop_throw in H. discriminate.
  - intros e. unfold classend. destruct (pat_at p =? chr "%").
    + destruct (p + 1 =? p_end); [| discriminate]. intros [= <-]. left. reflexivity.
    + destruct (Z.eqb_spec (pat_at p) (chr "[")) as [Hbr |]; [| discriminate].
      intros H. apply classend_loop_throw in H. right. split; assumption.
  - intros Hbr Hnone. destruct (classend_set_loop p Hbr) as (q & Hq & Heq).
    destruct (classend p) as [ep | e | | ] eqn:Hres; try congruence.
    + symmetry in Heq. apply classend_loop_closing in Heq. destruct Heq as [Hep Hclose].
      exfalso. apply (Hnone (ep - 1)); [| exact Hclose].
      assert (0 <= ep - 1 < p_end); [| lia].
      apply pat_at_is with (c := chr "]"); [apply Z.eqb_eq; exact Hclose | discriminate].
    + symmetry in Heq. apply classend_loop_throw in Heq. congruence.
  - intros ep Hep. apply classend_shape; assumption.
Qed.

(** ** Bracket sets

    A set written as a sequence of entries: single units, ranges and class
    escapes. *)

Inductive set_entry : Type :=
| Single (x : Z)
| Range (lo hi : Z)
| Class (cl : Z).

Definition entry_units (e : set_entry) : list Z :=
  match e with
  | Single x => [x]
  | Range lo hi => [lo; chr "-"; hi]
  | Class cl => [chr "%"; cl]
  end.

Definition entry_matches (c : Z) (e : set_entry) : bool :=
  match e with
  | Single x => x =? c
  | Range lo hi => (lo <=? c) && (c <=? hi)
  | Class cl => match_class c cl
  end.

(** Entries that are read back as written: a single unit or a lower bound
    is none of [%], [-] and [ ] ], an upper bound is neither [%] nor
    [ ] ]. *)
Definition entry_plain (e : set_entry) : bool :=
  match e with
  | Single x => negb (x =? chr "%") && negb (x =? chr "-") && negb (x =? chr "]")
  | Range lo hi =>
      negb (lo =? chr "%") && negb (lo =? chr "-") && negb (lo =? chr "]")
      && negb (hi =? chr "%") && negb (hi =? chr "]")
  | Class cl => true
  end.

Definition set_units (es : list set_entry) : list Z := flat_map entry_units es.

Lemma pat_at_drop (q x : Z) (l : list Z) :
  0 <= q -> drop (Z.to_nat q) pattern = x :: l ->
  pat_at q = x /\ drop (Z.to_nat (q + 1)) pattern = l /\ q < p_end.
Proof.
  intros Hq Hd.
  assert (Hl : pattern !! Z.to_nat q = Some x).
  { rewrite <- (Nat.add_0_r (Z.to_nat q)), <- lookup_drop, Hd. reflexivity. }
  split; [| split].
  - unfold pat_at, unit_at. destruct (Z.ltb_spec q 0); [lia |].
    rewrite nth_lookup, Hl. reflexivity.
  - replace (Z.to_nat (q + 1)) with (S (Z.to_nat q)) by lia.
    rewrite (drop_S _ _ _ Hl) in Hd. congruence.
  - apply lookup_lt_Some in Hl. unfold p_end. lia.
Qed.

Ltac unpack_plain H :=
  repeat match type of H with
         | (_ && _) = true =>
             let H' := fresh "Hplain" in
             apply andb_true_iff in H; destruct H as [H H'];
             apply negb_true_iff in H'; apply Z.eqb_neq in H'
         end;
  apply negb_true_iff in H; apply Z.eqb_neq in H.

(** The first unit of an entry is neither [-] nor [ ] ]. *)
Lemma entry_first (e : set_entry) :
  entry_plain e = true ->
  exists x l, entry_units e = x :: l /\ x <> chr "-" /\ x <> chr "]".
Proof.
  destruct e as [x | lo hi | cl]; simpl; intros He.
  - unpack_plain He. exists x, []. split; [reflexivity | split; assumption].
  - unpack_plain He. exists lo, [chr "-"; hi]. split; [reflexivity | split; assumption].
  - exists (chr "%"), [cl]. split; [reflexivity | split; discriminate].
Qed.

(** The unit that follows an entry: the first unit of the next entry, or
    the closing bracket. *)
Lemma next_unit_plain (es : list set_entry) (q : Z) (tail : list Z) :
  0 <= q -> forallb entry_plain es = true ->
  drop (Z.to_nat q) pattern = set_units es ++ chr "]" :: tail ->
  pat_at q <> chr "-" /\ (es <> [] -> pat_at q <> chr "]") /\
  (es = [] -> pat_at q = chr "]").
Proof.
  intros Hq Hplain Hd. destruct es as [| e es]; simpl in Hd.
  - apply pat_at_drop in Hd; [| exact Hq]. destruct Hd as [-> _].
    split; [discriminate |]. split; [congruence | reflexivity].
  - simpl in Hplain. apply andb_true_iff in Hplain. destruct Hplain as [He _].
    destruct (entry_first e He) as (x & l & Hx & H1 & H2).
    unfold set_units in Hd. cbn [flat_map] in Hd. rewrite Hx in Hd. cbn [app] in Hd.
    apply pat_at_drop in Hd; [| exact Hq]. destruct Hd as [-> _].
    split; [exact H1 |]. split; [intros _; exact H2 | discriminate].
Qed.

Lemma bracket_loop_entries (c : Z) (ret : bool) (es : list set_entry) :
  forall (n : nat) (p ec : Z) (tail : list Z),
    0 <= p + 1 ->
    drop (Z.to_nat (p + 1)) pattern = set_units es ++ chr "]" :: tail ->
    ec = p + 1 + Z.of_nat (length (set_units es)) ->
    forallb entry_plain es = true ->
    (Z.to_nat (ec - p) <= n)%nat ->
    bracket_loop n c ret p ec = if existsb (entry_matches c) es then ret else negb ret.
Proof.
  induction es as [| e es IH]; intros n p ec tail Hp Hd Hec Hplain Hn.
  - simpl in Hec. destruct n; simpl; [reflexivity |].
    destruct (Z.ltb_spec (p + 1) ec); [lia | reflexivity].
  - simpl in Hplain. apply andb_true_iff in Hplain. destruct Hplain as [He Hrest].
    unfold set_units in *. cbn [flat_map] in Hd, Hec.
    rewrite length_app, Nat2Z.inj_add in Hec.
    destruct n as [| n]; [destruct e; simpl in Hec; lia |].
    cbn [bracket_loop existsb]. cbv zeta.
    destruct e as [x | lo hi | cl]; cbn [entry_units app length] in Hd, Hec;
      cbn [entry_matches entry_plain] in *.
    + apply pat_at_drop in Hd; [| exact Hp]. destruct Hd as (Hx & Hd & _).
      destruct (next_unit_plain es (p + 1 + 1) tail ltac:(lia) Hrest Hd) as (Hm & _).
      unpack_plain He.
      destruct (Z.ltb_spec (p + 1) ec); [| lia].
      rewrite Hx.
      destruct (Z.eqb_spec x (chr "%")); [contradiction |].
      destruct (Z.eqb_spec (pat_at (p + 1 + 1)) (chr "-")); [contradiction |].
      cbn [andb]. destruct (x =? c); cbn [orb]; [reflexivity |].
      apply (IH n (p + 1) ec tail); [lia | exact Hd | lia | exact Hrest | lia].
    + apply pat_at_drop in Hd; [| exact Hp]. destruct Hd as (Hlo & Hd & _).
      apply pat_at_drop in Hd; [| lia]. destruct Hd as (Hminus & Hd & _).
      apply pat_at_drop in Hd; [| lia]. destruct Hd as (Hhi & Hd & _).
      unpack_plain He.
      destruct (Z.ltb_spec (p + 1) ec); [| lia].
      rewrite Hlo, Hminus.
      destruct (Z.eqb_spec lo (chr "%")); [contradiction |].
      change (chr "-" =? chr "-") with true.
      destruct (Z.ltb_spec (p + 1 + 2) ec); [| lia]. cbn [andb].
      replace (p + 1 + 2 - 2) with (p + 1) by lia.
      replace (p + 1 + 2) with (p + 1 + 1 + 1) by lia.
      rewrite Hlo, Hhi.
      destruct ((lo <=? c) && (c <=? hi)); cbn [orb]; [reflexivity |].
      apply (IH n (p + 1 + 1 + 1) ec tail); [lia | exact Hd | lia | exact Hrest | lia].
    + apply pat_at_drop in Hd; [| exact Hp]. destruct Hd as (Hesc & Hd & _).
      apply pat_at_drop in Hd; [| lia]. destruct Hd as (Hcl & Hd & _).
      destruct (Z.ltb_spec (p + 1) ec); [| lia].
      rewrite Hesc. change (chr "%" =? chr "%") with true. cbv iota.
      rewrite Hcl. destruct (match_class c cl); cbn [orb]; [reflexivity |].
      apply (IH n (p + 1 + 1) ec tail); [lia | exact Hd | lia | exact Hrest | lia].
Qed.

Lemma classend_loop_entries (es : list set_entry) :
  forall (n : nat) (q : Z) (tail : list Z),
    es <> [] -> 0 <= q ->
    drop (Z.to_nat q) pattern = set_units es ++ chr "]" :: tail ->
    forallb entry_plain es = true ->
    (length (set_units es) <= n)%nat ->
    classend_loop n q = Ok (q + Z.of_nat (length (set_units es)) + 1).
Proof.
  assert (Hstep : forall n q x l,
            0 <= q -> drop (Z.to_nat q) pattern = x :: l -> x <> chr "%" ->
            classend_loop (S n) q
            = if negb (pat_at (q + 1) =? chr "]") then classend_loop n (q + 1)
              else Ok (q + 1 + 1)).
  { intros n q x l Hq Hd Hx. apply pat_at_drop in Hd; [| exact Hq].
    destruct Hd as (Hpx & _ & Hlt). cbn [classend_loop].
    destruct (Z.eqb_spec q p_end); [lia |]. rewrite Hpx.
    destruct (Z.eqb_spec x (chr "%")); [contradiction |]. reflexivity. }
  assert (Hclose : forall es' q tail, 0 <= q -> forallb entry_plain es' = true ->
            drop (Z.to_nat q) pattern = set_units es' ++ chr "]" :: tail ->
            (pat_at q =? chr "]") = match es' with [] => true | _ => false end).
  { intros es' q tail Hq Hplain Hd.
    destruct (next_unit_plain es' q tail Hq Hplain Hd) as (_ & Hne & Heq).
    destruct es'; [rewrite Heq by reflexivity; reflexivity |].
    apply Z.eqb_neq, Hne. discriminate. }
  induction es as [| e es IH]; intros n q tail Hne Hq Hd Hplain Hn; [congruence |].
  simpl in Hplain. apply andb_true_iff in Hplain. destruct Hplain as [He Hrest].
  unfold set_units in *. cbn [flat_map] in Hd, Hn |- *.
  rewrite length_app in Hn |- *. rewrite Nat2Z.inj_add.
  assert (Hcont : forall m q', 0 <= q' ->
            drop (Z.to_nat q') pattern = flat_map entry_units es ++ chr "]" :: tail ->
            (length (flat_map entry_units es) <= m)%nat ->
            (if negb (pat_at q' =? chr "]") then classend_loop m q' else Ok (q' + 1))
            = Ok (q' + Z.of_nat (length (flat_map entry_units es)) + 1)).
  { intros m q' Hq' Hd' Hm. rewrite (Hclose es q' tail Hq' Hrest Hd').
    destruct es as [| e' es']; [simpl; f_equal; lia |].
    cbn [negb]. apply (IH m q' tail); [discriminate | exact Hq' | exact Hd' | exact Hrest
                                        | exact Hm]. }
  destruct e as [x | lo hi | cl]; cbn [entry_units app length] in Hd, Hn |- *;
    cbn [entry_plain] in He.
  - unpack_plain He. destruct n as [| n]; [lia |].
    rewrite (Hstep n q x _ Hq Hd He).
    apply pat_at_drop in Hd; [| exact Hq]. destruct Hd as (_ & Hd & _).
    rewrite (Hcont n (q + 1) ltac:(lia) Hd ltac:(lia)). f_equal. lia.
  - unpack_plain He. destruct n as [| [| [| n]]]; try lia.
    rewrite (Hstep _ q lo _ Hq Hd He).
    apply pat_at_drop in Hd; [| exact Hq]. destruct Hd as (_ & Hd & _).
    pose proof Hd as Hd1.
    apply pat_at_drop in Hd1; [| lia]. destruct Hd1 as (Hminus & Hd1 & _).
    rewrite Hminus. change (negb (chr "-" =? chr "]")) with true. cbv iota.
    rewrite (Hstep _ (q + 1) (chr "-") _ ltac:(lia) Hd ltac:(discriminate)).
    pose proof Hd1 as Hd2.
    apply pat_at_drop in Hd2; [| lia]. destruct Hd2 as (Hhi & Hd2 & _).
    rewrite Hhi.
    destruct (Z.eqb_spec hi (chr "]")); [contradiction |].
    cbn [negb].
    assert (Hhi' : hi <> chr "%") by assumption.
    rewrite (Hstep _ (q + 1 + 1) hi _ ltac:(lia) Hd1 Hhi').
    rewrite (Hcont n (q + 1 + 1 + 1) ltac:(lia) Hd2 ltac:(lia)). f_equal. lia.
  - destruct n as [| n]; [lia |].
    pose proof Hd as Hd0.
    apply pat_at_drop in Hd0; [| exact Hq]. destruct Hd0 as (Hesc & Hd1 & Hlt).
    pose proof Hd1 as Hd2.
    apply pat_at_drop in Hd2; [| lia]. destruct Hd2 as (_ & Hd2 & Hlt1).
    cbn [classend_loop]. destruct (Z.eqb_spec q p_end); [lia |].
    rewrite Hesc. change (chr "%" =? chr "%") with true.
    destruct (Z.ltb_spec (q + 1) p_end); [| lia]. cbn [andb]. cbv iota zeta.
    rewrite (Hcont n (q + 1 + 1) ltac:(lia) Hd2 ltac:(lia)). f_equal. lia.
Qed.

(** A set that starts at [p], is negated when [neg] holds and lists the
    entries [es]: the item ends after the closing bracket, and the set
    matches a unit exactly when some entry does (a unit, a range with both
    bounds included, a class), or when none does if the set is negated. *)
Theorem bracket_set_semantics (neg : bool) (es : list set_entry) (tail : list Z)
        (p : Z) :
  0 <= p -> es <> [] -> forallb entry_plain es = true ->
  (neg = false -> hd 0 (set_units es) <> chr "^") ->
  drop (Z.to_nat p) pattern
  = chr "[" :: (if neg then [chr "^"] else []) ++ set_units es ++ chr "]" :: tail ->
  let ec := p + 1 + (if neg then 1 else 0) + Z.of_nat (length (set_units es)) in
  classend p = Ok (ec + 1) /\
  pat_at ec = chr "]" /\
  (forall c, matchbracketclass c p ec = xorb neg (existsb (entry_matches c) es)) /\
  (forall c, unit_matches c p (ec + 1) = xorb neg (existsb (entry_matches c) es)).
Proof.
  intros Hp Hne Hplain Hfirst Hd ec.
  apply pat_at_drop in Hd; [| exact Hp]. destruct Hd as (Hopen & Hd & _).
  assert (Hbody : drop (Z.to_nat (p + 1 + (if neg then 1 else 0))) pattern
                  = set_units es ++ chr "]" :: tail /\
                  (pat_at (p + 1) =? chr "^") = neg).
  { destruct neg; cbn [app] in Hd.
    - apply pat_at_drop in Hd; [| lia]. destruct Hd as (Hc & Hd & _).
      split; [exact Hd | rewrite Hc; reflexivity].
    - rewrite Z.add_0_r. split; [exact Hd |].
      destruct es as [| e es]; [congruence |].
      specialize (Hfirst eq_refl).
      destruct e; unfold set_units in *; cbn [flat_map entry_units app hd] in *;
        apply pat_at_drop in Hd; try lia; destruct Hd as (Hc & _);
        rewrite Hc; apply Z.eqb_neq; try exact Hfirst; discriminate. }
  destruct Hbody as [Hbody Hneg].
  assert (Hset : forall c, matchbracketclass c p ec
                           = xorb neg (existsb (entry_matches c) es)).
  { intros c. unfold matchbracketclass. rewrite Hneg.
    destruct neg; cbv iota beta.
    - rewrite (bracket_loop_entries c false es _ (p + 1) ec tail);
        [destruct (existsb _ _); reflexivity | lia | exact Hbody | subst ec; lia
         | exact Hplain | lia].
    - rewrite (bracket_loop_entries c true es _ p ec tail);
        [destruct (existsb _ _); reflexivity | lia | | subst ec; lia
         | exact Hplain | lia].
      rewrite Z.add_0_r in Hbody. exact Hbody. }
  split; [| split; [| split]].
  - unfold classend. rewrite Hopen.
    change (chr "[" =? chr "%") with false. change (chr "[" =? chr "[") with true.
    cbv iota. rewrite Hneg.
    assert (Hlen : Z.of_nat (length (set_units es)) < p_end - (p + 1 + (if neg then 1 else 0))).
    { apply (f_equal (@length Z)) in Hbody.
      rewrite length_drop, length_app in Hbody. simpl in Hbody.
      unfold p_end. lia. }
    destruct neg.
    + rewrite (classend_loop_entries es (S (Z.to_nat (p_end - (p + 1 + 1))))
                 (p + 1 + 1) tail Hne ltac:(lia) Hbody Hplain ltac:(lia)).
      subst ec. f_equal; try lia.
    + rewrite Z.add_0_r in Hbody, Hlen.
      rewrite (classend_loop_entries es (S (Z.to_nat (p_end - (p + 1))))
                 (p + 1) tail Hne ltac:(lia) Hbody Hplain ltac:(lia)).
      subst ec. f_equal; try lia.
  - assert (Hd2 : drop (Z.to_nat ec) pattern = chr "]" :: tail).
    { replace (Z.to_nat ec)
        with (Z.to_nat (p + 1 + (if neg then 1 else 0)) + length (set_units es))%nat
        by (subst ec; destruct neg; lia).
      rewrite <- drop_drop, Hbody, drop_app_length. reflexivity. }
    apply pat_at_drop in Hd2; [tauto | subst ec; destruct neg; lia].
  - exact Hset.
  - intros c. unfold unit_matches. rewrite Hopen.
    change (chr "[" =? chr ".") with false. change (chr "[" =? chr "%") with false.
    change (chr "[" =? chr "[") with true. cbv iota.
    replace (ec + 1 - 1) with ec by lia. apply Hset.
Qed.

(** ** Decimal output *)

(** The number that a sequence of decimal digits denotes. *)
Definition decimal_value (ds : list Z) : Z :=
  fold_left (fun acc d => 10 * acc + (d - chr "0")) ds 0.

Lemma log2_tenth (number : Z) :
  9 < number -> Z.log2 (number / 10) < Z.log2 number.
Proof.
  intros H. assert (Hq : 0 < number / 10) by (apply Z.div_str_pos; lia).
  apply Z.log2_lt_pow2; [exact Hq |].
  destruct (Z.log2_spec number ltac:(lia)) as [Hlo Hhi].
  assert (Hpos : 0 <= Z.log2 number) by apply Z.log2_nonneg.
  rewrite Z.pow_succ_r in Hhi by exact Hpos.
  apply Z.div_lt_upper_bound; lia.
Qed.

(** [append_number] appends the decimal digits of a non-negative number:
    at least one digit, only digits, most significant first and without a
    leading zero, and read back they give the number.  The bound on the
    digits that [gsub] supplies is enough. *)
Theorem append_number_decimal (n : nat) (str : list Z) (number : Z) :
  0 <= number -> (Z.to_nat (Z.log2 number) <= n)%nat ->
  exists ds,
    append_number n str number = str ++ ds /\
    ds <> [] /\ Forall (fun d => isdigit d = true) ds /\
    decimal_value ds = number /\
    (0 < number -> hd 0 ds <> chr "0").
Proof.
  assert (Hdigit : forall m, 0 <= m -> isdigit (chr "0" + m mod 10) = true).
  { intros m Hm. pose proof (Z.mod_pos_bound m 10 ltac:(lia)).
    unfold isdigit, in_range. change (chr "0") with 48.
    apply andb_true_iff. split; [apply Z.leb_le | apply Z.leb_le]; lia. }
  assert (Hlast : forall m, 0 <= m <= 9 ->
            exists ds, str ++ [chr "0" + m mod 10] = str ++ ds /\
              ds <> [] /\ Forall (fun d => isdigit d = true) ds /\
              decimal_value ds = m /\ (0 < m -> hd 0 ds <> chr "0")).
  { intros m Hm. exists [chr "0" + m mod 10].
    split; [reflexivity |]. split; [discriminate |].
    split; [constructor; [apply Hdigit; lia | constructor] |].
    rewrite Z.mod_small by lia. unfold decimal_value. simpl.
    split; [lia |]. intros Hpos. change (chr "0") with 48. lia. }
  revert number. induction n as [| n IH]; intros number Hnn Hn; cbn [append_number].
  - apply Hlast. destruct (Z.le_gt_cases number 1) as [| Hbig]; [lia |].
    assert (1 <= Z.log2 number); [| lia].
    change 1 with (Z.log2 2). apply Z.log2_le_mono. lia.
  - destruct (Z.ltb_spec 9 number) as [Hbig | Hsmall]; [| apply Hlast; lia].
    pose proof (log2_tenth number Hbig) as Hlog.
    assert (Hq : 0 < number / 10) by (apply Z.div_str_pos; lia).
    destruct (IH (number / 10) ltac:(lia)) as (ds & Heq & Hne & Hall & Hval & Hhd).
    { pose proof (Z.log2_nonneg (number / 10)). lia. }
    exists (ds ++ [chr "0" + number mod 10]).
    split; [rewrite Heq, <- app_assoc; reflexivity |].
    split; [destruct ds; discriminate |].
    split; [apply Forall_app; split; [exact Hall |];
            constructor; [apply Hdigit; lia | constructor] |].
    split.
    + unfold decimal_value in *. rewrite fold_left_app, Hval. simpl.
      pose proof (Z.div_mod number 10 ltac:(lia)). lia.
    + intros _. destruct ds as [| d ds]; [congruence |]. simpl in *. apply Hhd. exact Hq.
Qed.

(** ** Back-references *)

(** The item [%d] for a digit [d], with [i] the slot it refers to.  A slot
    outside [0, level) (so always for [%0]) or an Unfinished slot is the
    error [capture_invalid_index]; a finished capture of [l] units is
    matched when the [l] units at the current position equal the units of
    the capture, and the matcher goes on after them. *)
Theorem backreference_item (ms : match_state) (s p : Z) :
  0 <= s <= s_end -> s_end < 2 ^ 63 ->
  pat_at p = chr "%" -> in_range (chr "0") (chr "9") (pat_at (p + 1)) = true ->
  let i := pat_at (p + 1) - chr "1" in
  (i < 0 \/ ms_level ms <= i \/ len (get_cap (ms_captures ms) i) = unfinished ->
   match_from ms s p = (Throw capture_invalid_index, ms)) /\
  (forall a l,
     0 <= i < ms_level ms ->
     get_cap (ms_captures ms) i = {| init := Some a; len := l |} ->
     0 <= l <= s_end - s ->
     (forall k, 0 <= k < l -> unit_at subject (a + k) = unit_at subject (s + k)) ->
     match_from ms s p = match_from ms (s + l) (p + 2)).
Proof.
  intros Hs Hbig Hpc Hdig i.
  assert (Hdispatch : match_from ms s p
                      = match match_capture ms s (pat_at (p + 1)) with
                        | (Ok (Some res), ms1) => match_from ms1 res (p + 2)
                        | (Ok None, ms1) => match_default detail_match match_from ms1 s p
                        | other => other
                        end).
  { rewrite match_from_unfold. unfold match_body.
    assert (Hp : 0 <= p < p_end).
    { apply pat_at_is with (c := chr "%"); [apply Z.eqb_eq; exact Hpc | discriminate]. }
    destruct (Z.ltb_spec p_end p); [lia |].
    destruct (Z.eqb_spec p p_end); [lia |].
    rewrite Hpc.
    change (chr "%" =? chr "(") with false. change (chr "%" =? chr ")") with false.
    change (chr "%" =? chr "$") with false. change (chr "%" =? chr "%") with true.
    cbv iota zeta.
    assert (Hc1 : chr "0" <= pat_at (p + 1) <= chr "9").
    { unfold in_range in Hdig. apply andb_true_iff in Hdig.
      destruct Hdig as [H1 H2]. apply Z.leb_le in H1, H2. lia. }
    destruct (Z.eqb_spec (pat_at (p + 1)) (chr "b")) as [Hb |];
      [rewrite Hb in Hc1; unfold chr in Hc1; simpl in Hc1; lia |].
    destruct (Z.eqb_spec (pat_at (p + 1)) (chr "f")) as [Hf |];
      [rewrite Hf in Hc1; unfold chr in Hc1; simpl in Hc1; lia |].
    rewrite Hdig. reflexivity. }
  split.
  - intros Hbad. rewrite Hdispatch.
    rewrite (proj1 (match_capture_throws ms s (pat_at (p + 1))) Hbad). reflexivity.
  - intros a l Hi Hcap Hl Hsame. rewrite Hdispatch.
    destruct (match_capture_finished ms s (pat_at (p + 1)) a l Hs Hbig Hi Hcap)
      as [_ Hfin].
    rewrite Hfin by lia.
    destruct (Z.leb_spec l (s_end - s)); [| lia]. cbn [andb].
    assert (Hcmp : memcmp_eq (Z.to_nat l) a s = true).
    { apply memcmp_eq_spec. intros k Hk. apply Hsame. lia. }
    rewrite Hcmp. reflexivity.
Qed.

(** ** The end anchor *)

Section EndAnchor.

(** The pattern ends in a [$] that is neither the second unit of an escape
    nor the second delimiter of a balanced item. *)
Hypothesis last_is_dollar : pat_at (p_end - 1) = chr "$".
Hypothesis dollar_not_escaped : pat_at (p_end - 2) <> chr "%".
Hypothesis dollar_not_delimiter :
  pat_at (p_end - 4) = chr "%" -> pat_at (p_end - 3) <> chr "b".

Definition ends (res : result (option Z) * match_state) : Prop :=
  forall e, fst res = Ok (Some e) -> e = s_end.

Definition ends_above (k : continuation) : Prop :=
  forall ms s p, 0 <= p -> p <> p_end -> ends (k ms s p).

Lemma ends_here (o : result (option Z)) (ms : match_state) :
  (forall e, o <> Ok (Some e)) -> ends (o, ms).
Proof. intros H e He. exfalso. apply (H e). exact He. Qed.

Ltac ends_trivial :=
  match goal with
  | |- ends (?o, ?m) => apply (ends_here o m); discriminate
  end.

Lemma not_last (p : Z) (c : Z) :
  pat_at p = c -> c <> chr "$" -> p <> p_end - 1.
Proof. intros H1 H2 ->. congruence. Qed.

Lemma with_sentinel_ends (body : continuation) :
  ends_above body -> ends_above (with_sentinel body).
Proof.
  intros H ms s p Hp0 Hp. unfold with_sentinel, sentinel_enter.
  destruct (matchdepth ms <=? 0); [ends_trivial |].
  specialize (H (set_matchdepth ms (matchdepth ms - 1)) s p Hp0 Hp).
  destruct (body _ s p) as [r ms1]. exact H.
Qed.

Lemma max_try_ends (call : continuation) (k : nat) (ms : match_state) (s ep : Z) :
  ends_above call -> 0 <= ep -> ep + 1 <> p_end -> ends (max_try call k ms s ep).
Proof.
  intros Hc Hp0 Hp. revert ms. induction k as [| k IH]; intros ms; simpl.
  - pose proof (Hc ms (s + Z.of_nat 0) (ep + 1) ltac:(lia) Hp) as H.
    destruct (call ms _ _) as [[[e |] | err | | ] ms1]; exact H.
  - pose proof (Hc ms (s + Z.of_nat (S k)) (ep + 1) ltac:(lia) Hp) as H.
    destruct (call ms _ _) as [[[e |] | err | | ] ms1]; try exact H. apply IH.
Qed.

Lemma max_expand_ends (call : continuation) (ms : match_state) (s p ep : Z) :
  ends_above call -> 0 <= ep -> ep + 1 <> p_end -> ends (max_expand call ms s p ep).
Proof.
  intros Hc Hp0 Hp. unfold max_expand. destruct (max_count _ _ _ _ _ _) as [i ms1].
  apply max_try_ends; assumption.
Qed.

Lemma min_loop_ends (call : continuation) (n : nat) (ms : match_state) (s p ep : Z) :
  ends_above call -> 0 <= ep -> ep + 1 <> p_end -> ends (min_loop call n ms s p ep).
Proof.
  intros Hc Hp0 Hp. revert ms s. induction n as [| n IH]; intros ms s; simpl;
    pose proof (Hc ms s (ep + 1) ltac:(lia) Hp) as H;
    destruct (call ms s _) as [[[e |] | err | | ] ms1]; try exact H;
    destruct (singlematch ms1 s p ep) as [[|] ms2]; try ends_trivial.
  apply IH.
Qed.

Lemma start_capture_ends (call : continuation) (ms : match_state) (s p : Z) :
  ends_above call -> 0 <= p -> pat_at (p - 1) = chr "(" ->
  ends (start_capture call ms s p).
Proof.
  intros Hc Hp0 Hopen. rewrite start_capture_eq.
  destruct (MAXCAPTURES <=? ms_level ms); [ends_trivial |].
  simpl.
  assert (Hp1 : 0 <= (if pat_at p =? chr ")" then p + 1 else p) /\
                (if pat_at p =? chr ")" then p + 1 else p) <> p_end).
  { destruct (Z.eqb_spec (pat_at p) (chr ")")) as [Hcl |].
    - apply (not_last p) in Hcl; [lia | discriminate].
    - apply (not_last (p - 1)) in Hopen; [lia | discriminate]. }
  pose proof (Hc (open_slot ms s (if pat_at p =? chr ")" then position else unfinished))
                 s _ (proj1 Hp1) (proj2 Hp1)) as H.
  destruct (call _ s _) as [[[e |] | err | | ] ms2]; exact H.
Qed.

Lemma end_capture_ends (call : continuation) (ms : match_state) (s p : Z) :
  ends_above call -> 0 <= p -> pat_at (p - 1) = chr ")" ->
  ends (end_capture call ms s p).
Proof.
  intros Hc Hp0 Hclose. unfold end_capture.
  destruct (find_unfinished _ _) as [i |]; [| ends_trivial].
  destruct (init _) as [a |]; [| ends_trivial].
  assert (Hp : p <> p_end).
  { apply (not_last (p - 1)) in Hclose; [lia | discriminate]. }
  pose proof (Hc (set_cap_len ms (Z.of_nat i) (s - a)) s p Hp0 Hp) as H.
  destruct (call _ s p) as [[[e |] | err | | ] ms2]; exact H.
Qed.

Lemma match_default_ends (call jump : continuation) (ms : match_state) (s p : Z) :
  ends_above call -> ends_above jump -> 0 <= p < p_end ->
  (pat_at p = chr "$" -> p + 1 <> p_end) ->
  ends (match_default call jump ms s p).
Proof.
  intros Hc Hj Hp Hdollar. unfold match_default.
  destruct (classend p) as [ep | err | | ] eqn:Hclass; try ends_trivial.
  destruct (classend_shape p ep Hp Hclass) as (Hep & Hesc & Hset & Hone).
  assert (Hitem : ep <> p_end).
  { intros ->. destruct (Z.eq_dec (pat_at p) (chr "%")) as [H1 | H1].
    - specialize (Hesc H1). apply dollar_not_escaped.
      replace (p_end - 2) with p by lia. exact H1.
    - destruct (Z.eq_dec (pat_at p) (chr "[")) as [H2 | H2].
      + destruct (Hset H2) as [_ Hclose]. rewrite last_is_dollar in Hclose. discriminate.
      + specialize (Hone H1 H2).
        assert (Hlast : pat_at p = chr "$")
          by (replace p with (p_end - 1) by lia; exact last_is_dollar).
        apply (Hdollar Hlast). lia. }
  assert (Hsuffix : forall c, c <> chr "$" -> (pat_at ep =? c) = true -> ep + 1 <> p_end).
  { intros c Hc0 Heq. apply Z.eqb_eq in Heq.
    apply (not_last ep) in Heq; [lia | exact Hc0]. }
  destruct (singlematch ms s p ep) as [m ms1].
  destruct m; simpl.
  - destruct (pat_at ep =? chr "?") eqn:Hq.
    { pose proof (Hc ms1 (s + 1) (ep + 1) ltac:(lia)
                     (Hsuffix (chr "?") ltac:(discriminate) Hq)) as H.
      destruct (call ms1 _ _) as [[[e |] | err | | ] ms2]; try exact H.
      apply Hj; [lia | apply (Hsuffix (chr "?") ltac:(discriminate) Hq)]. }
    destruct (pat_at ep =? chr "+") eqn:Hplus;
      [apply max_expand_ends;
       [exact Hc | lia | apply (Hsuffix (chr "+") ltac:(discriminate) Hplus)] |].
    destruct (pat_at ep =? chr "*") eqn:Hstar;
      [apply max_expand_ends;
       [exact Hc | lia | apply (Hsuffix (chr "*") ltac:(discriminate) Hstar)] |].
    destruct (pat_at ep =? chr "-") eqn:Hminus;
      [apply min_loop_ends;
       [exact Hc | lia | apply (Hsuffix (chr "-") ltac:(discriminate) Hminus)] |].
    apply Hj; [lia | exact Hitem].
  - destruct (pat_at ep =? chr "*") eqn:Hstar; simpl;
      [apply Hj; [lia | apply (Hsuffix (chr "*") ltac:(discriminate) Hstar)] |].
    destruct (pat_at ep =? chr "?") eqn:Hq; simpl;
      [apply Hj; [lia | apply (Hsuffix (chr "?") ltac:(discriminate) Hq)] |].
    destruct (pat_at ep =? chr "-") eqn:Hminus; simpl;
      [apply Hj; [lia | apply (Hsuffix (chr "-") ltac:(discriminate) Hminus)] |].
    ends_trivial.
Qed.

Lemma match_frontier_ends (jump : continuation) (ms : match_state) (s p : Z) :
  ends_above jump -> ends (match_frontier jump ms s p).
Proof.
  intros Hj. unfold match_frontier.
  destruct (Z.eqb_spec (pat_at p) (chr "[")) as [Hbr |]; simpl; [| ends_trivial].
  assert (Hp : 0 <= p < p_end).
  { apply pat_at_is with (c := chr "["); [apply Z.eqb_eq; exact Hbr | discriminate]. }
  destruct (classend p) as [ep | err | | ] eqn:Hclass; try ends_trivial.
  destruct (classend_shape p ep Hp Hclass) as (Hlt & _ & Hset & _).
  destruct (Hset Hbr) as [_ Hclose].
  assert (Hep : ep <> p_end).
  { intros ->. rewrite last_is_dollar in Hclose. discriminate. }
  destruct (if s =? s_begin then _ else _) as [previous ms1].
  destruct (negb _); [| ends_trivial]. simpl.
  destruct (matchbracketclass _ _ _); [apply Hj; [lia | exact Hep] | ends_trivial].
Qed.

Lemma match_body_ends (call jump : continuation) (ms : match_state) (s p : Z) :
  ends_above call -> ends_above jump -> 0 <= p -> p <> p_end ->
  ends (match_body call jump ms s p).
Proof.
  intros Hc Hj Hp0 Hp. unfold match_body.
  destruct (Z.ltb_spec p_end p); [ends_trivial |].
  destruct (Z.eqb_spec p p_end); [contradiction |].
  assert (Hin : 0 <= p < p_end) by lia.
  destruct (Z.eqb_spec (pat_at p) (chr "(")) as [Hopen |].
  { apply start_capture_ends; [exact Hc | lia |].
    replace (p + 1 - 1) with p by lia. exact Hopen. }
  destruct (Z.eqb_spec (pat_at p) (chr ")")) as [Hclose |].
  { apply end_capture_ends; [exact Hc | lia |].
    replace (p + 1 - 1) with p by lia. exact Hclose. }
  destruct (Z.eqb_spec (pat_at p) (chr "$")) as [Hd |].
  { destruct (Z.eqb_spec (p + 1) p_end) as [Hlast | Hmid]; simpl.
    - destruct (Z.eqb_spec s s_end) as [-> |]; [| ends_trivial].
      intros e [= <-]. reflexivity.
    - apply match_default_ends; try assumption. intros _. exact Hmid. }
  assert (Hdflt : ends (match_default call jump ms s p)).
  { apply match_default_ends; try assumption. intros Hd. contradiction. }
  destruct (Z.eqb_spec (pat_at p) (chr "%")) as [Hpc |]; [| exact Hdflt].
  destruct (Z.eqb_spec (pat_at (p + 1)) (chr "b")) as [Hb |].
  { destruct (matchbalance ms s (p + 2)) as [[[res |] | err | | ] ms1];
      try ends_trivial.
    apply Hj; [lia |]. intros Heq. apply dollar_not_delimiter.
    - replace (p_end - 4) with p by lia. exact Hpc.
    - replace (p_end - 3) with (p + 1) by lia. exact Hb. }
  destruct (pat_at (p + 1) =? chr "f"); [apply match_frontier_ends; exact Hj |].
  destruct (in_range _ _ _) eqn:Hdig; [| exact Hdflt].
  assert (Hp2 : p + 2 <> p_end).
  { intros Heq. unfold in_range in Hdig. apply andb_true_iff in Hdig.
    destruct Hdig as [H1 H2]. apply Z.leb_le in H1, H2.
    replace (p + 1) with (p_end - 1) in H1, H2 by lia.
    rewrite last_is_dollar in H1. unfold chr in H1. simpl in H1. lia. }
  destruct (match_capture ms s _) as [[[res |] | err | | ] ms1]; try ends_trivial.
  - apply Hj; [lia | exact Hp2].
  - pose proof (match_capture_same ms s (pat_at (p + 1))) as Hsame.
    apply match_default_ends; try assumption. intros Hd. congruence.
Qed.

Lemma match_loop_ends (n : nat) : ends_above (match_loop n).
Proof.
  induction n as [| n IH]; intros ms s p Hp0 Hp; simpl; [ends_trivial |].
  apply match_body_ends; [apply with_sentinel_ends; exact IH | exact IH | exact Hp0
                          | exact Hp].
Qed.

Lemma attempt_ends (s e : Z) : attempt s = Ok (Some e) -> e = s_end.
Proof.
  unfold attempt, detail_match.
  assert (Hfrom : ends_above match_from).
  { intros ms s' p Hp0 Hp. apply match_loop_ends; assumption. }
  assert (Hb : 0 <= p_begin /\ p_begin <> p_end).
  { assert (Hpe : 0 <= p_end - 1 < p_end).
    { apply pat_at_is with (c := chr "$");
        [apply Z.eqb_eq; exact last_is_dollar | discriminate]. }
    unfold p_begin, anchor. destruct (Z.ltb_spec 0 p_end); [| lia]. simpl.
    destruct (Z.eqb_spec (pat_at 0) (chr "^")) as [Hc |]; [| lia].
    split; [lia |]. intros Heq.
    replace 0 with (p_end - 1) in Hc by lia. rewrite last_is_dollar in Hc. discriminate. }
  intros H. exact (with_sentinel_ends match_from Hfrom clean s p_begin
                     (proj1 Hb) (proj2 Hb) e H).
Qed.

(** A pattern whose last unit is an end anchor matches only up to the end
    of the subject: an attempt that succeeds from any offset ends there,
    and so does the span that the search reports. *)
Theorem end_anchor_matches_at_end :
  (forall s e, attempt s = Ok (Some e) -> e = s_end) /\
  (forall r, lex_match = Ok r -> to_bool r = true -> snd (pos r) = s_end).
Proof.
  split; [exact attempt_ends |].
  intros r Hr Hb. apply lex_match_attempts in Hr.
  destruct Hr as [(Hl & _) | (s & e & _ & _ & (Hp & _) & _ & Hat & _)].
  - unfold to_bool in Hb. rewrite Hl in Hb. discriminate.
  - rewrite Hp. simpl. apply (attempt_ends s e Hat).
Qed.

End EndAnchor.

(** ** Patterns without special units *)

Definition special (c : Z) : bool :=
  existsb (Z.eqb c) (units "^$()%.[]*+-?").

Definition plain_pattern : bool := forallb (fun c => negb (special c)) pattern.

(** [pat] is a prefix of [sub]. *)
Fixpoint is_prefix (pat sub : list Z) : bool :=
  match pat, sub with
  | [], _ => true
  | x :: pat', y :: sub' => (x =? y) && is_prefix pat' sub'
  | _ :: _, [] => false
  end.

(** The first offset, counted from [offset] on, at which [pat] occurs in
    [sub]. *)
Fixpoint first_occurrence (pat sub : list Z) (offset : Z) : option Z :=
  if is_prefix pat sub then Some offset
  else match sub with
       | [] => None
       | _ :: sub' => first_occurrence pat sub' (offset + 1)
       end.

Lemma drop_pattern (p : Z) :
  0 <= p < p_end ->
  drop (Z.to_nat p) pattern = pat_at p :: drop (Z.to_nat (p + 1)) pattern.
Proof.
  intros Hp. unfold p_end in Hp.
  destruct (pattern !! Z.to_nat p) as [x |] eqn:Hl;
    [| apply lookup_ge_None in Hl; lia].
  rewrite (drop_S _ _ _ Hl). replace (Z.to_nat (p + 1)) with (S (Z.to_nat p)) by lia.
  f_equal. unfold pat_at, unit_at. destruct (Z.ltb_spec p 0); [lia |].
  rewrite nth_lookup, Hl. reflexivity.
Qed.

Lemma not_special (c : Z) :
  special c = false ->
  (c =? chr "^") = false /\ (c =? chr "$") = false /\ (c =? chr "(") = false /\
  (c =? chr ")") = false /\ (c =? chr "%") = false /\ (c =? chr ".") = false /\
  (c =? chr "[") = false /\ (c =? chr "]") = false /\ (c =? chr "*") = false /\
  (c =? chr "+") = false /\ (c =? chr "-") = false /\ (c =? chr "?") = false.
Proof.
  unfold special. cbn [units existsb]. intros H.
  repeat (apply orb_false_iff in H; destruct H as [? H]). tauto.
Qed.

Lemma plain_unit_at (p : Z) :
  plain_pattern = true -> special (pat_at p) = false.
Proof.
  intros Hplain. destruct (Z.lt_ge_cases p 0) as [Hneg | Hpos].
  { unfold pat_at, unit_at. destruct (Z.ltb_spec p 0); [reflexivity | lia]. }
  destruct (Z.lt_ge_cases p p_end) as [Hin | Hout].
  - unfold plain_pattern in Hplain. rewrite forallb_forall in Hplain.
    apply negb_true_iff, Hplain. unfold pat_at, unit_at.
    destruct (Z.ltb_spec p 0); [lia |]. apply nth_In. unfold p_end in Hin. lia.
  - unfold pat_at, unit_at. destruct (Z.ltb_spec p 0); [lia |].
    rewrite nth_overflow by (unfold p_end in Hout; lia). reflexivity.
Qed.

Lemma plain_match_from (k : nat) (ms : match_state) (s p : Z) :
  plain_pattern = true -> 0 <= s -> 0 <= p <= p_end -> k = Z.to_nat (p_end - p) ->
  exists ms', same_data ms ms' /\
    match_from ms s p
    = (Ok (if is_prefix (drop (Z.to_nat p) pattern) (drop (Z.to_nat s) subject)
           then Some (s + (p_end - p)) else None), ms').
Proof.
  intros Hplain. revert ms s p. induction k as [| k IH]; intros ms s p Hs Hp Hk.
  - assert (p = p_end) as -> by lia. exists ms. split; [apply same_data_refl |].
    rewrite match_from_unfold. unfold match_body.
    destruct (Z.ltb_spec p_end p_end); [lia |]. rewrite Z.eqb_refl.
    rewrite drop_ge by (unfold p_end; lia). simpl. repeat f_equal. lia.
  - assert (Hlt : 0 <= p < p_end) by lia.
    destruct (not_special _ (plain_unit_at p Hplain))
      as (_ & Hdollar & Hopen & Hclose & Hesc & Hdot & Hset & _).
    destruct (not_special _ (plain_unit_at (p + 1) Hplain))
      as (_ & _ & _ & _ & _ & _ & _ & _ & Hstar & Hplus & Hminus & Hq).
    rewrite match_from_default;
      [| unfold is_single_unit_item; rewrite Hopen, Hclose, Hdollar, Hesc;
         destruct (Z.ltb_spec p p_end); [reflexivity | lia]].
    unfold match_default, classend. rewrite Hesc, Hset.
    pose proof (singlematch_same ms s p (p + 1)) as Hsame.
    pose proof (singlematch_unit ms s p (p + 1)) as Hm.
    destruct (singlematch ms s p (p + 1)) as [m ms1]. cbn [fst snd] in *.
    unfold unit_matches in Hm. rewrite Hdot, Hesc, Hset in Hm.
    rewrite Hstar, Hplus, Hminus, Hq. cbn [orb].
    rewrite (drop_pattern p Hlt).
    destruct (Z.ltb_spec s s_end) as [Hin | Hout].
    + rewrite (drop_subject s ltac:(lia)). cbn [is_prefix andb] in *. subst m.
      destruct (pat_at p =? unit_at subject s); cbn [negb andb].
      * destruct (IH ms1 (s + 1) (p + 1) ltac:(lia) ltac:(lia) ltac:(lia))
          as (ms2 & Hsame2 & Heq).
        exists ms2. split; [eapply same_data_trans; eassumption |].
        rewrite Heq. repeat f_equal.
        destruct (is_prefix _ _); [f_equal; lia | reflexivity].
      * exists ms1. split; [exact Hsame | reflexivity].
    + rewrite (drop_subject_end s Hout). cbn [is_prefix andb] in *. subst m.
      cbn [negb]. exists ms1. split; [exact Hsame | reflexivity].
Qed.

Lemma plain_not_anchored : plain_pattern = true -> anchor = false /\ p_begin = 0.
Proof.
  intros Hplain. destruct (not_special _ (plain_unit_at 0 Hplain)) as (Hc & _).
  unfold p_begin, anchor. rewrite Hc, andb_false_r. split; reflexivity.
Qed.

Lemma plain_detail_match (ms : match_state) (s : Z) :
  plain_pattern = true -> matchdepth ms = MAXCCALLS -> 0 <= s ->
  exists ms', same_data ms ms' /\
    detail_match ms s p_begin
    = (Ok (if is_prefix pattern (drop (Z.to_nat s) subject)
           then Some (s + p_end) else None), ms').
Proof.
  intros Hplain Hd Hs. destruct (plain_not_anchored Hplain) as [_ ->].
  unfold detail_match, with_sentinel, sentinel_enter. rewrite Hd.
  change (MAXCCALLS <=? 0) with false. cbv iota.
  destruct (plain_match_from (Z.to_nat p_end) (set_matchdepth ms (MAXCCALLS - 1)) s 0
              Hplain Hs ltac:(unfold p_end; lia) ltac:(f_equal; lia))
    as (ms1 & [Hmr Hdepth] & Heq).
  rewrite Heq. change (drop (Z.to_nat 0) pattern) with pattern.
  rewrite Z.sub_0_r.
  exists (set_matchdepth ms1 (sentinel_exit (matchdepth ms1))).
  split; [| reflexivity].
  split; [exact Hmr |]. simpl in *. unfold sentinel_exit. lia.
Qed.

Lemma install_whole_match_mr (ms1 ms2 : match_state) (pp : Z * Z) (s e : Z) :
  mr ms1 = mr ms2 ->
  mr (install_whole_match (set_pos ms1 pp) s e)
  = mr (install_whole_match (set_pos ms2 pp) s e).
Proof.
  intros H. unfold install_whole_match, set_pos, set_level, set_cap_len, set_cap_init,
    set_captures, ms_level, ms_captures. simpl. rewrite H.
  destruct (level (mr ms2) =? 0); reflexivity.
Qed.

Lemma search_loop_S (n : nat) (ms : match_state) (s : Z) :
  search_loop (S n) ms s
  = match detail_match ms s p_begin with
    | (Ok (Some e), ms1) => on_success ms1 s e
    | (Ok None, ms1) =>
        if anchor then (Ok tt, ms1) else search_loop n (reprepstate ms1) (s + 1)
    | (Throw err, ms1) => (Throw err, ms1)
    | (Undefined, ms1) => (Undefined, ms1)
    | (OutOfFuel, ms1) => (OutOfFuel, ms1)
    end.
Proof. reflexivity. Qed.

Lemma plain_search (m : nat) (ms : match_state) (s : Z) :
  plain_pattern = true -> mr ms = mr clean -> matchdepth ms = MAXCCALLS ->
  0 <= s -> s + Z.of_nat m = s_end ->
  exists ms', search_loop (S m) ms s = (Ok tt, ms') /\
    mr ms' = match first_occurrence pattern (drop (Z.to_nat s) subject) s with
             | Some i =>
                 mr (install_whole_match
                       (set_pos clean (i - s_begin, i + p_end - s_begin)) i (i + p_end))
             | None => mr clean
             end.
Proof.
  intros Hplain. destruct (plain_not_anchored Hplain) as [Ha _].
  revert ms s. induction m as [| m IH]; intros ms s Hmr Hd Hs Hm;
    rewrite search_loop_S;
    destruct (plain_detail_match ms s Hplain Hd Hs) as (ms1 & [Hmr1 Hd1] & ->).
  - rewrite (drop_subject_end s ltac:(lia)). cbn [first_occurrence].
    destruct (is_prefix pattern []).
    + unfold on_success, check_captures, has_unfinished, ms_level, ms_captures.
      rewrite Hmr1, Hmr. cbn [existsb take Z.to_nat level mr clean new_match_state
                               reprepstate set_pos set_level].
      eexists. split; [reflexivity |].
      apply install_whole_match_mr. congruence.
    + rewrite Ha. eexists. split; [reflexivity |].
      unfold reprepstate, set_pos, set_level. simpl. rewrite Hmr1, Hmr. reflexivity.
  - rewrite (drop_subject s ltac:(lia)). cbn [first_occurrence].
    rewrite <- (drop_subject s ltac:(lia)).
    destruct (is_prefix pattern (drop (Z.to_nat s) subject)).
    + unfold on_success, check_captures, has_unfinished, ms_level, ms_captures.
      rewrite Hmr1, Hmr. cbn [existsb take Z.to_nat level mr clean new_match_state
                               reprepstate set_pos set_level].
      eexists. split; [reflexivity |].
      apply install_whole_match_mr. congruence.
    + rewrite Ha.
      apply IH; [| exact (eq_trans Hd1 Hd) | lia | lia].
      unfold reprepstate, set_pos, set_level. simpl. rewrite Hmr1, Hmr. reflexivity.
Qed.

(** For a pattern without special units the search is a substring search:
    it never ends with an error, it reports the first occurrence of the
    pattern in the subject as the span and as the only capture, and it
    returns an empty result when the pattern does not occur. *)
Theorem plain_pattern_is_substring_search :
  plain_pattern = true ->
  exists r, lex_match = Ok r /\
    match first_occurrence pattern subject 0 with
    | Some i =>
        to_bool r = true /\ size r = 1 /\ pos r = (i, i + p_end) /\
        at_ r 0 = Ok (Some i, p_end)
    | None => to_bool r = false /\ size r = 0 /\ pos r = (-1, -1)
    end.
Proof.
  intros Hplain.
  destruct (plain_search (length subject) clean s_begin Hplain eq_refl eq_refl)
    as (ms' & Hsearch & Hmr); [unfold s_begin; lia | unfold s_begin, s_end; lia |].
  unfold lex_match, lex_match_state. fold clean. rewrite Hsearch.
  exists (mr ms'). split; [reflexivity |]. rewrite Hmr.
  change (drop (Z.to_nat s_begin) subject) with subject. unfold s_begin.
  destruct (first_occurrence pattern subject 0) as [i |].
  - unfold to_bool, size, at_.
    change (level (mr ?m)) with (ms_level m).
    change (captures (mr ?m)) with (ms_captures m).
    rewrite install_whole_match_level, install_whole_match_captures,
      install_whole_match_pos.
    change (ms_level clean =? 0) with true. cbv iota.
    rewrite get_cap_whole_match by apply slots_ok_empty.
    cbn [init len]. split; [reflexivity |]. split; [reflexivity |].
    split; [f_equal; lia |].
    change (1 <=? 0) with false. cbv iota. repeat f_equal.
    unfold p_end. lia.
  - split; [reflexivity |]. split; reflexivity.
Qed.

(** ** Substitution with a pattern without special units *)

(** Replacing the occurrences of the pattern by the text [t], from the
    subject offset [s] on and from left to right: an occurrence is replaced
    and the scan goes on after it (after the next unit when the pattern is
    empty); a unit at which the pattern does not occur is kept.  [count]
    is the number of replacements still allowed, any negative number
    standing for no limit; [n] bounds the number of steps. *)
Fixpoint replace_from (n : nat) (t : list Z) (s count : Z) : list Z :=
  match n with
  | O => []
  | S n' =>
      if s_end <? s then []
      else if count =? 0 then drop (Z.to_nat s) subject
      else if is_prefix pattern (drop (Z.to_nat s) subject) then
        t ++ (if p_end =? 0 then
                if s <? s_end
                then unit_at subject s :: replace_from n' t (s + 1) (count - 1)
                else []
              else replace_from n' t (s + p_end) (count - 1))
      else if s <? s_end then unit_at subject s :: replace_from n' t (s + 1) count
      else []
  end.

Lemma subrange_drop (a b : Z) :
  0 <= a <= b -> subrange a b ++ drop (Z.to_nat b) subject = drop (Z.to_nat a) subject.
Proof.
  intros H. unfold subrange.
  replace (Z.to_nat b) with (Z.to_nat a + Z.to_nat (b - a))%nat by lia.
  rewrite <- drop_drop. apply take_drop.
Qed.

Lemma subrange_nil (a : Z) : subrange a a = [].
Proof. unfold subrange. rewrite Z.sub_diag. reflexivity. Qed.

Lemma subrange_to_end (a : Z) : 0 <= a -> subrange a s_end = drop (Z.to_nat a) subject.
Proof.
  intros H. unfold subrange. apply take_ge. rewrite length_drop. unfold s_end. lia.
Qed.

Lemma subrange_past (a : Z) : 0 <= a -> subrange a (s_end + 1) = subrange a s_end.
Proof.
  intros H. rewrite subrange_to_end by exact H.
  unfold subrange. apply take_ge. rewrite length_drop. unfold s_end. lia.
Qed.

Lemma subrange_snoc (a s : Z) :
  0 <= a <= s -> s < s_end ->
  subrange a (s + 1) = subrange a s ++ [unit_at subject s].
Proof.
  intros Ha Hs. unfold subrange.
  replace (Z.to_nat (s + 1 - a)) with (S (Z.to_nat (s - a))) by lia.
  apply take_S_r. rewrite lookup_drop.
  replace (Z.to_nat a + Z.to_nat (s - a))%nat with (Z.to_nat s) by lia.
  unfold unit_at. destruct (Z.ltb_spec s 0); [lia |].
  rewrite nth_lookup. unfold s_end in Hs.
  destruct (subject !! Z.to_nat s) eqn:Hl; [reflexivity |].
  apply lookup_ge_None in Hl. lia.
Qed.

Lemma is_prefix_length (pat sub : list Z) :
  is_prefix pat sub = true -> (length pat <= length sub)%nat.
Proof.
  revert sub. induction pat as [| x pat IH]; intros [| y sub]; simpl;
    try lia; try discriminate.
  intros H. apply andb_true_iff in H. destruct H as [_ H]. apply IH in H. lia.
Qed.

Lemma replace_from_past (n : nat) (t : list Z) (s count : Z) :
  s_end < s -> replace_from n t s count = [].
Proof.
  intros H. destruct n; simpl; [reflexivity |].
  destruct (Z.ltb_spec s_end s); [reflexivity | lia].
Qed.

Lemma replace_from_zero (n : nat) (t : list Z) (s : Z) :
  0 <= s -> (Z.to_nat (s_end + 1 - s) <= n)%nat ->
  replace_from n t s 0 = drop (Z.to_nat s) subject.
Proof.
  intros Hs Hn. destruct n; simpl.
  - rewrite drop_ge by (unfold s_end in *; lia). reflexivity.
  - destruct (Z.ltb_spec s_end s); [| reflexivity].
    rewrite drop_ge by (unfold s_end in *; lia). reflexivity.
Qed.

Lemma gsub_loop_exit (replace : replacer) (n : nat) (ms : match_state)
      (s count : Z) (last : option Z) (out : list Z) :
  (s <=? s_end) && negb (count =? 0) = false ->
  gsub_loop replace n ms s count last out
  = Ok (out ++ subrange (copy_from last) s_end).
Proof. intros H. destruct n; cbn [gsub_loop]; rewrite H; reflexivity. Qed.

Lemma gsub_loop_step (replace : replacer) (n : nat) (ms : match_state)
      (s count : Z) (last : option Z) (out : list Z) :
  (s <=? s_end) && negb (count =? 0) = true ->
  gsub_loop replace (S n) ms s count last out
  = match detail_match ms s p_begin with
    | (Ok (Some e'), ms1) =>
        if ptr_eqb (Some e') last then
          gsub_loop replace n (reprepstate ms1) (s + 1)
                    (if anchor then 0 else count) last out
        else
          match replace ms1 s e' (out ++ subrange (copy_from last) s) with
          | (Ok out1, ms2) =>
              gsub_loop replace n (reprepstate ms2) e'
                        ((if anchor then 0 else count) - 1) (Some e') out1
          | (Throw err, _) => Throw err
          | (Undefined, _) => Undefined
          | (OutOfFuel, _) => OutOfFuel
          end
    | (Ok None, ms1) =>
        gsub_loop replace n (reprepstate ms1) (s + 1)
                  (if anchor then 0 else count) last out
    | (Throw err, _) => Throw err
    | (Undefined, _) => Undefined
    | (OutOfFuel, _) => OutOfFuel
    end.
Proof.
  intros H. cbn [gsub_loop]. rewrite H.
  destruct (detail_match ms s p_begin) as [[[e |] | err | | ] ms1]; reflexivity.
Qed.

(** The empty match at [s] is the one that ended the previous match. *)
Definition blocked (s : Z) (last : option Z) : bool :=
  (p_end =? 0) && ptr_eqb (Some s) last.

Lemma reprep_clean (ms : match_state) :
  mr ms = mr clean -> mr (reprepstate ms) = mr clean.
Proof.
  intros H. unfold reprepstate, set_pos, set_level. simpl. rewrite H. reflexivity.
Qed.

Lemma blocked_spec (s : Z) (last : option Z) :
  blocked s last = true <-> p_end = 0 /\ last = Some s.
Proof.
  unfold blocked. rewrite andb_true_iff, Z.eqb_eq.
  destruct last as [l |]; simpl; [rewrite Z.eqb_eq |]; split; intros [H1 H2];
    split; try assumption; try congruence; discriminate.
Qed.

Lemma plain_replacer (t : list Z) (ms : match_state) (s e : Z) (out : list Z) :
  mr ms = mr clean ->
  template_replacer (escape_percent t) ms s e out = (Ok (out ++ t), ms).
Proof.
  intros Hmr. unfold template_replacer, check_captures, has_unfinished,
    ms_level, ms_captures. rewrite Hmr. simpl. apply expand_template_escaped.
Qed.

Lemma gsub_loop_plain (t : list Z) (m : nat) :
  plain_pattern = true ->
  forall (ms : match_state) (s count : Z) (last : option Z) (out : list Z) (n : nat),
    mr ms = mr clean -> matchdepth ms = MAXCCALLS ->
    0 <= copy_from last <= s -> copy_from last <= s_end -> s <= s_end + 1 ->
    2 * (s_end + 1 - s) - (if blocked s last then 1 else 0) <= Z.of_nat m ->
    s_end + 1 - s - (if blocked s last then 1 else 0) <= Z.of_nat n ->
    gsub_loop (template_replacer (escape_percent t)) m ms s count last out
    = Ok (out ++
          if blocked s last
          then (if s <? s_end
                then unit_at subject s :: replace_from n t (s + 1) count
                else [])
          else subrange (copy_from last) s ++ replace_from n t s count).
Proof.
  intros Hplain. destruct (plain_not_anchored Hplain) as [Ha _].
  induction m as [| m IH]; intros ms s count last out n Hmr Hd Hcf Hcf2 Hs Hm Hn.
  all: destruct (Z.leb_spec s s_end) as [Hin | Hout].
  all: try (destruct (blocked s last); lia).
  all: try (assert (s = s_end + 1) as -> by lia;
    rewrite gsub_loop_exit
      by (destruct (Z.leb_spec (s_end + 1) s_end); [lia | reflexivity]);
    assert (Hb : blocked (s_end + 1) last = false)
      by (destruct (blocked (s_end + 1) last) eqn:Hb; [| reflexivity];
          apply blocked_spec in Hb; destruct Hb as [_ ->]; simpl in *; lia);
    rewrite Hb, replace_from_past by lia;
    rewrite app_nil_r, subrange_past by lia; reflexivity).
  destruct (Z.eqb_spec count 0) as [-> | Hcount].
  { rewrite gsub_loop_exit by apply andb_false_r.
    destruct (blocked s last) eqn:Hb.
    - apply blocked_spec in Hb. destruct Hb as [Hempty ->]. cbn [copy_from] in *.
      destruct (Z.ltb_spec s s_end) as [Hlt | Hge].
      + rewrite replace_from_zero by lia.
        rewrite <- drop_subject by lia. rewrite subrange_to_end by lia. reflexivity.
      + assert (s = s_end) as -> by lia. rewrite subrange_nil. reflexivity.
    - rewrite replace_from_zero by lia.
      rewrite subrange_drop by lia. rewrite subrange_to_end by lia. reflexivity. }
  assert (Hcond : (s <=? s_end) && negb (count =? 0) = true).
  { apply andb_true_iff. split; [apply Z.leb_le; exact Hin |].
    apply negb_true_iff, Z.eqb_neq. exact Hcount. }
  rewrite (gsub_loop_step _ m ms s count last out Hcond). rewrite Ha.
  destruct (plain_detail_match ms s Hplain Hd ltac:(lia)) as (ms1 & [Hmr1 Hd1] & ->).
  assert (Hmr2 : mr (reprepstate ms1) = mr clean)
    by (apply reprep_clean; congruence).
  assert (Hd2 : matchdepth (reprepstate ms1) = MAXCCALLS) by (simpl; congruence).
  destruct (is_prefix pattern (drop (Z.to_nat s) subject)) eqn:Hpre.
  - pose proof (is_prefix_length _ _ Hpre) as Hlen. rewrite length_drop in Hlen.
    assert (He : s + p_end <= s_end) by (unfold p_end, s_end in *; lia).
    assert (Hp0 : 0 <= p_end) by (unfold p_end; lia).
    destruct (blocked s last) eqn:Hb.
    + apply blocked_spec in Hb. destruct Hb as [Hempty ->]. cbn [copy_from] in *.
      rewrite Hempty, Z.add_0_r. cbn [ptr_eqb]. rewrite Z.eqb_refl.
      assert (Hb1 : blocked (s + 1) (Some s) = false).
      { destruct (blocked (s + 1) (Some s)) eqn:Hb1; [| reflexivity].
        apply blocked_spec in Hb1. destruct Hb1 as [_ [= Heq]]. lia. }
      rewrite (IH (reprepstate ms1) (s + 1) count (Some s) out n Hmr2 Hd2)
        by (rewrite ?Hb1; cbn [copy_from]; lia).
      rewrite Hb1. cbn [copy_from]. f_equal. f_equal.
      destruct (Z.ltb_spec s s_end) as [Hlt | Hge].
      * rewrite subrange_snoc by lia. rewrite subrange_nil. reflexivity.
      * assert (s = s_end) as -> by lia.
        rewrite subrange_past, subrange_nil by lia.
        rewrite replace_from_past by lia. reflexivity.
    + assert (Hne : ptr_eqb (Some (s + p_end)) last = false).
      { destruct last as [l |]; [| reflexivity]. cbn [ptr_eqb copy_from] in *.
        apply Z.eqb_neq. intros Heq.
        assert (Hblk : blocked s (Some l) = true)
          by (apply blocked_spec; split; [lia | f_equal; lia]).
        congruence. }
      rewrite Hne. rewrite plain_replacer by congruence.
      destruct n as [| n]; [lia |]. cbn [replace_from].
      destruct (Z.ltb_spec s_end s); [lia |].
      destruct (Z.eqb_spec (count) 0); [contradiction |]. rewrite Hpre.
      destruct (Z.eqb_spec p_end 0) as [Hempty | Hfull].
      * rewrite Hempty, Z.add_0_r.
        assert (Hb1 : blocked s (Some s) = true) by (apply blocked_spec; tauto).
        rewrite (IH (reprepstate ms1) s (count - 1) (Some s) _ n Hmr2 Hd2)
          by (rewrite ?Hb1; cbn [copy_from]; lia).
        rewrite Hb1. rewrite <- !app_assoc. reflexivity.
      * assert (Hb1 : blocked (s + p_end) (Some (s + p_end)) = false).
        { destruct (blocked (s + p_end) (Some (s + p_end))) eqn:Hb1; [| reflexivity].
          apply blocked_spec in Hb1. tauto. }
        rewrite (IH (reprepstate ms1) (s + p_end) (count - 1) (Some (s + p_end)) _ n
                    Hmr2 Hd2)
          by (rewrite ?Hb1; cbn [copy_from]; lia).
        rewrite Hb1. cbn [copy_from]. rewrite subrange_nil. cbn [app].
        rewrite <- !app_assoc. reflexivity.
  - assert (Hfull : p_end <> 0).
    { intros Hempty. unfold p_end in Hempty.
      destruct pattern; [discriminate | simpl in Hempty; lia]. }
    assert (Hb : forall q, blocked q last = false).
    { intros q. destruct (blocked q last) eqn:Hb; [| reflexivity].
      apply blocked_spec in Hb. tauto. }
    rewrite Hb in *.
    destruct n as [| n]; [lia |].
    rewrite (IH (reprepstate ms1) (s + 1) count last out n Hmr2 Hd2)
      by (rewrite ?Hb; lia).
    rewrite Hb. cbn [replace_from].
    destruct (Z.ltb_spec s_end s); [lia |].
    destruct (Z.eqb_spec (count) 0); [contradiction |]. rewrite Hpre.
    f_equal. f_equal.
    destruct (Z.ltb_spec s s_end) as [Hlt | Hge].
    + rewrite subrange_snoc by lia. rewrite <- app_assoc. reflexivity.
    + assert (s = s_end) as -> by lia.
      rewrite subrange_past by lia. rewrite replace_from_past by lia. reflexivity.
Qed.

(** With a pattern without special units and a replacement text in which
    every [%] is doubled, [gsub] replaces the occurrences of the pattern
    from left to right, without overlap and at most [count] of them when
    [count] is not negative; the empty pattern occurs once before every
    unit and once at the end. *)
Theorem gsub_plain_replaces_all (t : list Z) (count : Z) :
  plain_pattern = true ->
  gsub (escape_percent t) count = Ok (replace_from (S (length subject)) t 0 count).
Proof.
  intros Hplain. unfold gsub, gsub_with. fold clean.
  rewrite (gsub_loop_plain t _ Hplain clean s_begin count None []
             (S (length subject)) eq_refl eq_refl).
  - unfold blocked. cbn [ptr_eqb]. rewrite andb_false_r.
    cbn [copy_from]. unfold s_begin. rewrite subrange_nil. reflexivity.
  - cbn [copy_from]. unfold s_begin. lia.
  - cbn [copy_from]. unfold s_begin, s_end. lia.
  - unfold s_begin, s_end. lia.
  - unfold blocked. cbn [ptr_eqb]. rewrite andb_false_r. unfold s_begin, s_end. lia.
  - unfold blocked. cbn [ptr_eqb]. rewrite andb_false_r. unfold s_begin, s_end. lia.
Qed.

(** ** The frontier item *)

Lemma log_read_live_eq (ms : match_state) (s : Z) : live_eq ms (log_read ms s).
Proof. repeat split. Qed.

Lemma live_eq_trans (a b c : match_state) : live_eq a b -> live_eq b c -> live_eq a c.
Proof.
  intros (Hl & Hd & Hn & Hc) (Hl' & Hd' & Hn' & Hc').
  split; [congruence |]. split; [congruence |]. split; [congruence |].
  intros i Hi. rewrite Hc' by (rewrite Hl; exact Hi). apply Hc. exact Hi.
Qed.

(** The item [%f] followed by a set, with [ep] the position after the
    set.  Without a set after it the item is the error
    [frontier_no_open_bracket].  Otherwise the item takes no unit of the
    subject: it holds when the unit before [s] (0 at the start of the
    subject) is outside the set and the unit at [s] (the terminator at the
    end of the subject) is inside it, and the matcher then goes on at [ep];
    if it does not hold there is no match from [s]. *)
Theorem frontier_item (ms : match_state) (s p : Z) :
  0 <= s <= s_end -> pat_at p = chr "%" -> pat_at (p + 1) = chr "f" ->
  (pat_at (p + 2) <> chr "[" ->
   match_from ms s p = (Throw frontier_no_open_bracket, ms)) /\
  (forall ep, pat_at (p + 2) = chr "[" -> classend (p + 2) = Ok ep ->
     let previous := if s =? s_begin then 0 else unit_at subject (s - 1) in
     let current := unit_at subject s in
     fst (match_from ms s p)
     = if negb (matchbracketclass previous (p + 2) (ep - 1))
          && matchbracketclass current (p + 2) (ep - 1)
       then fst (match_from ms s ep) else Ok None).
Proof.
  intros Hs Hpc Hf.
  assert (Hdispatch : match_from ms s p = match_frontier match_from ms s (p + 2)).
  { rewrite match_from_unfold. unfold match_body.
    assert (Hp : 0 <= p < p_end).
    { apply pat_at_is with (c := chr "%"); [apply Z.eqb_eq; exact Hpc | discriminate]. }
    destruct (Z.ltb_spec p_end p); [lia |].
    destruct (Z.eqb_spec p p_end); [lia |].
    rewrite Hpc, Hf. reflexivity. }
  rewrite Hdispatch. unfold match_frontier. split.
  - intros Hno. destruct (Z.eqb_spec (pat_at (p + 2)) (chr "[")); [contradiction |].
    reflexivity.
  - intros ep Hbr Hep. cbv zeta.
    set (previous := if s =? s_begin then 0 else unit_at subject (s - 1)).
    set (current := unit_at subject s).
    rewrite Hbr, Hep.
    change (negb (chr "[" =? chr "[")) with false. cbv iota.
    assert (Hgo : forall ms1, live_eq ms ms1 ->
              fst (let '(c, ms2) := read_subject ms1 s in
                   if matchbracketclass c (p + 2) (ep - 1)
                   then match_from ms2 s ep else (Ok None, ms2))
              = if matchbracketclass current (p + 2) (ep - 1)
                then fst (match_from ms s ep) else Ok None).
    { intros ms1 Hlive. unfold read_subject. fold current.
      destruct (matchbracketclass current (p + 2) (ep - 1)); [| reflexivity].
      apply (match_from_respects ms (log_read ms1 s) s ep).
      eapply live_eq_trans; [exact Hlive | apply log_read_live_eq]. }
    subst previous. destruct (s =? s_begin).
    + destruct (matchbracketclass 0 (p + 2) (ep - 1)); cbn [negb andb];
        [reflexivity | apply Hgo, live_eq_refl].
    + unfold read_subject at 1.
      destruct (matchbracketclass (unit_at subject (s - 1)) (p + 2) (ep - 1));
        cbn [negb andb]; [reflexivity | apply Hgo, log_read_live_eq].
Qed.

(** ** The replacement text of [gsub], item by item

    A replacement text written as a sequence of items: units that stand
    for themselves, [%%], [%0] and [%1] to [%9]. *)

Inductive template_item : Type :=
| Lit (c : Z)
| Percent
| Whole
| Group (d : Z).

Definition item_units (i : template_item) : list Z :=
  match i with
  | Lit c => [c]
  | Percent => [chr "%"; chr "%"]
  | Whole => [chr "%"; chr "0"]
  | Group d => [chr "%"; d]
  end.

(** Items that are read back as written: a unit that stands for itself is
    not [%], the digit of a group is one of [1] to [9]. *)
Definition item_plain (i : template_item) : bool :=
  match i with
  | Lit c => negb (c =? chr "%")
  | Group d => in_range (chr "1") (chr "9") d
  | _ => true
  end.

Definition template_units (items : list template_item) : list Z :=
  flat_map item_units items.

Definition decimal_digits (number : Z) : list Z :=
  append_number (Z.to_nat (Z.log2 number)) [] number.

(** What an item stands for, read from the match result [r] as a callback
    would read it: the span for [%0], the capture [d - 1] for [%d], a
    position capture giving its offset counted from 1 in decimal. *)
Definition item_value (r : basic_match_result) (i : template_item) : list Z :=
  match i with
  | Lit c => [c]
  | Percent => [chr "%"]
  | Whole => subrange (fst (pos r)) (snd (pos r))
  | Group d =>
      let k := get_cap (captures r) (d - chr "1") in
      match init k with
      | Some a =>
          if len k =? position then decimal_digits (1 + a)
          else subrange a (a + len k)
      | None => []
      end
  end.

Definition render (items : list template_item) (r : basic_match_result) : list Z :=
  flat_map (item_value r) items.

Lemma append_number_app (n : nat) (str : list Z) (number : Z) :
  append_number n str number = str ++ append_number n [] number.
Proof.
  revert str number. induction n as [| n IH]; intros str number; cbn [append_number].
  - reflexivity.
  - destruct (9 <? number); [| reflexivity].
    rewrite (IH str), (IH []). cbn [app]. rewrite <- app_assoc. reflexivity.
Qed.

Lemma expand_template_lit (c : Z) (rest : list Z) (ms : match_state) (s e : Z)
      (out : list Z) :
  (c =? chr "%") = false ->
  expand_template (c :: rest) ms s e out = expand_template rest ms s e (out ++ [c]).
Proof. intros H. cbn [expand_template]. rewrite H. reflexivity. Qed.

Lemma expand_template_escape (c : Z) (rest : list Z) (ms : match_state) (s e : Z)
      (out : list Z) :
  expand_template (chr "%" :: c :: rest) ms s e out
  = if c =? chr "%" then expand_template rest ms s e (out ++ [c])
    else if c =? chr "0" then expand_template rest ms s e (out ++ subrange s e)
    else if isdigit c then
      let ms := install_whole_match ms s e in
      let cap_index := c - chr "1" in
      if ms_level ms <=? cap_index then (Throw capture_invalid_index, ms)
      else
        let cap := get_cap (ms_captures ms) cap_index in
        match init cap with
        | Some a =>
            if len cap =? position then
              expand_template rest ms s e
                (append_number (Z.to_nat (Z.log2 (1 + a - s_begin))) out
                               (1 + a - s_begin))
            else expand_template rest ms s e (out ++ subrange a (a + len cap))
        | None => (Undefined, ms)
        end
    else (Throw percent_invalid_use_in_replacement, ms).
Proof. reflexivity. Qed.

Lemma install_whole_match_live (ms : match_state) (s e : Z) :
  ms_level ms <> 0 -> install_whole_match ms s e = ms.
Proof.
  intros H. unfold install_whole_match.
  destruct (Z.eqb_spec (ms_level ms) 0); [contradiction | reflexivity].
Qed.

Lemma install_whole_match_level_plain (ms : match_state) (s e : Z) :
  ms_level (install_whole_match ms s e) = if ms_level ms =? 0 then 1 else ms_level ms.
Proof.
  unfold install_whole_match.
  destruct (Z.eqb_spec (ms_level ms) 0) as [Hz | Hnz]; [| reflexivity].
  unfold ms_level in *. simpl. rewrite Hz. reflexivity.
Qed.

Lemma install_whole_match_again (ms : match_state) (s e : Z) :
  install_whole_match (install_whole_match ms s e) s e = install_whole_match ms s e.
Proof.
  apply install_whole_match_live. rewrite install_whole_match_level_plain.
  destruct (Z.eqb_spec (ms_level ms) 0); [discriminate | assumption].
Qed.

(** The expansion of a replacement text that starts with the items
    [items], in a state [m] that becomes [m'] when the whole match is
    installed; [r] is a result that agrees with [m'] below its level. *)
Lemma expand_items (r : basic_match_result) (m' : match_state) (s e : Z)
      (items : list template_item) (rest : list Z) :
  forallb item_plain items = true ->
  pos r = (s, e) -> level r = ms_level m' ->
  install_whole_match m' s e = m' ->
  (forall i, 0 <= i < level r -> get_cap (captures r) i = get_cap (ms_captures m') i) ->
  (forall i, 0 <= i < level r -> init (get_cap (captures r) i) <> None) ->
  forall (m : match_state) (out : list Z),
    install_whole_match m s e = m' ->
    (exists m2, install_whole_match m2 s e = m' /\
       expand_template (template_units items ++ rest) m s e out
       = expand_template rest m2 s e (out ++ render items r)) \/
    (exists d, In (Group d) items /\ level r <= d - chr "1" /\
       fst (expand_template (template_units items ++ rest) m s e out)
       = Throw capture_invalid_index).
Proof.
  intros Hplain Hpos Hlev Hidem Hcaps Hinit.
  induction items as [| i items IH]; intros m out Hm.
  - left. exists m. split; [exact Hm |]. simpl. rewrite app_nil_r. reflexivity.
  - cbn [forallb] in Hplain. apply andb_true_iff in Hplain. destruct Hplain as [Hi Hrest].
    specialize (IH Hrest).
    assert (Hstep : forall v m1,
              install_whole_match m1 s e = m' ->
              item_value r i = v ->
              expand_template (template_units (i :: items) ++ rest) m s e out
              = expand_template (template_units items ++ rest) m1 s e (out ++ v) ->
              (exists m2, install_whole_match m2 s e = m' /\
                 expand_template (template_units (i :: items) ++ rest) m s e out
                 = expand_template rest m2 s e (out ++ render (i :: items) r)) \/
              (exists d, In (Group d) (i :: items) /\ level r <= d - chr "1" /\
                 fst (expand_template (template_units (i :: items) ++ rest) m s e out)
                 = Throw capture_invalid_index)).
    { intros v m1 Hm1 Hv Heq. rewrite Heq.
      destruct (IH m1 (out ++ v) Hm1) as [(m2 & Hm2 & Hok) | (d & Hd & Hbad & Hthrow)].
      - left. exists m2. split; [exact Hm2 |]. rewrite Hok.
        unfold render. cbn [flat_map]. rewrite Hv, app_assoc. reflexivity.
      - right. exists d. split; [right; exact Hd |]. split; assumption. }
    assert (Hcons : template_units (i :: items) ++ rest
                    = item_units i ++ template_units items ++ rest).
    { unfold template_units. cbn [flat_map]. rewrite <- app_assoc. reflexivity. }
    destruct i as [c | | | d]; cbn [item_plain] in Hi.
    + apply negb_true_iff in Hi.
      apply (Hstep [c] m Hm eq_refl). rewrite Hcons. cbn [item_units app].
      apply expand_template_lit. exact Hi.
    + apply (Hstep [chr "%"] m Hm eq_refl). rewrite Hcons. cbn [item_units app].
      rewrite expand_template_escape. reflexivity.
    + apply (Hstep (subrange s e) m Hm).
      { cbn [item_value]. rewrite Hpos. reflexivity. }
      rewrite Hcons. cbn [item_units app].
      rewrite expand_template_escape. reflexivity.
    + unfold in_range in Hi. apply andb_true_iff in Hi. destruct Hi as [Hlo Hhi].
      apply Z.leb_le in Hlo, Hhi.
      change (chr "1") with 49 in *. change (chr "9") with 57 in *.
      assert (Hexp : expand_template (chr "%" :: d :: template_units items ++ rest)
                       m s e out
                = if ms_level m' <=? d - 49 then (Throw capture_invalid_index, m')
                  else match init (get_cap (ms_captures m') (d - 49)) with
                       | Some a =>
                           if len (get_cap (ms_captures m') (d - 49)) =? position then
                             expand_template (template_units items ++ rest) m' s e
                               (append_number (Z.to_nat (Z.log2 (1 + a - s_begin))) out
                                              (1 + a - s_begin))
                           else expand_template (template_units items ++ rest) m' s e
                                  (out ++ subrange a
                                     (a + len (get_cap (ms_captures m') (d - 49))))
                       | None => (Undefined, m')
                       end).
      { rewrite expand_template_escape.
        change (chr "%") with 37. change (chr "0") with 48. change (chr "1") with 49.
        destruct (Z.eqb_spec d 37); [lia |].
        destruct (Z.eqb_spec d 48); [lia |].
        unfold isdigit, in_range.
        destruct (Z.leb_spec 48 d); [| lia]. destruct (Z.leb_spec d 57); [| lia].
        cbn [andb]. cbv zeta. rewrite Hm. reflexivity. }
      destruct (Z.leb_spec (ms_level m') (d - 49)) as [Hbad | Hgood].
      * right. exists d. split; [left; reflexivity |]. split; [lia |].
        rewrite Hcons. cbn [item_units app]. rewrite Hexp. reflexivity.
      * assert (Hk : get_cap (captures r) (d - 49) = get_cap (ms_captures m') (d - 49))
          by (apply Hcaps; lia).
        assert (Hsome : init (get_cap (captures r) (d - 49)) <> None)
          by (apply Hinit; lia).
        destruct (init (get_cap (captures r) (d - 49))) as [a |] eqn:Ha; [| congruence].
        apply (Hstep (item_value r (Group d)) m' Hidem eq_refl).
        rewrite Hcons. cbn [item_units app].
        rewrite Hexp. cbn [item_value]. change (chr "1") with 49.
        rewrite Ha. rewrite <- Hk, Ha.
        destruct (len (get_cap (captures r) (d - 49)) =? position); [| reflexivity].
        unfold s_begin, decimal_digits. rewrite Z.sub_0_r.
        rewrite append_number_app. reflexivity.
Qed.

Lemma has_unfinished_live (ms ms' : match_state) :
  live_eq ms ms' -> has_unfinished ms' = has_unfinished ms.
Proof.
  intros (Hl & _ & _ & Hc). unfold has_unfinished. rewrite Hl. f_equal.
  apply list_eq. intros i.
  destruct (Nat.lt_ge_cases i (Z.to_nat (ms_level ms))) as [Hlt | Hge].
  - rewrite !lookup_take_lt by exact Hlt. apply Hc. lia.
  - rewrite !lookup_take_ge by exact Hge. reflexivity.
Qed.

Lemma install_whole_match_captures_plain (ms : match_state) (s e : Z) :
  ms_captures (install_whole_match ms s e)
  = if ms_level ms =? 0
    then ms_captures (set_cap_len (set_cap_init ms 0 (Some s)) 0 (e - s))
    else ms_captures ms.
Proof.
  unfold install_whole_match.
  destruct (Z.eqb_spec (ms_level ms) 0) as [Hz | Hnz]; [| reflexivity].
  rewrite Hz. reflexivity.
Qed.

Lemma reset_both (ma mb : match_state) : reset ma -> reset mb -> live_eq mb ma.
Proof.
  intros [(Hla & _ & [Hlena _]) Hda] [(Hlb & _ & [Hlenb _]) Hdb].
  split; [congruence |]. split; [congruence |]. split; [congruence |].
  intros i Hi. lia.
Qed.

(** The expansion in the state [ma] left by an attempt that matched
    [s, e), with the result that [on_success] makes of a state [mb] that
    agrees with [ma] below the level. *)
Lemma expand_items_on_success (items : list template_item) (rest : list Z)
      (ma mb mb' : match_state) (s e : Z) (out : list Z) :
  forallb item_plain items = true ->
  live_eq mb ma ->
  slots_ok (ms_captures ma) -> slots_ok (ms_captures mb) ->
  spans_ok s mb e -> 0 <= ms_level mb ->
  on_success mb s e = (Ok tt, mb') ->
  template_replacer (template_units items ++ rest) ma s e out
  = expand_template (template_units items ++ rest) ma s e out /\
  level (mr mb') = ms_level (install_whole_match ma s e) /\
  ((exists m2, install_whole_match m2 s e = install_whole_match ma s e /\
      expand_template (template_units items ++ rest) ma s e out
      = expand_template rest m2 s e (out ++ render items (mr mb'))) \/
   (exists d, In (Group d) items /\ level (mr mb') <= d - chr "1" /\
      fst (expand_template (template_units items ++ rest) ma s e out)
      = Throw capture_invalid_index)).
Proof.
  intros Hplain Hlive Hsa Hsb Hspb Hlb Hok.
  pose proof (has_unfinished_live mb ma Hlive) as Hun.
  unfold on_success, check_captures in Hok. unfold template_replacer, check_captures.
  rewrite Hun. destruct (has_unfinished mb); [discriminate |].
  injection Hok as <-. split; [reflexivity |].
  set (r := mr (install_whole_match (set_pos mb (s - s_begin, e - s_begin)) s e)).
  destruct Hlive as (Hl & Hd & Hn & Hc).
  assert (Hlevr : level r = if ms_level mb =? 0 then 1 else ms_level mb)
    by apply install_whole_match_level.
  assert (Hcapr : captures r
                  = if ms_level mb =? 0
                    then ms_captures (set_cap_len (set_cap_init mb 0 (Some s)) 0 (e - s))
                    else ms_captures mb)
    by apply install_whole_match_captures.
  assert (Hlev : level r = ms_level (install_whole_match ma s e))
    by (rewrite Hlevr, install_whole_match_level_plain, Hl; reflexivity).
  split; [exact Hlev |].
  apply (expand_items r (install_whole_match ma s e) s e items rest Hplain).
  - subst r. rewrite install_whole_match_pos. unfold s_begin. f_equal; lia.
  - exact Hlev.
  - apply install_whole_match_again.
  - intros i Hi. rewrite Hcapr, install_whole_match_captures_plain, Hl.
    rewrite Hlevr in Hi.
    destruct (Z.eqb_spec (ms_level mb) 0) as [Hz | Hnz].
    + assert (i = 0) as -> by lia. rewrite !get_cap_whole_match by assumption.
      reflexivity.
    + symmetry. unfold get_cap. rewrite Hc by lia. reflexivity.
  - intros i Hi. rewrite Hcapr. rewrite Hlevr in Hi.
    destruct (Z.eqb_spec (ms_level mb) 0) as [Hz | Hnz].
    + assert (i = 0) as -> by lia. rewrite get_cap_whole_match by assumption.
      discriminate.
    + destruct (Hspb (Z.to_nat i)) as (a & Ha & _); [lia |].
      rewrite Z2Nat.id in Ha by lia. rewrite Ha. discriminate.
  - reflexivity.
Qed.

(** The rendering of the items with the test that the text variant makes
    for each group, from left to right: a group [%d] whose slot [d - 1] is
    at or beyond the number of captures of the result is the error
    [capture_invalid_index]. *)
Fixpoint render_checked (items : list template_item) (r : basic_match_result)
  : result (list Z) :=
  match items with
  | [] => Ok []
  | i :: items' =>
      if match i with Group d => size r <=? d - chr "1" | _ => false end
      then Throw capture_invalid_index
      else match render_checked items' r with
           | Ok t => Ok (item_value r i ++ t)
           | other => other
           end
  end.

(** The callback variant (lines 1099-1153) for a callback that may throw:
    an error of [func( mr )] leaves [gsub]. *)
Definition throwing_callback_replacer
           (func : basic_match_result -> result (list Z)) : replacer :=
  fun ms s e out =>
    match on_success ms s e with
    | (Ok _, ms) =>
        match func (mr ms) with
        | Ok t => (Ok (out ++ t), ms)
        | Throw err => (Throw err, ms)
        | Undefined => (Undefined, ms)
        | OutOfFuel => (OutOfFuel, ms)
        end
    | (Throw err, ms) => (Throw err, ms)
    | (Undefined, ms) => (Undefined, ms)
    | (OutOfFuel, ms) => (OutOfFuel, ms)
    end.

Definition gsub_callback_throwing (func : basic_match_result -> result (list Z))
           (count : Z) : result (list Z) :=
  gsub_with (throwing_callback_replacer func) count.

Lemma gsub_loop_ext (r1 r2 : replacer) :
  (forall ms s e out, r1 ms s e out = r2 ms s e out) ->
  forall n ms s count last out,
    gsub_loop r1 n ms s count last out = gsub_loop r2 n ms s count last out.
Proof.
  intros Hext. induction n as [| n IH]; intros ms s count last out; cbn [gsub_loop].
  - reflexivity.
  - destruct ((s <=? s_end) && negb (count =? 0)); [| reflexivity].
    destruct (detail_match ms s p_begin) as [[[e |] | err | | ] ms1]; try reflexivity.
    + destruct (ptr_eqb (Some e) last); [apply IH |].
      rewrite Hext.
      destruct (r2 ms1 s e (out ++ subrange (copy_from last) s)) as [[o | er | | ] m2];
        try reflexivity.
      apply IH.
    + apply IH.
Qed.

(** A callback that does not throw is the callback of the source. *)
Lemma throwing_callback_pure (func : basic_match_result -> list Z) (count : Z) :
  gsub_callback_throwing (fun r => Ok (func r)) count = gsub_callback func count.
Proof.
  unfold gsub_callback_throwing, gsub_callback, gsub_with. apply gsub_loop_ext.
  intros ms s e out. unfold throwing_callback_replacer, callback_replacer.
  destruct (on_success ms s e) as [[[] | err | | ] ms1]; reflexivity.
Qed.

Lemma render_checked_valid (items : list template_item) (r : basic_match_result) :
  (forall d, In (Group d) items -> d - chr "1" < size r) ->
  render_checked items r = Ok (render items r).
Proof.
  induction items as [| i items IH]; intros Hvalid; [reflexivity |].
  cbn [render_checked]. rewrite IH by (intros d Hd; apply Hvalid; right; exact Hd).
  destruct i as [c | | | d]; try reflexivity.
  destruct (Z.leb_spec (size r) (d - chr "1")) as [Hbad | _]; [| reflexivity].
  specialize (Hvalid d (or_introl eq_refl)). lia.
Qed.

Lemma render_checked_invalid (items : list template_item) (r : basic_match_result)
      (d : Z) :
  In (Group d) items -> size r <= d - chr "1" ->
  render_checked items r = Throw capture_invalid_index.
Proof.
  induction items as [| i items IH]; intros Hin Hbad; [destruct Hin |].
  cbn [render_checked].
  destruct (match i with Group d0 => size r <=? d0 - chr "1" | _ => false end) eqn:Hi;
    [reflexivity |].
  destruct Hin as [-> | Hin].
  - apply Z.leb_gt in Hi. lia.
  - rewrite (IH Hin Hbad). reflexivity.
Qed.

(** The expansion of a replacement text that starts with the items
    [items] is their checked rendering. *)
Lemma expand_items_checked (r : basic_match_result) (m' : match_state) (s e : Z)
      (items : list template_item) (rest : list Z) :
  forallb item_plain items = true ->
  pos r = (s, e) -> level r = ms_level m' ->
  install_whole_match m' s e = m' ->
  (forall i, 0 <= i < level r -> get_cap (captures r) i = get_cap (ms_captures m') i) ->
  (forall i, 0 <= i < level r -> init (get_cap (captures r) i) <> None) ->
  forall (m : match_state) (out : list Z),
    install_whole_match m s e = m' ->
    match render_checked items r with
    | Ok t =>
        exists m2, install_whole_match m2 s e = m' /\
          expand_template (template_units items ++ rest) m s e out
          = expand_template rest m2 s e (out ++ t)
    | Throw err =>
        fst (expand_template (template_units items ++ rest) m s e out) = Throw err
    | Undefined => False
    | OutOfFuel => False
    end.
Proof.
  intros Hplain Hpos Hlev Hidem Hcaps Hinit.
  induction items as [| i items IH]; intros m out Hm.
  - cbn [render_checked]. exists m. split; [exact Hm |]. simpl.
    rewrite app_nil_r. reflexivity.
  - cbn [forallb] in Hplain. apply andb_true_iff in Hplain. destruct Hplain as [Hi Hrest].
    specialize (IH Hrest).
    assert (Hcons : template_units (i :: items) ++ rest
                    = item_units i ++ template_units items ++ rest).
    { unfold template_units. cbn [flat_map]. rewrite <- app_assoc. reflexivity. }
    assert (Hstep : forall m1,
              install_whole_match m1 s e = m' ->
              expand_template (template_units (i :: items) ++ rest) m s e out
              = expand_template (template_units items ++ rest) m1 s e
                  (out ++ item_value r i) ->
              match match render_checked items r with
                    | Ok t => Ok (item_value r i ++ t)
                    | other => other
                    end with
              | Ok t =>
                  exists m2, install_whole_match m2 s e = m' /\
                    expand_template (template_units (i :: items) ++ rest) m s e out
                    = expand_template rest m2 s e (out ++ t)
              | Throw err =>
                  fst (expand_template (template_units (i :: items) ++ rest) m s e out)
                  = Throw err
              | Undefined => False
              | OutOfFuel => False
              end).
    { intros m1 Hm1 Heq. rewrite Heq.
      specialize (IH m1 (out ++ item_value r i) Hm1).
      destruct (render_checked items r) as [t | err | | ]; try exact IH.
      destruct IH as (m2 & Hm2 & Hok). exists m2. split; [exact Hm2 |].
      rewrite Hok, app_assoc. reflexivity. }
    destruct i as [c | | | d]; cbn [item_plain] in Hi; cbn [render_checked].
    + apply negb_true_iff in Hi. apply (Hstep m Hm).
      rewrite Hcons. cbn [item_units app item_value].
      apply expand_template_lit. exact Hi.
    + apply (Hstep m Hm). rewrite Hcons. cbn [item_units app item_value].
      rewrite expand_template_escape. reflexivity.
    + apply (Hstep m Hm). rewrite Hcons. cbn [item_units app item_value].
      rewrite expand_template_escape, Hpos. reflexivity.
    + unfold in_range in Hi. apply andb_true_iff in Hi. destruct Hi as [Hlo Hhi].
      apply Z.leb_le in Hlo, Hhi.
      change (chr "1") with 49 in *. change (chr "9") with 57 in *.
      assert (Hexp : expand_template (chr "%" :: d :: template_units items ++ rest)
                       m s e out
                = if ms_level m' <=? d - 49 then (Throw capture_invalid_index, m')
                  else match init (get_cap (ms_captures m') (d - 49)) with
                       | Some a =>
                           if len (get_cap (ms_captures m') (d - 49)) =? position then
                             expand_template (template_units items ++ rest) m' s e
                               (append_number (Z.to_nat (Z.log2 (1 + a - s_begin))) out
                                              (1 + a - s_begin))
                           else expand_template (template_units items ++ rest) m' s e
                                  (out ++ subrange a
                                     (a + len (get_cap (ms_captures m') (d - 49))))
                       | None => (Undefined, m')
                       end).
      { rewrite expand_template_escape.
        change (chr "%") with 37. change (chr "0") with 48. change (chr "1") with 49.
        destruct (Z.eqb_spec d 37); [lia |].
        destruct (Z.eqb_spec d 48); [lia |].
        unfold isdigit, in_range.
        destruct (Z.leb_spec 48 d); [| lia]. destruct (Z.leb_spec d 57); [| lia].
        cbn [andb]. cbv zeta. rewrite Hm. reflexivity. }
      unfold size. rewrite Hlev.
      destruct (Z.leb_spec (ms_level m') (d - 49)) as [Hbad | Hgood].
      * rewrite Hcons. cbn [item_units app]. rewrite Hexp.
        destruct (Z.leb_spec (ms_level m') (d - 49)); [reflexivity | lia].
      * assert (Hk : get_cap (captures r) (d - 49) = get_cap (ms_captures m') (d - 49))
          by (apply Hcaps; lia).
        assert (Hsome : init (get_cap (captures r) (d - 49)) <> None)
          by (apply Hinit; lia).
        destruct (init (get_cap (captures r) (d - 49))) as [a |] eqn:Ha; [| congruence].
        apply (Hstep m' Hidem).
        rewrite Hcons. cbn [item_units app].
        rewrite Hexp. destruct (Z.leb_spec (ms_level m') (d - 49)); [lia |].
        cbn [item_value]. change (chr "1") with 49.
        rewrite Ha. rewrite <- Hk, Ha.
        destruct (len (get_cap (captures r) (d - 49)) =? position); [| reflexivity].
        unfold s_begin, decimal_digits. rewrite Z.sub_0_r.
        rewrite append_number_app. reflexivity.
Qed.

(** The two replacers on the same match [s, e), started on states that
    agree below the level: the text variant appends, or throws, what the
    callback variant does for the function [render_checked items]. *)
Lemma template_callback_replacers (items : list template_item)
      (ma mb : match_state) (s e : Z) (out : list Z) :
  forallb item_plain items = true ->
  live_eq mb ma ->
  0 <= ms_level ma <= MAXCAPTURES -> 0 <= ms_level mb <= MAXCAPTURES ->
  slots_ok (ms_captures ma) -> slots_ok (ms_captures mb) ->
  spans_ok s ma e -> spans_ok s mb e -> s <= e ->
  match throwing_callback_replacer (render_checked items) mb s e out with
  | (Ok out', mb') =>
      slots_ok (ms_captures mb') /\ matchdepth mb' = matchdepth mb /\
      exists ma', template_replacer (template_units items) ma s e out = (Ok out', ma') /\
                  slots_ok (ms_captures ma') /\ matchdepth ma' = matchdepth ma
  | (Throw err, _) =>
      fst (template_replacer (template_units items) ma s e out) = Throw err
  | (Undefined, _) => False
  | (OutOfFuel, _) => False
  end.
Proof.
  intros Hplain Hlive Hla Hlb Hsa Hsb Hspa Hspb Hse.
  pose proof (expand_template_ok (template_units items) ma s e out Hsa Hse) as [_ Hslots'].
  pose proof (expand_template_safe (template_units items) ma s e out Hla Hsa Hspa Hse)
    as [_ Hdepth'].
  pose proof (has_unfinished_live mb ma Hlive) as Hun.
  unfold throwing_callback_replacer.
  destruct (on_success mb s e) as [[[] | err | | ] mb'] eqn:Hok.
  - pose proof (on_success_reported mb mb' s e Hlb Hsb Hspb Hse Hok) as (_ & Hsb' & Hdb').
    assert (Hrep : template_replacer (template_units items) ma s e out
                   = expand_template (template_units items) ma s e out).
    { unfold on_success, check_captures in Hok. unfold template_replacer, check_captures.
      rewrite Hun. destruct (has_unfinished mb); [discriminate | reflexivity]. }
    assert (Hmb' : mb' = install_whole_match (set_pos mb (s - s_begin, e - s_begin)) s e).
    { unfold on_success, check_captures in Hok.
      destruct (has_unfinished mb); [discriminate |]. injection Hok as <-. reflexivity. }
    destruct Hlive as (Hl & Hd & Hn & Hc).
    assert (Hlevr : level (mr mb') = if ms_level mb =? 0 then 1 else ms_level mb)
      by (rewrite Hmb'; apply install_whole_match_level).
    assert (Hcapr : captures (mr mb')
                    = if ms_level mb =? 0
                      then ms_captures (set_cap_len (set_cap_init mb 0 (Some s)) 0 (e - s))
                      else ms_captures mb)
      by (rewrite Hmb'; apply install_whole_match_captures).
    pose proof (expand_items_checked (mr mb') (install_whole_match ma s e) s e items []
                  Hplain) as Hexp.
    rewrite app_nil_r in Hexp.
    specialize (Hexp ltac:(rewrite Hmb', install_whole_match_pos; unfold s_begin;
                           f_equal; lia)).
    specialize (Hexp ltac:(rewrite Hlevr, install_whole_match_level_plain, Hl;
                           reflexivity)).
    specialize (Hexp (install_whole_match_again ma s e)).
    assert (H1 : forall i, 0 <= i < level (mr mb') ->
              get_cap (captures (mr mb')) i
              = get_cap (ms_captures (install_whole_match ma s e)) i).
    { intros i Hi. rewrite Hcapr, install_whole_match_captures_plain, Hl.
      rewrite Hlevr in Hi.
      destruct (Z.eqb_spec (ms_level mb) 0) as [Hz | Hnz].
      - assert (i = 0) as -> by lia. rewrite !get_cap_whole_match by assumption.
        reflexivity.
      - symmetry. unfold get_cap. rewrite Hc by lia. reflexivity. }
    assert (H2 : forall i, 0 <= i < level (mr mb') ->
              init (get_cap (captures (mr mb')) i) <> None).
    { intros i Hi. rewrite Hcapr. rewrite Hlevr in Hi.
      destruct (Z.eqb_spec (ms_level mb) 0) as [Hz | Hnz].
      - assert (i = 0) as -> by lia. rewrite get_cap_whole_match by assumption.
        discriminate.
      - destruct (Hspb (Z.to_nat i)) as (a & Ha & _); [lia |].
        rewrite Z2Nat.id in Ha by lia. rewrite Ha. discriminate. }
    specialize (Hexp H1 H2 ma out eq_refl).
    destruct (render_checked items (mr mb')) as [t | err | | ]; try contradiction.
    + destruct Hexp as (m2 & _ & Hexp). cbn [expand_template] in Hexp.
      split; [exact Hsb' |]. split; [exact Hdb' |].
      exists m2. rewrite Hrep, Hexp in *. cbn [snd] in *.
      split; [reflexivity |]. split; assumption.
    + rewrite Hrep. exact Hexp.
  - unfold on_success, check_captures in Hok. unfold template_replacer, check_captures.
    rewrite Hun. destruct (has_unfinished mb); [| discriminate].
    injection Hok as <- <-. reflexivity.
  - unfold on_success, check_captures in Hok.
    destruct (has_unfinished mb); discriminate.
  - unfold on_success, check_captures in Hok.
    destruct (has_unfinished mb); discriminate.
Qed.

Lemma gsub_loop_template_callback (items : list template_item) (n : nat) :
  forallb item_plain items = true ->
  forall (ma mb : match_state) (s count : Z) (last : option Z) (out : list Z),
    reset ma -> reset mb -> 0 <= s ->
    gsub_loop (template_replacer (template_units items)) n ma s count last out
    = gsub_loop (throwing_callback_replacer (render_checked items)) n mb s count last out.
Proof.
  intros Hplain. induction n as [| n IH]; intros ma mb s count last out Hra Hrb Hs.
  all: destruct ((s <=? s_end) && negb (count =? 0)) eqn:Hcond;
    [| rewrite !gsub_loop_exit by exact Hcond; reflexivity].
  { cbn [gsub_loop]. rewrite Hcond. reflexivity. }
  rewrite !(gsub_loop_step _ n _ s count last out Hcond).
  assert (Hin : 0 <= s <= s_end).
  { apply andb_true_iff in Hcond. destruct Hcond as [Hle _]. apply Z.leb_le in Hle. lia. }
  pose proof (attempt_state ma s Hra Hin)
    as (Hda & _ & Hsa & Hla & _ & Hsomea & _).
  pose proof (attempt_state mb s Hrb Hin)
    as (Hdb & _ & Hsb & Hlb & _ & Hsomeb & _).
  destruct (detail_match_respects mb ma s p_begin (reset_both ma mb Hra Hrb))
    as [Hfst Hlive].
  destruct (detail_match ma s p_begin) as [oa ma1].
  destruct (detail_match mb s p_begin) as [ob mb1].
  cbn [fst snd] in *. subst oa.
  destruct ob as [[e |] | err | | ]; try reflexivity.
  - destruct (Hsomea e eq_refl) as [Hea Hspa].
    destruct (Hsomeb e eq_refl) as [Heb Hspb].
    destruct (ptr_eqb (Some e) last).
    + apply IH; [apply reset_reprep | apply reset_reprep | lia]; assumption.
    + pose proof (template_callback_replacers items ma1 mb1 s e
                    (out ++ subrange (copy_from last) s) Hplain Hlive Hla Hlb Hsa Hsb
                    Hspa Hspb (proj1 Hea)) as Hstep.
      destruct (throwing_callback_replacer (render_checked items) mb1 s e
                  (out ++ subrange (copy_from last) s)) as [[out' | err | | ] mb2];
        try contradiction.
      * destruct Hstep as (Hsb2 & Hdb2 & ma2 & Ht & Hsa2 & Hda2).
        rewrite Ht.
        apply IH; [apply reset_reprep | apply reset_reprep | lia];
          try assumption; congruence.
      * destruct (template_replacer (template_units items) ma1 s e
                    (out ++ subrange (copy_from last) s)) as [[o | er | | ] m];
          cbn [fst] in Hstep; try discriminate.
        injection Hstep as ->. reflexivity.
  - apply IH; [apply reset_reprep | apply reset_reprep | lia]; assumption.
Qed.

(** Substitution by a replacement text is substitution by the callback
    that renders the items of the text from the match result it is given,
    with the test the text variant makes: [%%] is a percent sign, [%0] the
    match, [%d] the capture [d - 1] (for a pattern without captures [%1]
    is the match again), a position capture giving its offset counted from
    1, and a group whose slot is at or beyond the captures of the match it
    is expanded for is the error [capture_invalid_index].  The two calls
    return the same string or signal the same error.  When every group of
    the text is below the captures of a result the rendering for it is the
    plain one, when one is not it is the error, and a text without groups
    is the callback variant of the source for the plain rendering; a
    callback that never throws is the callback of the source. *)
Theorem template_is_callback (items : list template_item) (count : Z) :
  forallb item_plain items = true ->
  gsub (template_units items) count
  = gsub_callback_throwing (render_checked items) count /\
  (forall r, (forall d, In (Group d) items -> d - chr "1" < size r) ->
             render_checked items r = Ok (render items r)) /\
  (forall r d, In (Group d) items -> size r <= d - chr "1" ->
               render_checked items r = Throw capture_invalid_index) /\
  ((forall d, ~ In (Group d) items) ->
   gsub (template_units items) count = gsub_callback (render items) count) /\
  (forall func, gsub_callback_throwing (fun r => Ok (func r)) count
                = gsub_callback func count).
Proof.
  intros Hplain.
  assert (Hmain : gsub (template_units items) count
                  = gsub_callback_throwing (render_checked items) count).
  { unfold gsub, gsub_callback_throwing, gsub_with.
    apply gsub_loop_template_callback;
      [exact Hplain | apply reset_clean | apply reset_clean | unfold s_begin; lia]. }
  split; [exact Hmain |].
  split; [intros r; apply render_checked_valid |].
  split; [intros r d; apply render_checked_invalid |].
  split; [| intros func; apply throwing_callback_pure].
  intros Hnone. rewrite Hmain, <- throwing_callback_pure.
  unfold gsub_callback_throwing, gsub_with. apply gsub_loop_ext.
  intros ms s e out. unfold throwing_callback_replacer.
  destruct (on_success ms s e) as [[[] | err | | ] ms1]; try reflexivity.
  rewrite render_checked_valid; [reflexivity |].
  intros d Hd. destruct (Hnone d Hd).
Qed.

(** The first replacement of a substitution: when the search finds a
    match, the substitution loop reaches the same attempt and calls the
    replacer in the state that attempt left. *)
Lemma first_replacement (n : nat) (ms ms' : match_state) (s : Z) :
  reset ms -> 0 <= s -> s + Z.of_nat n <= s_end + 1 ->
  search_loop n ms s = (Ok tt, ms') -> 0 < ms_level ms' ->
  exists ms1 s1 e1,
    on_success ms1 s1 e1 = (Ok tt, ms') /\
    slots_ok (ms_captures ms1) /\ 0 <= ms_level ms1 <= MAXCAPTURES /\
    spans_ok s1 ms1 e1 /\ s1 <= e1 /\
    forall (replace : replacer) (m : nat) (count : Z) (out : list Z) (err : error_type),
      (n <= m)%nat -> count <> 0 ->
      fst (replace ms1 s1 e1 (out ++ subrange 0 s1)) = Throw err ->
      gsub_loop replace m ms s count None out = Throw err.
Proof.
  revert ms s. induction n as [| n IH]; intros ms s Hreset Hs Hn.
  { cbn [search_loop]. intros [= <-] Hpos. destruct Hreset as [(Hl & _) _]. lia. }
  rewrite search_loop_S.
  pose proof (attempt_state ms s Hreset ltac:(lia))
    as (Hdepth & _ & Hslots & Hlev & Hnone & Hsome & _).
  assert (Hstep : forall replace m count out, count <> 0 ->
            gsub_loop replace (S m) ms s count None out
            = match detail_match ms s p_begin with
              | (Ok (Some e'), ms1) =>
                  match replace ms1 s e' (out ++ subrange 0 s) with
                  | (Ok out1, ms2) =>
                      gsub_loop replace m (reprepstate ms2) e'
                                ((if anchor then 0 else count) - 1) (Some e') out1
                  | (Throw err, _) => Throw err
                  | (Undefined, _) => Undefined
                  | (OutOfFuel, _) => OutOfFuel
                  end
              | (Ok None, ms1) =>
                  gsub_loop replace m (reprepstate ms1) (s + 1)
                            (if anchor then 0 else count) None out
              | (Throw err, _) => Throw err
              | (Undefined, _) => Undefined
              | (OutOfFuel, _) => OutOfFuel
              end).
  { intros replace m count out Hcount. rewrite gsub_loop_step.
    - destruct (detail_match ms s p_begin) as [[[e |] | err | | ] ms1]; reflexivity.
    - apply andb_true_iff. split; [apply Z.leb_le; lia |].
      apply negb_true_iff, Z.eqb_neq. exact Hcount. }
  destruct (detail_match ms s p_begin) as [[[e |] | err | | ] ms1];
    cbn [fst snd] in *; try discriminate.
  - intros Hok Hpos. destruct (Hsome e eq_refl) as [He Hsp].
    exists ms1, s, e. split; [exact Hok |]. split; [exact Hslots |].
    split; [exact Hlev |]. split; [exact Hsp |]. split; [lia |].
    intros replace m count out err Hm Hcount Hthrow.
    destruct m as [| m]; [lia |]. rewrite Hstep by exact Hcount.
    destruct (replace ms1 s e (out ++ subrange 0 s)) as [[o | er | | ] m2];
      cbn [fst] in Hthrow; try discriminate.
    injection Hthrow as ->. reflexivity.
  - destruct anchor eqn:Ha.
    { intros [= <-] Hpos. rewrite (Hnone eq_refl) in Hpos. lia. }
    intros Hrest Hpos.
    destruct (IH (reprepstate ms1) (s + 1) (reset_reprep ms1 Hslots Hdepth)
                 ltac:(lia) ltac:(lia) Hrest Hpos)
      as (ms2 & s1 & e1 & Hok & H1 & H2 & H3 & H4 & Hthrow).
    exists ms2, s1, e1. split; [exact Hok |]. split; [exact H1 |].
    split; [exact H2 |]. split; [exact H3 |]. split; [exact H4 |].
    intros replace m count out err Hm Hcount Herr.
    destruct m as [| m]; [lia |]. rewrite Hstep by exact Hcount.
    apply Hthrow; [lia | exact Hcount | exact Herr].
Qed.

(** The errors of a replacement text.  When the pattern has a match and
    the count is not zero, a text that goes wrong after well-formed items
    is reported at the first replacement: a [%] that ends the text or is
    followed by a unit that is neither a digit nor [%] is the error
    [percent_invalid_use_in_replacement], a group beyond the captures of
    the match is the error [capture_invalid_index]. *)
Theorem template_errors (r : basic_match_result) (items : list template_item)
        (count : Z) :
  lex_match = Ok r -> to_bool r = true -> count <> 0 ->
  forallb item_plain items = true ->
  (forall d, In (Group d) items -> d - chr "1" < size r) ->
  gsub (template_units items ++ [chr "%"]) count
  = Throw percent_invalid_use_in_replacement /\
  (forall c rest, c <> chr "%" -> isdigit c = false ->
     gsub (template_units items ++ chr "%" :: c :: rest) count
     = Throw percent_invalid_use_in_replacement) /\
  (forall d rest, in_range (chr "1") (chr "9") d = true -> size r <= d - chr "1" ->
     gsub (template_units items ++ chr "%" :: d :: rest) count
     = Throw capture_invalid_index).
Proof.
  intros Hr Hb Hcount Hplain Hgroups.
  apply lex_match_ok in Hr. destruct Hr as (ms' & Hstate & ->).
  unfold lex_match_state in Hstate. fold clean in Hstate.
  assert (Hpos : 0 < ms_level ms') by (apply Z.ltb_lt; exact Hb).
  destruct (first_replacement (S (length subject)) clean ms' s_begin reset_clean
              ltac:(unfold s_begin; lia) ltac:(unfold s_begin, s_end; lia) Hstate Hpos)
    as (ms1 & s1 & e1 & Hok & Hslots & Hlev & Hsp & Hse & Hthrow).
  assert (Hgo : forall rest err,
            (forall m2 out,
               install_whole_match m2 s1 e1 = install_whole_match ms1 s1 e1 ->
               fst (expand_template rest m2 s1 e1 out) = Throw err) ->
            gsub (template_units items ++ rest) count = Throw err).
  { intros rest err Hrest. unfold gsub, gsub_with. fold clean.
    apply Hthrow; [lia | exact Hcount |].
    destruct (expand_items_on_success items rest ms1 ms1 ms' s1 e1
                ([] ++ subrange 0 s1) Hplain (live_eq_refl ms1) Hslots Hslots Hsp
                (proj1 Hlev) Hok)
      as (Hrep & _ & [(m2 & Hm2 & Hexp) | (d & Hd & Hbad & _)]).
    - rewrite Hrep, Hexp. apply Hrest. exact Hm2.
    - specialize (Hgroups d Hd). unfold size in Hgroups. lia. }
  assert (Hlevel : ms_level (install_whole_match ms1 s1 e1) = size (mr ms')).
  { destruct (expand_items_on_success items [] ms1 ms1 ms' s1 e1 [] Hplain
                (live_eq_refl ms1) Hslots Hslots Hsp (proj1 Hlev) Hok)
      as (_ & Hl & _).
    symmetry. exact Hl. }
  split; [| split].
  - apply Hgo. intros m2 out _. reflexivity.
  - intros c rest Hc Hdig. apply Hgo. intros m2 out _.
    rewrite expand_template_escape.
    destruct (Z.eqb_spec c (chr "%")); [contradiction |].
    destruct (Z.eqb_spec c (chr "0")) as [-> | _]; [discriminate Hdig |].
    rewrite Hdig. reflexivity.
  - intros d rest Hd Hbad. apply Hgo. intros m2 out Hm2.
    rewrite expand_template_escape.
    unfold in_range in Hd. apply andb_true_iff in Hd. destruct Hd as [Hlo Hhi].
    apply Z.leb_le in Hlo, Hhi.
    change (chr "%") with 37. change (chr "0") with 48.
    change (chr "1") with 49 in *. change (chr "9") with 57 in *.
    destruct (Z.eqb_spec d 37); [lia |].
    destruct (Z.eqb_spec d 48); [lia |].
    unfold isdigit, in_range.
    destruct (Z.leb_spec 48 d); [| lia]. destruct (Z.leb_spec d 57); [| lia].
    cbn [andb]. cbv zeta. rewrite Hm2, Hlevel.
    destruct (Z.leb_spec (size (mr ms')) (d - 49)); [reflexivity | lia].
Qed.

(** ** The drivers up to the first attempt that does not fail *)

Lemma search_loop_skip (k : nat) :
  forall (n : nat) (ms : match_state) (s : Z),
    reset ms -> 0 <= s -> s + Z.of_nat k <= s_end + 1 ->
    (k = O \/ anchor = false) ->
    (forall s', s <= s' < s + Z.of_nat k -> attempt s' = Ok None) ->
    exists ms0, reset ms0 /\
      search_loop (k + n) ms s = search_loop n ms0 (s + Z.of_nat k).
Proof.
  induction k as [| k IH]; intros n ms s Hreset Hs Hk Hanchor Hfail.
  { exists ms. rewrite Z.add_0_r. split; [exact Hreset | reflexivity]. }
  destruct Hanchor as [Hz | Ha]; [discriminate |].
  change (S k + n)%nat with (S (k + n)). rewrite search_loop_S.
  pose proof (attempt_state ms s Hreset ltac:(lia)) as (Hdepth & _ & Hslots & _).
  pose proof (attempt_eq ms s Hreset) as Hatt. rewrite (Hfail s ltac:(lia)) in Hatt.
  destruct (detail_match ms s p_begin) as [o ms1]. cbn [fst snd] in *. subst o.
  rewrite Ha.
  destruct (IH n (reprepstate ms1) (s + 1) (reset_reprep ms1 Hslots Hdepth)
              ltac:(lia) ltac:(lia) (or_intror Ha))
    as (ms0 & Hr0 & Heq); [intros s' Hs'; apply Hfail; lia |].
  exists ms0. split; [exact Hr0 |]. rewrite Heq. f_equal. lia.
Qed.

Lemma gmatch_loop_skip (k : nat) :
  forall (n : nat) (ms : match_state) (q : Z) (l : option Z),
    reset ms -> 0 <= q -> q + Z.of_nat k <= s_end + 1 ->
    (forall s', q <= s' < q + Z.of_nat k -> attempt s' = Ok None) ->
    exists ms0, reset ms0 /\
      gmatch_loop (k + n) ms q l
      = gmatch_loop n ms0 (q + Z.of_nat k) (match k with O => l | S _ => None end).
Proof.
  induction k as [| k IH]; intros n ms q l Hreset Hq Hk Hfail.
  { exists ms. rewrite Z.add_0_r. split; [exact Hreset | reflexivity]. }
  change (S k + n)%nat with (S (k + n)). cbn [gmatch_loop].
  destruct (Z.ltb_spec s_end q); [lia |].
  pose proof (attempt_state ms q Hreset ltac:(lia)) as (Hdepth & _ & Hslots & _).
  pose proof (attempt_eq ms q Hreset) as Hatt. rewrite (Hfail q ltac:(lia)) in Hatt.
  destruct (detail_match ms q p_begin) as [o ms1]. cbn [fst snd] in *. subst o.
  destruct (IH n (reprepstate ms1) (q + 1) None (reset_reprep ms1 Hslots Hdepth)
              ltac:(lia) ltac:(lia))
    as (ms0 & Hr0 & Heq); [intros s' Hs'; apply Hfail; lia |].
  exists ms0. split; [exact Hr0 |]. rewrite Heq.
  replace (q + 1 + Z.of_nat k) with (q + Z.of_nat (S k)) by lia.
  destruct k; reflexivity.
Qed.

Lemma gsub_loop_skip (replace : replacer) (k : nat) :
  forall (n : nat) (ms : match_state) (s count : Z) (last : option Z) (out : list Z),
    reset ms -> 0 <= s -> s + Z.of_nat k <= s_end + 1 -> count <> 0 ->
    (k = O \/ anchor = false) ->
    (forall s', s <= s' < s + Z.of_nat k -> attempt s' = Ok None) ->
    exists ms0, reset ms0 /\
      gsub_loop replace (k + n) ms s count last out
      = gsub_loop replace n ms0 (s + Z.of_nat k) count last out.
Proof.
  induction k as [| k IH]; intros n ms s count last out Hreset Hs Hk Hcount Hanchor Hfail.
  { exists ms. rewrite Z.add_0_r. split; [exact Hreset | reflexivity]. }
  destruct Hanchor as [Hz | Ha]; [discriminate |].
  change (S k + n)%nat with (S (k + n)).
  rewrite gsub_loop_step
    by (apply andb_true_iff; split;
        [apply Z.leb_le; lia | apply negb_true_iff, Z.eqb_neq; exact Hcount]).
  pose proof (attempt_state ms s Hreset ltac:(lia)) as (Hdepth & _ & Hslots & _).
  pose proof (attempt_eq ms s Hreset) as Hatt. rewrite (Hfail s ltac:(lia)) in Hatt.
  destruct (detail_match ms s p_begin) as [o ms1]. cbn [fst snd] in *. subst o.
  rewrite Ha.
  destruct (IH n (reprepstate ms1) (s + 1) count last out
              (reset_reprep ms1 Hslots Hdepth) ltac:(lia) ltac:(lia) Hcount
              (or_intror Ha))
    as (ms0 & Hr0 & Heq); [intros s' Hs'; apply Hfail; lia |].
  exists ms0. split; [exact Hr0 |]. rewrite Heq. f_equal. lia.
Qed.

(** An attempt of a driver, made on a reset state, against the attempt
    made on the state a driver starts with: the same outcome, and states
    that agree below the level. *)
Lemma attempt_on_reset (ms0 mc : match_state) (s e : Z) :
  reset ms0 -> 0 <= s <= s_end ->
  detail_match clean s p_begin = (Ok (Some e), mc) ->
  exists ms1,
    detail_match ms0 s p_begin = (Ok (Some e), ms1) /\
    live_eq mc ms1 /\ has_unfinished ms1 = has_unfinished mc /\
    slots_ok (ms_captures ms1) /\ 0 <= ms_level ms1 <= MAXCAPTURES /\
    spans_ok s ms1 e /\ s <= e <= s_end /\ matchdepth ms1 = MAXCCALLS.
Proof.
  intros Hreset Hs Hclean.
  pose proof (attempt_state ms0 s Hreset Hs) as (Hdepth & _ & Hslots & Hlev & _ & Hsome & _).
  destruct (detail_match_respects clean ms0 s p_begin (reset_live_eq ms0 Hreset))
    as [Hfst Hlive].
  rewrite Hclean in Hfst, Hlive. cbn [fst snd] in *.
  destruct (detail_match ms0 s p_begin) as [o ms1]. cbn [fst snd] in *. subst o.
  destruct (Hsome e eq_refl) as [He Hsp].
  exists ms1. split; [reflexivity |]. split; [exact Hlive |].
  split; [apply has_unfinished_live; exact Hlive |]. tauto.
Qed.

Lemma unfinished_replacers (ms : match_state) (s e : Z) (out : list Z) :
  has_unfinished ms = true ->
  (forall repl, template_replacer repl ms s e out = (Throw capture_not_finished, ms)) /\
  (forall func, callback_replacer func ms s e out = (Throw capture_not_finished, ms)).
Proof.
  intros Hun. split.
  - intros repl. unfold template_replacer, check_captures. rewrite Hun. reflexivity.
  - intros func. unfold callback_replacer, on_success, check_captures. rewrite Hun.
    reflexivity.
Qed.

(** C6.  The capture level never exceeds 32 and the length of a slot is a
    sentinel or not negative, in the state left by any call of the core
    from a well-formed state, and the position the core returns lies
    between the start and the subject end.  An attempt that succeeds with
    an Unfinished slot below the level is never accepted: when it is the
    first attempt that does not fail, the search, the iteration and both
    substitutions end with [capture_not_finished], and so does any later
    increment of the iterator and any later pass of either substitution
    loop that reaches such an attempt.  In every result of the search and
    of the iteration, and in the result a pass of the substitution hands
    to the callback, no slot below the level is Unfinished and a span that
    is not the sentinel has start <= end within the subject. *)
Theorem capture_invariants :
  (forall ms s p, state_ok ms s -> 0 <= s <= s_end ->
     0 <= ms_level (snd (detail_match ms s p)) <= MAXCAPTURES /\
     Forall (fun c => len c = unfinished \/ len c = position \/ 0 <= len c)
            (ms_captures (snd (detail_match ms s p))) /\
     (forall e, fst (detail_match ms s p) = Ok (Some e) -> s <= e <= s_end)) /\
  (forall s1 e ms1,
     0 <= s1 <= s_end -> (anchor = true -> s1 = 0) ->
     (forall s', 0 <= s' < s1 -> attempt s' = Ok None) ->
     detail_match clean s1 p_begin = (Ok (Some e), ms1) ->
     has_unfinished ms1 = true ->
     lex_match = Throw capture_not_finished /\
     gmatch_begin = Throw capture_not_finished /\
     forall count, count <> 0 ->
       (forall repl, gsub repl count = Throw capture_not_finished) /\
       (forall func, gsub_callback func count = Throw capture_not_finished)) /\
  (forall it s1 e ms1,
     iterator_ok it -> it_pos it <= s1 <= s_end ->
     (forall s', it_pos it <= s' < s1 -> attempt s' = Ok None) ->
     detail_match clean s1 p_begin = (Ok (Some e), ms1) ->
     (s1 = it_pos it -> last_match it <> Some e) ->
     has_unfinished ms1 = true ->
     gmatch_next it = Throw capture_not_finished) /\
  (forall n ms s count last out e ms1,
     0 <= s <= s_end -> count <> 0 ->
     detail_match ms s p_begin = (Ok (Some e), ms1) -> last <> Some e ->
     (has_unfinished ms1 = true ->
      (forall repl, gsub_loop (template_replacer repl) (S n) ms s count last out
                    = Throw capture_not_finished) /\
      (forall func, gsub_loop (callback_replacer func) (S n) ms s count last out
                    = Throw capture_not_finished)) /\
     (has_unfinished ms1 = false -> reset ms ->
      exists ms2,
        result_inv (mr ms2) /\ pos (mr ms2) = (s, e) /\
        forall func,
          gsub_loop (callback_replacer func) (S n) ms s count last out
          = gsub_loop (callback_replacer func) n (reprepstate ms2) e
              ((if anchor then 0 else count) - 1) (Some e)
              ((out ++ subrange (copy_from last) s) ++ func (mr ms2)))) /\
  (forall r, lex_match = Ok r -> result_inv r) /\
  (forall it it', slots_ok (captures (it_mr it)) -> 0 <= it_pos it ->
     gmatch_next it = Ok it' ->
     result_inv (it_mr it') /\ slots_ok (captures (it_mr it'))).
Proof.
  split; [| split; [| split; [| split; [| split]]]].
  - intros ms s p Hok Hs.
    destruct (detail_match_sound ms s p Hok Hs) as (_ & Hl & Hslots & He).
    split; [exact Hl |]. split; [apply slots_ok_lengths; exact Hslots | exact He].
  - intros s1 e mc Hs1 Hanchor Hfail Hclean Hun.
    assert (Hk : (Z.to_nat s1 = O \/ anchor = false)).
    { destruct anchor; [left; rewrite (Hanchor eq_refl); reflexivity | right; reflexivity]. }
    assert (Hfail' : forall s', s_begin <= s' < s_begin + Z.of_nat (Z.to_nat s1) ->
                                attempt s' = Ok None)
      by (intros s' Hs'; apply Hfail; unfold s_begin in Hs'; lia).
    assert (Hlen : S (length subject) = (Z.to_nat s1 + S (Z.to_nat (s_end - s1)))%nat)
      by (unfold s_end in *; lia).
    assert (Hpos1 : s_begin + Z.of_nat (Z.to_nat s1) = s1) by (unfold s_begin; lia).
    split; [| split].
    + unfold lex_match, lex_match_state. fold clean. rewrite Hlen.
      destruct (search_loop_skip (Z.to_nat s1) (S (Z.to_nat (s_end - s1))) clean s_begin
                  reset_clean ltac:(unfold s_begin; lia) ltac:(lia) Hk Hfail')
        as (ms0 & Hr0 & ->).
      rewrite Hpos1, search_loop_S.
      destruct (attempt_on_reset ms0 mc s1 e Hr0 Hs1 Hclean)
        as (ms1 & -> & _ & Hun1 & _).
      unfold on_success, check_captures. rewrite Hun1, Hun. reflexivity.
    + unfold gmatch_begin, gmatch_next. cbn [it_pos new_iterator it_mr last_match].
      fold clean.
      replace (Z.to_nat (s_end + 1 - s_begin))
        with (Z.to_nat s1 + S (Z.to_nat (s_end - s1)))%nat by (unfold s_begin; lia).
      destruct (gmatch_loop_skip (Z.to_nat s1) (S (Z.to_nat (s_end - s1))) clean s_begin
                  None reset_clean ltac:(unfold s_begin; lia) ltac:(lia) Hfail')
        as (ms0 & Hr0 & ->).
      rewrite Hpos1. cbn [gmatch_loop].
      destruct (Z.ltb_spec s_end s1); [lia |].
      destruct (attempt_on_reset ms0 mc s1 e Hr0 Hs1 Hclean)
        as (ms1 & -> & _ & Hun1 & _).
      assert (Hne : ptr_eqb (Some e) (match Z.to_nat s1 with O => None | S _ => None end)
                    = false) by (destruct (Z.to_nat s1); reflexivity).
      rewrite Hne. unfold on_success, check_captures. rewrite Hun1, Hun. reflexivity.
    + intros count Hcount.
      assert (Hgo : forall replace : replacer,
                (forall ms1 out, has_unfinished ms1 = true ->
                   replace ms1 s1 e out = (Throw capture_not_finished, ms1)) ->
                gsub_with replace count = Throw capture_not_finished).
      { intros replace Hrep. unfold gsub_with. fold clean.
        replace (2 * length subject + 3)%nat
          with (Z.to_nat s1 + S (2 * length subject + 2 - Z.to_nat s1))%nat
          by (unfold s_end in *; lia).
        destruct (gsub_loop_skip replace (Z.to_nat s1)
                    (S (2 * length subject + 2 - Z.to_nat s1)) clean s_begin count None []
                    reset_clean ltac:(unfold s_begin; lia) ltac:(lia) Hcount Hk Hfail')
          as (ms0 & Hr0 & ->).
        rewrite Hpos1.
        rewrite gsub_loop_step
          by (apply andb_true_iff; split;
              [apply Z.leb_le; lia | apply negb_true_iff, Z.eqb_neq; exact Hcount]).
        destruct (attempt_on_reset ms0 mc s1 e Hr0 Hs1 Hclean)
          as (ms1 & -> & _ & Hun1 & _).
        cbn [ptr_eqb]. rewrite Hrep by congruence. reflexivity. }
      split.
      * intros repl. apply Hgo.
        intros ms1 out H. apply unfinished_replacers. exact H.
      * intros func. apply Hgo.
        intros ms1 out H. apply unfinished_replacers. exact H.
  - intros it s1 e mc (Hslots & Hq & Hlast) Hs1 Hfail Hclean Hstall Hun.
    unfold gmatch_next.
    set (k := Z.to_nat (s1 - it_pos it)).
    replace (Z.to_nat (s_end + 1 - it_pos it))
      with (k + S (Z.to_nat (s_end - s1)))%nat by (subst k; lia).
    destruct (gmatch_loop_skip k (S (Z.to_nat (s_end - s1)))
                (new_match_state (it_mr it)) (it_pos it) (last_match it)
                (reset_new _ Hslots) Hq ltac:(subst k; lia))
      as (ms0 & Hr0 & ->); [intros s' Hs'; apply Hfail; subst k; lia |].
    replace (it_pos it + Z.of_nat k) with s1 by (subst k; lia).
    cbn [gmatch_loop]. destruct (Z.ltb_spec s_end s1); [lia |].
    destruct (attempt_on_reset ms0 mc s1 e Hr0 ltac:(lia) Hclean)
      as (ms1 & -> & _ & Hun1 & _).
    assert (Hne : ptr_eqb (Some e) (match k with O => last_match it | S _ => None end)
                  = false).
    { destruct k eqn:Hk; [| reflexivity].
      assert (Heq : s1 = it_pos it) by (subst k; lia).
      specialize (Hstall Heq). destruct (last_match it) as [l |]; [| reflexivity].
      cbn [ptr_eqb]. apply Z.eqb_neq. congruence. }
    rewrite Hne. unfold on_success, check_captures. rewrite Hun1, Hun. reflexivity.
  - intros n ms s count last out e ms1 Hs Hcount Hcore Hlast.
    assert (Hne : ptr_eqb (Some e) last = false).
    { destruct last as [l |]; [| reflexivity]. cbn [ptr_eqb]. apply Z.eqb_neq. congruence. }
    assert (Hstep : forall replace,
              gsub_loop replace (S n) ms s count last out
              = match replace ms1 s e (out ++ subrange (copy_from last) s) with
                | (Ok out1, ms2) =>
                    gsub_loop replace n (reprepstate ms2) e
                              ((if anchor then 0 else count) - 1) (Some e) out1
                | (Throw err, _) => Throw err
                | (Undefined, _) => Undefined
                | (OutOfFuel, _) => OutOfFuel
                end).
    { intros replace. rewrite gsub_loop_step
        by (apply andb_true_iff; split;
            [apply Z.leb_le; lia | apply negb_true_iff, Z.eqb_neq; exact Hcount]).
      rewrite Hcore, Hne. reflexivity. }
    split.
    + intros Hun. split.
      * intros repl. rewrite Hstep.
        rewrite (proj1 (unfinished_replacers ms1 s e _ Hun)). reflexivity.
      * intros func. rewrite Hstep.
        rewrite (proj2 (unfinished_replacers ms1 s e _ Hun)). reflexivity.
    + intros Hun Hreset.
      pose proof (attempt_state ms s Hreset Hs) as (_ & _ & Hslots & Hlev & _ & Hsome & _).
      rewrite Hcore in Hslots, Hlev, Hsome. cbn [fst snd] in *.
      destruct (Hsome e eq_refl) as [He _].
      exists (install_whole_match (set_pos ms1 (s - s_begin, e - s_begin)) s e).
      split; [apply install_whole_match_inv; try assumption; lia |].
      split; [rewrite install_whole_match_pos; unfold s_begin; f_equal; lia |].
      intros func. rewrite Hstep. unfold callback_replacer, on_success, check_captures.
      rewrite Hun. reflexivity.
  - intros r Hr. apply lex_match_ok in Hr. destruct Hr as (ms' & Hstate & ->).
    apply lex_match_state_spec in Hstate.
    destruct Hstate as [Hfresh | (s1 & e & ms0 & ms1 & Hfresh & Hs1 & Hcore & Hun & ->)].
    + apply fresh_result_inv. exact Hfresh.
    + pose proof (detail_match_sound ms0 s1 p_begin (fresh_state_ok _ _ Hfresh) Hs1) as Hsound.
      rewrite Hcore in Hsound. destruct Hsound as (_ & Hl & Hslots & He). simpl in *.
      specialize (He e eq_refl).
      apply install_whole_match_inv; try assumption; lia.
  - intros it it' Hslots Hq. unfold gmatch_next.
    apply gmatch_loop_inv; [apply fresh_new; exact Hslots | exact Hq].
Qed.

(** The search from the state a driver starts with, when the first attempt
    that does not fail is the one at [s]. *)
Lemma lex_match_first_attempt (s e : Z) (mc : match_state) :
  0 <= s <= s_end -> (anchor = true -> s = 0) ->
  (forall s', 0 <= s' < s -> attempt s' = Ok None) ->
  detail_match clean s p_begin = (Ok (Some e), mc) ->
  exists ms1,
    lex_match_state = on_success ms1 s e /\
    live_eq mc ms1 /\ has_unfinished ms1 = has_unfinished mc /\
    slots_ok (ms_captures ms1).
Proof.
  intros Hs Hanchor Hall Hclean.
  assert (Hk : (Z.to_nat s = O \/ anchor = false)).
  { destruct anchor; [left; rewrite (Hanchor eq_refl); reflexivity | right; reflexivity]. }
  unfold lex_match_state. fold clean.
  replace (S (length subject)) with (Z.to_nat s + S (Z.to_nat (s_end - s)))%nat
    by (unfold s_end in *; lia).
  destruct (search_loop_skip (Z.to_nat s) (S (Z.to_nat (s_end - s))) clean s_begin
              reset_clean ltac:(unfold s_begin; lia) ltac:(unfold s_begin; lia) Hk)
    as (ms0 & Hreset0 & ->); [intros s' Hs'; apply Hall; unfold s_begin in Hs'; lia |].
  replace (s_begin + Z.of_nat (Z.to_nat s)) with s by (unfold s_begin; lia).
  rewrite search_loop_S.
  destruct (attempt_on_reset ms0 mc s e Hreset0 Hs Hclean)
    as (ms1 & -> & Hlive & Hun & Hslots & _).
  exists ms1. tauto.
Qed.

(** C1, as amended.  The attempts are those of the core on the state the
    driver starts with.  When the first attempt that does not fail
    matches [s, e) and the core ends it with level 0, the search returns
    a result: the driver installed the whole match as the capture of slot
    0 and incremented the level, so that [size()] is 1 and the result
    converts to [true], with the span [(s, e)].  And whenever the search
    returns a result, either every attempt it made failed and the result
    is empty ([size()] is 0), or the result is that of the first attempt
    that does not fail: it converts to [true], its [size()] is 1 with the
    whole match in slot 0 when the core ended with level 0, and is the
    level of the core, with the captures the core left, when the pattern
    has explicit captures. *)
Theorem whole_match_capture_reported :
  (forall s e ms1,
     0 <= s <= s_end -> (anchor = true -> s = 0) ->
     (forall s', 0 <= s' < s -> attempt s' = Ok None) ->
     detail_match clean s p_begin = (Ok (Some e), ms1) ->
     ms_level ms1 = 0 ->
     exists r,
       lex_match = Ok r /\ pos r = (s, e) /\ size r = 1 /\ to_bool r = true /\
       get_cap (captures r) 0 = {| init := Some s; len := e - s |}) /\
  (forall r,
     lex_match = Ok r ->
     (size r = 0 /\ to_bool r = false /\ pos r = (-1, -1) /\
      forall s, 0 <= s <= s_end -> (anchor = true -> s = 0) -> attempt s = Ok None) \/
     exists s e ms1,
       0 <= s <= s_end /\ (anchor = true -> s = 0) /\
       (forall s', 0 <= s' < s -> attempt s' = Ok None) /\
       detail_match clean s p_begin = (Ok (Some e), ms1) /\
       pos r = (s, e) /\ to_bool r = true /\
       (ms_level ms1 = 0 ->
          size r = 1 /\
          get_cap (captures r) 0 = {| init := Some s; len := e - s |}) /\
       (ms_level ms1 <> 0 ->
          size r = ms_level ms1 /\
          forall i, 0 <= i < size r ->
                    get_cap (captures r) i = get_cap (ms_captures ms1) i)).
Proof.
  split.
  - intros s e mc Hs Hanchor Hall Hclean Hzero.
    destruct (lex_match_first_attempt s e mc Hs Hanchor Hall Hclean)
      as (ms1 & Hstate & (Hlv & _) & _ & Hslots).
    assert (Hun : has_unfinished ms1 = false).
    { unfold has_unfinished. rewrite Hlv, Hzero. reflexivity. }
    exists (mr (install_whole_match (set_pos ms1 (s - s_begin, e - s_begin)) s e)).
    split.
    { unfold lex_match. rewrite Hstate. unfold on_success, check_captures.
      rewrite Hun. reflexivity. }
    unfold size, to_bool.
    change (level (mr ?m)) with (ms_level m).
    change (captures (mr ?m)) with (ms_captures m).
    rewrite install_whole_match_level, install_whole_match_captures,
      install_whole_match_pos, Hlv, Hzero.
    change (0 =? 0) with true. cbv iota.
    split; [unfold s_begin; f_equal; lia |]. split; [reflexivity |].
    split; [reflexivity |]. apply get_cap_whole_match. exact Hslots.
  - intros r Hr. pose proof Hr as Hr0. apply lex_match_attempts in Hr.
    destruct Hr as [(Hl & Hp & Hall) | (s & e & Hs & Hanchor & Hrep & He & Hat & Hall)].
    { left. unfold size, to_bool. rewrite Hl. tauto. }
    right. unfold attempt in Hat.
    destruct (detail_match clean s p_begin) as [o mc] eqn:Hclean.
    cbn [fst] in Hat. subst o.
    exists s, e, mc.
    split; [exact Hs |]. split; [exact Hanchor |]. split; [exact Hall |].
    split; [exact Hclean |].
    destruct Hrep as (Hp & Hlev & _). split; [exact Hp |].
    split; [unfold to_bool; apply Z.ltb_lt; lia |].
    destruct (lex_match_first_attempt s e mc Hs Hanchor Hall Hclean)
      as (ms1 & Hstate & Hlive & _ & Hslots).
    unfold lex_match in Hr0. rewrite Hstate in Hr0.
    unfold on_success, check_captures in Hr0.
    destruct (has_unfinished ms1); [discriminate |]. injection Hr0 as <-.
    unfold size.
    change (level (mr ?m)) with (ms_level m).
    change (captures (mr ?m)) with (ms_captures m).
    rewrite install_whole_match_level, install_whole_match_captures.
    destruct Hlive as (Hlv & _ & _ & Hc). rewrite Hlv.
    destruct (Z.eqb_spec (ms_level mc) 0) as [Hzero | Hpos].
    + split; [| intros; lia]. intros _. split; [reflexivity |].
      apply get_cap_whole_match. exact Hslots.
    + split; [intros; lia |]. intros _. split; [reflexivity |].
      intros i Hi. unfold get_cap. rewrite Hc by lia. reflexivity.
Qed.

End Matcher.

(** * Concrete runs

    The runs below use the classification of section 4.1
    ([spec_match_class]) and subjects and patterns given as strings. *)

Definition run_match (subject pattern : string) : result basic_match_result :=
  lex_match spec_match_class (units subject) (units pattern).

Definition result_map {A B : Type} (f : A -> B) (r : result A) : result B :=
  match r with
  | Ok a => Ok (f a)
  | Throw e => Throw e
  | Undefined => Undefined
  | OutOfFuel => OutOfFuel
  end.

(** The result of matching a whole-match pattern without captures: one
    capture, the match itself. *)
Definition whole_match_result (s e : Z) : basic_match_result :=
  {| pos := (s, e);
     level := 1;
     captures := <[0%nat := {| init := Some s; len := e - s |}]>
                   (captures empty_match_result) |}.

(** C1, counterexample.  Searching [a] in [a] succeeds, the core ends with
    level 0, and the returned result reports one capture, not zero. *)
Lemma whole_match_size_is_one :
  let subject := units "a" in
  let pattern := units "a" in
  let core := detail_match spec_match_class subject pattern
                (new_match_state empty_match_result) 0 0 in
  fst core = Ok (Some 1) /\ ms_level (snd core) = 0 /\
  result_map size (lex_match spec_match_class subject pattern) = Ok 1 /\
  result_map to_bool (lex_match spec_match_class subject pattern) = Ok true.
Proof. vm_compute. repeat split; reflexivity. Qed.

(** C1, witness: the search of [a] in [xay]; the attempt at offset 0
    fails, the one at offset 1 ends at 2 with level 0, and the match is
    reported as the one capture of the result. *)
Lemma whole_match_capture_reported_witness :
  let subject := units "xay" in
  let pattern := units "a" in
  let ms1 := snd (detail_match spec_match_class subject pattern clean 1
                               (p_begin pattern)) in
  (0 <= 1 <= s_end subject /\ (anchor pattern = true -> 1 = 0) /\
   (forall s', 0 <= s' < 1 -> attempt spec_match_class subject pattern s' = Ok None) /\
   detail_match spec_match_class subject pattern clean 1 (p_begin pattern)
   = (Ok (Some 2), ms1) /\
   ms_level ms1 = 0) /\
  exists r,
    lex_match spec_match_class subject pattern = Ok r /\ pos r = (1, 2) /\
    size r = 1 /\ to_bool r = true /\
    get_cap (captures r) 0 = {| init := Some 1; len := 2 - 1 |}.
Proof.
  intros subject pattern ms1.
  assert (H1 : 0 <= 1 <= s_end subject) by (vm_compute; split; discriminate).
  assert (H2 : anchor pattern = true -> 1 = 0) by (intros H; discriminate H).
  assert (H3 : forall s', 0 <= s' < 1 ->
                 attempt spec_match_class subject pattern s' = Ok None).
  { intros s' Hs'. assert (s' = 0) as -> by lia. vm_compute. reflexivity. }
  assert (H4 : detail_match spec_match_class subject pattern clean 1 (p_begin pattern)
               = (Ok (Some 2), ms1)) by (vm_compute; reflexivity).
  assert (H5 : ms_level ms1 = 0) by (vm_compute; reflexivity).
  split; [exact (conj H1 (conj H2 (conj H3 (conj H4 H5)))) |].
  exact (proj1 (whole_match_capture_reported spec_match_class subject pattern)
           1 2 ms1 H1 H2 H3 H4 H5).
Defined.

(** C6, witness: the pattern [(a] on [xa]; the attempt at offset 0 fails,
    the one at offset 1 ends at 2 with the capture still open, and every
    driver ends with [capture_not_finished]. *)
Lemma capture_invariants_witness :
  let subject := units "xa" in
  let pattern := units "(a" in
  let ms1 := snd (detail_match spec_match_class subject pattern clean 1
                               (p_begin pattern)) in
  (0 <= 1 <= s_end subject /\ (anchor pattern = true -> 1 = 0) /\
   (forall s', 0 <= s' < 1 -> attempt spec_match_class subject pattern s' = Ok None) /\
   detail_match spec_match_class subject pattern clean 1 (p_begin pattern)
   = (Ok (Some 2), ms1) /\
   has_unfinished ms1 = true) /\
  lex_match spec_match_class subject pattern = Throw capture_not_finished /\
  gmatch_begin spec_match_class subject pattern = Throw capture_not_finished /\
  forall count, count <> 0 ->
    (forall repl, gsub spec_match_class subject pattern repl count
                  = Throw capture_not_finished) /\
    (forall func, gsub_callback spec_match_class subject pattern func count
                  = Throw capture_not_finished).
Proof.
  intros subject pattern ms1.
  assert (H1 : 0 <= 1 <= s_end subject) by (vm_compute; split; discriminate).
  assert (H2 : anchor pattern = true -> 1 = 0) by (intros H; discriminate H).
  assert (H3 : forall s', 0 <= s' < 1 ->
                 attempt spec_match_class subject pattern s' = Ok None).
  { intros s' Hs'. assert (s' = 0) as -> by lia. vm_compute. reflexivity. }
  assert (H4 : detail_match spec_match_class subject pattern clean 1 (p_begin pattern)
               = (Ok (Some 2), ms1)) by (vm_compute; reflexivity).
  assert (H5 : has_unfinished ms1 = true) by (vm_compute; reflexivity).
  split; [exact (conj H1 (conj H2 (conj H3 (conj H4 H5)))) |].
  exact (proj1 (proj2 (capture_invariants spec_match_class subject pattern))
           1 2 ms1 H1 H2 H3 H4 H5).
Defined.

(** C2.  The anchored pattern [^a] applied to [aaa] with replacement [b]:
    the loop sets the count to 0 and the successful branch decrements it to
    -1, so the loop goes on; every [a] is replaced, for an unlimited count
    and for a count of 1, by the template variant and by the callback
    variant, where one substitution would give [baa]. *)
Theorem anchored_gsub_substitutes_repeatedly :
  gsub spec_match_class (units "aaa") (units "^a") (units "b") (-1) = Ok (units "bbb") /\
  gsub spec_match_class (units "aaa") (units "^a") (units "b") 1 = Ok (units "bbb") /\
  gsub_callback spec_match_class (units "aaa") (units "^a") (fun _ => units "b") (-1)
  = Ok (units "bbb") /\
  gsub_callback spec_match_class (units "aaa") (units "^a") (fun _ => units "b") 1
  = Ok (units "bbb") /\
  gsub spec_match_class (units "baa") (units "^a") (units "b") (-1) = Ok (units "baa").
Proof. vm_compute. repeat split; reflexivity. Qed.

(** The state in which [(a)%1] reaches [%1] on the subject [a1]: one
    finished capture holding the [a] at offset 0. *)
Definition after_capture_a : match_state :=
  set_level (set_cap_len (set_cap_init (new_match_state empty_match_result)
                                       0 (Some 0)) 0 1) 1.

(** C3.  On the subject [a1] the backreference of [(a)%1] does not find a
    copy of the captured [a] at offset 1 ([match_capture] returns no match),
    yet the item succeeds: the failed backreference falls into the default
    block, where [%1] is the escaped literal [1]; the search reports the
    match [0, 2).  A failed [%b] item in the same place ends the attempt
    without a match. *)
Theorem failed_backreference_matches_digit :
  fst (match_capture (units "a1") after_capture_a 1 (chr "1")) = Ok None /\
  fst (match_from spec_match_class (units "a1") (units "(a)%1") after_capture_a 1 3)
  = Ok (Some 2) /\
  result_map pos (run_match "a1" "(a)%1") = Ok (0, 2) /\
  result_map pos (run_match "a1" "(a)%bxy") = Ok (-1, -1).
Proof. vm_compute. repeat split; reflexivity. Qed.

(** C7, counterexample.  Opening the capture of [(a] at offset 0 of the
    subject [b] fails and is undone, and the slot array is not what it was:
    slot 0, above the level, keeps the recorded start. *)
Lemma failed_open_leaves_start :
  let ms := new_match_state empty_match_result in
  let res := start_capture (units "(a")
               (detail_match spec_match_class (units "b") (units "(a")) ms 0 1 in
  fst res = Ok None /\ ms_level (snd res) = ms_level ms /\
  ms_captures ms !! 0%nat = Some {| init := None; len := unfinished |} /\
  ms_captures (snd res) !! 0%nat = Some {| init := Some 0; len := unfinished |}.
Proof. vm_compute. repeat split; reflexivity. Qed.

(** C10.  On the empty subject the search tries offset 0, which is the
    subject end.  For [%b()] the balanced scan reads the subject unit at
    that offset before any comparison with the subject end; for [%f[a]]
    the frontier test reads it after the test of the previous unit. *)
Theorem balanced_and_frontier_read_at_subject_end :
  s_end (units "") = 0 /\
  reads (snd (lex_match_state spec_match_class (units "") (units "%b()"))) = [0] /\
  reads (snd (lex_match_state spec_match_class (units "") (units "%f[a]"))) = [0] /\
  reads (snd (lex_match_state spec_match_class (units "ab") (units "%b()"))) = [2; 1; 0] /\
  reads (snd (lex_match_state spec_match_class (units "") (units "a"))) = [].
Proof. vm_compute. repeat split; reflexivity. Qed.

(** [%b()] on [(a)b] at offset 0; the scan ends at offset 3. *)
Lemma balanced_item_witness :
  let subject := units "(a)b" in
  let pattern := units "%b()" in
  let ms := new_match_state empty_match_result in
  (0 <= 0 <= s_end subject /\ pat_at pattern 0 = chr "%" /\
   pat_at pattern (0 + 1) = chr "b" /\ 0 + 2 < p_end pattern /\
   unit_at subject 0 = pat_at pattern (0 + 2)) /\
  0 < 3 <= s_end subject /\
  match_from spec_match_class subject pattern ms 0 0
  = match_from spec_match_class subject pattern
               (snd (matchbalance subject pattern ms 0 (0 + 2))) 3 (0 + 4).
Proof.
  intros subject pattern ms.
  assert (H1 : 0 <= 0 <= s_end subject) by (vm_compute; split; discriminate).
  assert (H2 : pat_at pattern 0 = chr "%") by reflexivity.
  assert (H3 : pat_at pattern (0 + 1) = chr "b") by reflexivity.
  assert (H4 : 0 + 2 < p_end pattern) by reflexivity.
  assert (H5 : unit_at subject 0 = pat_at pattern (0 + 2)) by reflexivity.
  split; [exact (conj H1 (conj H2 (conj H3 (conj H4 H5)))) |].
  exact (proj2 (proj2 (balanced_item spec_match_class subject pattern ms 0 0 H1 H2 H3)
                      H4) H5).
Defined.

(** C5, witness: [a*b] on [aab] at offset 0; the run of [a] has length 2. *)
Lemma greedy_expansion_witness :
  let subject := units "aab" in
  let pattern := units "a*b" in
  let ms := new_match_state empty_match_result in
  (0 <= 0 <= s_end subject /\ is_single_unit_item pattern 0 = true /\
   classend pattern 0 = Ok 1 /\ pat_at pattern 1 = chr "*" /\
   run_length spec_match_class pattern 0 1 subject = 2%nat) /\
  exists ms1, same_data ms ms1 /\
    match_from spec_match_class subject pattern ms 0 0
    = max_expand spec_match_class subject pattern
                 (detail_match spec_match_class subject pattern) ms1 0 0 1.
Proof.
  intros subject pattern ms.
  assert (H1 : 0 <= 0 <= s_end subject) by (vm_compute; split; discriminate).
  assert (H2 : is_single_unit_item pattern 0 = true) by reflexivity.
  assert (H3 : classend pattern 0 = Ok 1) by reflexivity.
  assert (H4 : pat_at pattern 1 = chr "*") by reflexivity.
  split; [exact (conj H1 (conj H2 (conj H3 (conj H4 eq_refl)))) |].
  exact (proj1 (proj2 (greedy_expansion spec_match_class subject pattern ms 0 0 1
                                        H1 H2 H3)) H4).
Defined.

(** C4.  A [%b] item followed by one unit only.  The claim has the
    error [balanced_no_arguments] signalled when the two delimiters are
    missing; [matchbalance] signals it only when no unit at all follows
    [%b].  With one unit [x] nothing is signalled, for any subject and at
    any position: the closing delimiter is then the terminator of the
    pattern.  The search of [%b(] in [()] ends without a match and
    without an error, as does that of [%b(] in [(]; on a subject that
    holds the unit 0 after a parenthesis the scan ends and the matcher goes
    on beyond the terminator of the pattern.  With no unit after [%b] the
    error is signalled, and with both delimiters the item matches. *)
Theorem balanced_one_delimiter_not_signalled :
  (forall (match_class : Z -> Z -> bool) (subject pattern : list Z)
          (ms : match_state) (s p : Z),
     0 <= s <= s_end subject ->
     pat_at pattern p = chr "%" -> pat_at pattern (p + 1) = chr "b" ->
     p + 3 = p_end pattern ->
     fst (match_from match_class subject pattern ms s p)
     <> Throw balanced_no_arguments) /\
  result_map to_bool (run_match "()" "%b(") = Ok false /\
  result_map to_bool (run_match "(" "%b(") = Ok false /\
  lex_match spec_match_class [chr "("; 0] (units "%b(") = Undefined /\
  run_match "()" "%b" = Throw balanced_no_arguments /\
  result_map pos (run_match "()" "%b()") = Ok (0, 2).
Proof.
  split.
  - intros match_class subject pattern ms s p Hs Hpc Hb Hend.
    exact (proj1 (balanced_item_one_delimiter match_class subject pattern ms s p
                    Hs Hpc Hb Hend)).
  - vm_compute. repeat split; reflexivity.
Qed.



(** * Iterating [x*] over a subject without [x] *)

Lemma has_unfinished_level0 (ms : match_state) :
  ms_level ms = 0 -> has_unfinished ms = false.
Proof. unfold has_unfinished. intros ->. reflexivity. Qed.

(** At any offset whose unit is not [x], the core matches [x*] with the
    empty string. *)
Lemma xstar_match_from (match_class : Z -> Z -> bool) (subject : list Z)
      (ms : match_state) (s : Z) :
  unit_at subject s <> chr "x" ->
  exists ms1, same_data ms ms1 /\
    match_from match_class subject (units "x*") ms s 0 = (Ok (Some s), ms1).
Proof.
  intros Hx. rewrite match_from_default by reflexivity. unfold match_default.
  change (classend (units "x*") 0) with (@Ok Z 1). cbv beta iota.
  pose proof (singlematch_same match_class subject (units "x*") ms s 0 1) as Hsame.
  pose proof (singlematch_unit match_class subject (units "x*") ms s 0 1) as Hm.
  destruct (singlematch match_class subject (units "x*") ms s 0 1) as [m ms1].
  cbn [fst snd] in Hsame, Hm. exists ms1. split; [exact Hsame |].
  assert (Hfalse : m = false).
  { rewrite Hm.
    change (unit_matches match_class (units "x*") (unit_at subject s) 0 1)
      with (chr "x" =? unit_at subject s).
    destruct (Z.eqb_spec (chr "x") (unit_at subject s)) as [Heq | Hne];
      [congruence | apply andb_false_r]. }
  cbv beta iota. rewrite Hfalse.
  change (pat_at (units "x*") 1) with (chr "*").
  change (negb false) with true.
  change ((chr "*" =? chr "*") || (chr "*" =? chr "?") || (chr "*" =? chr "-"))
    with true.
  cbv iota. rewrite match_from_unfold. unfold match_body.
  change (p_end (units "x*") <? 1 + 1) with false.
  change (1 + 1 =? p_end (units "x*")) with true.
  reflexivity.
Qed.

Lemma xstar_detail_match (match_class : Z -> Z -> bool) (subject : list Z)
      (ms : match_state) (s : Z) :
  unit_at subject s <> chr "x" -> 0 < matchdepth ms ->
  exists ms1, same_data ms ms1 /\
    detail_match match_class subject (units "x*") ms s 0 = (Ok (Some s), ms1).
Proof.
  intros Hx Hd. unfold detail_match, with_sentinel, sentinel_enter.
  destruct (Z.leb_spec (matchdepth ms) 0); [lia |].
  destruct (xstar_match_from match_class subject
              (set_matchdepth ms (matchdepth ms - 1)) s Hx) as (ms1 & [Hmr Hdep] & ->).
  eexists. split; [| reflexivity].
  split; simpl in *; [exact Hmr | unfold sentinel_exit; lia].
Qed.

(** The result of one [operator ++] from the cursor [q] with the previous
    match end [l]: the next empty match, or the end position. *)
Definition xstar_step (subject : list Z) (q : Z) (l : option Z)
           (it' : gmatch_iterator) : Prop :=
  let q' := if ptr_eqb (Some q) l then q + 1 else q in
  slots_ok (captures (it_mr it')) /\
  if q' <=? s_end subject then
    it_pos it' = q' /\ last_match it' = Some q' /\
    pos (it_mr it') = (q', q') /\ size (it_mr it') = 1 /\
    get_cap (captures (it_mr it')) 0 = {| init := Some q'; len := 0 |}
  else
    it_pos it' = s_end subject + 1 /\ size (it_mr it') = 0.

Lemma xstar_success (subject : list Z) (ms ms1 : match_state) (q : Z) :
  ms_level ms = 0 -> slots_ok (ms_captures ms) -> same_data ms ms1 ->
  exists ms2,
    on_success ms1 q q = (Ok tt, ms2) /\ slots_ok (captures (mr ms2)) /\
    pos (mr ms2) = (q, q) /\ size (mr ms2) = 1 /\
    get_cap (captures (mr ms2)) 0 = {| init := Some q; len := 0 |}.
Proof.
  intros Hl Hslots [Hmr _]. unfold on_success, check_captures.
  assert (Hl1 : ms_level ms1 = 0) by (unfold ms_level in *; congruence).
  assert (Hslots1 : slots_ok (ms_captures ms1))
    by (unfold ms_captures in *; congruence).
  rewrite has_unfinished_level0 by exact Hl1.
  eexists. split; [reflexivity |].
  unfold size. change (level (mr ?m)) with (ms_level m).
  change (captures (mr ?m)) with (ms_captures m).
  rewrite install_whole_match_level, install_whole_match_captures,
    install_whole_match_pos, Hl1. simpl.
  split.
  { apply slots_ok_set_len; [apply slots_ok_set_init; exact Hslots1 |].
    unfold position. lia. }
  split; [unfold s_begin; f_equal; lia |]. split; [reflexivity |].
  rewrite get_cap_whole_match by exact Hslots1. f_equal. lia.
Qed.

Lemma xstar_gmatch_loop (match_class : Z -> Z -> bool) (subject : list Z)
      (n : nat) (ms : match_state) (q : Z) (l : option Z) :
  (forall s, unit_at subject s <> chr "x") ->
  ms_level ms = 0 -> slots_ok (ms_captures ms) -> 0 < matchdepth ms ->
  0 <= q <= s_end subject -> n = Z.to_nat (s_end subject + 1 - q) ->
  exists it',
    gmatch_loop match_class subject (units "x*") n ms q l = Ok it' /\
    xstar_step subject q l it'.
Proof.
  intros Hx Hl Hslots Hd Hq Hn. unfold xstar_step.
  destruct n as [| n]; [lia |]. cbn [gmatch_loop].
  destruct (Z.ltb_spec (s_end subject) q); [lia |].
  change (p_begin (units "x*")) with 0.
  destruct (xstar_detail_match match_class subject ms q (Hx q) Hd)
    as (ms1 & Hsame & ->).
  destruct (ptr_eqb (Some q) l).
  - (* the same end as the previous match: advance by one unit *)
    assert (Hl1 : ms_level (reprepstate ms1) = 0) by reflexivity.
    assert (Hslots1 : slots_ok (ms_captures (reprepstate ms1))).
    { destruct Hsame as [Hmr _]. unfold ms_captures in *. simpl. congruence. }
    assert (Hd1 : 0 < matchdepth (reprepstate ms1)).
    { destruct Hsame as [_ Hdep]. simpl. lia. }
    destruct n as [| n]; cbn [gmatch_loop].
    + destruct (Z.ltb_spec (s_end subject) (q + 1)); [| lia].
      destruct (Z.leb_spec (q + 1) (s_end subject)); [lia |].
      eexists. split; [reflexivity |]. simpl.
      split; [exact Hslots1 |]. split; [lia | reflexivity].
    + destruct (Z.ltb_spec (s_end subject) (q + 1)); [lia |].
      destruct (Z.leb_spec (q + 1) (s_end subject)); [| lia].
      change (p_begin (units "x*")) with 0.
      destruct (xstar_detail_match match_class subject (reprepstate ms1) (q + 1)
                  (Hx (q + 1)) Hd1) as (ms2 & Hsame2 & ->).
      assert (Hneq : ptr_eqb (Some (q + 1)) (Some q) = false)
        by (simpl; apply Z.eqb_neq; lia).
      rewrite Hneq.
      destruct (xstar_success subject (reprepstate ms1) ms2 (q + 1) Hl1 Hslots1 Hsame2)
        as (ms3 & -> & Hslots3 & Hpos & Hsize & Hcap).
      eexists. split; [reflexivity |]. simpl. tauto.
  - destruct (Z.leb_spec q (s_end subject)); [| lia].
    destruct (xstar_success subject ms ms1 q Hl Hslots Hsame)
      as (ms3 & -> & Hslots3 & Hpos & Hsize & Hcap).
    eexists. split; [reflexivity |]. simpl. tauto.
Qed.

Lemma xstar_gmatch_next (match_class : Z -> Z -> bool) (subject : list Z)
      (it : gmatch_iterator) :
  (forall s, unit_at subject s <> chr "x") ->
  slots_ok (captures (it_mr it)) -> 0 <= it_pos it <= s_end subject ->
  exists it',
    gmatch_next match_class subject (units "x*") it = Ok it' /\
    xstar_step subject (it_pos it) (last_match it) it'.
Proof.
  intros Hx Hslots Hq. unfold gmatch_next.
  apply xstar_gmatch_loop; try assumption; reflexivity.
Qed.

(** C8.  Over a subject of three units none of which is [x], the iteration
    of [x*] yields four matches, all of length zero, at the offsets 0, 1,
    2 and 3 in that order, none of the four iterators being the end
    iterator; the next increment gives the end iterator, with an empty
    result. *)
Theorem zero_length_iteration (match_class : Z -> Z -> bool) (a b c : Z) :
  a <> chr "x" -> b <> chr "x" -> c <> chr "x" ->
  let subject := [a; b; c] in
  let next := gmatch_next match_class subject (units "x*") in
  let finish := gmatch_end subject in
  exists i1 i2 i3 i4 i5,
    (gmatch_begin match_class subject (units "x*") = Ok i1 /\
     next i1 = Ok i2 /\ next i2 = Ok i3 /\ next i3 = Ok i4 /\ next i4 = Ok i5) /\
    (pos (it_mr i1) = (0, 0) /\ pos (it_mr i2) = (1, 1) /\
     pos (it_mr i3) = (2, 2) /\ pos (it_mr i4) = (3, 3)) /\
    (size (it_mr i1) = 1 /\ size (it_mr i2) = 1 /\
     size (it_mr i3) = 1 /\ size (it_mr i4) = 1) /\
    (iterator_eqb i1 finish = false /\ iterator_eqb i2 finish = false /\
     iterator_eqb i3 finish = false /\ iterator_eqb i4 finish = false) /\
    iterator_eqb i5 finish = true /\ size (it_mr i5) = 0.
Proof.
  intros Ha Hb Hc subject next finish.
  assert (Hx : forall s, unit_at subject s <> chr "x").
  { intros s. unfold unit_at, subject.
    destruct (s <? 0); [discriminate |].
    destruct (Z.to_nat s) as [| [| [| [| k]]]]; simpl; try assumption; discriminate. }
  assert (Hend : s_end subject = 3) by reflexivity.
  unfold gmatch_begin, s_begin.
  destruct (xstar_gmatch_next match_class subject (new_iterator 0) Hx
              slots_ok_empty) as (i1 & E1 & S1);
    [rewrite Hend; unfold new_iterator; simpl; lia |].
  unfold xstar_step in S1. rewrite Hend in S1. simpl in S1.
  destruct S1 as (K1 & P1 & L1 & M1 & Z1 & _).
  destruct (xstar_gmatch_next match_class subject i1 Hx K1) as (i2 & E2 & S2);
    [rewrite P1, Hend; lia |].
  unfold xstar_step in S2. rewrite P1, L1, Hend in S2. simpl in S2.
  destruct S2 as (K2 & P2 & L2 & M2 & Z2 & _).
  destruct (xstar_gmatch_next match_class subject i2 Hx K2) as (i3 & E3 & S3);
    [rewrite P2, Hend; lia |].
  unfold xstar_step in S3. rewrite P2, L2, Hend in S3. simpl in S3.
  destruct S3 as (K3 & P3 & L3 & M3 & Z3 & _).
  destruct (xstar_gmatch_next match_class subject i3 Hx K3) as (i4 & E4 & S4);
    [rewrite P3, Hend; lia |].
  unfold xstar_step in S4. rewrite P3, L3, Hend in S4. simpl in S4.
  destruct S4 as (K4 & P4 & L4 & M4 & Z4 & _).
  destruct (xstar_gmatch_next match_class subject i4 Hx K4) as (i5 & E5 & S5);
    [rewrite P4, Hend; lia |].
  unfold xstar_step in S5. rewrite P4, L4, Hend in S5. simpl in S5.
  destruct S5 as (K5 & P5 & Z5).
  exists i1, i2, i3, i4, i5.
  split; [repeat split; assumption |].
  split; [repeat split; assumption |].
  split; [repeat split; assumption |].
  unfold iterator_eqb, finish, gmatch_end. simpl.
  rewrite P1, P2, P3, P4, P5. repeat split; try reflexivity; assumption.
Qed.

(** C8, witness: the subject [abc]. *)
Lemma zero_length_iteration_witness :
  (chr "a" <> chr "x" /\ chr "b" <> chr "x" /\ chr "c" <> chr "x") /\
  exists i1 i2 i3 i4 i5,
    (gmatch_begin spec_match_class (units "abc") (units "x*") = Ok i1 /\
     gmatch_next spec_match_class (units "abc") (units "x*") i1 = Ok i2 /\
     gmatch_next spec_match_class (units "abc") (units "x*") i2 = Ok i3 /\
     gmatch_next spec_match_class (units "abc") (units "x*") i3 = Ok i4 /\
     gmatch_next spec_match_class (units "abc") (units "x*") i4 = Ok i5) /\
    (pos (it_mr i1) = (0, 0) /\ pos (it_mr i2) = (1, 1) /\
     pos (it_mr i3) = (2, 2) /\ pos (it_mr i4) = (3, 3)) /\
    (size (it_mr i1) = 1 /\ size (it_mr i2) = 1 /\
     size (it_mr i3) = 1 /\ size (it_mr i4) = 1) /\
    (iterator_eqb i1 (gmatch_end (units "abc")) = false /\
     iterator_eqb i2 (gmatch_end (units "abc")) = false /\
     iterator_eqb i3 (gmatch_end (units "abc")) = false /\
     iterator_eqb i4 (gmatch_end (units "abc")) = false) /\
    iterator_eqb i5 (gmatch_end (units "abc")) = true /\ size (it_mr i5) = 0.
Proof.
  assert (Ha : chr "a" <> chr "x") by discriminate.
  assert (Hb : chr "b" <> chr "x") by discriminate.
  assert (Hc : chr "c" <> chr "x") by discriminate.
  split; [exact (conj Ha (conj Hb Hc)) |].
  exact (zero_length_iteration spec_match_class (chr "a") (chr "b") (chr "c") Ha Hb Hc).
Defined.


(** * The capture iterator of a match result (lines 149-197)

    An iterator holds a pointer [cap] into the capture array of the result
    it was made from and a view [sv] of the capture it points to; the view
    is read when the iterator is constructed and each time it is moved.
    The pointer is kept as an index into the array.  The array has
    [MAXCAPTURES] elements: reading the capture at an index outside
    [0, MAXCAPTURES) has no defined behaviour. *)

Record capture_iterator : Type :=
  { cap : Z;
    sv : option Z * Z }.

(** [{ cap->init, static_cast< size_t >( std::max( cap->len, 0l ) ) }] for
    the element [c] of the capture array of [r]. *)
Definition read_view (r : basic_match_result) (c : Z) : result (option Z * Z) :=
  if (0 <=? c) && (c <? MAXCAPTURES) then
    let k := get_cap (captures r) c in
    Ok (init k, Z.max (len k) 0)
  else Undefined.

(** The private constructor [iterator( c )]. *)
Definition iterator_at (r : basic_match_result) (c : Z) : result capture_iterator :=
  match read_view r c with
  | Ok v => Ok {| cap := c; sv := v |}
  | Throw e => Throw e
  | Undefined => Undefined
  | OutOfFuel => OutOfFuel
  end.

(** [move( i )] *)
Definition move (r : basic_match_result) (it : capture_iterator) (i : Z)
  : result capture_iterator :=
  iterator_at r (cap it + i).

(** [begin()] and [end()] *)
Definition result_begin (r : basic_match_result) : result capture_iterator :=
  iterator_at r 0.
Definition result_end (r : basic_match_result) : result capture_iterator :=
  iterator_at r (size r).

(** [operator *], [operator ++()], [operator --()], [operator +], [operator ==] *)
Definition deref (it : capture_iterator) : option Z * Z := sv it.
Definition pre_increment (r : basic_match_result) (it : capture_iterator)
  : result capture_iterator := move r it 1.
Definition pre_decrement (r : basic_match_result) (it : capture_iterator)
  : result capture_iterator := move r it (-1).
Definition iterator_plus (r : basic_match_result) (it : capture_iterator) (i : Z)
  : result capture_iterator := iterator_at r (cap it + i).
Definition capture_iterator_eqb (a b : capture_iterator) : bool := cap a =? cap b.

(** [operator ++( int )]: the returned copy [tmp] is made from [cap + 1],
    then the iterator is moved; the pair is the returned iterator and the
    iterator after the call. *)
Definition post_increment (r : basic_match_result) (it : capture_iterator)
  : result (capture_iterator * capture_iterator) :=
  match iterator_at r (cap it + 1) with
  | Ok tmp =>
      match move r it 1 with
      | Ok it' => Ok (tmp, it')
      | Throw e => Throw e
      | Undefined => Undefined
      | OutOfFuel => OutOfFuel
      end
  | Throw e => Throw e
  | Undefined => Undefined
  | OutOfFuel => OutOfFuel
  end.

(** [n] times [++it]. *)
Fixpoint advance (r : basic_match_result) (n : nat) (it : capture_iterator)
  : result capture_iterator :=
  match n with
  | O => Ok it
  | S n' =>
      match pre_increment r it with
      | Ok it' => advance r n' it'
      | other => other
      end
  end.

(** [static_cast< int >( i )] for a [size_t] value [i], with a 32-bit
    [int]: the value modulo 2^32 in the range of [int].  The language
    leaves the result to the implementation until C++20 and prescribes this
    one since; GCC, Clang and MSVC define it so. *)
Definition to_int (i : Z) : Z := (i + 2 ^ 31) mod 2 ^ 32 - 2 ^ 31.

(** [at( i )] (lines 214-224) with the index as the [size_t] it is: the
    test is made on the index converted to [int], the array is indexed by
    the index itself. *)
Definition at_index (r : basic_match_result) (i : Z) : result (option Z * Z) :=
  if level r <=? to_int i then Throw capture_out_of_range
  else read_view r i.

Lemma read_view_at (r : basic_match_result) (i : Z) :
  0 <= i < size r -> size r <= MAXCAPTURES -> read_view r i = at_ r i.
Proof.
  intros Hi Hsize. unfold read_view, at_, size in *.
  destruct (Z.leb_spec 0 i); [| lia].
  destruct (Z.ltb_spec i MAXCAPTURES); [| lia].
  destruct (Z.leb_spec (level r) i); [lia |]. reflexivity.
Qed.

Lemma advance_from (r : basic_match_result) (n : nat) (it : capture_iterator) :
  0 <= cap it -> cap it + Z.of_nat n < MAXCAPTURES ->
  exists it', advance r n it = Ok it' /\ cap it' = cap it + Z.of_nat n /\
              (n <> O -> read_view r (cap it') = Ok (sv it')).
Proof.
  revert it. induction n as [| n IH]; intros it Hlo Hhi.
  - exists it. split; [reflexivity |]. split; [lia | congruence].
  - cbn [advance]. unfold pre_increment, move, iterator_at.
    assert (Hview : read_view r (cap it + 1)
                    = Ok (init (get_cap (captures r) (cap it + 1)),
                          Z.max (len (get_cap (captures r) (cap it + 1))) 0)).
    { unfold read_view.
      destruct (Z.leb_spec 0 (cap it + 1)); [| lia].
      destruct (Z.ltb_spec (cap it + 1) MAXCAPTURES); [| lia]. reflexivity. }
    rewrite Hview.
    set (it1 := {| cap := cap it + 1; sv := _ |}).
    destruct (IH it1) as (it' & Hadv & Hcap & Hsv); [simpl; lia | simpl; lia |].
    exists it'. split; [exact Hadv |]. split; [rewrite Hcap; simpl; lia |].
    intros _. destruct n as [| n].
    + injection Hadv as <-. exact Hview.
    + apply Hsv. discriminate.
Qed.

(** Walking over the captures of a result with [begin()], [++] and
    [end()].  With fewer than [MAXCAPTURES] captures both ends are
    defined, [i] increments of [begin()] give an iterator that equals
    [end()] exactly when [i] is the number of captures, and before that
    its view is the capture [at( i )].  With [MAXCAPTURES] captures
    [end()] reads the element after the capture array. *)
Theorem capture_iteration (r : basic_match_result) :
  0 <= size r <= MAXCAPTURES ->
  (size r < MAXCAPTURES ->
   exists b e, result_begin r = Ok b /\ result_end r = Ok e /\
     forall i, 0 <= i <= size r ->
       exists it, advance r (Z.to_nat i) b = Ok it /\
                  capture_iterator_eqb it e = (i =? size r) /\
                  (i < size r -> at_ r i = Ok (deref it))) /\
  (size r = MAXCAPTURES -> result_end r = Undefined).
Proof.
  intros Hsize. split.
  - intros Hlt. unfold result_begin, result_end, iterator_at.
    assert (Hview : forall c, 0 <= c < MAXCAPTURES ->
              read_view r c = Ok (init (get_cap (captures r) c),
                                  Z.max (len (get_cap (captures r) c)) 0)).
    { intros c Hc. unfold read_view.
      destruct (Z.leb_spec 0 c); [| lia].
      destruct (Z.ltb_spec c MAXCAPTURES); [| lia]. reflexivity. }
    rewrite (Hview 0) by lia. rewrite (Hview (size r)) by lia.
    eexists. eexists. split; [reflexivity |]. split; [reflexivity |].
    intros i Hi.
    destruct (advance_from r (Z.to_nat i)
                {| cap := 0; sv := (init (get_cap (captures r) 0),
                                    Z.max (len (get_cap (captures r) 0)) 0) |})
      as (it & Hadv & Hcap & Hsv); [simpl; lia | simpl; lia |].
    exists it. split; [exact Hadv |]. simpl in Hcap.
    split; [unfold capture_iterator_eqb; simpl; f_equal; lia |].
    intros Hi2. rewrite <- read_view_at by lia. unfold deref.
    destruct (Z.to_nat i) as [| n] eqn:Hn.
    + injection Hadv as <-. assert (i = 0) as -> by lia. apply Hview. lia.
    + replace i with (cap it) by lia. apply Hsv. discriminate.
  - intros Hfull. unfold result_end, iterator_at, read_view. rewrite Hfull.
    reflexivity.
Qed.

(** [at( i )] with its index conversion.  For an index below 2^31 the
    test is the one on the index: the call throws
    [capture_out_of_range] exactly for an index at or beyond the number of
    captures and returns the view of the capture otherwise.  For an index
    whose conversion to [int] is negative the test passes whatever the
    number of captures, and the array is read outside its bounds. *)
Theorem at_index_conversion (r : basic_match_result) (i : Z) :
  0 <= size r <= MAXCAPTURES -> 0 <= i < 2 ^ 64 ->
  (i < 2 ^ 31 -> at_index r i = at_ r i /\
                 (at_index r i = Throw capture_out_of_range <-> size r <= i)) /\
  (to_int i < 0 -> at_index r i = Undefined).
Proof.
  intros Hsize Hi. unfold at_index, at_, size in *. split.
  - intros Hsmall.
    assert (Hint : to_int i = i).
    { unfold to_int. rewrite Z.mod_small by lia. lia. }
    rewrite Hint. destruct (Z.leb_spec (level r) i) as [Hout | Hin].
    + split; [reflexivity |]. split; [intros _; exact Hout | reflexivity].
    + unfold read_view. destruct (Z.leb_spec 0 i); [| lia].
      destruct (Z.ltb_spec i MAXCAPTURES); [| lia].
      split; [reflexivity |]. split; [discriminate | lia].
  - intros Hneg. destruct (Z.leb_spec (level r) (to_int i)); [lia |].
    unfold read_view.
    assert (Hbig : 2 ^ 31 <= i).
    { destruct (Z.lt_ge_cases i (2 ^ 31)) as [Hlt | Hge]; [| exact Hge].
      unfold to_int in Hneg. rewrite Z.mod_small in Hneg by lia. lia. }
    destruct (Z.ltb_spec i MAXCAPTURES) as [Hlt | Hge];
      [unfold MAXCAPTURES in Hlt; lia |].
    rewrite andb_false_r. reflexivity.
Qed.

(** The result of [()()] on the empty subject has two captures, both
    positions. *)
Lemma capture_iteration_witness :
  let r := {| pos := (0, 0); level := 2;
              captures := <[1%nat := {| init := Some 0; len := position |}]>
                           (<[0%nat := {| init := Some 0; len := position |}]>
                              (captures empty_match_result)) |} in
  run_match "" "()()" = Ok r /\
  0 <= size r <= MAXCAPTURES /\
  exists b e, result_begin r = Ok b /\ result_end r = Ok e /\
    forall i, 0 <= i <= size r ->
      exists it, advance r (Z.to_nat i) b = Ok it /\
                 capture_iterator_eqb it e = (i =? size r) /\
                 (i < size r -> at_ r i = Ok (deref it)).
Proof.
  intros r.
  assert (H : 0 <= size r <= MAXCAPTURES) by (vm_compute; split; discriminate).
  split; [vm_compute; reflexivity |]. split; [exact H |].
  exact (proj1 (capture_iteration r H) eq_refl).
Defined.

(** The index 2^64 - 1, the [size_t] value of -1. *)
Lemma at_index_conversion_witness :
  (0 <= size (whole_match_result 1 2) <= MAXCAPTURES /\ 0 <= 2 ^ 64 - 1 < 2 ^ 64 /\
   to_int (2 ^ 64 - 1) < 0) /\
  at_index (whole_match_result 1 2) (2 ^ 64 - 1) = Undefined.
Proof.
  assert (H1 : 0 <= size (whole_match_result 1 2) <= MAXCAPTURES)
    by (vm_compute; split; discriminate).
  assert (H2 : 0 <= 2 ^ 64 - 1 < 2 ^ 64) by (vm_compute; split; [discriminate | reflexivity]).
  assert (H3 : to_int (2 ^ 64 - 1) < 0) by reflexivity.
  split; [exact (conj H1 (conj H2 H3)) |].
  exact (proj2 (at_index_conversion (whole_match_result 1 2) (2 ^ 64 - 1) H1 H2) H3).
Defined.

(** * Instances of the general properties *)

(** The search of [a] in [xay]: the attempt at offset 0, before the match
    at [1, 2), fails. *)
Lemma match_is_leftmost_witness :
  run_match "xay" "a" = Ok (whole_match_result 1 2) /\
  attempt spec_match_class (units "xay") (units "a") 0 = Ok None.
Proof.
  assert (H : lex_match spec_match_class (units "xay") (units "a")
              = Ok (whole_match_result 1 2)) by (vm_compute; reflexivity).
  split; [exact H |].
  destruct (match_is_leftmost spec_match_class (units "xay") (units "a") _ H)
    as [[Hf _] | (_ & _ & _ & _ & _ & Hbefore)].
  - discriminate Hf.
  - apply Hbefore. simpl. lia.
Defined.

(** The first increment of the iteration of [a] over [xay]. *)
Lemma iteration_step_witness :
  let it := new_iterator 0 in
  let it' := {| it_pos := 2; last_match := Some 2; it_mr := whole_match_result 1 2 |} in
  iterator_ok it /\
  gmatch_next spec_match_class (units "xay") (units "a") it = Ok it' /\
  iterator_ok it'.
Proof.
  intros it it'.
  assert (H1 : iterator_ok it).
  { split; [apply slots_ok_empty |]. split; [apply Z.le_refl | exact I]. }
  assert (H2 : gmatch_next spec_match_class (units "xay") (units "a") it = Ok it')
    by (vm_compute; reflexivity).
  split; [exact H1 |]. split; [exact H2 |].
  exact (proj1 (iteration_step spec_match_class (units "xay") (units "a") it it' H1 H2)).
Defined.

(** [a] on [xay]: the search and the first iteration agree. *)
Lemma first_iteration_is_match_witness :
  anchor (units "a") = false /\
  lex_match spec_match_class (units "xay") (units "a")
  = match gmatch_begin spec_match_class (units "xay") (units "a") with
    | Ok it => Ok (it_mr it)
    | Throw e => Throw e
    | Undefined => Undefined
    | OutOfFuel => OutOfFuel
    end.
Proof.
  assert (H : anchor (units "a") = false) by reflexivity.
  split; [exact H |].
  exact (first_iteration_is_match spec_match_class (units "xay") (units "a") H).
Defined.

(** [a] does not occur in [xyz]: both substitutions return [xyz]. *)
Lemma gsub_without_match_witness :
  run_match "xyz" "a" = Ok empty_match_result /\
  to_bool empty_match_result = false /\
  gsub spec_match_class (units "xyz") (units "a") (units "%1%") 3 = Ok (units "xyz") /\
  gsub_callback spec_match_class (units "xyz") (units "a") (fun _ => units "b") (-1)
  = Ok (units "xyz").
Proof.
  assert (H1 : lex_match spec_match_class (units "xyz") (units "a")
               = Ok empty_match_result) by (vm_compute; reflexivity).
  assert (H2 : to_bool empty_match_result = false) by reflexivity.
  split; [exact H1 |]. split; [exact H2 |].
  destruct (gsub_without_match spec_match_class (units "xyz") (units "a") _ H1 H2)
    as [Hg Hc].
  split; [apply Hg | apply Hc].
Defined.

(** One substitution of [a] in [xaya] by the text [5%]. *)
Lemma gsub_once_splices_match_witness :
  let subject := units "xaya" in
  let pattern := units "a" in
  anchor pattern = false /\
  lex_match spec_match_class subject pattern = Ok (whole_match_result 1 2) /\
  to_bool (whole_match_result 1 2) = true /\
  gsub spec_match_class subject pattern (escape_percent (units "5%")) 1
  = Ok (subrange subject 0 1 ++ units "5%" ++ subrange subject 2 (s_end subject)).
Proof.
  intros subject pattern.
  assert (H1 : anchor pattern = false) by reflexivity.
  assert (H2 : lex_match spec_match_class subject pattern = Ok (whole_match_result 1 2))
    by (vm_compute; reflexivity).
  assert (H3 : to_bool (whole_match_result 1 2) = true) by reflexivity.
  split; [exact H1 |]. split; [exact H2 |]. split; [exact H3 |].
  exact (proj2 (gsub_once_splices_match spec_match_class subject pattern _ H1 H2 H3)
               (units "5%")).
Defined.

(** The pattern [a*b] does not end in a [%b] with one argument. *)
Lemma drivers_return_or_throw_witness :
  short_balance (units "a*b") = false /\
  returns_or_throws (lex_match spec_match_class (units "aab") (units "a*b")).
Proof.
  assert (H : short_balance (units "a*b") = false) by reflexivity.
  split; [exact H |].
  exact (proj1 (drivers_return_or_throw spec_match_class (units "aab") (units "a*b") H)).
Defined.

(** [a-b] on [aab] at offset 0; the run of [a] has length 2. *)
Lemma lazy_and_optional_items_witness :
  let subject := units "aab" in
  let pattern := units "a-b" in
  let ms := new_match_state empty_match_result in
  (state_ok ms 0 /\ 0 <= 0 <= s_end subject /\
   is_single_unit_item pattern 0 = true /\ classend pattern 0 = Ok 1 /\
   pat_at pattern 1 = chr "-") /\
  fst (match_from spec_match_class subject pattern ms 0 0)
  = fst (first_success (detail_match spec_match_class subject pattern) ms 0 1
                       (seq 0 3)).
Proof.
  intros subject pattern ms.
  assert (H0 : state_ok ms 0) by (apply fresh_state_ok, fresh_new, slots_ok_empty).
  assert (H1 : 0 <= 0 <= s_end subject) by (vm_compute; split; discriminate).
  assert (H2 : is_single_unit_item pattern 0 = true) by reflexivity.
  assert (H3 : classend pattern 0 = Ok 1) by reflexivity.
  assert (H4 : pat_at pattern 1 = chr "-") by reflexivity.
  split; [exact (conj H0 (conj H1 (conj H2 (conj H3 H4)))) |].
  exact (proj1 (lazy_and_optional_items spec_match_class subject pattern ms 0 0 1
                  H0 H1 H2 H3) H4).
Defined.

(** The set [[a]] at the start of the pattern [[a]b]. *)
Lemma classend_outcomes_witness :
  0 <= 0 < p_end (units "[a]b") /\
  (classend (units "[a]b") 0 = Ok 3 ->
   0 < 3 <= p_end (units "[a]b") /\
   (pat_at (units "[a]b") 0 = chr "%" -> 3 = 0 + 2) /\
   (pat_at (units "[a]b") 0 = chr "[" ->
    0 + 3 <= 3 /\ pat_at (units "[a]b") (3 - 1) = chr "]") /\
   (pat_at (units "[a]b") 0 <> chr "%" -> pat_at (units "[a]b") 0 <> chr "[" ->
    3 = 0 + 1)).
Proof.
  assert (H : 0 <= 0 < p_end (units "[a]b")) by (vm_compute; split; [discriminate | reflexivity]).
  split; [exact H |].
  exact (proj2 (proj2 (proj2 (proj2
           (classend_outcomes spec_match_class (units "[a]b") 0 H)))) 3).
Defined.

(** The set [[a-c%d_]] followed by [x]. *)
Lemma bracket_set_semantics_witness :
  let pattern := units "[a-c%d_]x" in
  let es := [Range (chr "a") (chr "c"); Class (chr "d"); Single (chr "_")] in
  (0 <= 0 /\ es <> [] /\ forallb entry_plain es = true /\
   (false = false -> hd 0 (set_units es) <> chr "^") /\
   drop (Z.to_nat 0) pattern
   = chr "[" :: [] ++ set_units es ++ chr "]" :: units "x") /\
  classend pattern 0 = Ok 8 /\
  forall c, unit_matches spec_match_class pattern c 0 8
            = xorb false (existsb (entry_matches spec_match_class c) es).
Proof.
  intros pattern es.
  assert (H1 : 0 <= 0) by apply Z.le_refl.
  assert (H2 : es <> []) by discriminate.
  assert (H3 : forallb entry_plain es = true) by reflexivity.
  assert (H4 : false = false -> hd 0 (set_units es) <> chr "^") by (intros _; discriminate).
  assert (H5 : drop (Z.to_nat 0) pattern
               = chr "[" :: [] ++ set_units es ++ chr "]" :: units "x") by reflexivity.
  split; [exact (conj H1 (conj H2 (conj H3 (conj H4 H5)))) |].
  pose proof (bracket_set_semantics spec_match_class pattern false es (units "x") 0
                H1 H2 H3 H4 H5) as (Hend & _ & _ & Hunit).
  split; [exact Hend | exact Hunit].
Defined.

(** The number 507 appended to [n=]. *)
Lemma append_number_decimal_witness :
  0 <= 507 /\ (Z.to_nat (Z.log2 507) <= 9)%nat /\
  exists ds, append_number 9 (units "n=") 507 = units "n=" ++ ds /\ ds <> [] /\
             Forall (fun d => isdigit d = true) ds /\ decimal_value ds = 507 /\
             (0 < 507 -> hd 0 ds <> chr "0").
Proof.
  assert (H1 : 0 <= 507) by discriminate.
  assert (H2 : (Z.to_nat (Z.log2 507) <= 9)%nat) by (vm_compute; lia).
  split; [exact H1 |]. split; [exact H2 |].
  exact (append_number_decimal 9 (units "n=") 507 H1 H2).
Defined.

(** [(a)%1] on [aa]: at [%1], with the capture of the first [a] finished,
    the second [a] is its copy. *)
Lemma backreference_item_witness :
  let subject := units "aa" in
  let pattern := units "(a)%1" in
  (0 <= 1 <= s_end subject /\ s_end subject < 2 ^ 63 /\
   pat_at pattern 3 = chr "%" /\
   in_range (chr "0") (chr "9") (pat_at pattern (3 + 1)) = true) /\
  match_from spec_match_class subject pattern after_capture_a 1 3
  = match_from spec_match_class subject pattern after_capture_a (1 + 1) (3 + 2).
Proof.
  intros subject pattern.
  assert (H1 : 0 <= 1 <= s_end subject) by (vm_compute; split; discriminate).
  assert (H2 : s_end subject < 2 ^ 63) by reflexivity.
  assert (H3 : pat_at pattern 3 = chr "%") by reflexivity.
  assert (H4 : in_range (chr "0") (chr "9") (pat_at pattern (3 + 1)) = true)
    by reflexivity.
  split; [exact (conj H1 (conj H2 (conj H3 H4))) |].
  apply (proj2 (backreference_item spec_match_class subject pattern after_capture_a 1 3
                  H1 H2 H3 H4) 0 1).
  - vm_compute. split; [discriminate | reflexivity].
  - reflexivity.
  - vm_compute. split; discriminate.
  - intros k Hk. assert (k = 0) as -> by lia. reflexivity.
Defined.

(** [a$] on [aba]: the match ends at offset 3. *)
Lemma end_anchor_matches_at_end_witness :
  let subject := units "aba" in
  let pattern := units "a$" in
  (pat_at pattern (p_end pattern - 1) = chr "$" /\
   pat_at pattern (p_end pattern - 2) <> chr "%" /\
   (pat_at pattern (p_end pattern - 4) = chr "%" ->
    pat_at pattern (p_end pattern - 3) <> chr "b")) /\
  forall r, lex_match spec_match_class subject pattern = Ok r ->
            to_bool r = true -> snd (pos r) = s_end subject.
Proof.
  intros subject pattern.
  assert (H1 : pat_at pattern (p_end pattern - 1) = chr "$") by reflexivity.
  assert (H2 : pat_at pattern (p_end pattern - 2) <> chr "%") by discriminate.
  assert (H3 : pat_at pattern (p_end pattern - 4) = chr "%" ->
               pat_at pattern (p_end pattern - 3) <> chr "b") by (intros _; discriminate).
  split; [exact (conj H1 (conj H2 H3)) |].
  exact (proj2 (end_anchor_matches_at_end spec_match_class subject pattern H1 H2 H3)).
Defined.

(** [ay] in [xxayay] is first found at offset 2. *)
Lemma plain_pattern_is_substring_search_witness :
  plain_pattern (units "ay") = true /\
  first_occurrence (units "ay") (units "xxayay") 0 = Some 2 /\
  exists r, lex_match spec_match_class (units "xxayay") (units "ay") = Ok r /\
            to_bool r = true /\ size r = 1 /\ pos r = (2, 2 + p_end (units "ay")) /\
            at_ r 0 = Ok (Some 2, p_end (units "ay")).
Proof.
  assert (H : plain_pattern (units "ay") = true) by reflexivity.
  split; [exact H |]. split; [reflexivity |].
  exact (plain_pattern_is_substring_search spec_match_class (units "xxayay") (units "ay") H).
Defined.

(** [ab] in [abcabab], at most two replacements by [%]. *)
Lemma gsub_plain_replaces_all_witness :
  plain_pattern (units "ab") = true /\
  gsub spec_match_class (units "abcabab") (units "ab") (escape_percent (units "%")) 2
  = Ok (replace_from (units "abcabab") (units "ab") 8 (units "%") 0 2) /\
  replace_from (units "abcabab") (units "ab") 8 (units "%") 0 2 = units "%c%ab".
Proof.
  assert (H : plain_pattern (units "ab") = true) by reflexivity.
  split; [exact H |].
  split; [| vm_compute; reflexivity].
  exact (gsub_plain_replaces_all spec_match_class (units "abcabab") (units "ab")
           (units "%") 2 H).
Defined.

(** [%f[a]a] on [ba] at offset 1: the unit before is [b], the unit there
    is [a]. *)
Lemma frontier_item_witness :
  let subject := units "ba" in
  let pattern := units "%f[a]a" in
  let ms := new_match_state empty_match_result in
  (0 <= 1 <= s_end subject /\ pat_at pattern 0 = chr "%" /\
   pat_at pattern (0 + 1) = chr "f" /\ pat_at pattern (0 + 2) = chr "[" /\
   classend pattern (0 + 2) = Ok 5) /\
  fst (match_from spec_match_class subject pattern ms 1 0)
  = fst (match_from spec_match_class subject pattern ms 1 5).
Proof.
  intros subject pattern ms.
  assert (H1 : 0 <= 1 <= s_end subject) by (vm_compute; split; discriminate).
  assert (H2 : pat_at pattern 0 = chr "%") by reflexivity.
  assert (H3 : pat_at pattern (0 + 1) = chr "f") by reflexivity.
  assert (H4 : pat_at pattern (0 + 2) = chr "[") by reflexivity.
  assert (H5 : classend pattern (0 + 2) = Ok 5) by reflexivity.
  split; [exact (conj H1 (conj H2 (conj H3 (conj H4 H5)))) |].
  exact (proj2 (frontier_item spec_match_class subject pattern ms 1 0 H1 H2 H3) 5 H4 H5).
Defined.

(** The text [<%1>] for [a] in [xay]: the pattern has no capture and
    [%1] is the match. *)
Lemma template_is_callback_witness :
  let items := [Lit (chr "<"); Group (chr "1"); Lit (chr ">")] in
  forallb item_plain items = true /\
  template_units items = units "<%1>" /\
  gsub spec_match_class (units "xay") (units "a") (template_units items) (-1)
  = gsub_callback_throwing spec_match_class (units "xay") (units "a")
                           (render_checked (units "xay") items) (-1) /\
  gsub spec_match_class (units "xay") (units "a") (template_units items) (-1)
  = Ok (units "x<a>y").
Proof.
  intros items.
  assert (H : forallb item_plain items = true) by reflexivity.
  split; [exact H |]. split; [reflexivity |].
  split; [| vm_compute; reflexivity].
  exact (proj1 (template_is_callback spec_match_class (units "xay") (units "a")
                  items (-1) H)).
Defined.

(** The texts [<%] and [<%2] for [a] in [xay]. *)
Lemma template_errors_witness :
  let subject := units "xay" in
  let pattern := units "a" in
  let r := whole_match_result 1 2 in
  let items := [Lit (chr "<")] in
  (lex_match spec_match_class subject pattern = Ok r /\ to_bool r = true /\
   1 <> 0 /\ forallb item_plain items = true /\
   (forall d, In (Group d) items -> d - chr "1" < size r)) /\
  gsub spec_match_class subject pattern (units "<%") 1
  = Throw percent_invalid_use_in_replacement.
Proof.
  intros subject pattern r items.
  assert (H1 : lex_match spec_match_class subject pattern = Ok r)
    by (vm_compute; reflexivity).
  assert (H2 : to_bool r = true) by reflexivity.
  assert (H3 : 1 <> 0) by discriminate.
  assert (H4 : forallb item_plain items = true) by reflexivity.
  assert (H5 : forall d, In (Group d) items -> d - chr "1" < size r).
  { intros d [Hd | []]. discriminate Hd. }
  split; [exact (conj H1 (conj H2 (conj H3 (conj H4 H5)))) |].
  exact (proj1 (template_errors spec_match_class subject pattern r items 1
                  H1 H2 H3 H4 H5)).
Defined.
